(** * Backgammon AI: move generation, simulation and evaluation

    A shallow embedding of the AI module of the Backgammon repository
    (the [BackgammonAI] closure: [generateAllMoveSequences],
    [getValidMovesForAI], [simulateMove], the strategic filters, the phase
    detector, the position evaluator with its transposition cache and the
    search controller [getBestMove]), with the properties its specification
    states about it.

    Conventions of the embedding.
    - JavaScript numbers that hold checker counts, point indices and die
      values are integers ([Z]); scores are exact rationals ([Q]) extended
      with the two infinities the source uses as sentinels.
    - The [player] argument of the source is always [1] or [2]; it is the
      enumeration [Player].  The [player] field of a point is [0], [1] or
      [2]: [option Player], with [None] for [0].
    - The board is the 25-slot array of the source (slot 0 unused, points
      1..24).  Reading a slot that does not exist yields [undefined] in the
      source; where the source tests for it ([canMoveToPointForAI]) the model
      does too, elsewhere the model reads the empty point and the theorems
      assume the indices they are given lie on the board. *)

From Stdlib Require Import ZArith QArith List String Ascii Bool Lia.
From Stdlib Require Import DecimalString DecimalZ DecimalPos.
From Stdlib Require Import Permutation Sorted.
From stdpp Require Import base list list_numbers.

Local Open Scope Z_scope.

(** ** Data model *)

Inductive Player : Type := Player1 | Player2.

Global Instance Player_eq_dec : EqDecision Player.
Proof. solve_decision. Defined.

(** [const opponent = player === 1 ? 2 : 1] *)
Definition opponentOf (player : Player) : Player :=
  match player with Player1 => Player2 | Player2 => Player1 end.

(** A board slot [{ player: 0/1/2, count: number }]. *)
Record Point : Type := mkPoint {
  point_player : option Player;
  point_count : Z
}.

Global Instance Point_eq_dec : EqDecision Point.
Proof. solve_decision. Defined.

Definition emptyPoint : Point := mkPoint None 0.

Global Instance Point_inhabited : Inhabited Point := populate emptyPoint.

(** The objects [{ player1: n, player2: m }] used for the bar and the
    bear-off tray. *)
Record Sides : Type := mkSides {
  player1 : Z;
  player2 : Z
}.

(** [obj[`player${player}`]] *)
Definition side (player : Player) (o : Sides) : Z :=
  match player with Player1 => player1 o | Player2 => player2 o end.

(** [obj[`player${player}`] = v] *)
Definition setSide (player : Player) (v : Z) (o : Sides) : Sides :=
  match player with
  | Player1 => mkSides v (player2 o)
  | Player2 => mkSides (player1 o) v
  end.

(** The snapshot handed to the AI by the UI controller. *)
Record GameState : Type := mkGameState {
  board : list Point;
  bar : Sides;
  bearoff : Sides;
  currentPlayer : Player;
  availableMoves : list Z
}.

(** A move source: a point index or the string ["bar"]. *)
Inductive Source : Type := Bar | FromPoint (i : Z).

(** A move destination: a point index or the string ["bearoff"]. *)
Inductive Dest : Type := Bearoff | ToPoint (i : Z).

Global Instance Source_eq_dec : EqDecision Source.
Proof. solve_decision. Defined.

Global Instance Dest_eq_dec : EqDecision Dest.
Proof. solve_decision. Defined.

(** The objects [{ to, die }] returned by the single-move oracle. *)
Record ValidMove : Type := mkValidMove {
  vm_to : Dest;
  vm_die : Z
}.

(** The objects [{ from, to, die }] a sequence is made of. *)
Record Move : Type := mkMove {
  move_from : Source;
  move_to : Dest;
  move_die : Z
}.

Global Instance Move_eq_dec : EqDecision Move.
Proof. solve_decision. Defined.

Definition Sequence : Type := list Move.

(** ** Board access *)

(** [board[i]] for an index the source does not test for [undefined]. *)
Definition pointAt (b : list Point) (i : Z) : Point := b !!! Z.to_nat i.

(** [board[i] = p] *)
Definition setPoint (b : list Point) (i : Z) (p : Point) : list Point :=
  <[Z.to_nat i := p]> b.

(** The bounds of a [for (let i = lo; i <= hi; i++)] loop, in order. *)
Definition rangeUp (lo hi : Z) : list Z := seqZ lo (hi - lo + 1).

(** The bounds of a [for (let i = hi; i >= lo; i--)] loop, in order. *)
Definition rangeDown (hi lo : Z) : list Z := reverse (rangeUp lo hi).

Global Arguments rangeUp : simpl never.
Global Arguments rangeDown : simpl never.

(** The test [board[i].player === player && board[i].count > 0] that the
    source writes out in every loop over a side's checkers. *)
Definition hasCheckers (gameState : GameState) (player : Player) (i : Z) : bool :=
  let p := pointAt (board gameState) i in
  bool_decide (point_player p = Some player) && (0 <? point_count p).

(** ** The single-move oracle *)

Definition canMoveToPointForAI (gameState : GameState) (toPoint : Z)
    (player : Player) : bool :=
  if (toPoint <? 1) || (24 <? toPoint) then false
  else
    match board gameState !! Z.to_nat toPoint with
    | None => false
    | Some pointState =>
        if bool_decide (point_player pointState = None)
           || bool_decide (point_player pointState = Some player)
        then true
        else if bool_decide (point_player pointState <> Some player)
                && (point_count pointState =? 1)
        then true
        else false
    end.

Definition allCheckersInHomeBoardForAI (gameState : GameState)
    (player : Player) : bool :=
  if 0 <? side player (bar gameState) then false
  else
    match player with
    | Player1 => negb (existsb (hasCheckers gameState Player1) (rangeUp 1 18))
    | Player2 => negb (existsb (hasCheckers gameState Player2) (rangeUp 7 24))
    end.

Definition canBearOffForAI (gameState : GameState) (fromPoint dieValue : Z)
    (player : Player) : bool :=
  if negb (allCheckersInHomeBoardForAI gameState player) then false
  else
    let toPoint :=
      match player with
      | Player1 => fromPoint + dieValue
      | Player2 => fromPoint - dieValue
      end in
    if match player with Player1 => toPoint =? 25 | Player2 => toPoint =? 0 end
    then true
    else if match player with Player1 => 25 <? toPoint | Player2 => toPoint <? 0 end
    then
      match player with
      | Player1 =>
          negb (existsb (hasCheckers gameState Player1)
                        (rangeDown (fromPoint - 1) 19))
      | Player2 =>
          negb (existsb (hasCheckers gameState Player2)
                        (rangeUp (fromPoint + 1) 6))
      end
    else false.

Definition getValidMovesForAI (gameState : GameState) (fromPoint : Source)
    (dice : list Z) (player : Player) : list ValidMove :=
  if (0 <? side player (bar gameState)) && negb (bool_decide (fromPoint = Bar))
  then []
  else
    match fromPoint with
    | Bar =>
        if side player (bar gameState) =? 0 then []
        else
          flat_map
            (fun move =>
               let entryPoint :=
                 match player with Player1 => move | Player2 => 25 - move end in
               if canMoveToPointForAI gameState entryPoint player
               then [mkValidMove (ToPoint entryPoint) move]
               else [])
            dice
    | FromPoint fromPoint =>
        let p := pointAt (board gameState) fromPoint in
        if bool_decide (point_player p <> Some player) || (point_count p =? 0)
        then []
        else
          flat_map
            (fun move =>
               let toPoint :=
                 match player with
                 | Player1 => fromPoint + move
                 | Player2 => fromPoint - move
                 end in
               if match player with
                  | Player1 => 25 <=? toPoint
                  | Player2 => toPoint <=? 0
                  end
               then
                 if canBearOffForAI gameState fromPoint move player
                 then [mkValidMove Bearoff move]
                 else []
               else if (1 <=? toPoint) && (toPoint <=? 24)
               then
                 if canMoveToPointForAI gameState toPoint player
                 then [mkValidMove (ToPoint toPoint) move]
                 else []
               else [])
            dice
    end.

(** ** The simulator *)

Definition cloneState (gameState : GameState) : GameState :=
  {| board := map (fun p => mkPoint (point_player p) (point_count p))
                  (board gameState);
     bar := mkSides (player1 (bar gameState)) (player2 (bar gameState));
     bearoff := mkSides (player1 (bearoff gameState))
                        (player2 (bearoff gameState));
     currentPlayer := currentPlayer gameState;
     availableMoves := availableMoves gameState |}.

Definition withBoard (s : GameState) (b : list Point) : GameState :=
  {| board := b; bar := bar s; bearoff := bearoff s;
     currentPlayer := currentPlayer s; availableMoves := availableMoves s |}.

Definition withBar (s : GameState) (o : Sides) : GameState :=
  {| board := board s; bar := o; bearoff := bearoff s;
     currentPlayer := currentPlayer s; availableMoves := availableMoves s |}.

Definition withBearoff (s : GameState) (o : Sides) : GameState :=
  {| board := board s; bar := bar s; bearoff := o;
     currentPlayer := currentPlayer s; availableMoves := availableMoves s |}.

Definition withAvailableMoves (s : GameState) (dice : list Z) : GameState :=
  {| board := board s; bar := bar s; bearoff := bearoff s;
     currentPlayer := currentPlayer s; availableMoves := dice |}.

(** [newState.board[from].count--; if (newState.board[from].count === 0)
    newState.board[from].player = 0] *)
Definition liftChecker (newState : GameState) (from : Z) : GameState :=
  let p := pointAt (board newState) from in
  let c := point_count p - 1 in
  withBoard newState
    (setPoint (board newState) from
       (mkPoint (if c =? 0 then None else point_player p) c)).

(** The landing block, which the source writes out twice (bar entry and
    normal move): a hit sends the occupant to its bar and empties the point,
    then the mover's checker is added or placed. *)
Definition landChecker (newState : GameState) (to : Z) (player : Player)
    : GameState :=
  let p := pointAt (board newState) to in
  let afterHit :=
    if bool_decide (point_player p <> None)
       && bool_decide (point_player p <> Some player)
    then
      let opponent := opponentOf player in
      withBoard
        (withBar newState
           (setSide opponent (side opponent (bar newState) + 1) (bar newState)))
        (setPoint (board newState) to (mkPoint None 0))
    else newState in
  let q := pointAt (board afterHit) to in
  if bool_decide (point_player q = Some player)
  then withBoard afterHit
         (setPoint (board afterHit) to
            (mkPoint (point_player q) (point_count q + 1)))
  else withBoard afterHit
         (setPoint (board afterHit) to (mkPoint (Some player) 1)).

(** The destination of a board-landing branch.  The source indexes the board
    with [to] directly; with [to = "bearoff"] that read is [undefined] and
    the branch raises.  The oracle never pairs the bar with a bear-off, so
    the model leaves the board alone there. *)
Definition simulateMove (gameState : GameState) (from : Source) (to : Dest)
    (die : Z) (player : Player) : GameState :=
  let newState := cloneState gameState in
  match from with
  | Bar =>
      let newState :=
        withBar newState
          (setSide player (side player (bar newState) - 1) (bar newState)) in
      match to with
      | ToPoint to => landChecker newState to player
      | Bearoff => newState
      end
  | FromPoint from =>
      match to with
      | Bearoff =>
          let newState := liftChecker newState from in
          withBearoff newState
            (setSide player (side player (bearoff newState) + 1)
               (bearoff newState))
      | ToPoint to =>
          let newState := liftChecker newState from in
          landChecker newState to player
      end
  end.

(** ** The move-sequence generator *)

(** [const dieIndex = dice.indexOf(die); if (dieIndex !== -1)
    dice.splice(dieIndex, 1)] on a fresh copy of the pool. *)
Fixpoint removeDie (die : Z) (dice : list Z) : list Z :=
  match dice with
  | [] => []
  | d :: rest => if d =? die then rest else d :: removeDie die rest
  end.

(** The [sourcePoints] array of the generator. *)
Definition sourcePoints (gameState : GameState) (player : Player) : list Source :=
  if 0 <? side player (bar gameState) then [Bar]
  else map FromPoint (filter (fun i => hasCheckers gameState player i = true)
                             (rangeUp 1 24)).

(** The recursion of the generator removes one die from the pool at every
    level, so the length of the pool bounds its depth; [fuel] is that
    bound. *)
Fixpoint generateFrom (fuel : nat) (gameState : GameState) (dice : list Z)
    (player : Player) : list Sequence :=
  match dice, fuel with
  | [], _ => [[]]
  | _, O => [[]]
  | _, S fuel =>
      let sequences :=
        flat_map
          (fun source =>
             flat_map
               (fun move =>
                  let newState :=
                    simulateMove gameState source (vm_to move) (vm_die move)
                      player in
                  let newAvailableMoves := removeDie (vm_die move) dice in
                  map (fun seq =>
                         mkMove source (vm_to move) (vm_die move) :: seq)
                      (generateFrom fuel newState newAvailableMoves player))
               (getValidMovesForAI gameState source dice player))
          (sourcePoints gameState player) in
      match sequences with
      | [] => [[]]
      | _ => sequences
      end
  end.

Definition generateAllMoveSequences (gameState : GameState) (dice : list Z)
    (player : Player) : list Sequence :=
  generateFrom (length dice) gameState dice player.

(** The state and pool the generator holds after the moves of [sequence]. *)
Fixpoint replay (gameState : GameState) (dice : list Z) (sequence : Sequence)
    (player : Player) : GameState * list Z :=
  match sequence with
  | [] => (gameState, dice)
  | move :: rest =>
      replay (simulateMove gameState (move_from move) (move_to move)
                (move_die move) player)
             (removeDie (move_die move) dice) rest player
  end.

(** ** Applying a sequence *)

Definition PLAYER1_HOME_START_POINT : Z := 1.
Definition PLAYER1_HOME_END_POINT : Z := 6.
Definition HIGH_PRIORITY_HIT_BONUS : Z := 20000.

Definition isHighPriorityHit (gameState : GameState) (move : Move)
    (player : Player) : bool :=
  if bool_decide (player <> Player2) then false
  else
    match move_to move with
    | Bearoff => false
    | ToPoint to =>
        if (to <? 1) || (24 <? to) then false
        else if (PLAYER1_HOME_START_POINT <=? to)
                && (to <=? PLAYER1_HOME_END_POINT)
        then false
        else
          match board gameState !! Z.to_nat to with
          | None => false
          | Some pointState =>
              bool_decide (point_player pointState = Some Player1)
              && (point_count pointState =? 1)
          end
    end.

(** The result [{ state, hitPriorityScore }]. *)
Record Applied : Type := mkApplied {
  state : GameState;
  hitPriorityScore : Z
}.

(** The body of the loop of [applySequenceAndScore]. *)
Definition applyMove (player : Player) (acc : Applied) (move : Move) : Applied :=
  let currentState := state acc in
  let hitPriorityScore :=
    if isHighPriorityHit currentState move player
    then hitPriorityScore acc + HIGH_PRIORITY_HIT_BONUS
    else hitPriorityScore acc in
  let currentState :=
    simulateMove currentState (move_from move) (move_to move)
      (move_die move) player in
  let newAvailableMoves :=
    removeDie (move_die move) (availableMoves currentState) in
  mkApplied (withAvailableMoves currentState newAvailableMoves)
            hitPriorityScore.

Definition applySequenceAndScore (gameState : GameState) (sequence : Sequence)
    (player : Player) : Applied :=
  fold_left (applyMove player) sequence (mkApplied (cloneState gameState) 0).

(** ** Strategic filters *)

(** [sequence.length === 0] *)
Definition isEmptySequence (sequence : Sequence) : bool :=
  match sequence with [] => true | _ => false end.

Definition hasPlayer2BlotInPlayer1Home (gameState : GameState) : bool :=
  existsb
    (fun point =>
       let pointState := pointAt (board gameState) point in
       bool_decide (point_player pointState = Some Player2)
       && (point_count pointState =? 1))
    (rangeUp PLAYER1_HOME_START_POINT PLAYER1_HOME_END_POINT).

Definition sequenceLeavesPlayer2HomeBoardBlot (gameState : GameState)
    (sequence : Sequence) (player : Player) : bool :=
  if bool_decide (player <> Player2) || isEmptySequence sequence then false
  else
    hasPlayer2BlotInPlayer1Home
      (state (applySequenceAndScore gameState sequence player)).

Definition enforcePlayer2HomeBoardSafety (gameState : GameState)
    (orderedSequences : list Sequence) (player : Player) : list Sequence :=
  if bool_decide (player <> Player2) then orderedSequences
  else
    let safeSequences :=
      List.filter
        (fun sequence =>
           negb (sequenceLeavesPlayer2HomeBoardBlot gameState sequence player))
        orderedSequences in
    if (0 <? length safeSequences)%nat then safeSequences
    else orderedSequences.

Definition sequenceExceedsStackLimit (gameState : GameState)
    (sequence : Sequence) (player : Player) : bool :=
  if bool_decide (player <> Player2) || isEmptySequence sequence then false
  else
    let state := state (applySequenceAndScore gameState sequence player) in
    if bool_decide (point_player (pointAt (board state) 2) = Some Player2)
       && (3 <? point_count (pointAt (board state) 2))
    then true
    else if bool_decide (point_player (pointAt (board state) 1) = Some Player2)
            && (3 <? point_count (pointAt (board state) 1))
    then true
    else false.

Definition enforceStackLimitOnPoints2And1 (gameState : GameState)
    (orderedSequences : list Sequence) (player : Player) : list Sequence :=
  if bool_decide (player <> Player2) then orderedSequences
  else
    let validSequences :=
      List.filter
        (fun sequence =>
           negb (sequenceExceedsStackLimit gameState sequence player))
        orderedSequences in
    if (0 <? length validSequences)%nat then validSequences
    else orderedSequences.

Definition countMadePointsInHomeBoard (gameState : GameState)
    (player : Player) : Z :=
  if bool_decide (player <> Player2) then 0
  else
    fold_left
      (fun madePoints i =>
         if bool_decide (point_player (pointAt (board gameState) i)
                         = Some Player2)
            && (2 <=? point_count (pointAt (board gameState) i))
         then madePoints + 1
         else madePoints)
      (rangeUp 1 6) 0.

Definition sequenceUsesCheckersOutsideHomeBoard (sequence : Sequence)
    (player : Player) : bool :=
  if bool_decide (player <> Player2) || isEmptySequence sequence then false
  else
    existsb
      (fun move =>
         match move_from move with
         | Bar => true
         | FromPoint from => (7 <=? from) && (from <=? 24)
         end)
      sequence.

Definition sequenceExceedsDistributionLimit (gameState : GameState)
    (sequence : Sequence) (player : Player) : bool :=
  if bool_decide (player <> Player2) || isEmptySequence sequence then false
  else
    let state := state (applySequenceAndScore gameState sequence player) in
    existsb
      (fun i =>
         bool_decide (point_player (pointAt (board state) i) = Some Player2)
         && (4 <? point_count (pointAt (board state) i)))
      (rangeUp 1 24).

Definition enforceDistribution (gameState : GameState)
    (orderedSequences : list Sequence) (player : Player) : list Sequence :=
  if bool_decide (player <> Player2) then orderedSequences
  else
    let validSequences :=
      List.filter
        (fun sequence =>
           negb (sequenceExceedsDistributionLimit gameState sequence player))
        orderedSequences in
    if (0 <? length validSequences)%nat then validSequences
    else orderedSequences.

Definition enforcePlayCheckersOutsideHomeBoard (gameState : GameState)
    (orderedSequences : list Sequence) (player : Player) : list Sequence :=
  if bool_decide (player <> Player2) then orderedSequences
  else
    let madePoints := countMadePointsInHomeBoard gameState player in
    if 2 <? madePoints
    then
      let validSequences :=
        List.filter
          (fun sequence => sequenceUsesCheckersOutsideHomeBoard sequence player)
          orderedSequences in
      if (0 <? length validSequences)%nat then validSequences
      else orderedSequences
    else orderedSequences.

(** The filter pipeline as [getBestMove] and [evaluateWithLookahead] nest
    it. *)
Definition applyStrategicFilters (gameState : GameState)
    (orderedSequences : list Sequence) (player : Player) : list Sequence :=
  enforcePlayCheckersOutsideHomeBoard gameState
    (enforceDistribution gameState
       (enforceStackLimitOnPoints2And1 gameState
          (enforcePlayer2HomeBoardSafety gameState orderedSequences player)
          player)
       player)
    player.

(** What it means for a filter [enforce] to honour a constraint whose
    violation is decided by [violates]: it keeps a sublist, drops violating
    sequences only, hands its input back when every candidate violates, and
    never empties a list. *)
Definition honoursConstraint (enforce : list Sequence -> list Sequence)
    (violates : Sequence -> bool) : Prop :=
  forall candidates,
    sublist (enforce candidates) candidates /\
    (forall sequence, In sequence candidates ->
       ~ In sequence (enforce candidates) -> violates sequence = true) /\
    ((forall sequence, In sequence candidates -> violates sequence = true) ->
     enforce candidates = candidates) /\
    (candidates <> [] -> enforce candidates <> []).

(** ** Position features *)

Inductive Phase : Type := RACE | CONTACT | BACKGAME | PRIMING | BLITZ.

Global Instance Phase_eq_dec : EqDecision Phase.
Proof. solve_decision. Defined.

Definition calculatePipCount (gameState : GameState) (player : Player) : Z :=
  let pips :=
    match player with
    | Player1 =>
        fold_left
          (fun pips i =>
             let p := pointAt (board gameState) i in
             if bool_decide (point_player p = Some player)
             then pips + point_count p * (25 - i)
             else pips)
          (rangeUp 1 24) 0
    | Player2 =>
        fold_left
          (fun pips i =>
             let p := pointAt (board gameState) i in
             if bool_decide (point_player p = Some player)
             then pips + point_count p * i
             else pips)
          (rangeUp 1 24) 0
    end in
  pips + side player (bar gameState) * 25.

(** The test [board[i].player === player && board[i].count >= 2]. *)
Definition isMadePoint (gameState : GameState) (player : Player) (i : Z) : bool :=
  let p := pointAt (board gameState) i in
  bool_decide (point_player p = Some player) && (2 <=? point_count p).

(** The four counters of the loop of [evaluatePrimes]. *)
Record PrimeScan : Type := mkPrimeScan {
  maxPrimeLength : Z;
  primeCount : Z;
  currentPrime : Z;
  gaps : Z
}.

(** One iteration of that loop, on the test of its [if]. *)
Definition primeStep (scan : PrimeScan) (made : bool) : PrimeScan :=
  if made
  then
    let currentPrime := currentPrime scan + 1 in
    mkPrimeScan (Z.max (maxPrimeLength scan) currentPrime)
                (if currentPrime =? 1 then primeCount scan + 1
                 else primeCount scan)
                currentPrime (gaps scan)
  else
    mkPrimeScan (maxPrimeLength scan) (primeCount scan) 0
                (if 0 <? currentPrime scan then gaps scan + 1 else gaps scan).

(** The result [{ length, count, score }]. *)
Record Primes : Type := mkPrimes {
  prime_length : Z;
  prime_count : Z;
  prime_score : Z
}.

Definition evaluatePrimes (gameState : GameState) (player : Player) : Primes :=
  let scan :=
    fold_left (fun scan i => primeStep scan (isMadePoint gameState player i))
              (rangeUp 1 24) (mkPrimeScan 0 0 0 0) in
  let primeScore := maxPrimeLength scan * maxPrimeLength scan * 10 in
  let primeScore := primeScore + primeCount scan * 5 in
  let primeScore := primeScore - gaps scan * 2 in
  mkPrimes (maxPrimeLength scan) (primeCount scan) primeScore.

(** The result [{ count, score, positions }]. *)
Record Anchors : Type := mkAnchors {
  anchor_count : Z;
  anchor_score : Z;
  anchor_positions : list Z
}.

Definition evaluateAnchors (gameState : GameState) (player : Player) : Anchors :=
  match player with
  | Player1 =>
      fold_left
        (fun acc i =>
           if isMadePoint gameState player i
           then mkAnchors (anchor_count acc + 1)
                  (anchor_score acc + (7 - i) * 5
                   + point_count (pointAt (board gameState) i) * 2)
                  (anchor_positions acc ++ [i])
           else acc)
        (rangeUp 1 6) (mkAnchors 0 0 [])
  | Player2 =>
      fold_left
        (fun acc i =>
           if isMadePoint gameState player i
           then mkAnchors (anchor_count acc + 1)
                  (anchor_score acc + (i - 18) * 5
                   + point_count (pointAt (board gameState) i) * 2)
                  (anchor_positions acc ++ [i])
           else acc)
        (rangeUp 19 24) (mkAnchors 0 0 [])
  end.

(** The test [board[i].player === player && board[i].count === 1]. *)
Definition isBlot (gameState : GameState) (player : Player) (i : Z) : bool :=
  let p := pointAt (board gameState) i in
  bool_decide (point_player p = Some player) && (point_count p =? 1).

(** The flag [canBeHit] that [evaluateBlotSafety] computes for the blot on
    point [i]: the inner loop over the opponent's points, then the test on
    the opponent's bar. *)
Definition canBeHit (gameState : GameState) (player : Player) (i : Z) : bool :=
  let opponent := opponentOf player in
  let fromBoard :=
    existsb
      (fun j =>
         hasCheckers gameState opponent j
         && (let distance :=
               match player with Player1 => i - j | Player2 => j - i end in
             (0 <? distance) && (distance <=? 6)))
      (rangeUp 1 24) in
  let fromBar :=
    if 0 <? side opponent (bar gameState)
    then
      let entryPoint := match opponent with Player1 => 1 | Player2 => 24 end in
      let distance :=
        match player with
        | Player1 => i - entryPoint
        | Player2 => entryPoint - i
        end in
      (1 <=? distance) && (distance <=? 6)
    else false in
  fromBoard || fromBar.

(** The result [{ count, score }]. *)
Record BlotSafety : Type := mkBlotSafety {
  blot_count : Z;
  blot_score : Z
}.

Definition evaluateBlotSafety (gameState : GameState) (player : Player)
    : BlotSafety :=
  fold_left
    (fun acc i =>
       if isBlot gameState player i
       then
         if canBeHit gameState player i
         then
           mkBlotSafety (blot_count acc + 1)
             (if match player with Player1 => i <=? 6 | Player2 => 19 <=? i end
              then blot_score acc - 30
              else blot_score acc - 15)
         else mkBlotSafety (blot_count acc) (blot_score acc - 5)
       else acc)
    (rangeUp 1 24) (mkBlotSafety 0 0).

Definition isPrimingOrBlitzing (gameState : GameState) (player : Player)
    : Phase :=
  let opponent := opponentOf player in
  let primes := evaluatePrimes gameState player in
  let opponentBlots := evaluateBlotSafety gameState opponent in
  let ownBlots := evaluateBlotSafety gameState player in
  let opponentOnBar := side opponent (bar gameState) in
  let vulnerableBlots := blot_count opponentBlots in
  let ownVulnerableBlots := blot_count ownBlots in
  if (1 <=? opponentOnBar) && (1 <=? prime_count primes)
     && (ownVulnerableBlots <=? 2)
  then BLITZ
  else if (3 <=? prime_length primes) && (2 <=? prime_count primes)
  then PRIMING
  else CONTACT.

Definition detectGamePhase (gameState : GameState) : Phase :=
  let player2Primes := evaluatePrimes gameState Player2 in
  let player1Primes := evaluatePrimes gameState Player1 in
  let player2Anchors := evaluateAnchors gameState Player2 in
  let player1Anchors := evaluateAnchors gameState Player1 in
  let player2BlotSafety := evaluateBlotSafety gameState Player2 in
  let player1BlotSafety := evaluateBlotSafety gameState Player1 in
  let player1InHome := allCheckersInHomeBoardForAI gameState Player1 in
  let player2InHome := allCheckersInHomeBoardForAI gameState Player2 in
  let player1Pips := calculatePipCount gameState Player1 in
  let player2Pips := calculatePipCount gameState Player2 in
  let pipDiff := Z.abs (player1Pips - player2Pips) in
  let isBlitzingByAI :=
    bool_decide (isPrimingOrBlitzing gameState Player2 = BLITZ) in
  if player1InHome && player2InHome then RACE
  else if 30 <? pipDiff then BACKGAME
  else if (1 <=? prime_count player2Primes)
          && (1 <=? prime_count player1Primes)
          && (3 <=? prime_length player2Primes)
          && (3 <=? prime_length player1Primes)
  then PRIMING
  else if isBlitzingByAI then BLITZ
  else CONTACT.

(** ** Phase vocabulary *)

(** The entries [k .. k + n - 1] of a list of tests all hold. *)
Definition allTrue (l : list bool) (k n : nat) : Prop :=
  forall j, (k <= j < k + n)%nat -> l !! j = Some true.

(** The counters of [evaluatePrimes] after a run of tests. *)
Definition scanOf (l : list bool) : PrimeScan :=
  fold_left primeStep l (mkPrimeScan 0 0 0 0).


(** [player] holds [n] consecutive made points somewhere on the board. *)
Definition holdsRun (gameState : GameState) (player : Player) (n : Z) : Prop :=
  exists i, 1 <= i /\ i + n - 1 <= 24 /\
    forall j, i <= j < i + n -> isMadePoint gameState player j = true.

(** The number of indices of [idx] that satisfy [f]. *)
Definition countIf (f : Z -> bool) (idx : list Z) : Z :=
  Z.of_nat (length (List.filter f idx)).

(** ** Vulnerable blots, as the specification words them

    The specification calls a blot vulnerable when some opponent checker
    can reach it "within one die roll (pip distance 1-6, including from the
    opponent's bar)".  The definitions below follow these words, with the
    directions of play of the oracle; they are compared with the counter of
    [evaluateBlotSafety], which the source uses. *)

(** The pips a checker of [mover] travels from position [j] to point [i]:
    Player 1 moves up the board and Player 2 down. *)
Definition pipDistance (mover : Player) (j i : Z) : Z :=
  match mover with Player1 => i - j | Player2 => j - i end.

(** Where a checker on the bar starts from: it enters on point [die]
    (Player 1) or on point [25 - die] (Player 2). *)
Definition barOrigin (mover : Player) : Z :=
  match mover with Player1 => 0 | Player2 => 25 end.

Definition withinOneRoll (distance : Z) : bool :=
  (1 <=? distance) && (distance <=? 6).

(** The blot of [player] on point [i] is within one roll of a checker of
    the opponent, on the board or on the bar. *)
Definition reachableWithinRoll (gameState : GameState) (player : Player)
    (i : Z) : bool :=
  let opponent := opponentOf player in
  existsb
    (fun j =>
       hasCheckers gameState opponent j
       && withinOneRoll (pipDistance opponent j i))
    (rangeUp 1 24)
  || (0 <? side opponent (bar gameState))
     && withinOneRoll (pipDistance opponent (barOrigin opponent) i).

(** The number of vulnerable blots of [player]. *)
Definition vulnerableBlots (gameState : GameState) (player : Player) : Z :=
  countIf
    (fun i => isBlot gameState player i
              && reachableWithinRoll gameState player i)
    (rangeUp 1 24).

(** ** Remaining features of the evaluator *)

(** [a < b] on scores. *)
Definition Qltb (a b : Q) : bool := negb (Qle_bool b a).

Definition calculateRaceCount (gameState : GameState) (player : Player) : Z :=
  let playerPips := calculatePipCount gameState player in
  let opponent := opponentOf player in
  let opponentPips := calculatePipCount gameState opponent in
  opponentPips - playerPips.

(** The counters [occupiedPoints], [gaps], [lastOccupied] of
    [calculateDistribution]. *)
Record DistributionScan : Type := mkDistributionScan {
  ds_occupiedPoints : Z;
  ds_gaps : Z;
  ds_lastOccupied : Z
}.

Definition calculateDistribution (gameState : GameState) (player : Player) : Z :=
  let scan :=
    fold_left
      (fun scan i =>
         if hasCheckers gameState player i
         then
           mkDistributionScan
             (ds_occupiedPoints scan + 1)
             (if negb (ds_lastOccupied scan =? -1)
                 && (1 <? i - ds_lastOccupied scan)
              then ds_gaps scan + (i - ds_lastOccupied scan - 1)
              else ds_gaps scan)
             i
         else scan)
      (rangeUp 1 24) (mkDistributionScan 0 0 (-1)) in
  ds_occupiedPoints scan * 2 - ds_gaps scan.

Definition hasNoContactOnPlayer2Side (gameState : GameState) : bool :=
  if existsb (hasCheckers gameState Player1) (rangeUp 1 12) then false
  else if 0 <? player1 (bar gameState) then false
  else true.

Definition KEY_POINT_PRIORITIES : list (Z * Q) :=
  [(5, 1.0%Q); (20, 0.9%Q); (4, 0.7%Q); (21, 0.65%Q); (7, 0.6%Q);
   (18, 0.55%Q)].
Definition KEY_POINT_STACK_BONUS : Q := 1200.
Definition KEY_POINT_SINGLE_BONUS : Q := 450.
Definition KEY_POINT_OPPONENT_BLOCK_PENALTY : Q := 1400.
Definition KEY_POINT_OPPONENT_BLOT_PENALTY : Q := 700.
Definition NO_CONTACT_HOME_BOARD_BONUS : Q := 5000.
Definition NO_CONTACT_HOME_BOARD_MOVE_BONUS : Q := 2000.
Definition BEAROFF_BONUS : Z := 15000.

Definition evaluateKeyPointControl (gameState : GameState) : Q :=
  fold_left
    (fun (score : Q) (preference : Z * Q) =>
       match board gameState !! Z.to_nat preference.1 with
       | None => score
       | Some pointState =>
           match point_player pointState with
           | Some Player2 =>
               if 2 <=? point_count pointState
               then (score + KEY_POINT_STACK_BONUS * preference.2)%Q
               else if point_count pointState =? 1
               then (score + KEY_POINT_SINGLE_BONUS * preference.2)%Q
               else score
           | Some Player1 =>
               if 2 <=? point_count pointState
               then (score - KEY_POINT_OPPONENT_BLOCK_PENALTY * preference.2)%Q
               else if point_count pointState =? 1
               then (score - KEY_POINT_OPPONENT_BLOT_PENALTY * preference.2)%Q
               else score
           | None => score
           end
       end)
    KEY_POINT_PRIORITIES 0%Q.

(** The counters of the loop of [evaluateHomeBoardStructure]. *)
Record StructureScan : Type := mkStructureScan {
  ss_structureScore : Z;
  ss_madePoints : Z;
  ss_gaps : Z;
  ss_lastPoint : Z
}.

Definition evaluateHomeBoardStructure (gameState : GameState)
    (player : Player) : Z :=
  let step (value : Z -> Z) (scan : StructureScan) (i : Z) : StructureScan :=
    if isMadePoint gameState player i
    then
      mkStructureScan
        (ss_structureScore scan + value i * 3)
        (ss_madePoints scan + 1)
        (if negb (ss_lastPoint scan =? -1) && (1 <? i - ss_lastPoint scan)
         then ss_gaps scan + (i - ss_lastPoint scan - 1)
         else ss_gaps scan)
        i
    else scan in
  let scan :=
    match player with
    | Player1 =>
        fold_left (step (fun i => i - 18)) (rangeUp 19 24)
                  (mkStructureScan 0 0 0 (-1))
    | Player2 =>
        fold_left (step (fun i => 7 - i)) (rangeUp 1 6)
                  (mkStructureScan 0 0 0 (-1))
    end in
  let structureScore := ss_structureScore scan + ss_madePoints scan * 5 in
  structureScore - ss_gaps scan * 3.

(** The counters of the loop of [evaluateCrunching]. *)
Record CrunchScan : Type := mkCrunchScan {
  cs_totalCheckersOnBoard : Z;
  cs_occupiedPoints : Z;
  cs_maxStack : Z;
  cs_homeBoardCheckers : Z;
  cs_highPointCheckers : Z;
  cs_consecutiveFullPoints : Z
}.

Definition evaluateCrunching (gameState : GameState) (player : Player) : Q :=
  let scan :=
    fold_left
      (fun scan i =>
         if hasCheckers gameState player i
         then
           let count := point_count (pointAt (board gameState) i) in
           let inHome :=
             match player with
             | Player1 => (19 <=? i) && (i <=? 24)
             | Player2 => (1 <=? i) && (i <=? 6)
             end in
           let isHigh :=
             match player with Player1 => i <=? 21 | Player2 => 4 <=? i end in
           mkCrunchScan
             (cs_totalCheckersOnBoard scan + count)
             (cs_occupiedPoints scan + 1)
             (Z.max (cs_maxStack scan) count)
             (if inHome then cs_homeBoardCheckers scan + count
              else cs_homeBoardCheckers scan)
             (if inHome && isHigh then cs_highPointCheckers scan + count
              else cs_highPointCheckers scan)
             (if inHome && (4 <=? count)
              then cs_consecutiveFullPoints scan + 1
              else cs_consecutiveFullPoints scan)
         else scan)
      (rangeUp 1 24) (mkCrunchScan 0 0 0 0 0 0) in
  let totalCheckersOnBoard := cs_totalCheckersOnBoard scan in
  let occupiedPoints := cs_occupiedPoints scan in
  let maxStack := cs_maxStack scan in
  let homeBoardCheckers := cs_homeBoardCheckers scan in
  let highPointCheckers := cs_highPointCheckers scan in
  let consecutiveFullPoints := cs_consecutiveFullPoints scan in
  let crunchScore := 0%Q in
  if allCheckersInHomeBoardForAI gameState player
  then
    let averageCheckersPerPoint :=
      (inject_Z homeBoardCheckers / inject_Z (Z.max occupiedPoints 1))%Q in
    let crunchScore :=
      if Qltb 2.0 averageCheckersPerPoint
      then (crunchScore - (averageCheckersPerPoint - 2.0) ^ 2 * 40)%Q
      else crunchScore in
    let crunchScore :=
      if 4 <=? maxStack
      then (crunchScore - inject_Z (maxStack - 3) ^ 2 * 30)%Q
      else crunchScore in
    let crunchScore := (crunchScore - inject_Z highPointCheckers * 8)%Q in
    let crunchScore :=
      if (0 <? homeBoardCheckers) && (occupiedPoints <? 5)
      then
        let concentrationRatio :=
          (inject_Z homeBoardCheckers / inject_Z occupiedPoints)%Q in
        if Qltb 2.5 concentrationRatio
        then (crunchScore - (concentrationRatio - 2.5) ^ 2 * 50)%Q
        else crunchScore
      else crunchScore in
    if 0 <? consecutiveFullPoints
    then (crunchScore - inject_Z consecutiveFullPoints * 25)%Q
    else crunchScore
  else
    let crunchScore :=
      if 5 <=? maxStack
      then (crunchScore - inject_Z (maxStack - 4) ^ 2 * 20)%Q
      else crunchScore in
    if (0 <? totalCheckersOnBoard) && (occupiedPoints <? 7)
    then
      let concentrationRatio :=
        (inject_Z totalCheckersOnBoard / inject_Z occupiedPoints)%Q in
      if Qltb 3.5 concentrationRatio
      then (crunchScore - (concentrationRatio - 3.5) * 15)%Q
      else crunchScore
    else crunchScore.

Definition calculateDynamicPipWeight (gameState : GameState) (baseWeight : Q)
    (phase : Phase) : Q :=
  let player := Player2 in
  let opponent := Player1 in
  let playerPips := calculatePipCount gameState player in
  let opponentPips := calculatePipCount gameState opponent in
  let pipDifference := opponentPips - playerPips in
  let homeCheckers (who : Player) :=
    fold_left
      (fun sum p =>
         sum + (if bool_decide (point_player (pointAt (board gameState) p)
                                = Some who)
                then point_count (pointAt (board gameState) p) else 0))
      (rangeUp 1 7) 0 in
  let playerHomeCheckers :=
    player2 (bearoff gameState) + homeCheckers Player2 in
  let opponentHomeCheckers :=
    player1 (bearoff gameState) + homeCheckers Player1 in
  if 10 <=? opponentHomeCheckers then (baseWeight * 2.5)%Q
  else if 40 <? pipDifference then (baseWeight * 2.0)%Q
  else if (pipDifference <? -50) && negb (bool_decide (phase = RACE))
  then (baseWeight * 0.4)%Q
  else if (pipDifference <? -20) && (-50 <=? pipDifference)
  then (baseWeight * 1.3)%Q
  else if (8 <=? playerHomeCheckers) && (8 <=? opponentHomeCheckers)
  then (baseWeight * 1.8)%Q
  else baseWeight.

(** ** The position hash *)

(** The decimal text of an integer-valued number in a template literal. *)
Definition showZ (z : Z) : string := NilZero.string_of_int (Z.to_int z).

(** The number stored in the [player] field of a point. *)
Definition playerCode (owner : option Player) : Z :=
  match owner with
  | None => 0
  | Some Player1 => 1
  | Some Player2 => 2
  end.

Definition hashPosition (gameState : GameState) : string :=
  let hash :=
    fold_left
      (fun hash i =>
         let p := pointAt (board gameState) i in
         (hash ++ (showZ (playerCode (point_player p)) ++ "-"
                   ++ showZ (point_count p) ++ "-"))%string)
      (rangeUp 1 24) EmptyString in
  let hash :=
    (hash ++ (showZ (player1 (bar gameState)) ++ "-"
              ++ showZ (player2 (bar gameState)) ++ "-"))%string in
  (hash ++ (showZ (player1 (bearoff gameState)) ++ "-"
            ++ showZ (player2 (bearoff gameState))))%string.

(** The numbers the hash prints, in order, but for the last one. *)
Definition hashFields (gameState : GameState) : list Z :=
  flat_map
    (fun i =>
       let p := pointAt (board gameState) i in
       [playerCode (point_player p); point_count p])
    (rangeUp 1 24)
  ++ [player1 (bar gameState); player2 (bar gameState);
      player1 (bearoff gameState)].

(** The numbers [fields], each followed by a dash, before [rest]. *)
Definition joinFields (fields : list Z) (rest : string) : string :=
  foldr (fun z acc => (showZ z ++ "-" ++ acc)%string) rest fields.

(** No dash in a string. *)
Fixpoint noDash (s : string) : bool :=
  match s with
  | EmptyString => true
  | String c rest => negb (Ascii.eqb c "-") && noDash rest
  end.

(** Two snapshots agree on everything the hash prints. *)
Definition sameKey (s1 s2 : GameState) : Prop :=
  (forall i, 1 <= i <= 24 -> pointAt (board s1) i = pointAt (board s2) i) /\
  bar s1 = bar s2 /\ bearoff s1 = bearoff s2.

(** ** The transposition cache *)

Definition CACHE_SIZE : Z := 2000.

(** A JavaScript [Map] from strings to scores: its entries in insertion
    order, keys pairwise distinct. *)
Definition ScoreMap : Type := list (string * Q).

(** [map.get(key)], [undefined] being [None]; [map.has(key)] is whether it
    is [Some]. *)
Fixpoint mapGet (key : string) (entries : ScoreMap) : option Q :=
  match entries with
  | [] => None
  | (k, v) :: rest => if String.eqb k key then Some v else mapGet key rest
  end.

(** [map.set(key, value)]: an existing key keeps its place. *)
Fixpoint mapSet (key : string) (value : Q) (entries : ScoreMap) : ScoreMap :=
  match entries with
  | [] => [(key, value)]
  | (k, v) :: rest =>
      if String.eqb k key then (k, value) :: rest
      else (k, v) :: mapSet key value rest
  end.

(** [map.delete(key)] *)
Fixpoint mapDelete (key : string) (entries : ScoreMap) : ScoreMap :=
  match entries with
  | [] => []
  | (k, v) :: rest =>
      if String.eqb k key then rest else (k, v) :: mapDelete key rest
  end.

(** The module-level variables [positionCache], [cacheHits] and
    [cacheMisses]. *)
Record AIState : Type := mkAIState {
  positionCache : ScoreMap;
  cacheHits : Z;
  cacheMisses : Z
}.

Definition emptyAIState : AIState := mkAIState [] 0 0.

Definition updateCache (hash : string) (score : Q) (st : AIState) : AIState :=
  let cache := positionCache st in
  let cache :=
    if CACHE_SIZE <=? Z.of_nat (length cache)
    then
      match cache with
      | [] => cache
      | (firstKey, _) :: _ => mapDelete firstKey cache
      end
    else cache in
  mkAIState (mapSet hash score cache) (cacheHits st) (cacheMisses st).

(** Computations that read and write the module-level variables. *)
Definition AI (A : Type) : Type := AIState -> A * AIState.

Definition ret {A} (a : A) : AI A := fun st => (a, st).

Definition bind {A B} (m : AI A) (k : A -> AI B) : AI B :=
  fun st => let (a, st') := m st in k a st'.

Declare Scope ai_scope.
Delimit Scope ai_scope with ai.
Notation "x <- m ;; k" := (bind m (fun x => k))
  (at level 100, m at next level, right associativity) : ai_scope.
Local Open Scope ai_scope.

(** ** The position evaluator *)

(** The feature weights of one phase. *)
Record Weights : Type := mkWeights {
  pipWeight : Q;
  bearoffWeight : Q;
  barWeight : Q;
  homeWeight : Q;
  blotWeight : Q;
  primeWeight : Q;
  anchorWeight : Q;
  distributionWeight : Q;
  raceWeight : Q;
  crunchWeight : Q
}.

Definition phaseWeights (gameState : GameState) (phase : Phase) : Weights :=
  match phase with
  | RACE =>
      mkWeights (calculateDynamicPipWeight gameState 0.5 phase)
                100 200 3 10 2 1 10 2 200
  | BACKGAME =>
      mkWeights (calculateDynamicPipWeight gameState 0.2 phase)
                50 150 5 15 15 20 9 0.5 180
  | BLITZ =>
      mkWeights (calculateDynamicPipWeight gameState 0.1 phase)
                40 250 6 35 25 10 8 0.5 150
  | PRIMING =>
      mkWeights (calculateDynamicPipWeight gameState 0.2 phase)
                30 100 5 10 40 25 8 0.3 160
  | CONTACT =>
      mkWeights (calculateDynamicPipWeight gameState 0.3 phase)
                60 120 8 20 12 15 10 1 200
  end.

(** The part of [evaluatePosition] after the cache lookup and the two
    terminal tests: the phase-weighted sum of the features. *)
Definition scoreFeatures (gameState : GameState) : Q :=
  let player := Player2 in
  let opponent := Player1 in
  let phase := detectGamePhase gameState in
  let w := phaseWeights gameState phase in
  let score := 0%Q in
  let playerPips := calculatePipCount gameState player in
  let opponentPips := calculatePipCount gameState opponent in
  let score := (score + inject_Z (opponentPips - playerPips) * pipWeight w)%Q in
  let score :=
    if bool_decide (phase = RACE)
    then (score + inject_Z (calculateRaceCount gameState player)
                  * raceWeight w)%Q
    else score in
  let score :=
    (score + inject_Z (player2 (bearoff gameState)) * bearoffWeight w)%Q in
  let score :=
    (score - inject_Z (player1 (bearoff gameState)) * bearoffWeight w)%Q in
  let score := (score - inject_Z (player2 (bar gameState)) * barWeight w)%Q in
  let score := (score + inject_Z (player1 (bar gameState)) * barWeight w)%Q in
  let playerHomeStructure := evaluateHomeBoardStructure gameState player in
  let opponentHomeStructure := evaluateHomeBoardStructure gameState opponent in
  let score :=
    (score + inject_Z (playerHomeStructure - opponentHomeStructure)
             * homeWeight w)%Q in
  let playerBlotSafety := evaluateBlotSafety gameState player in
  let opponentBlotSafety := evaluateBlotSafety gameState opponent in
  let score :=
    (score + inject_Z (blot_score playerBlotSafety
                       - blot_score opponentBlotSafety) * blotWeight w)%Q in
  let playerPrimes := evaluatePrimes gameState player in
  let opponentPrimes := evaluatePrimes gameState opponent in
  let score :=
    (score + inject_Z (prime_score playerPrimes - prime_score opponentPrimes)
             * primeWeight w)%Q in
  let playerAnchors := evaluateAnchors gameState player in
  let opponentAnchors := evaluateAnchors gameState opponent in
  let score :=
    (score + inject_Z (anchor_score playerAnchors
                       - anchor_score opponentAnchors) * anchorWeight w)%Q in
  let playerDistribution := calculateDistribution gameState player in
  let opponentDistribution := calculateDistribution gameState opponent in
  let score :=
    (score + inject_Z (playerDistribution - opponentDistribution)
             * distributionWeight w)%Q in
  let playerCrunch := evaluateCrunching gameState player in
  let opponentCrunch := evaluateCrunching gameState opponent in
  let score := (score + (playerCrunch - opponentCrunch) * crunchWeight w)%Q in
  let score := (score + evaluateKeyPointControl gameState)%Q in
  if hasNoContactOnPlayer2Side gameState
  then
    let homeBoardCheckers :=
      fold_left
        (fun homeBoardCheckers i =>
           if hasCheckers gameState Player2 i
           then homeBoardCheckers + point_count (pointAt (board gameState) i)
           else homeBoardCheckers)
        (rangeUp 1 6) 0 in
    (score + inject_Z homeBoardCheckers * (NO_CONTACT_HOME_BOARD_BONUS / 15))%Q
  else score.

(** What [evaluatePosition] computes when the cache has no entry for the
    position. *)
Definition scorePosition (gameState : GameState) : Q :=
  if player2 (bearoff gameState) =? 15 then 100000%Q
  else if player1 (bearoff gameState) =? 15 then (-100000)%Q
  else scoreFeatures gameState.

Definition evaluatePosition (gameState : GameState) : AI Q := fun st =>
  let positionHash := hashPosition gameState in
  match mapGet positionHash (positionCache st) with
  | Some cached =>
      (cached,
       mkAIState (positionCache st) (cacheHits st + 1) (cacheMisses st))
  | None =>
      let st :=
        mkAIState (positionCache st) (cacheHits st) (cacheMisses st + 1) in
      if player2 (bearoff gameState) =? 15
      then let score := 100000%Q in (score, updateCache positionHash score st)
      else if player1 (bearoff gameState) =? 15
      then let score := (-100000)%Q in
           (score, updateCache positionHash score st)
      else
        let score := scoreFeatures gameState in
        (score, updateCache positionHash score st)
  end.

(** ** Scores with the two infinities *)

Inductive Score : Type := NegInfinity | Finite (q : Q) | PosInfinity.

(** [a < b] *)
Definition scoreLtb (a b : Score) : bool :=
  match a, b with
  | NegInfinity, NegInfinity => false
  | NegInfinity, _ => true
  | Finite _, NegInfinity => false
  | Finite x, Finite y => Qltb x y
  | Finite _, PosInfinity => true
  | PosInfinity, _ => false
  end.

(** [a <= b] *)
Definition scoreLeb (a b : Score) : bool := negb (scoreLtb b a).

(** [Math.max(a, b)] and [Math.min(a, b)] *)
Definition scoreMax (a b : Score) : Score := if scoreLtb a b then b else a.
Definition scoreMin (a b : Score) : Score := if scoreLtb b a then b else a.

(** [s + q] for a finite [q] *)
Definition addFinite (s : Score) (q : Q) : Score :=
  match s with
  | Finite x => Finite (x + q)%Q
  | _ => s
  end.

(** ** Ordering bonuses *)

Definition calculateBackmostCheckerBonus (sequence : Sequence)
    (player : Player) : Z :=
  if bool_decide (player <> Player2) then 0
  else
    fold_left
      (fun bonus move =>
         match move_from move with
         | FromPoint from =>
             if (18 <=? from) && (from <=? 24)
             then let pointBonus := (from - 17) * 50 in bonus + pointBonus
             else bonus
         | Bar => bonus
         end)
      sequence 0.

Definition calculateNoContactHomeBoardBonus (gameState : GameState)
    (sequence : Sequence) (player : Player) : Q :=
  if bool_decide (player <> Player2) then 0%Q
  else if negb (hasNoContactOnPlayer2Side gameState) then 0%Q
  else
    fold_left
      (fun (bonus : Q) move =>
         match move_to move with
         | ToPoint to =>
             if (1 <=? to) && (to <=? 6)
             then
               match move_from move with
               | FromPoint from =>
                   if 6 <? from
                   then
                     let distanceBonus :=
                       (inject_Z (from - 6) * NO_CONTACT_HOME_BOARD_MOVE_BONUS
                        / 10)%Q in
                     (bonus + (NO_CONTACT_HOME_BOARD_MOVE_BONUS
                               + distanceBonus))%Q
                   else bonus
               | Bar => (bonus + NO_CONTACT_HOME_BOARD_MOVE_BONUS)%Q
               end
             else bonus
         | Bearoff => bonus
         end)
      sequence 0%Q.

Definition calculateBearoffBonus (gameState : GameState) (sequence : Sequence)
    (player : Player) : Z :=
  if bool_decide (player <> Player2) then 0
  else if negb (allCheckersInHomeBoardForAI gameState player) then 0
  else
    let bearoffCount :=
      fold_left
        (fun bearoffCount move =>
           match move_to move with
           | Bearoff => bearoffCount + 1
           | ToPoint _ => bearoffCount
           end)
        sequence 0 in
    bearoffCount * BEAROFF_BONUS.

Definition calculateBlitzBonus (gameState : GameState) (sequence : Sequence)
    (player : Player) : Z :=
  if bool_decide (player <> Player2) then 0
  else
    let phase := detectGamePhase gameState in
    if negb (bool_decide (phase = BLITZ)) then 0
    else
      let resultingState :=
        state (applySequenceAndScore gameState sequence player) in
      let blitzBonus :=
        fold_left
          (fun blitzBonus move =>
             if isHighPriorityHit gameState move player
             then blitzBonus + 5000
             else blitzBonus)
          sequence 0 in
      fold_left
        (fun blitzBonus i =>
           let before := isMadePoint gameState Player2 i in
           let after := isMadePoint resultingState Player2 i in
           if negb before && after then blitzBonus + 3000 else blitzBonus)
        (rangeUp 1 6) blitzBonus.

Definition calculatePrimingBonus (gameState : GameState) (sequence : Sequence)
    (player : Player) : Z :=
  if bool_decide (player <> Player2) then 0
  else
    let phase := detectGamePhase gameState in
    if negb (bool_decide (phase = PRIMING)) then 0
    else
      let resultingState :=
        state (applySequenceAndScore gameState sequence player) in
      let beforePrimes := evaluatePrimes gameState player in
      let afterPrimes := evaluatePrimes resultingState player in
      let primingBonus := 0 in
      let primingBonus :=
        if prime_length beforePrimes <? prime_length afterPrimes
        then primingBonus
             + (prime_length afterPrimes - prime_length beforePrimes) * 5000
        else primingBonus in
      let primingBonus :=
        if prime_count beforePrimes <? prime_count afterPrimes
        then primingBonus
             + (prime_count afterPrimes - prime_count beforePrimes) * 2000
        else primingBonus in
      if 6 <=? prime_length afterPrimes then primingBonus + 10000
      else primingBonus.

(** The sum [base + hitPriorityScore + backmostBonus + noContactHomeBonus
    + bearoffBonus + blitzBonus + primingBonus] that the source writes out
    in [orderMovesByEvaluation] and twice in [getBestMove]. *)
Definition withBonuses (base : Score) (gameState : GameState)
    (sequence : Sequence) (player : Player) (hitPriorityScore : Z) : Score :=
  let backmostBonus := calculateBackmostCheckerBonus sequence player in
  let noContactHomeBonus :=
    calculateNoContactHomeBoardBonus gameState sequence player in
  let bearoffBonus := calculateBearoffBonus gameState sequence player in
  let blitzBonus := calculateBlitzBonus gameState sequence player in
  let primingBonus := calculatePrimingBonus gameState sequence player in
  addFinite
    (addFinite
       (addFinite
          (addFinite
             (addFinite (addFinite base (inject_Z hitPriorityScore))
                        (inject_Z backmostBonus))
             noContactHomeBonus)
          (inject_Z bearoffBonus))
       (inject_Z blitzBonus))
    (inject_Z primingBonus).

(** ** Move ordering *)

(** The objects [{ sequence, score }]. *)
Definition Scored : Type := (Sequence * Score)%type.

(** [Array.prototype.sort] with the comparator [(a, b) => b.score - a.score]:
    a stable sort, descending by score. *)
Fixpoint insertByScore (item : Scored) (sorted : list Scored) : list Scored :=
  match sorted with
  | [] => [item]
  | other :: rest =>
      if scoreLtb item.2 other.2 then other :: insertByScore item rest
      else item :: other :: rest
  end.

Definition sortByScore (items : list Scored) : list Scored :=
  foldr insertByScore [] items.

(** [array.map(f)] for an [f] that uses the cache. *)
Fixpoint mapAI {A B} (f : A -> AI B) (l : list A) : AI (list B) :=
  match l with
  | [] => ret []
  | a :: rest =>
      b <- f a ;;
      bs <- mapAI f rest ;;
      ret (b :: bs)
  end.

Definition orderMovesByEvaluation (sequences : list Sequence)
    (gameState : GameState) (player : Player) : AI (list Sequence) :=
  scoredSequences <-
    mapAI
      (fun sequence =>
         if isEmptySequence sequence then ret (sequence, NegInfinity)
         else
           let applied := applySequenceAndScore gameState sequence player in
           positionScore <- evaluatePosition (state applied) ;;
           ret (sequence,
                withBonuses (Finite positionScore) gameState sequence player
                  (hitPriorityScore applied)))
      sequences ;;
  ret (map fst (sortByScore scoredSequences)).

(** The score [orderMovesByEvaluation] gives a sequence when the evaluator
    computes afresh. *)
Definition shallowScore (gameState : GameState) (player : Player)
    (sequence : Sequence) : Score :=
  if isEmptySequence sequence then NegInfinity
  else
    let applied := applySequenceAndScore gameState sequence player in
    withBonuses (Finite (scorePosition (state applied))) gameState sequence
      player (hitPriorityScore applied).

(** ** The search controller *)

Definition MAX_SEARCH_DEPTH : nat := 3.
Definition MAX_SEQUENCES_TO_SEARCH : Z := 20.

(** [list.length > limit ? list.slice(0, limit) : list] *)
Definition truncateTo (limit : Z) (l : list Sequence) : list Sequence :=
  if limit <? Z.of_nat (length l) then take (Z.to_nat limit) l else l.

(** [moveSequences.length === 0 ||
     (moveSequences.length === 1 && moveSequences[0].length === 0)] *)
Definition noMoveSequences (moveSequences : list Sequence) : bool :=
  match moveSequences with
  | [] => true
  | [[]] => true
  | _ => false
  end.

(** The loop of [evaluateWithLookahead] over the surviving sequences, with
    its running [alpha], [beta] and [bestScore]; [recur] is the recursive
    call at depth - 1. *)
Fixpoint lookaheadLoop
    (recur : GameState -> Player -> Score -> Score -> AI Score)
    (gameState : GameState) (player : Player) (sequences : list Sequence)
    (alpha beta bestScore : Score) : AI Score :=
  match sequences with
  | [] => ret bestScore
  | sequence :: rest =>
      if isEmptySequence sequence
      then lookaheadLoop recur gameState player rest alpha beta bestScore
      else
        let applied := applySequenceAndScore gameState sequence player in
        deep <- recur (state applied) player alpha beta ;;
        let score := addFinite deep (inject_Z (hitPriorityScore applied)) in
        match player with
        | Player2 =>
            let bestScore := scoreMax bestScore score in
            let alpha := scoreMax alpha bestScore in
            if scoreLeb beta alpha then ret bestScore
            else lookaheadLoop recur gameState player rest alpha beta bestScore
        | Player1 =>
            let bestScore := scoreMin bestScore score in
            let beta := scoreMin beta bestScore in
            if scoreLeb beta alpha then ret bestScore
            else lookaheadLoop recur gameState player rest alpha beta bestScore
        end
  end.

Fixpoint evaluateWithLookahead (depth : nat) (gameState : GameState)
    (player : Player) (alpha beta : Score) : AI Score :=
  match depth with
  | O => score <- evaluatePosition gameState ;; ret (Finite score)
  | S depth' =>
      if player2 (bearoff gameState) =? 15 then ret (Finite 100000)
      else if player1 (bearoff gameState) =? 15 then ret (Finite (-100000))
      else if match availableMoves gameState with [] => true | _ => false end
      then score <- evaluatePosition gameState ;; ret (Finite score)
      else
        let moveSequences :=
          generateAllMoveSequences gameState (availableMoves gameState)
            player in
        if noMoveSequences moveSequences
        then score <- evaluatePosition gameState ;; ret (Finite score)
        else
          let seqLimit :=
            if 2 <? Z.of_nat depth then Z.min 15 MAX_SEQUENCES_TO_SEARCH
            else MAX_SEQUENCES_TO_SEARCH in
          let sequencesToSearch := truncateTo seqLimit moveSequences in
          orderedSequences <-
            orderMovesByEvaluation sequencesToSearch gameState player ;;
          let safeSequences :=
            applyStrategicFilters gameState orderedSequences player in
          let bestScore :=
            match player with
            | Player2 => NegInfinity
            | Player1 => PosInfinity
            end in
          lookaheadLoop (evaluateWithLookahead depth') gameState player
            safeSequences alpha beta bestScore
  end.


(** ** The opening book *)

Definition isOpeningPosition (gameState : GameState) : bool :=
  let b := board gameState in
  bool_decide (point_player (pointAt b 24) = Some Player2)
  && (point_count (pointAt b 24) =? 2)
  && bool_decide (point_player (pointAt b 13) = Some Player2)
  && (point_count (pointAt b 13) =? 5)
  && bool_decide (point_player (pointAt b 8) = Some Player2)
  && (point_count (pointAt b 8) =? 3)
  && bool_decide (point_player (pointAt b 6) = Some Player2)
  && (point_count (pointAt b 6) =? 5)
  && (player2 (bar gameState) =? 0)
  && (player2 (bearoff gameState) =? 0).

Definition isPlayer1OpeningPosition (gameState : GameState) : bool :=
  let b := board gameState in
  bool_decide (point_player (pointAt b 1) = Some Player1)
  && (point_count (pointAt b 1) =? 2)
  && bool_decide (point_player (pointAt b 12) = Some Player1)
  && (point_count (pointAt b 12) =? 5)
  && bool_decide (point_player (pointAt b 17) = Some Player1)
  && (point_count (pointAt b 17) =? 3)
  && bool_decide (point_player (pointAt b 19) = Some Player1)
  && (point_count (pointAt b 19) =? 5)
  && (player1 (bar gameState) =? 0)
  && (player1 (bearoff gameState) =? 0).

(** The table [OPENING_MOVES]; the key ["a,b"] of the source is the pair
    [(a, b)]. *)
Definition OPENING_MOVES : list (Z * Z * Sequence) :=
  let mv from to die := mkMove (FromPoint from) (ToPoint to) die in
  [ (1, 2, [mv 24 23 1; mv 13 11 2]);
    (1, 3, [mv 8 5 3; mv 6 5 1]);
    (1, 4, [mv 13 9 4; mv 24 23 1]);
    (1, 5, [mv 13 8 5; mv 24 23 1]);
    (1, 6, [mv 13 7 6; mv 8 7 1]);
    (2, 3, [mv 13 11 2; mv 24 21 3]);
    (2, 4, [mv 8 4 4; mv 6 4 2]);
    (2, 5, [mv 13 8 5; mv 24 22 2]);
    (2, 6, [mv 24 18 6; mv 13 11 2]);
    (3, 4, [mv 24 21 3; mv 13 9 4]);
    (3, 5, [mv 8 3 5; mv 6 3 3]);
    (3, 6, [mv 24 18 6; mv 13 10 3]);
    (4, 5, [mv 24 20 4; mv 13 8 5]);
    (4, 6, [mv 24 18 6; mv 13 9 4]);
    (5, 6, [mv 24 18 6; mv 18 13 5]) ].

Definition getOpeningMove (dice : list Z) : option Sequence :=
  match dice with
  | [a; b] =>
      let sortedDice := (Z.min a b, Z.max a b) in
      match List.find
              (fun entry => (entry.1.1 =? sortedDice.1)
                            && (entry.1.2 =? sortedDice.2))
              OPENING_MOVES with
      | Some entry => Some entry.2
      | None => None
      end
  | _ => None
  end.

(** ** [getBestMove] *)

(** The list [sequencesToEvaluate] of [getBestMove]. *)
Definition sequencesToEvaluate (gameState : GameState) : list Sequence :=
  truncateTo MAX_SEQUENCES_TO_SEARCH
    (generateAllMoveSequences gameState (availableMoves gameState) Player2).

(** The selection loop of [getBestMove], with its running [bestSequence]
    ([None] for [null]) and [bestScore]. *)
Fixpoint selectBest (gameState : GameState) (player : Player)
    (useSearch : bool) (sequences : list Sequence)
    (bestSequence : option Sequence) (bestScore : Score)
    : AI (option Sequence) :=
  match sequences with
  | [] => ret bestSequence
  | sequence :: rest =>
      if isEmptySequence sequence
      then selectBest gameState player useSearch rest bestSequence bestScore
      else
        let applied := applySequenceAndScore gameState sequence player in
        base <-
          (if useSearch
           then evaluateWithLookahead MAX_SEARCH_DEPTH (state applied) player
                  NegInfinity PosInfinity
           else (score <- evaluatePosition (state applied) ;;
                 ret (Finite score))) ;;
        let score :=
          withBonuses base gameState sequence player
            (hitPriorityScore applied) in
        let better := scoreLtb bestScore score in
        let bestScore := if better then score else bestScore in
        let bestSequence := if better then Some sequence else bestSequence in
        if scoreLtb (Finite 50000) score then ret bestSequence
        else selectBest gameState player useSearch rest bestSequence bestScore
  end.

Definition getBestMove (gameState : GameState) : AI Sequence :=
  let player := Player2 in
  let dice := availableMoves gameState in
  match
    (if isOpeningPosition gameState && isPlayer1OpeningPosition gameState
     then getOpeningMove dice else None)
  with
  | Some openingMove => ret openingMove
  | None =>
      let moveSequences := generateAllMoveSequences gameState dice player in
      if noMoveSequences moveSequences then ret []
      else
        let sequencesToEvaluate := sequencesToEvaluate gameState in
        orderedSequences <-
          orderMovesByEvaluation sequencesToEvaluate gameState player ;;
        let safeSequences :=
          applyStrategicFilters gameState orderedSequences player in
        let useSearch :=
          (0 <? MAX_SEARCH_DEPTH)%nat
          && (Z.of_nat (length sequencesToEvaluate) <? 30) in
        bestSequence <-
          selectBest gameState player useSearch safeSequences None
            NegInfinity ;;
        ret (match bestSequence with
             | Some sequence => sequence
             | None => []
             end)
  end.

(** ** Cache contents the evaluator can produce *)

(** Every entry of the cache holds the score the evaluator computes for the
    snapshots that hash to its key. *)
Definition cacheSound (st : AIState) : Prop :=
  forall key value,
    In (key, value) (positionCache st) ->
    exists gameState,
      length (board gameState) = 25%nat /\
      hashPosition gameState = key /\ scorePosition gameState = value.

(** A computation whose result does not depend on the (sound) cache it
    starts from, and which leaves a sound cache. *)
Definition transparent {A} (m : AI A) : Prop :=
  exists a, forall st, cacheSound st -> (m st).1 = a /\ cacheSound (m st).2.

(** [a] is listed before [b] only if its score is no smaller. *)
Definition descending (a b : Scored) : Prop := scoreLeb b.2 a.2 = true.


(** The states of the module-level variables after any number of calls of
    [evaluatePosition] on 25-slot snapshots, from the empty cache. *)
Inductive reachable : AIState -> Prop :=
  | reachable_empty : reachable emptyAIState
  | reachable_evaluate st gameState :
      reachable st -> length (board gameState) = 25%nat ->
      reachable (evaluatePosition gameState st).2.

(** ** The simulator on the JavaScript heap

    The functions above compute on values.  The source computes on objects:
    a snapshot is an object whose [board] is an array of references to
    point objects, and whose [bar], [bearoff] and [availableMoves] are
    references too, so two snapshots can share any of them.  This section
    embeds [cloneState], [simulateMove] and [applySequenceAndScore] once more
    with the objects in a heap, one store per shape of object, an object's
    address being its index in its store.  A [TypeError] is [None]. *)

Module Js.

(** An address: an index into the store of its shape. *)
Abbreviation loc := nat (only parsing).

(** A snapshot object: its fields hold references. *)
Record StateObject : Type := mkStateObject {
  so_board : loc;
  so_bar : loc;
  so_bearoff : loc;
  so_currentPlayer : Player;
  so_availableMoves : loc
}.

Record Heap : Type := mkHeap {
  points : list Point;
  arrays : list (list loc);
  sides : list Sides;
  pools : list (list Z);
  states : list StateObject
}.

(** A computation on the heap that returns or throws. *)
Definition Run (A : Type) : Type := Heap -> option A * Heap.

Definition ret {A} (a : A) : Run A := fun h => (Some a, h).

Definition throw {A} : Run A := fun h => (None, h).

Definition bind {A B} (m : Run A) (k : A -> Run B) : Run B :=
  fun h =>
    match m h with
    | (Some a, h') => k a h'
    | (None, h') => (None, h')
    end.

Declare Scope js_scope.
Delimit Scope js_scope with js.
Notation "x <- m ;; k" := (bind m (fun x => k))
  (at level 100, m at next level, right associativity) : js_scope.
Notation "m ;; k" := (bind m (fun _ => k))
  (at level 100, right associativity) : js_scope.
Local Open Scope js_scope.

(** Reading through a reference; a dangling one throws. *)
Definition fromOption {A} (o : option A) : Run A :=
  match o with Some a => ret a | None => throw end.

Definition readPoint (l : loc) : Run Point := fun h => fromOption (points h !! l) h.
Definition readArray (l : loc) : Run (list loc) := fun h => fromOption (arrays h !! l) h.
Definition readSides (l : loc) : Run Sides := fun h => fromOption (sides h !! l) h.
Definition readPool (l : loc) : Run (list Z) := fun h => fromOption (pools h !! l) h.
Definition readState (l : loc) : Run StateObject := fun h => fromOption (states h !! l) h.

(** Object and array literals allocate. *)
Definition allocPoint (p : Point) : Run loc := fun h =>
  (Some (length (points h)),
   mkHeap (points h ++ [p]) (arrays h) (sides h) (pools h) (states h)).
Definition allocArray (slots : list loc) : Run loc := fun h =>
  (Some (length (arrays h)),
   mkHeap (points h) (arrays h ++ [slots]) (sides h) (pools h) (states h)).
Definition allocSides (o : Sides) : Run loc := fun h =>
  (Some (length (sides h)),
   mkHeap (points h) (arrays h) (sides h ++ [o]) (pools h) (states h)).
Definition allocPool (dice : list Z) : Run loc := fun h =>
  (Some (length (pools h)),
   mkHeap (points h) (arrays h) (sides h) (pools h ++ [dice]) (states h)).
Definition allocState (so : StateObject) : Run loc := fun h =>
  (Some (length (states h)),
   mkHeap (points h) (arrays h) (sides h) (pools h) (states h ++ [so])).

(** Assignments to the fields of an object, or the slots of an array,
    update it in place. *)
Definition writePoint (l : loc) (p : Point) : Run unit := fun h =>
  (Some tt,
   mkHeap (<[l := p]> (points h)) (arrays h) (sides h) (pools h) (states h)).
Definition writeArray (l : loc) (slots : list loc) : Run unit := fun h =>
  (Some tt,
   mkHeap (points h) (<[l := slots]> (arrays h)) (sides h) (pools h) (states h)).
Definition writeSides (l : loc) (o : Sides) : Run unit := fun h =>
  (Some tt,
   mkHeap (points h) (arrays h) (<[l := o]> (sides h)) (pools h) (states h)).
Definition writePool (l : loc) (dice : list Z) : Run unit := fun h =>
  (Some tt,
   mkHeap (points h) (arrays h) (sides h) (<[l := dice]> (pools h)) (states h)).

(** [array.map(f)] *)
Fixpoint mapRun {A B} (f : A -> Run B) (l : list A) : Run (list B) :=
  match l with
  | [] => ret []
  | a :: rest =>
      b <- f a ;;
      bs <- mapRun f rest ;;
      ret (b :: bs)
  end.

(** The reference [board[i]] for a read that goes on to a field of the
    point: [undefined] there throws. *)
Definition slotAt (slots : list loc) (i : Z) : Run loc :=
  if i <? 0 then throw else fromOption (slots !! Z.to_nat i).

Definition cloneState (gameState : loc) : Run loc :=
  so <- readState gameState ;;
  slots <- readArray (so_board so) ;;
  newSlots <- mapRun (fun l => p <- readPoint l ;;
                               allocPoint (mkPoint (point_player p)
                                                   (point_count p)))
                     slots ;;
  newBoard <- allocArray newSlots ;;
  barObject <- readSides (so_bar so) ;;
  newBar <- allocSides (mkSides (player1 barObject) (player2 barObject)) ;;
  bearoffObject <- readSides (so_bearoff so) ;;
  newBearoff <-
    allocSides (mkSides (player1 bearoffObject) (player2 bearoffObject)) ;;
  dice <- readPool (so_availableMoves so) ;;
  newDice <- allocPool dice ;;
  allocState (mkStateObject newBoard newBar newBearoff
                (so_currentPlayer so) newDice).

(** [newState.board[from].count--; if (newState.board[from].count === 0)
    newState.board[from].player = 0] *)
Definition liftChecker (newState : StateObject) (from : Z) : Run unit :=
  slots <- readArray (so_board newState) ;;
  l <- slotAt slots from ;;
  p <- readPoint l ;;
  writePoint l (mkPoint (point_player p) (point_count p - 1)) ;;
  p <- readPoint l ;;
  if point_count p =? 0 then writePoint l (mkPoint None (point_count p))
  else ret tt.

(** The landing block of [simulateMove], first half: an opponent's
    checker on the point goes to its bar and the slot gets a new, empty
    point object. *)
Definition hitOccupant (newState : StateObject) (to : Z) (player : Player)
    : Run unit :=
  slots <- readArray (so_board newState) ;;
  l <- slotAt slots to ;;
  p <- readPoint l ;;
  if bool_decide (point_player p <> None)
     && bool_decide (point_player p <> Some player)
  then
    let opponent := opponentOf player in
    barObject <- readSides (so_bar newState) ;;
    writeSides (so_bar newState)
      (setSide opponent (side opponent barObject + 1) barObject) ;;
    emptied <- allocPoint (mkPoint None 0) ;;
    writeArray (so_board newState) (<[Z.to_nat to := emptied]> slots)
  else ret tt.

(** Second half: the mover's checker joins its own point, or the slot
    gets a new point object that holds it. *)
Definition placeChecker (newState : StateObject) (to : Z) (player : Player)
    : Run unit :=
  slots <- readArray (so_board newState) ;;
  l <- slotAt slots to ;;
  p <- readPoint l ;;
  if bool_decide (point_player p = Some player)
  then writePoint l (mkPoint (point_player p) (point_count p + 1))
  else
    placed <- allocPoint (mkPoint (Some player) 1) ;;
    writeArray (so_board newState) (<[Z.to_nat to := placed]> slots).

Definition landChecker (newState : StateObject) (to : Z) (player : Player)
    : Run unit :=
  hitOccupant newState to player ;;
  placeChecker newState to player.

Definition simulateMove (gameState : loc) (from : Source) (to : Dest)
    (die : Z) (player : Player) : Run loc :=
  newState <- cloneState gameState ;;
  so <- readState newState ;;
  match from with
  | Bar =>
      barObject <- readSides (so_bar so) ;;
      writeSides (so_bar so)
        (setSide player (side player barObject - 1) barObject) ;;
      match to with
      | ToPoint to => landChecker so to player ;; ret newState
      | Bearoff => throw
      end
  | FromPoint from =>
      match to with
      | Bearoff =>
          liftChecker so from ;;
          bearoffObject <- readSides (so_bearoff so) ;;
          writeSides (so_bearoff so)
            (setSide player (side player bearoffObject + 1) bearoffObject) ;;
          ret newState
      | ToPoint to =>
          liftChecker so from ;;
          landChecker so to player ;;
          ret newState
      end
  end.

Definition isHighPriorityHit (gameState : loc) (move : Move)
    (player : Player) : Run bool :=
  if bool_decide (player <> Player2) then ret false
  else
    match move_to move with
    | Bearoff => ret false
    | ToPoint to =>
        if (to <? 1) || (24 <? to) then ret false
        else if (PLAYER1_HOME_START_POINT <=? to)
                && (to <=? PLAYER1_HOME_END_POINT)
        then ret false
        else
          so <- readState gameState ;;
          slots <- readArray (so_board so) ;;
          match slots !! Z.to_nat to with
          | None => ret false
          | Some l =>
              pointState <- readPoint l ;;
              ret (bool_decide (point_player pointState = Some Player1)
                   && (point_count pointState =? 1))
          end
    end.

(** The body of the loop of [applySequenceAndScore]. *)
Definition applyMove (player : Player) (acc : loc * Z) (move : Move)
    : Run (loc * Z) :=
  let currentState := acc.1 in
  hit <- isHighPriorityHit currentState move player ;;
  let hitPriorityScore :=
    if hit then acc.2 + HIGH_PRIORITY_HIT_BONUS else acc.2 in
  currentState <-
    simulateMove currentState (move_from move) (move_to move)
      (move_die move) player ;;
  so <- readState currentState ;;
  dice <- readPool (so_availableMoves so) ;;
  newAvailableMoves <- allocPool dice ;;
  writePool newAvailableMoves (removeDie (move_die move) dice) ;;
  currentState <-
    allocState (mkStateObject (so_board so) (so_bar so) (so_bearoff so)
                  (so_currentPlayer so) newAvailableMoves) ;;
  ret (currentState, hitPriorityScore).

(** [for (let move of sequence) ...] *)
Fixpoint forEachMove (player : Player) (acc : loc * Z) (sequence : Sequence)
    : Run (loc * Z) :=
  match sequence with
  | [] => ret acc
  | move :: rest =>
      acc <- applyMove player acc move ;;
      forEachMove player acc rest
  end.

Definition applySequenceAndScore (gameState : loc) (sequence : Sequence)
    (player : Player) : Run (loc * Z) :=
  currentState <- cloneState gameState ;;
  forEachMove player (currentState, 0) sequence.

(** The snapshot value an object stands for: every reference followed. *)
Definition snapshot (h : Heap) (gameState : loc) : option GameState :=
  match states h !! gameState with
  | None => None
  | Some so =>
      match arrays h !! so_board so, sides h !! so_bar so,
            sides h !! so_bearoff so, pools h !! so_availableMoves so with
      | Some slots, Some barObject, Some bearoffObject, Some dice =>
          match mapM (fun l => points h !! l) slots with
          | Some b =>
              Some (mkGameState b barObject bearoffObject
                      (so_currentPlayer so) dice)
          | None => None
          end
      | _, _, _, _ => None
      end
  end.

(** Every object of [h] is in [h'], at the same address, with the same
    contents. *)
Definition extends (h h' : Heap) : Prop :=
  points h `prefix_of` points h' /\
  arrays h `prefix_of` arrays h' /\
  sides h `prefix_of` sides h' /\
  pools h `prefix_of` pools h' /\
  states h `prefix_of` states h'.

(** The object at [gameState] and every object it refers to were
    allocated after [h]. *)
Definition freshFrom (h h' : Heap) (gameState : loc) : Prop :=
  exists so slots,
    states h' !! gameState = Some so /\
    arrays h' !! so_board so = Some slots /\
    (length (states h) <= gameState)%nat /\
    (length (arrays h) <= so_board so)%nat /\
    (length (sides h) <= so_bar so)%nat /\
    (length (sides h) <= so_bearoff so)%nat /\
    (length (pools h) <= so_availableMoves so)%nat /\
    Forall (fun l => (length (points h) <= l)%nat) slots.

(** The indices at which [simulateMove] reads the board exist. *)
Definition indicesOnBoard (s : GameState) (from : Source) (to : Dest) : Prop :=
  match from with
  | Bar => True
  | FromPoint from => 0 <= from < Z.of_nat (length (board s))
  end /\
  match to with
  | Bearoff => from <> Bar
  | ToPoint to => 0 <= to < Z.of_nat (length (board s))
  end.

Global Instance indicesOnBoard_dec s from to :
  Decision (indicesOnBoard s from to).
Proof. unfold indicesOnBoard. destruct from, to; apply _. Defined.

(** The heap that holds the snapshot [s] and nothing else, its state
    object at address 0. *)
Definition store (s : GameState) : Heap :=
  mkHeap (board s) [seq 0 (length (board s))] [bar s; bearoff s]
    [availableMoves s] [mkStateObject 0 0 1 (currentPlayer s) 0].

(** A computation that allocates no state object and writes to none. *)
Definition keepsStates {A} (m : Run A) : Prop :=
  forall h, states (m h).2 = states h.

(** Every move of a sequence reads the board at indices that exist. *)
Definition sequenceOnBoard (s : GameState) (sequence : Sequence) : Prop :=
  Forall (fun move => indicesOnBoard s (move_from move) (move_to move))
         sequence.

(** The state object [so] stands for the snapshot value [s] in [h], and
    everything it refers to was allocated after [h0]: its board array,
    the (pairwise distinct) point objects in it, its bar and bear-off
    objects and its dice array. *)
Record represents (h0 h : Heap) (so : StateObject) (s : GameState)
    : Prop := {
  rep_extends : extends h0 h;
  rep_slots :
    exists slots,
      arrays h !! so_board so = Some slots /\
      Forall2 (fun l p => points h !! l = Some p) slots (board s) /\
      NoDup slots /\
      Forall (fun l => (length (points h0) <= l)%nat) slots;
  rep_board_fresh : (length (arrays h0) <= so_board so)%nat;
  rep_bar : sides h !! so_bar so = Some (bar s);
  rep_bearoff : sides h !! so_bearoff so = Some (bearoff s);
  rep_sides_distinct : so_bar so <> so_bearoff so;
  rep_bar_fresh : (length (sides h0) <= so_bar so)%nat;
  rep_bearoff_fresh : (length (sides h0) <= so_bearoff so)%nat;
  rep_pool : pools h !! so_availableMoves so = Some (availableMoves s);
  rep_pool_fresh : (length (pools h0) <= so_availableMoves so)%nat;
  rep_player : so_currentPlayer so = currentPlayer s
}.

End Js.

(** ** Invariants of a snapshot *)

(** The checkers a point contributes to [player]'s on-board count. *)
Definition checkersOf (player : Player) (p : Point) : Z :=
  if bool_decide (point_player p = Some player) then point_count p else 0.

(** [Σ f(board[i])] over the indices [idx]. *)
Definition sumPoints (f : Point -> Z) (b : list Point) (idx : list Z) : Z :=
  foldr (fun i acc => f (pointAt b i) + acc) 0 idx.

Definition onBoard (gameState : GameState) (player : Player) : Z :=
  sumPoints (checkersOf player) (board gameState) (rangeUp 1 24).

(** A side's checkers, wherever they are. *)
Definition totalCheckers (gameState : GameState) (player : Player) : Z :=
  onBoard gameState player + side player (bar gameState)
  + side player (bearoff gameState).

(** Checker conservation: [totalCheckers] is 15 for each side. *)
Definition conserved (gameState : GameState) : Prop :=
  forall player, totalCheckers gameState player = 15.

(** The shape of a snapshot: 25 slots, no negative count on a point or on
    the bar. *)
Record wellFormed (gameState : GameState) : Prop := {
  wf_length : length (board gameState) = 25%nat;
  wf_counts : forall i, 1 <= i <= 24 ->
                0 <= point_count (pointAt (board gameState) i);
  wf_bar : forall player, 0 <= side player (bar gameState)
}.

(** [wellFormed] as a test. *)
Definition wellFormedb (gameState : GameState) : bool :=
  (length (board gameState) =? 25)%nat
  && forallb (fun i => 0 <=? point_count (pointAt (board gameState) i))
             (rangeUp 1 24)
  && (0 <=? player1 (bar gameState)) && (0 <=? player2 (bar gameState)).

(** A source the generator can be asked about: the bar or a point 1..24. *)
Definition onBoardSource (source : Source) : Prop :=
  match source with
  | Bar => True
  | FromPoint i => 1 <= i <= 24
  end.

(** ** Bear-off vocabulary *)

(** The six points of a side's home board. *)
Definition inHomeBoard (player : Player) (i : Z) : Prop :=
  match player with
  | Player1 => 19 <= i <= 24
  | Player2 => 1 <= i <= 6
  end.

(** Point [i] is further from [player]'s exit than [source]. *)
Definition furtherFromHome (player : Player) (i source : Z) : Prop :=
  match player with
  | Player1 => i < source
  | Player2 => source < i
  end.

(** Every checker [player] still has in play stands in the home board, and
    none waits on the bar. *)
Definition allHome (gameState : GameState) (player : Player) : Prop :=
  side player (bar gameState) = 0 /\
  forall i, 1 <= i <= 24 -> hasCheckers gameState player i = true ->
    inHomeBoard player i.

(** The die takes a checker from [source] exactly one step past the last
    point. *)
Definition reachesExit (player : Player) (source die : Z) : Prop :=
  match player with
  | Player1 => source + die = 25
  | Player2 => source - die = 0
  end.

(** The die takes a checker from [source] further than the exit. *)
Definition overshootsExit (player : Player) (source die : Z) : Prop :=
  match player with
  | Player1 => 25 < source + die
  | Player2 => source - die < 0
  end.

(** The checkers [player] has on the six points of its home board. *)
Definition homeCheckers (gameState : GameState) (player : Player) : Z :=
  sumPoints (checkersOf player) (board gameState)
    (match player with
     | Player1 => rangeUp 19 24
     | Player2 => rangeUp 1 6
     end).

Global Instance inHomeBoard_dec player i : Decision (inHomeBoard player i).
Proof. destruct player; cbn; apply _. Defined.

(** The sequences of the generator as derivations: a sequence stops where no
    source of the generator has a move left, and otherwise starts with a move
    of the oracle and goes on from the simulated state and the reduced
    pool. *)
Inductive Generated (player : Player) : GameState -> list Z -> Sequence -> Prop :=
  | Generated_stop gameState dice :
      (forall source, In source (sourcePoints gameState player) ->
         getValidMovesForAI gameState source dice player = []) ->
      Generated player gameState dice []
  | Generated_step gameState dice source m rest :
      In source (sourcePoints gameState player) ->
      In m (getValidMovesForAI gameState source dice player) ->
      Generated player
        (simulateMove gameState source (vm_to m) (vm_die m) player)
        (removeDie (vm_die m) dice) rest ->
      Generated player gameState dice
        (mkMove source (vm_to m) (vm_die m) :: rest).

(** The standard starting position. *)
Definition openingBoard : list Point :=
  <[24%nat := mkPoint (Some Player2) 2]>
  (<[13%nat := mkPoint (Some Player2) 5]>
  (<[8%nat := mkPoint (Some Player2) 3]>
  (<[6%nat := mkPoint (Some Player2) 5]>
  (<[19%nat := mkPoint (Some Player1) 5]>
  (<[17%nat := mkPoint (Some Player1) 3]>
  (<[12%nat := mkPoint (Some Player1) 5]>
  (<[1%nat := mkPoint (Some Player1) 2]>
  (replicate 25 emptyPoint)))))))).

Definition openingState (dice : list Z) : GameState :=
  {| board := openingBoard; bar := mkSides 0 0; bearoff := mkSides 0 0;
     currentPlayer := Player2; availableMoves := dice |}.

(** A board from a list of [(point, player, count)] entries. *)
Definition boardOf (entries : list (Z * Player * Z)) : list Point :=
  foldr (fun e b => setPoint b e.1.1 (mkPoint (Some e.1.2) e.2))
        (replicate 25 emptyPoint) entries.

(** Player 2 has one checker left, on point 8, and Player 1 holds points 1
    and 2: with the pool [6; 1] only the 1 can be played. *)
Definition blockedState : GameState :=
  {| board := boardOf [(8, Player2, 1); (1, Player1, 2); (2, Player1, 2);
                       (19, Player1, 11)];
     bar := mkSides 0 0; bearoff := mkSides 0 14;
     currentPlayer := Player2; availableMoves := [6; 1] |}.

(** Player 2 has a checker on the bar and the pool [3; 5]; Player 1 holds
    the entry point of the 3 (point 22) but not that of the 5 (point 20). *)
Definition barState : GameState :=
  {| board := boardOf [(6, Player2, 14); (22, Player1, 2); (19, Player1, 13)];
     bar := mkSides 0 1; bearoff := mkSides 0 0;
     currentPlayer := Player2; availableMoves := [3; 5] |}.

(** Player 2 is bearing off with checkers on points 1 to 3 only. *)
Definition bearoffState : GameState :=
  {| board := boardOf [(1, Player2, 2); (2, Player2, 2); (3, Player2, 1);
                       (19, Player1, 15)];
     bar := mkSides 0 0; bearoff := mkSides 0 10;
     currentPlayer := Player2; availableMoves := [6] |}.

(** Player 2 has a blot on point 3, inside its own home board, with
    Player 1 checkers on both sides of it (points 1 and 5). *)
Definition blotHomeState : GameState :=
  {| board := boardOf [(3, Player2, 1); (6, Player2, 14); (1, Player1, 2);
                       (5, Player1, 2); (19, Player1, 11)];
     bar := mkSides 0 0; bearoff := mkSides 0 0;
     currentPlayer := Player2; availableMoves := [] |}.

(** Player 2 has a blot on point 21, inside Player 1's home board, with
    Player 1 checkers on both sides of it (points 19 and 23). *)
Definition blotAwayState : GameState :=
  {| board := boardOf [(21, Player2, 1); (6, Player2, 14); (19, Player1, 2);
                       (23, Player1, 2); (12, Player1, 11)];
     bar := mkSides 0 0; bearoff := mkSides 0 0;
     currentPlayer := Player2; availableMoves := [] |}.

(** Player 2 has a blot on point 3 and Player 1 a checker on the bar, which
    enters on points 1 to 6. *)
Definition blotBarState : GameState :=
  {| board := boardOf [(3, Player2, 1); (6, Player2, 14); (19, Player1, 14)];
     bar := mkSides 1 0; bearoff := mkSides 0 0;
     currentPlayer := Player1; availableMoves := [3] |}.

(** Player 2 has blots on points 1, 2 and 3 and a made point on 6;
    Player 1 has a checker on the bar, which enters on points 1 to 6, and
    the rest on point 20. *)
Definition blitzBlotsState : GameState :=
  {| board := boardOf [(1, Player2, 1); (2, Player2, 1); (3, Player2, 1);
                       (6, Player2, 12); (20, Player1, 14)];
     bar := mkSides 1 0; bearoff := mkSides 0 0;
     currentPlayer := Player1; availableMoves := [] |}.

(** Player 2 on roll with [3; 1] against a spread-out Player 1 whose blot
    on point 20 can only be hit by the checker that starts on point 24. *)
Definition hitLateState : GameState :=
  {| board := boardOf [(24, Player2, 2); (13, Player2, 5); (8, Player2, 3);
                       (6, Player2, 5); (1, Player1, 2); (12, Player1, 5);
                       (17, Player1, 3); (19, Player1, 4); (20, Player1, 1)];
     bar := mkSides 0 0; bearoff := mkSides 0 0;
     currentPlayer := Player2; availableMoves := [3; 1] |}.

(** ** Vocabulary for the properties of the simulator and the generator *)

(** A snapshot as the game engine keeps it: 25 slots, a point has an owner
    exactly when it holds checkers, and no count is negative. *)
Record consistent (gameState : GameState) : Prop := {
  cs_length : length (board gameState) = 25%nat;
  cs_points : forall i, 1 <= i <= 24 ->
    (point_player (pointAt (board gameState) i) = None /\
     point_count (pointAt (board gameState) i) = 0) \/
    (point_player (pointAt (board gameState) i) <> None /\
     1 <= point_count (pointAt (board gameState) i));
  cs_bar : forall player, 0 <= side player (bar gameState);
  cs_bearoff : forall player, 0 <= side player (bearoff gameState)
}.

(** [consistent] as a test. *)
Definition consistentb (gameState : GameState) : bool :=
  (length (board gameState) =? 25)%nat
  && forallb
       (fun i =>
          let p := pointAt (board gameState) i in
          match point_player p with
          | None => point_count p =? 0
          | Some _ => 1 <=? point_count p
          end)
       (rangeUp 1 24)
  && (0 <=? player1 (bar gameState)) && (0 <=? player2 (bar gameState))
  && (0 <=? player1 (bearoff gameState))
  && (0 <=? player2 (bearoff gameState)).

Global Instance ValidMove_eq_dec : EqDecision ValidMove.
Proof. solve_decision. Defined.

(** The pips a checker on point [i] still has to travel to leave the board. *)
Definition distanceToExit (player : Player) (i : Z) : Z :=
  match player with
  | Player1 => 25 - i
  | Player2 => i
  end.

(** The sources the oracle can be asked about: the bar and the 24 points. *)
Definition allSources : list Source := Bar :: map FromPoint (rangeUp 1 24).

(** No die of the pool can be played from anywhere. *)
Definition stuck (gameState : GameState) (dice : list Z) (player : Player)
    : bool :=
  forallb
    (fun source =>
       match getValidMovesForAI gameState source dice player with
       | [] => true
       | _ => false
       end)
    allSources.

(** Every move of [sequence] is one the oracle offers in the state the moves
    before it lead to, for a die still in the pool. *)
Fixpoint legalSequence (gameState : GameState) (dice : list Z)
    (sequence : Sequence) (player : Player) : bool :=
  match sequence with
  | [] => true
  | move :: rest =>
      bool_decide (move_from move ∈ allSources)
      && bool_decide
           (mkValidMove (move_to move) (move_die move)
            ∈ getValidMovesForAI gameState (move_from move) dice player)
      && legalSequence
           (simulateMove gameState (move_from move) (move_to move)
              (move_die move) player)
           (removeDie (move_die move) dice) rest player
  end.


(** Two snapshots show the same position: they may differ in whose turn it is
    and in the dice pool they carry. *)
Definition samePosition (s1 s2 : GameState) : Prop :=
  board s1 = board s2 /\ bar s1 = bar s2 /\ bearoff s1 = bearoff s2.


(** The cache holds at most [CACHE_SIZE] entries, under pairwise distinct
    keys. *)
Definition cacheWithin (st : AIState) : Prop :=
  Z.of_nat (length (positionCache st)) <= CACHE_SIZE /\
  NoDup (map fst (positionCache st)).

(** A computation that keeps a property of the module-level variables. *)
Definition keeps {A} (P : AIState -> Prop) (m : AI A) : Prop :=
  forall st, P st -> P (m st).2.


Definition isContactGame (gameState : GameState) : bool :=
  let player1Home := allCheckersInHomeBoardForAI gameState Player1 in
  let player2Home := allCheckersInHomeBoardForAI gameState Player2 in
  negb player1Home || negb player2Home.


(** ** The game engine

    [BackgammonGame] of game.js keeps one mutable [state] object; its
    functions are embedded as functions from state to state, with the value
    they return.  The five fields of [state] that the controller copies into
    the snapshot it hands to the AI ([board], [bar], [bearoff],
    [currentPlayer], [availableMoves]) are kept together as the
    [GameState] [position]. *)

Module Game.

Inductive TurnPhase : Type := OPENING_ROLL | ROLL | MOVE | GAME_OVER.

Global Instance TurnPhase_eq_dec : EqDecision TurnPhase.
Proof. solve_decision. Defined.

(** The objects [{ player, from, to, die, notation }] of [moveHistory]. *)
Record HistoryEntry : Type := mkHistoryEntry {
  entry_player : Player;
  entry_from : Source;
  entry_to : Dest;
  entry_die : Z;
  entry_notation : string
}.

(** The objects [{ board, bar, bearoff, availableMoves, currentPlayer,
    phase }] that [saveStateForUndo] pushes. *)
Record Saved : Type := mkSaved {
  saved_position : GameState;
  saved_phase : TurnPhase
}.

Record State : Type := mkState {
  position : GameState;
  dice : list Z;
  phase : TurnPhase;
  moveHistory : list HistoryEntry;
  selectedPoint : option Source;
  gameHistory : list Saved;
  openingRoll : option Z * option Z;
  stagedMove : option Source * option Dest
}.

Definition withPosition (s : State) (p : GameState) : State :=
  mkState p (dice s) (phase s) (moveHistory s) (selectedPoint s)
    (gameHistory s) (openingRoll s) (stagedMove s).

Definition withPhase (s : State) (ph : TurnPhase) : State :=
  mkState (position s) (dice s) ph (moveHistory s) (selectedPoint s)
    (gameHistory s) (openingRoll s) (stagedMove s).

(** What the functions return: [{ success: false, message }] or
    [{ success: true }], with [gameOver: true, winner] when a move ends the
    game. *)
Inductive Outcome : Type :=
  | Failure (message : string)
  | Success (winner : option Player).

(** What [rollDice] returns. *)
Inductive RollOutcome : Type :=
  | RollRefused (message : string)
  | OpeningTied (player1Roll player2Roll : Z)
  | OpeningRolled (player1Roll player2Roll : Z) (starter : Player)
      (noMoves : bool)
  | Rolled (die1 die2 : Z) (noMoves : bool).

Definition initializeGame : State :=
  {| position :=
       {| board := openingBoard; bar := mkSides 0 0; bearoff := mkSides 0 0;
          currentPlayer := Player1; availableMoves := [] |};
     dice := [];
     phase := OPENING_ROLL;
     moveHistory := [];
     selectedPoint := None;
     gameHistory := [];
     openingRoll := (None, None);
     stagedMove := (None, None) |}.

Definition saveStateForUndo (s : State) : State :=
  mkState (position s) (dice s) (phase s) (moveHistory s) (selectedPoint s)
    (gameHistory s ++ [mkSaved (position s) (phase s)])
    (openingRoll s) (stagedMove s).

Definition canMoveToPoint (s : State) (toPoint : Z) (player : Player) : bool :=
  if (toPoint <? 1) || (24 <? toPoint) then false
  else
    match board (position s) !! Z.to_nat toPoint with
    | None => false
    | Some pointState =>
        if bool_decide (point_player pointState = None)
           || bool_decide (point_player pointState = Some player)
        then true
        else if bool_decide (point_player pointState <> Some player)
                && (point_count pointState =? 1)
        then true
        else false
    end.

Definition allCheckersInHomeBoard (s : State) (player : Player) : bool :=
  if 0 <? side player (bar (position s)) then false
  else
    match player with
    | Player1 =>
        negb (existsb (hasCheckers (position s) Player1) (rangeUp 1 18))
    | Player2 =>
        negb (existsb (hasCheckers (position s) Player2) (rangeUp 7 24))
    end.

Definition canBearOff (s : State) (fromPoint dieValue : Z) : bool :=
  let player := currentPlayer (position s) in
  if negb (allCheckersInHomeBoard s player) then false
  else
    let toPoint :=
      match player with
      | Player1 => fromPoint + dieValue
      | Player2 => fromPoint - dieValue
      end in
    if match player with Player1 => toPoint =? 25 | Player2 => toPoint =? 0 end
    then true
    else if match player with Player1 => 25 <? toPoint | Player2 => toPoint <? 0 end
    then
      match player with
      | Player1 =>
          negb (existsb (hasCheckers (position s) Player1)
                        (rangeDown (fromPoint - 1) 19))
      | Player2 =>
          negb (existsb (hasCheckers (position s) Player2)
                        (rangeUp (fromPoint + 1) 6))
      end
    else false.

Definition getValidMovesFromPoint (s : State) (fromPoint : Source)
    : list ValidMove :=
  let player := currentPlayer (position s) in
  if (0 <? side player (bar (position s)))
     && negb (bool_decide (fromPoint = Bar))
  then []
  else
    match fromPoint with
    | Bar =>
        if side player (bar (position s)) =? 0 then []
        else
          flat_map
            (fun move =>
               let entryPoint :=
                 match player with Player1 => move | Player2 => 25 - move end in
               if canMoveToPoint s entryPoint player
               then [mkValidMove (ToPoint entryPoint) move]
               else [])
            (availableMoves (position s))
    | FromPoint fromPoint =>
        let p := pointAt (board (position s)) fromPoint in
        if bool_decide (point_player p <> Some player) || (point_count p =? 0)
        then []
        else
          flat_map
            (fun move =>
               let toPoint :=
                 match player with
                 | Player1 => fromPoint + move
                 | Player2 => fromPoint - move
                 end in
               if match player with
                  | Player1 => 25 <=? toPoint
                  | Player2 => toPoint <=? 0
                  end
               then
                 if canBearOff s fromPoint move
                 then [mkValidMove Bearoff move]
                 else []
               else if (1 <=? toPoint) && (toPoint <=? 24)
               then
                 if canMoveToPoint s toPoint player
                 then [mkValidMove (ToPoint toPoint) move]
                 else []
               else [])
            (availableMoves (position s))
    end.

(** [[...new Set(values)]]: the values in the order of their first
    occurrence. *)
Definition uniqueValues (values : list Z) : list Z :=
  fold_left
    (fun seen value => if bool_decide (value ∈ seen) then seen
                       else seen ++ [value])
    values [].

Definition hasAnyValidMoves (s : State) : bool :=
  let player := currentPlayer (position s) in
  if 0 <? side player (bar (position s))
  then
    let uniqueMoves := uniqueValues (availableMoves (position s)) in
    existsb
      (fun move =>
         let entryPoint :=
           match player with Player1 => move | Player2 => 25 - move end in
         canMoveToPoint s entryPoint player)
      uniqueMoves
  else
    existsb
      (fun point =>
         hasCheckers (position s) player point
         && (0 <? length (getValidMovesFromPoint s (FromPoint point)))%nat)
      (rangeUp 1 24).

Definition clearStagedMove (s : State) : State :=
  mkState (position s) (dice s) (phase s) (moveHistory s) (selectedPoint s)
    (gameHistory s) (openingRoll s) (None, None).

Definition switchPlayer (s : State) : State :=
  let p := position s in
  clearStagedMove
    (mkState
       {| board := board p; bar := bar p; bearoff := bearoff p;
          currentPlayer := opponentOf (currentPlayer p);
          availableMoves := [] |}
       [] ROLL (moveHistory s) None [] (openingRoll s) (stagedMove s)).

(** The rolls [r1] and [r2] are the two values
    [Math.floor(Math.random() * 6) + 1] in the order the source draws
    them. *)
Definition rollDice (r1 r2 : Z) (s : State) : State * RollOutcome :=
  if bool_decide (phase s = OPENING_ROLL)
  then
    let player1Roll := r1 in
    let player2Roll := r2 in
    let s :=
      mkState (position s) (dice s) (phase s) (moveHistory s)
        (selectedPoint s) (gameHistory s)
        (Some player1Roll, Some player2Roll) (stagedMove s) in
    if player1Roll =? player2Roll
    then (s, OpeningTied player1Roll player2Roll)
    else
      let starter := if player2Roll <? player1Roll then Player1 else Player2 in
      let p := position s in
      let s :=
        mkState
          {| board := board p; bar := bar p; bearoff := bearoff p;
             currentPlayer := starter;
             availableMoves := [player1Roll; player2Roll] |}
          [player1Roll; player2Roll] MOVE (moveHistory s) (selectedPoint s)
          (gameHistory s) (openingRoll s) (stagedMove s) in
      let s := saveStateForUndo s in
      if negb (hasAnyValidMoves s)
      then
        let s := switchPlayer s in
        (s, OpeningRolled player1Roll player2Roll
              (opponentOf (currentPlayer (position s))) true)
      else
        (s, OpeningRolled player1Roll player2Roll
              (currentPlayer (position s)) false)
  else if negb (bool_decide (phase s = ROLL))
  then (s, RollRefused "Cannot roll dice now")
  else
    let die1 := r1 in
    let die2 := r2 in
    let pool :=
      if die1 =? die2 then [die1; die1; die1; die1] else [die1; die2] in
    let p := position s in
    let s :=
      mkState
        {| board := board p; bar := bar p; bearoff := bearoff p;
           currentPlayer := currentPlayer p; availableMoves := pool |}
        pool MOVE (moveHistory s) (selectedPoint s) (gameHistory s)
        (openingRoll s) (stagedMove s) in
    let s := saveStateForUndo s in
    if negb (hasAnyValidMoves s)
    then (switchPlayer s, Rolled die1 die2 true)
    else (s, Rolled die1 die2 false).

Definition stageMove (from : Source) (to : Dest) (s : State)
    : State * Outcome :=
  let validMoves := getValidMovesFromPoint s from in
  match List.find (fun m => bool_decide (vm_to m = to)) validMoves with
  | None => (s, Failure "Invalid move")
  | Some validMove =>
      (mkState (position s) (dice s) (phase s) (moveHistory s)
         (selectedPoint s) (gameHistory s) (openingRoll s)
         (Some from, Some to),
       Success None)
  end.

Definition formatMoveNotation (from : Source) (to : Dest) (die : Z) : string :=
  let fromStr :=
    match from with Bar => "Bar"%string | FromPoint i => showZ i end in
  let toStr :=
    match to with Bearoff => "Off"%string | ToPoint i => showZ i end in
  (fromStr ++ "→" ++ toStr ++ " (" ++ showZ die ++ ")")%string.

(** The three branches of [executeMove] that move the checker.  game.js
    writes out the blocks [liftChecker] and [landChecker] stand for, on
    [state] itself.  The oracle offers no bear-off from the bar, so the
    branch for the bar is never entered with [to = "bearoff"]; the model
    leaves the board alone there. *)
Definition moveChecker (p : GameState) (from : Source) (to : Dest)
    (player : Player) : GameState :=
  match from with
  | Bar =>
      let p := withBar p (setSide player (side player (bar p) - 1) (bar p)) in
      match to with
      | ToPoint to => landChecker p to player
      | Bearoff => p
      end
  | FromPoint from =>
      match to with
      | Bearoff =>
          let p := liftChecker p from in
          withBearoff p
            (setSide player (side player (bearoff p) + 1) (bearoff p))
      | ToPoint to =>
          let p := liftChecker p from in
          landChecker p to player
      end
  end.

Definition executeMove (from : Source) (to : Dest) (s : State)
    : State * Outcome :=
  let player := currentPlayer (position s) in
  let validMoves := getValidMovesFromPoint s from in
  match List.find (fun m => bool_decide (vm_to m = to)) validMoves with
  | None => (s, Failure "Invalid move")
  | Some validMove =>
      let dieUsed := vm_die validMove in
      let s := saveStateForUndo s in
      let p := moveChecker (position s) from to player in
      let p := withAvailableMoves p (removeDie dieUsed (availableMoves p)) in
      let moveNotation := formatMoveNotation from to dieUsed in
      let s :=
        mkState p (dice s) (phase s)
          (moveHistory s
           ++ [mkHistoryEntry player from to dieUsed moveNotation])
          (selectedPoint s) (gameHistory s) (openingRoll s) (stagedMove s) in
      if side player (bearoff (position s)) =? 15
      then (withPhase s GAME_OVER, Success (Some player))
      else (s, Success None)
  end.

Definition confirmMove (s : State) : State * Outcome :=
  match stagedMove s with
  | (Some from, Some to) =>
      let (s, result) := executeMove from to s in
      match result with
      | Success _ => (clearStagedMove s, result)
      | Failure _ => (s, result)
      end
  | _ => (s, Failure "No move to confirm")
  end.

Definition endTurn (s : State) : State * Outcome :=
  (switchPlayer s, Success None).

Definition undoMove (s : State) : State * Outcome :=
  match gameHistory s with
  | [] => (s, Failure "No moves to undo")
  | first :: others =>
      let previousState := List.last others first in
      (mkState (saved_position previousState) (dice s)
         (saved_phase previousState) (removelast (moveHistory s)) None
         (removelast (gameHistory s)) (openingRoll s) (stagedMove s),
       Success None)
  end.

Definition selectPoint (point : Source) (s : State) : State :=
  mkState (position s) (dice s) (phase s) (moveHistory s) (Some point)
    (gameHistory s) (openingRoll s) (stagedMove s).

Definition deselectPoint (s : State) : State :=
  mkState (position s) (dice s) (phase s) (moveHistory s) None
    (gameHistory s) (openingRoll s) (stagedMove s).

(** The calls of the engine's interface: a game is any sequence of them. *)
Inductive Call : Type :=
  | CallInitializeGame
  | CallRollDice (r1 r2 : Z)
  | CallExecuteMove (from : Source) (to : Dest)
  | CallStageMove (from : Source) (to : Dest)
  | CallConfirmMove
  | CallClearStagedMove
  | CallUndoMove
  | CallSelectPoint (point : Source)
  | CallDeselectPoint
  | CallEndTurn.

Definition call (c : Call) (s : State) : State :=
  match c with
  | CallInitializeGame => initializeGame
  | CallRollDice r1 r2 => (rollDice r1 r2 s).1
  | CallExecuteMove from to => (executeMove from to s).1
  | CallStageMove from to => (stageMove from to s).1
  | CallConfirmMove => (confirmMove s).1
  | CallClearStagedMove => clearStagedMove s
  | CallUndoMove => (undoMove s).1
  | CallSelectPoint point => selectPoint point s
  | CallDeselectPoint => deselectPoint s
  | CallEndTurn => (endTurn s).1
  end.

(** The state after the calls [calls], in order, from a new game. *)
Definition play (calls : list Call) : State :=
  fold_left (fun s c => call c s) calls initializeGame.

End Game.


(** ** The controller

    The part of [BackgammonUI] (ui.js) that stands between the engine and the
    AI, without its rendering and its timers. *)

Module UI.

(** The snapshot [executeAIMoves] builds for [BackgammonAI.getBestMove]:
    copies of the five fields of the engine's state. *)
Definition snapshot (s : Game.State) : GameState :=
  let state := Game.position s in
  {| board := map (fun p => mkPoint (point_player p) (point_count p))
                  (board state);
     bar := mkSides (player1 (bar state)) (player2 (bar state));
     bearoff := mkSides (player1 (bearoff state)) (player2 (bearoff state));
     availableMoves := availableMoves state;
     currentPlayer := currentPlayer state |}.

(** How the loop [executeNextMove] of [executeAIMoves] ends: every move of
    the sequence was executed, a move ended the game, or the engine refused
    a move. *)
Inductive Played : Type :=
  | AllPlayed
  | GameEnded (winner : Player)
  | MoveRejected.

(** The loop [executeNextMove], up to the point where it hands over to the
    end of the turn. *)
Fixpoint executeNextMove (moveSequence : Sequence) (s : Game.State)
    : Game.State * Played :=
  match moveSequence with
  | [] => (s, AllPlayed)
  | move :: rest =>
      let (s, result) :=
        Game.executeMove (move_from move) (move_to move) s in
      match result with
      | Game.Success None => executeNextMove rest s
      | Game.Success (Some winner) => (s, GameEnded winner)
      | Game.Failure _ => (s, MoveRejected)
      end
  end.

Definition hasAnyValidMovesUI (s : Game.State) : bool :=
  let state := Game.position s in
  let player := currentPlayer state in
  if 0 <? side player (bar state)
  then
    let uniqueMoves := Game.uniqueValues (availableMoves state) in
    existsb
      (fun move =>
         let validMoves := Game.getValidMovesFromPoint s Bar in
         (0 <? length validMoves)%nat)
      uniqueMoves
  else
    existsb
      (fun point =>
         hasCheckers state player point
         && (0 <? length (Game.getValidMovesFromPoint s (FromPoint point)))%nat)
      (rangeUp 1 24).

End UI.


(** ** Invariants of the engine *)

(** A position with fifteen checkers a side, owners and counts in step. *)
Definition soundPosition (p : GameState) : Prop :=
  conserved p /\ consistent p.

(** The position of the engine is sound, and so is every position saved for
    undoing; a staged move starts on the board. *)
Definition engineSound (s : Game.State) : Prop :=
  soundPosition (Game.position s) /\
  Forall (fun saved => soundPosition (Game.saved_position saved))
         (Game.gameHistory s) /\
  match Game.stagedMove s with
  | (Some from, _) => onBoardSource from
  | _ => True
  end.

(** A call whose source, if it has one, is the bar or a point of the board:
    for another source the engine raises. *)
Definition callOnBoard (c : Game.Call) : Prop :=
  match c with
  | Game.CallExecuteMove from _ => onBoardSource from
  | Game.CallStageMove from _ => onBoardSource from
  | _ => True
  end.

(** * Verification *)

Lemma cloneState_id gameState : cloneState gameState = gameState.
Proof.
  destruct gameState as [b [b1 b2] [o1 o2] c a]. unfold cloneState. simpl.
  f_equal. induction b as [|[pl ct] b IH]; simpl; [reflexivity|]. by rewrite IH.
Qed.

Lemma elem_of_rangeUp lo hi k : k ∈ rangeUp lo hi <-> lo <= k <= hi.
Proof. unfold rangeUp. rewrite elem_of_seqZ. lia. Qed.

Lemma In_rangeUp lo hi i : In i (rangeUp lo hi) -> lo <= i <= hi.
Proof. intros H. by apply list_elem_of_In, elem_of_rangeUp in H. Qed.

Lemma NoDup_rangeUp lo hi : NoDup (rangeUp lo hi).
Proof. apply NoDup_seqZ. Qed.

Lemma sumPoints_setPoint_notin f b idx i p :
  0 <= i -> (forall j, j ∈ idx -> 0 <= j) -> i ∉ idx ->
  sumPoints f (setPoint b i p) idx = sumPoints f b idx.
Proof.
  intros Hi. induction idx as [|j idx IH]; intros Hpos Hnot; [reflexivity|].
  simpl. rewrite IH.
  - f_equal. unfold pointAt, setPoint. rewrite list_lookup_total_insert_ne; [done|].
    intros E. assert (0 <= j) by (apply Hpos; left).
    apply Hnot. replace i with j by lia. left.
  - intros k Hk. apply Hpos. by right.
  - intros Hk. apply Hnot. by right.
Qed.

Lemma sumPoints_setPoint_in f b idx i p :
  0 <= i -> (Z.to_nat i < length b)%nat ->
  (forall j, j ∈ idx -> 0 <= j) -> NoDup idx -> i ∈ idx ->
  sumPoints f (setPoint b i p) idx = sumPoints f b idx - f (pointAt b i) + f p.
Proof.
  intros Hi Hlen. induction idx as [|j idx IH]; intros Hpos Hnd Hin.
  - by apply elem_of_nil in Hin.
  - apply NoDup_cons in Hnd as [Hj Hnd]. simpl.
    destruct (decide (i = j)) as [->|Hne].
    + rewrite sumPoints_setPoint_notin; [|done| |done].
      * unfold pointAt at 1, setPoint. rewrite list_lookup_total_insert_eq; [|done].
        fold (pointAt b j). lia.
      * intros k Hk. apply Hpos. by right.
    + rewrite IH; [| |done|].
      * unfold pointAt at 1, setPoint. rewrite list_lookup_total_insert_ne.
        -- fold (pointAt b j). lia.
        -- assert (0 <= j) by (apply Hpos; left). lia.
      * intros k Hk. apply Hpos. by right.
      * apply elem_of_cons in Hin as [?|?]; [done|done].
Qed.

Lemma onBoard_setPoint gameState i p player :
  length (board gameState) = 25%nat -> 1 <= i <= 24 ->
  onBoard (withBoard gameState (setPoint (board gameState) i p)) player
  = onBoard gameState player
    - checkersOf player (pointAt (board gameState) i) + checkersOf player p.
Proof.
  intros Hlen Hi. unfold onBoard, withBoard. cbn [board].
  apply sumPoints_setPoint_in; [lia|lia| |apply NoDup_rangeUp|].
  - intros j Hj. apply elem_of_rangeUp in Hj. lia.
  - apply elem_of_rangeUp. lia.
Qed.


Lemma length_setPoint b i p : length (setPoint b i p) = length b.
Proof. apply length_insert. Qed.

Lemma pointAt_setPoint_eq b i p :
  0 <= i -> (Z.to_nat i < length b)%nat -> pointAt (setPoint b i p) i = p.
Proof. intros. by apply list_lookup_total_insert_eq. Qed.

Lemma pointAt_setPoint_ne b i j p :
  0 <= i -> 0 <= j -> i <> j -> pointAt (setPoint b i p) j = pointAt b j.
Proof. intros. apply list_lookup_total_insert_ne. lia. Qed.

Lemma pointAt_lookup b i p : b !! Z.to_nat i = Some p -> pointAt b i = p.
Proof. intros H. unfold pointAt. by apply list_lookup_total_correct. Qed.

Lemma lookup_pointAt b i :
  (Z.to_nat i < length b)%nat -> b !! Z.to_nat i = Some (pointAt b i).
Proof.
  intros H. apply lookup_lt_is_Some_2 in H as [p Hp].
  by rewrite (pointAt_lookup _ _ _ Hp).
Qed.

Lemma canMoveToPointForAI_spec gameState toPoint player :
  length (board gameState) = 25%nat ->
  canMoveToPointForAI gameState toPoint player = true <->
  1 <= toPoint <= 24 /\
  (point_player (pointAt (board gameState) toPoint) = None \/
   point_player (pointAt (board gameState) toPoint) = Some player \/
   point_count (pointAt (board gameState) toPoint) = 1).
Proof.
  intros Hlen. unfold canMoveToPointForAI.
  destruct (Z.ltb_spec toPoint 1); [simpl; split; [done|lia]|].
  destruct (Z.ltb_spec 24 toPoint); [simpl; split; [done|lia]|]. simpl.
  rewrite lookup_pointAt by lia.
  destruct (pointAt (board gameState) toPoint) as [[own|] cnt];
    cbn [point_player point_count].
  - destruct (decide (own = player)) as [->|Hne].
    + rewrite (bool_decide_true (Some player = Some player)) by done.
      rewrite orb_true_r. split; [intros _; split; [lia|tauto]|done].
    + rewrite !bool_decide_false by congruence. cbn [orb].
      rewrite bool_decide_true by congruence. cbn [andb].
      destruct (Z.eqb_spec cnt 1); split; try done.
      * intros _. split; [lia|tauto].
      * intros [_ [?|[?|?]]]; congruence.
  - rewrite bool_decide_true by done. cbn [orb].
    split; [intros _; split; [lia|tauto]|done].
Qed.

Lemma liftChecker_length gameState from :
  length (board (liftChecker gameState from)) = length (board gameState).
Proof. apply length_setPoint. Qed.

Lemma landChecker_length gameState to player :
  length (board (landChecker gameState to player)) = length (board gameState).
Proof.
  unfold landChecker.
  repeat (case_bool_decide || simpl || rewrite length_setPoint); done.
Qed.

Lemma sumPoints_board_set f b i p :
  length b = 25%nat -> 1 <= i <= 24 ->
  sumPoints f (setPoint b i p) (rangeUp 1 24)
  = sumPoints f b (rangeUp 1 24) - f (pointAt b i) + f p.
Proof.
  intros Hlen Hi.
  apply sumPoints_setPoint_in; [lia|lia| |apply NoDup_rangeUp|].
  - intros j Hj. apply elem_of_rangeUp in Hj. lia.
  - apply elem_of_rangeUp. lia.
Qed.

Ltac split_players :=
  repeat case_bool_decide; repeat case_decide; simplify_eq; try lia.

Lemma total_liftChecker gameState from player q :
  length (board gameState) = 25%nat -> 1 <= from <= 24 ->
  point_player (pointAt (board gameState) from) = Some player ->
  totalCheckers (liftChecker gameState from) q
  = totalCheckers gameState q - (if decide (q = player) then 1 else 0).
Proof.
  intros Hlen Hfrom Hown. unfold totalCheckers, onBoard, liftChecker, withBoard.
  cbn [board bar bearoff]. rewrite sumPoints_board_set by done.
  unfold checkersOf. cbn [point_player point_count]. rewrite Hown.
  destruct (Z.eqb_spec (point_count (pointAt (board gameState) from) - 1) 0);
    split_players.
Qed.

Lemma total_landChecker gameState to player q :
  length (board gameState) = 25%nat ->
  canMoveToPointForAI gameState to player = true ->
  totalCheckers (landChecker gameState to player) q
  = totalCheckers gameState q + (if decide (q = player) then 1 else 0).
Proof.
  intros Hlen Hcan. apply canMoveToPointForAI_spec in Hcan as [Hto Hpt]; [|done].
  unfold totalCheckers, onBoard, landChecker.
  destruct (pointAt (board gameState) to) as [own cnt] eqn:Hp.
  cbn [point_player point_count] in *.
  destruct own as [own|]; cbn [point_player].
  - destruct (decide (own = player)) as [->|Hne].
    + rewrite (bool_decide_false (Some player <> Some player)) by tauto.
      rewrite andb_false_r. rewrite Hp. cbn [point_player point_count].
      rewrite bool_decide_true by done. unfold withBoard. cbn [board bar bearoff].
      rewrite sumPoints_board_set by done. rewrite Hp.
      unfold checkersOf. cbn [point_player point_count]. split_players.
    + rewrite (bool_decide_true (Some own <> None)) by congruence.
      rewrite (bool_decide_true (Some own <> Some player)) by congruence.
      cbn [andb]. unfold withBoard, withBar. cbn [board bar bearoff].
      rewrite pointAt_setPoint_eq by lia.
      cbn [point_player]. rewrite bool_decide_false by done.
      cbn [board bar bearoff].
      assert (cnt = 1) as -> by (destruct Hpt as [?|[?|?]]; congruence).
      rewrite sumPoints_board_set; [|by rewrite length_setPoint|done].
      rewrite sumPoints_board_set by done.
      rewrite pointAt_setPoint_eq by lia. rewrite Hp.
      unfold checkersOf. cbn [point_player point_count].
      destruct gameState as [b [b1 b2] [o1 o2] c a]; cbn in *.
      destruct player, own, q; try done; cbn; split_players.
  - rewrite (bool_decide_false (None <> None)) by tauto. cbn [andb].
    rewrite Hp. cbn [point_player]. rewrite bool_decide_false by done.
    unfold withBoard. cbn [board bar bearoff].
    rewrite sumPoints_board_set by done. rewrite Hp.
    unfold checkersOf. cbn [point_player point_count]. split_players.
Qed.

(** What the oracle guarantees about a move it returns. *)
Lemma validMove_die gameState source dice player m :
  In m (getValidMovesForAI gameState source dice player) -> In (vm_die m) dice.
Proof.
  unfold getValidMovesForAI. intros H.
  destruct (_ && _); [done|].
  destruct source.
  - destruct (_ =? _); [done|].
    apply in_flat_map in H as (d & Hd & H).
    destruct (canMoveToPointForAI _ _ _); [|done].
    destruct H as [<-|[]]. done.
  - destruct (_ || _); [done|].
    apply in_flat_map in H as (d & Hd & H).
    repeat (match type of H with context [if ?c then _ else _] => destruct c end);
      try done; destruct H as [<-|[]]; done.
Qed.

Lemma validMove_bar gameState dice player m :
  In m (getValidMovesForAI gameState Bar dice player) ->
  side player (bar gameState) <> 0 /\
  exists entryPoint, vm_to m = ToPoint entryPoint /\
    entryPoint = match player with
                 | Player1 => vm_die m | Player2 => 25 - vm_die m end /\
    canMoveToPointForAI gameState entryPoint player = true.
Proof.
  unfold getValidMovesForAI. rewrite bool_decide_true by done.
  rewrite andb_false_r. intros H.
  destruct (Z.eqb_spec (side player (bar gameState)) 0); [done|]. split; [done|].
  apply in_flat_map in H as (d & Hd & H).
  destruct (canMoveToPointForAI _ _ _) eqn:E; [|done].
  destruct H as [<-|[]]. eexists. cbn. done.
Qed.

Lemma validMove_point gameState fromPoint dice player m :
  In m (getValidMovesForAI gameState (FromPoint fromPoint) dice player) ->
  side player (bar gameState) <= 0 /\
  point_player (pointAt (board gameState) fromPoint) = Some player /\
  point_count (pointAt (board gameState) fromPoint) <> 0 /\
  ((vm_to m = Bearoff /\
    canBearOffForAI gameState fromPoint (vm_die m) player = true /\
    match player with
    | Player1 => 25 <= fromPoint + vm_die m
    | Player2 => fromPoint - vm_die m <= 0
    end) \/
   (exists toPoint, vm_to m = ToPoint toPoint /\
      toPoint = match player with
                | Player1 => fromPoint + vm_die m
                | Player2 => fromPoint - vm_die m
                end /\
      canMoveToPointForAI gameState toPoint player = true)).
Proof.
  unfold getValidMovesForAI. rewrite bool_decide_false by done.
  rewrite andb_true_r. intros H.
  destruct (Z.ltb_spec 0 (side player (bar gameState))); [done|]. split; [done|].
  case_bool_decide as Hown; [done|]. cbn [orb] in H.
  destruct (Z.eqb_spec (point_count (pointAt (board gameState) fromPoint)) 0);
    [done|].
  split; [by destruct (decide (point_player (pointAt (board gameState) fromPoint)
                               = Some player)); [|tauto]|].
  split; [done|].
  apply in_flat_map in H as (d & Hd & H).
  destruct player.
  - destruct (Z.leb_spec 25 (fromPoint + d)).
    + destruct (canBearOffForAI _ _ _ _) eqn:E; [|done].
      destruct H as [<-|[]]. left. cbn. done.
    + destruct (_ && _); [|done].
      destruct (canMoveToPointForAI _ _ _) eqn:E; [|done].
      destruct H as [<-|[]]. right. eexists. cbn. done.
  - destruct (Z.leb_spec (fromPoint - d) 0).
    + destruct (canBearOffForAI _ _ _ _) eqn:E; [|done].
      destruct H as [<-|[]]. left. cbn. done.
    + destruct (_ && _); [|done].
      destruct (canMoveToPointForAI _ _ _) eqn:E; [|done].
      destruct H as [<-|[]]. right. eexists. cbn. done.
Qed.

Lemma canMoveToPointForAI_board s1 s2 toPoint player :
  board s1 = board s2 ->
  canMoveToPointForAI s1 toPoint player = canMoveToPointForAI s2 toPoint player.
Proof. intros E. unfold canMoveToPointForAI. by rewrite E. Qed.

Lemma simulateMove_total gameState source dice player m q :
  length (board gameState) = 25%nat -> onBoardSource source ->
  In m (getValidMovesForAI gameState source dice player) ->
  totalCheckers (simulateMove gameState source (vm_to m) (vm_die m) player) q
  = totalCheckers gameState q.
Proof.
  intros Hlen Hsrc Hm. unfold simulateMove. rewrite cloneState_id.
  destruct source as [|fromPoint].
  - apply validMove_bar in Hm as (_ & e & -> & _ & Hcan).
    rewrite total_landChecker; [| done |].
    + unfold totalCheckers, onBoard, withBar. cbn [board bar bearoff].
      destruct gameState as [b [b1 b2] [o1 o2] c a]; cbn.
      destruct player, q; cbn; split_players.
    + by rewrite (canMoveToPointForAI_board _ gameState).
  - cbn in Hsrc.
    apply validMove_point in Hm as (_ & Hown & _ & [(-> & _)|(t & -> & _ & Hcan)]).
    + pose proof (total_liftChecker gameState fromPoint player q Hlen Hsrc Hown) as E.
      unfold totalCheckers, withBearoff in *. cbn [board bar bearoff] in *.
      change (bar (liftChecker gameState fromPoint)) with (bar gameState) in *.
      change (bearoff (liftChecker gameState fromPoint)) with (bearoff gameState) in *.
      unfold onBoard in *. cbn [board].
      destruct gameState as [b [b1 b2] [o1 o2] c a]; cbn in *.
      destruct player, q; cbn in *; split_players.
    + rewrite total_landChecker.
      * rewrite (total_liftChecker _ _ player) by done. split_players.
      * by rewrite liftChecker_length.
      * apply canMoveToPointForAI_spec in Hcan as [Ht Hpt]; [|done].
        apply canMoveToPointForAI_spec; [by rewrite liftChecker_length|].
        split; [done|]. unfold liftChecker, withBoard. cbn [board].
        destruct (decide (fromPoint = t)) as [->|Hne].
        -- rewrite pointAt_setPoint_eq by lia. cbn [point_player point_count].
           rewrite Hown. destruct (_ =? _); tauto.
        -- rewrite pointAt_setPoint_ne by lia. done.
Qed.

Lemma liftChecker_pointAt gameState from i :
  length (board gameState) = 25%nat -> 1 <= from <= 24 -> 1 <= i <= 24 ->
  pointAt (board (liftChecker gameState from)) i
  = if decide (i = from)
    then let c := point_count (pointAt (board gameState) from) - 1 in
         mkPoint (if c =? 0 then None
                  else point_player (pointAt (board gameState) from)) c
    else pointAt (board gameState) i.
Proof.
  intros Hlen Hf Hi. unfold liftChecker, withBoard. cbn [board].
  case_decide as E.
  - subst. by rewrite pointAt_setPoint_eq by lia.
  - by rewrite pointAt_setPoint_ne by lia.
Qed.

Lemma landChecker_count gameState to player i :
  length (board gameState) = 25%nat -> 1 <= to <= 24 -> 1 <= i <= 24 ->
  0 <= point_count (pointAt (board gameState) i) ->
  0 <= point_count (pointAt (board (landChecker gameState to player)) i).
Proof.
  intros Hlen Ht Hi Hc. unfold landChecker.
  destruct (decide (i = to)) as [->|Hne].
  - destruct (_ && _); cbn [board withBoard withBar].
    + rewrite pointAt_setPoint_eq by lia. cbn [point_player].
      rewrite bool_decide_false by done. cbn [board withBoard].
      rewrite pointAt_setPoint_eq; [cbn; lia|lia|rewrite length_setPoint; lia].
    + case_bool_decide; cbn [board withBoard];
        rewrite pointAt_setPoint_eq by lia; cbn; lia.
  - destruct (_ && _); cbn [board withBoard withBar].
    + rewrite pointAt_setPoint_eq by lia. cbn [point_player].
      rewrite bool_decide_false by done. cbn [board withBoard].
      rewrite !pointAt_setPoint_ne by lia. done.
    + case_bool_decide; cbn [board withBoard];
        rewrite pointAt_setPoint_ne by lia; done.
Qed.

Lemma landChecker_bar gameState to player q :
  side q (bar gameState) <= side q (bar (landChecker gameState to player)).
Proof.
  unfold landChecker.
  destruct (_ && _); cbn [bar board withBoard withBar];
    case_bool_decide; cbn [bar withBoard];
    destruct gameState as [b [b1 b2] [o1 o2] c a]; cbn;
    destruct player, q; cbn; lia.
Qed.

Lemma simulateMove_wellFormed gameState source dice player m :
  wellFormed gameState -> onBoardSource source ->
  In m (getValidMovesForAI gameState source dice player) ->
  wellFormed (simulateMove gameState source (vm_to m) (vm_die m) player).
Proof.
  intros [Hlen Hcnt Hbar] Hsrc Hm. unfold simulateMove. rewrite cloneState_id.
  destruct source as [|fromPoint].
  - apply validMove_bar in Hm as (Hne & e & -> & _ & Hcan).
    apply canMoveToPointForAI_spec in Hcan as [He _]; [|done].
    split.
    + by rewrite landChecker_length.
    + intros i Hi. apply landChecker_count; try done. by apply Hcnt.
    + intros q. etrans; [|apply landChecker_bar].
      unfold withBar. cbn [bar].
      pose proof (Hbar player). pose proof (Hbar q).
      destruct gameState as [b [b1 b2] [o1 o2] c a]; cbn in *.
      destruct player, q; cbn in *; lia.
  - cbn in Hsrc.
    apply validMove_point in Hm as (_ & Hown & Hnz & [(-> & _)|(t & -> & _ & Hcan)]).
    + split.
      * cbn [board withBearoff]. by rewrite liftChecker_length.
      * intros i Hi. cbn [board withBearoff].
        rewrite liftChecker_pointAt by done.
        case_decide; [subst; cbn; specialize (Hcnt fromPoint Hsrc); lia|].
        by apply Hcnt.
      * intros q. apply Hbar.
    + apply canMoveToPointForAI_spec in Hcan as [Ht _]; [|done].
      split.
      * by rewrite landChecker_length, liftChecker_length.
      * intros i Hi. apply landChecker_count; try done.
        -- by rewrite liftChecker_length.
        -- rewrite liftChecker_pointAt by done.
           case_decide; [subst; cbn; specialize (Hcnt fromPoint Hsrc); lia|].
           by apply Hcnt.
      * intros q. etrans; [|apply landChecker_bar]. apply Hbar.
Qed.

(** ** The generator as a derivation *)

Lemma length_removeDie die dice :
  In die dice -> length (removeDie die dice) = Nat.pred (length dice).
Proof.
  induction dice as [|d dice IH]; [done|]. intros H. simpl.
  destruct (Z.eqb_spec d die) as [->|Hne]; [done|].
  destruct H as [?|H]; [done|]. simpl. rewrite IH by done.
  destruct dice; [done|]. reflexivity.
Qed.

Lemma generateFrom_nonempty fuel gameState dice player :
  generateFrom fuel gameState dice player <> [].
Proof.
  destruct fuel, dice; simpl; try done.
  match goal with |- context [match ?l with [] => _ | _ => _ end] =>
    destruct l eqn:E end; done.
Qed.

Lemma sourcePoints_onBoard gameState player source :
  In source (sourcePoints gameState player) -> onBoardSource source.
Proof.
  unfold sourcePoints. destruct (_ <? _).
  - intros [<-|[]]. exact I.
  - intros H. apply in_map_iff in H as (i & <- & Hi).
    apply list_elem_of_In, list_elem_of_filter in Hi as [_ Hi].
    apply elem_of_rangeUp in Hi. exact Hi.
Qed.

Lemma getValidMovesForAI_no_dice gameState source player :
  getValidMovesForAI gameState source [] player = [].
Proof.
  unfold getValidMovesForAI.
  destruct (_ && _); [done|]. destruct source.
  - by destruct (_ =? _).
  - by destruct (_ || _).
Qed.

Lemma generateFrom_Generated fuel : forall gameState dice player seq,
  length dice = fuel ->
  In seq (generateFrom fuel gameState dice player) ->
  Generated player gameState dice seq.
Proof.
  induction fuel as [|fuel IH]; intros gameState dice player seq Hlen Hin.
  - destruct dice; [|done]. destruct Hin as [<-|[]].
    constructor. intros. apply getValidMovesForAI_no_dice.
  - destruct dice as [|d dice]; [done|].
    cbn [generateFrom] in Hin.
    match type of Hin with context [match ?l with [] => _ | _ => _ end] =>
      set (sequences := l) in * end.
    assert (Hcase : (sequences = [] /\ seq = []) \/ In seq sequences).
    { destruct sequences; [left; destruct Hin as [<-|[]]; done | by right]. }
    clear Hin. destruct Hcase as [[Hnil ->]|Hin].
    + constructor. intros source Hsrc.
      destruct (getValidMovesForAI gameState source (d :: dice) player)
        as [|m ms] eqn:Hm; [done|]. exfalso.
      pose proof (generateFrom_nonempty fuel
        (simulateMove gameState source (vm_to m) (vm_die m) player)
        (removeDie (vm_die m) (d :: dice)) player) as Hne.
      destruct (generateFrom fuel _ _ player) as [|r rs] eqn:Hr; [done|].
      assert (In (mkMove source (vm_to m) (vm_die m) :: r) sequences) as Habs.
      { apply in_flat_map. exists source. split; [done|].
        apply in_flat_map. exists m. split; [rewrite Hm; by left|].
        cbv zeta. rewrite Hr. by left. }
      by rewrite Hnil in Habs.
    + apply in_flat_map in Hin as (source & Hsrc & Hin).
      apply in_flat_map in Hin as (m & Hm & Hin).
      apply in_map_iff in Hin as (rest & <- & Hrest).
      apply Generated_step; [done|done|].
      apply IH; [|done].
      rewrite length_removeDie by (eapply validMove_die; eauto).
      simpl in Hlen. simpl. lia.
Qed.

Lemma Generated_generateFrom player gameState dice seq :
  Generated player gameState dice seq ->
  In seq (generateFrom (length dice) gameState dice player).
Proof.
  induction 1 as [gameState dice Hnone | gameState dice source m rest Hsrc Hm _ IH].
  - destruct dice as [|d dice]; [by left|]. cbn [length generateFrom].
    match goal with |- context [match ?l with [] => _ | _ => _ end] =>
      destruct l as [|s ss] eqn:E end; [by left|]. exfalso.
    assert (In s (s :: ss)) as Hin by (by left). rewrite <- E in Hin.
    apply in_flat_map in Hin as (source & Hsrc & Hin).
    rewrite (Hnone _ Hsrc) in Hin. done.
  - pose proof (validMove_die _ _ _ _ _ Hm) as Hdie.
    destruct dice as [|d dice]; [done|]. cbn [length generateFrom].
    rewrite length_removeDie in IH by done. cbn [length Nat.pred] in IH.
    match goal with |- context [match ?l with [] => _ | _ => _ end] =>
      set (sequences := l) end.
    assert (In (mkMove source (vm_to m) (vm_die m) :: rest) sequences) as Hin.
    { apply in_flat_map. exists source. split; [done|].
      apply in_flat_map. exists m. split; [done|].
      apply in_map. done. }
    destruct sequences; [done|done].
Qed.

Lemma generateAllMoveSequences_Generated gameState dice player seq :
  In seq (generateAllMoveSequences gameState dice player) <->
  Generated player gameState dice seq.
Proof.
  split.
  - by apply generateFrom_Generated.
  - apply Generated_generateFrom.
Qed.

(** The generator unfolds as the source reads: the fuel of [generateFrom]
    never runs out before the pool does. *)
Lemma flat_map_ext_In {A B} (f g : A -> list B) l :
  (forall a, In a l -> f a = g a) -> flat_map f l = flat_map g l.
Proof.
  induction l as [|a l IH]; intros H; [done|]. simpl.
  rewrite (H a) by (by left). rewrite IH; [done|].
  intros b Hb. apply H. by right.
Qed.

Lemma generateAllMoveSequences_unfold gameState dice player :
  generateAllMoveSequences gameState dice player =
  match dice with
  | [] => [[]]
  | _ =>
      let sequences :=
        flat_map
          (fun source =>
             flat_map
               (fun move =>
                  let newState :=
                    simulateMove gameState source (vm_to move) (vm_die move)
                      player in
                  let newAvailableMoves := removeDie (vm_die move) dice in
                  map (fun seq =>
                         mkMove source (vm_to move) (vm_die move) :: seq)
                      (generateAllMoveSequences newState newAvailableMoves
                         player))
               (getValidMovesForAI gameState source dice player))
          (sourcePoints gameState player) in
      match sequences with
      | [] => [[]]
      | _ => sequences
      end
  end.
Proof.
  unfold generateAllMoveSequences. destruct dice as [|d dice]; [done|].
  cbn [length generateFrom]. cbv zeta.
  match goal with |- match ?a with _ => _ end = match ?b with _ => _ end =>
    replace b with a; [done|] end.
  apply flat_map_ext_In. intros source _.
  apply flat_map_ext_In. intros m Hm.
  rewrite length_removeDie by (eapply validMove_die; eauto). done.
Qed.

Lemma getValidMovesForAI_one gameState source dice player d :
  getValidMovesForAI gameState source dice player = [] -> In d dice ->
  getValidMovesForAI gameState source [d] player = [].
Proof.
  unfold getValidMovesForAI. destruct (_ && _); [done|].
  assert (Hflat : forall (f : Z -> list ValidMove),
            flat_map f dice = [] -> In d dice -> flat_map f [d] = []).
  { intros f Hf Hd. simpl. rewrite app_nil_r.
    destruct (f d) as [|x xs] eqn:E; [done|]. exfalso.
    assert (In x (flat_map f dice)) as Hx
      by (apply in_flat_map; exists d; split; [done|rewrite E; by left]).
    by rewrite Hf in Hx. }
  destruct source.
  - destruct (_ =? _); [done|]. apply Hflat.
  - destruct (_ || _); [done|]. apply Hflat.
Qed.

Lemma no_source_no_move gameState dice player :
  wellFormed gameState ->
  (forall source, In source (sourcePoints gameState player) ->
     getValidMovesForAI gameState source dice player = []) ->
  forall source, onBoardSource source ->
    getValidMovesForAI gameState source dice player = [].
Proof.
  intros [Hlen Hcnt Hbar] Hnone source Hsrc.
  unfold sourcePoints in Hnone.
  destruct (Z.ltb_spec 0 (side player (bar gameState))) as [Hb|Hb].
  - destruct source; [apply Hnone; by left|].
    unfold getValidMovesForAI.
    destruct (Z.ltb_spec 0 (side player (bar gameState))); [|lia].
    by rewrite bool_decide_false.
  - destruct source as [|i].
    + unfold getValidMovesForAI.
      destruct (Z.ltb_spec 0 (side player (bar gameState))); [lia|].
      cbn [andb]. pose proof (Hbar player).
      destruct (Z.eqb_spec (side player (bar gameState)) 0); [done|lia].
    + cbn in Hsrc.
      destruct (hasCheckers gameState player i) eqn:Hhas.
      * apply Hnone. apply in_map. apply list_elem_of_In, list_elem_of_filter.
        split; [done|]. by apply elem_of_rangeUp.
      * unfold getValidMovesForAI.
        destruct (Z.ltb_spec 0 (side player (bar gameState))); [lia|].
        cbn [andb]. unfold hasCheckers in Hhas. cbv zeta in Hhas.
        specialize (Hcnt i Hsrc).
        case_bool_decide as Hown.
        -- rewrite (bool_decide_false (_ <> _)) by tauto. cbn [orb].
           cbn [andb] in Hhas. apply Z.ltb_ge in Hhas.
           destruct (Z.eqb_spec (point_count (pointAt (board gameState) i)) 0);
             [done|lia].
        -- by rewrite bool_decide_true.
Qed.

(** Well-formedness and conservation travel along every derivation. *)
Lemma Generated_replay_invariant (P : GameState -> Prop) player :
  (forall gameState source dice m,
     P gameState -> onBoardSource source ->
     In m (getValidMovesForAI gameState source dice player) ->
     P (simulateMove gameState source (vm_to m) (vm_die m) player)) ->
  forall gameState dice seq,
    Generated player gameState dice seq -> P gameState ->
    forall k, P (fst (replay gameState dice (take k seq) player)).
Proof.
  intros Hstep gameState dice seq Hgen.
  induction Hgen as [gameState dice Hnone
                    | gameState dice source m rest Hsrc Hm _ IH]; intros HP k.
  - by rewrite take_nil.
  - destruct k as [|k]; [done|]. cbn [take replay move_from move_to move_die].
    apply IH. eapply Hstep; eauto using sourcePoints_onBoard.
Qed.

Lemma take_all {A} (l : list A) : take (length l) l = l.
Proof. apply firstn_all. Qed.

(** C1.  Conservation of checkers.  On a 25-slot board where each player's
    checkers on the points, on the bar and borne off add up to 15, every
    move the oracle offers from the bar or from a point of the board
    (a move between points, an entry from the bar or a bear-off, hitting a
    lone opposing checker or not) takes [simulateMove] to a state where the
    same holds; consequently the state reached after any number of moves of
    any generated sequence conserves the checkers as well. *)
Theorem simulateMove_conserves_checkers gameState player :
  length (board gameState) = 25%nat ->
  conserved gameState ->
  (forall source dice m,
     onBoardSource source ->
     In m (getValidMovesForAI gameState source dice player) ->
     conserved (simulateMove gameState source (vm_to m) (vm_die m) player)) /\
  (forall dice seq k,
     In seq (generateAllMoveSequences gameState dice player) ->
     conserved (fst (replay gameState dice (take k seq) player))).
Proof.
  intros Hlen Hcons.
  assert (Hstep : forall gameState source dice m,
    (length (board gameState) = 25%nat /\ conserved gameState) ->
    onBoardSource source ->
    In m (getValidMovesForAI gameState source dice player) ->
    (length (board (simulateMove gameState source (vm_to m) (vm_die m) player))
       = 25%nat /\
     conserved (simulateMove gameState source (vm_to m) (vm_die m) player))).
  { intros gs source dice m [Hl Hc] Hsrc Hm. split.
    - unfold simulateMove. rewrite cloneState_id.
      destruct source, (vm_to m); cbn [board withBar withBearoff];
        rewrite ?landChecker_length, ?liftChecker_length; done.
    - intros q. erewrite simulateMove_total by eauto. apply Hc. }
  split.
  - intros source dice m Hsrc Hm. by eapply Hstep.
  - intros dice seq k Hin. apply generateAllMoveSequences_Generated in Hin.
    eapply (Generated_replay_invariant
              (fun s => length (board s) = 25%nat /\ conserved s)); eauto.
Qed.

Lemma openingState_conserved dice : conserved (openingState dice).
Proof. intros []; vm_compute; reflexivity. Qed.

Lemma simulateMove_conserves_checkers_witness :
  conserved (simulateMove (openingState [3; 1]) (FromPoint 8) (ToPoint 5) 3 Player2)
  /\ conserved (fst (replay (openingState [3; 1]) [3; 1]
       (take 2 [mkMove (FromPoint 8) (ToPoint 5) 3;
                mkMove (FromPoint 6) (ToPoint 5) 1]) Player2)).
Proof.
  pose proof (simulateMove_conserves_checkers (openingState [3; 1]) Player2
                eq_refl (openingState_conserved _)) as [H1 H2].
  split.
  - apply (H1 (FromPoint 8) [3; 1] (mkValidMove (ToPoint 5) 3)).
    + cbn. lia.
    + vm_compute. tauto.
  - apply H2. vm_compute. tauto.
Defined.

Lemma Generated_wellFormed player gameState dice seq :
  Generated player gameState dice seq -> wellFormed gameState ->
  wellFormed (fst (replay gameState dice seq player)).
Proof.
  intros Hgen Hwf. rewrite <- (take_all seq).
  eapply (Generated_replay_invariant wellFormed); eauto.
  intros. eapply simulateMove_wellFormed; eauto.
Qed.

Lemma Generated_maximal player gameState dice seq :
  Generated player gameState dice seq -> wellFormed gameState ->
  forall source, onBoardSource source ->
    getValidMovesForAI (fst (replay gameState dice seq player)) source
      (snd (replay gameState dice seq player)) player = [].
Proof.
  induction 1 as [gameState dice Hnone
                 | gameState dice source m rest Hsrc Hm _ IH]; intros Hwf.
  - cbn [replay fst snd]. by apply no_source_no_move.
  - cbn [replay move_from move_to move_die]. apply IH.
    eapply simulateMove_wellFormed; eauto using sourcePoints_onBoard.
Qed.

Lemma generate_pass_iff gameState dice player :
  generateAllMoveSequences gameState dice player = [[]] <->
  (forall source, In source (sourcePoints gameState player) ->
     getValidMovesForAI gameState source dice player = []).
Proof.
  split.
  - intros E. assert (Generated player gameState dice []) as Hgen.
    { apply generateAllMoveSequences_Generated. rewrite E. by left. }
    by inversion Hgen.
  - intros Hnone. rewrite generateAllMoveSequences_unfold.
    destruct dice; [done|]. cbv zeta.
    match goal with |- match ?l with _ => _ end = _ =>
      destruct l as [|s ss] eqn:E end; [done|]. exfalso.
    assert (In s (s :: ss)) as Hin by (by left). rewrite <- E in Hin.
    apply in_flat_map in Hin as (source & Hsrc & Hin).
    rewrite (Hnone _ Hsrc) in Hin. done.
Qed.

(** C2.  Maximality and the forced pass.  After replaying a sequence that
    [generateAllMoveSequences] returns, no die left in the pool has a legal
    move from the bar or from any point; and the generator returns exactly
    [[[]]], the list holding only the empty sequence, if and only if no die
    of the pool has a legal move from any source. *)
Theorem generateAllMoveSequences_maximal gameState dice player :
  wellFormed gameState ->
  (forall seq,
     In seq (generateAllMoveSequences gameState dice player) ->
     forall source d,
       onBoardSource source ->
       In d (snd (replay gameState dice seq player)) ->
       getValidMovesForAI (fst (replay gameState dice seq player)) source [d]
         player = []) /\
  (generateAllMoveSequences gameState dice player = [[]] <->
   forall source d,
     onBoardSource source -> In d dice ->
     getValidMovesForAI gameState source [d] player = []).
Proof.
  intros Hwf. split.
  - intros seq Hin source d Hsrc Hd.
    apply generateAllMoveSequences_Generated in Hin.
    eapply getValidMovesForAI_one; [|done].
    by apply Generated_maximal.
  - rewrite generate_pass_iff. split.
    + intros Hnone source d Hsrc Hd.
      eapply getValidMovesForAI_one; [|done]. by apply no_source_no_move.
    + intros Hnone source Hsrc.
      destruct (getValidMovesForAI gameState source dice player)
        as [|m ms] eqn:E; [done|]. exfalso.
      assert (In m (getValidMovesForAI gameState source dice player)) as Hm
        by (rewrite E; by left).
      pose proof (validMove_die _ _ _ _ _ Hm) as Hdie.
      specialize (Hnone source (vm_die m)
                    (sourcePoints_onBoard _ _ _ Hsrc) Hdie).
      (* the move found with the whole pool is found with its die alone *)
      revert Hm Hnone. unfold getValidMovesForAI.
      destruct (_ && _); [done|].
      assert (Hflat : forall (f : Z -> list ValidMove),
                (forall x v, In v (f x) -> vm_die v = x) ->
                In m (flat_map f dice) -> flat_map f [vm_die m] = [] -> False).
      { intros f Hf Hin Hnil. apply in_flat_map in Hin as (x & Hx & Hin).
        pose proof (Hf _ _ Hin) as <-. simpl in Hnil.
        rewrite app_nil_r in Hnil. by rewrite Hnil in Hin. }
      destruct source.
      * destruct (_ =? _); [done|]. apply Hflat.
        intros x v Hv. destruct (canMoveToPointForAI _ _ _); [|done].
        by destruct Hv as [<-|[]].
      * destruct (_ || _); [done|]. apply Hflat.
        intros x v Hv.
        repeat (match type of Hv with context [if ?c then _ else _] =>
                  destruct c end); try done; by destruct Hv as [<-|[]].
Qed.

Lemma wellFormedb_correct gameState :
  wellFormedb gameState = true -> wellFormed gameState.
Proof.
  unfold wellFormedb. rewrite !andb_true_iff.
  intros [[[Hlen Hcnt] Hb1] Hb2]. split.
  - by apply Nat.eqb_eq.
  - intros i Hi. rewrite forallb_forall in Hcnt.
    apply Z.leb_le, Hcnt, list_elem_of_In, elem_of_rangeUp. done.
  - intros []; by apply Z.leb_le.
Qed.

Lemma generateAllMoveSequences_maximal_witness :
  getValidMovesForAI
    (fst (replay blockedState [6; 1] [mkMove (FromPoint 8) (ToPoint 7) 1]
            Player2))
    (FromPoint 7) [6] Player2 = [].
Proof.
  pose proof (generateAllMoveSequences_maximal blockedState [6; 1] Player2
                (wellFormedb_correct blockedState eq_refl)) as [H _].
  apply (H [mkMove (FromPoint 8) (ToPoint 7) 1]).
  - vm_compute. tauto.
  - cbn. lia.
  - vm_compute. tauto.
Defined.

(** C3.  Bar priority.  While the mover has a checker on the bar, the oracle
    [getValidMovesForAI] offers no move from any point of the board, and
    every non-empty generated sequence starts with a move from the bar. *)
Theorem bar_priority gameState dice player :
  0 < side player (bar gameState) ->
  (forall i, getValidMovesForAI gameState (FromPoint i) dice player = []) /\
  (forall seq,
     In seq (generateAllMoveSequences gameState dice player) ->
     seq <> [] ->
     exists move rest, seq = move :: rest /\ move_from move = Bar).
Proof.
  intros Hbar. split.
  - intros i. unfold getValidMovesForAI.
    destruct (Z.ltb_spec 0 (side player (bar gameState))); [|lia].
    by rewrite bool_decide_false.
  - intros seq Hin Hne. apply generateAllMoveSequences_Generated in Hin.
    destruct Hin as [|gameState dice source m rest Hsrc Hm _]; [done|].
    exists (mkMove source (vm_to m) (vm_die m)), rest. split; [done|].
    unfold sourcePoints in Hsrc.
    destruct (Z.ltb_spec 0 (side player (bar gameState))); [|lia].
    by destruct Hsrc as [<-|[]].
Qed.

Lemma bar_priority_witness :
  getValidMovesForAI barState (FromPoint 6) [3; 5] Player2 = [] /\
  exists move rest,
    [mkMove Bar (ToPoint 20) 5; mkMove (FromPoint 6) (ToPoint 3) 3]
    = move :: rest /\ move_from move = Bar.
Proof.
  assert (0 < side Player2 (bar barState)) as Hbar by (cbn; lia).
  pose proof (bar_priority barState [3; 5] Player2 Hbar) as [H1 H2].
  split; [apply H1|]. apply H2; [|done]. vm_compute. tauto.
Defined.

Lemma existsb_false_iff {A} (f : A -> bool) l :
  existsb f l = false <-> forall x, In x l -> f x = false.
Proof.
  induction l as [|a l IH]; simpl.
  - split; [intros _ x []|done].
  - rewrite orb_false_iff, IH. split.
    + intros [Ha Hl] x [<-|Hx]; auto.
    + intros H. split; [apply H; by left|]. intros x Hx. apply H. by right.
Qed.

Lemma existsb_rangeUp_false (f : Z -> bool) lo hi :
  existsb f (rangeUp lo hi) = false <-> forall i, lo <= i <= hi -> f i = false.
Proof.
  rewrite existsb_false_iff. split.
  - intros H i Hi. apply H, list_elem_of_In, elem_of_rangeUp. done.
  - intros H i Hi. apply H, elem_of_rangeUp, list_elem_of_In. done.
Qed.

Lemma existsb_rangeDown_false (f : Z -> bool) hi lo :
  existsb f (rangeDown hi lo) = false <-> forall i, lo <= i <= hi -> f i = false.
Proof.
  rewrite existsb_false_iff. unfold rangeDown. split.
  - intros H i Hi. apply H, list_elem_of_In, elem_of_reverse, elem_of_rangeUp. done.
  - intros H i Hi. apply H, elem_of_rangeUp, elem_of_reverse, list_elem_of_In. done.
Qed.

Lemma allCheckersInHomeBoardForAI_iff gameState player :
  wellFormed gameState ->
  allCheckersInHomeBoardForAI gameState player = true <-> allHome gameState player.
Proof.
  intros [_ _ Hbar]. specialize (Hbar player).
  unfold allCheckersInHomeBoardForAI, allHome.
  destruct (Z.ltb_spec 0 (side player (bar gameState))) as [Hb|Hb].
  - split; [done|]. intros [? _]. lia.
  - destruct player; rewrite negb_true_iff, existsb_rangeUp_false; cbn [inHomeBoard].
    + split.
      * intros H. split; [lia|]. intros i Hi Hhas.
        destruct (decide (i <= 18)) as [Hle|]; [|lia].
        rewrite H in Hhas by lia. done.
      * intros [_ H] i Hi.
        destruct (hasCheckers gameState Player1 i) eqn:E; [|done].
        apply H in E; lia.
    + split.
      * intros H. split; [lia|]. intros i Hi Hhas.
        destruct (decide (7 <= i)) as [Hle|]; [|lia].
        rewrite H in Hhas by lia. done.
      * intros [_ H] i Hi.
        destruct (hasCheckers gameState Player2 i) eqn:E; [|done].
        apply H in E; lia.
Qed.

Lemma canBearOffForAI_iff gameState fromPoint dieValue player :
  wellFormed gameState -> 1 <= fromPoint <= 24 ->
  canBearOffForAI gameState fromPoint dieValue player = true <->
  allHome gameState player /\
  (reachesExit player fromPoint dieValue \/
   (overshootsExit player fromPoint dieValue /\
    forall i, 1 <= i <= 24 -> furtherFromHome player i fromPoint ->
      hasCheckers gameState player i = false)).
Proof.
  intros Hwf Hfrom. unfold canBearOffForAI.
  destruct (allCheckersInHomeBoardForAI gameState player) eqn:Hhome; cbn [negb].
  2:{ split; [done|]. intros [Hall _].
      apply allCheckersInHomeBoardForAI_iff in Hall; [|done]. congruence. }
  apply allCheckersInHomeBoardForAI_iff in Hhome; [|done].
  destruct player; cbn [reachesExit overshootsExit furtherFromHome].
  - destruct (Z.eqb_spec (fromPoint + dieValue) 25) as [He|He].
    { split; [intros _; split; [done|by left]|done]. }
    destruct (Z.ltb_spec 25 (fromPoint + dieValue)) as [Ho|Ho].
    + rewrite negb_true_iff, existsb_rangeDown_false. split.
      * intros H. split; [done|]. right. split; [done|]. intros i Hi Hfar.
        destruct (decide (19 <= i)) as [?|?]; [apply H; lia|].
        destruct (hasCheckers gameState Player1 i) eqn:E; [|done].
        apply Hhome in E; [|done]. cbn in E. lia.
      * intros [_ [?|[_ H]]]; [lia|]. intros i Hi. apply H; lia.
    + split; [done|]. intros [_ [?|[? _]]]; lia.
  - destruct (Z.eqb_spec (fromPoint - dieValue) 0) as [He|He].
    { split; [intros _; split; [done|by left]|done]. }
    destruct (Z.ltb_spec (fromPoint - dieValue) 0) as [Ho|Ho].
    + rewrite negb_true_iff, existsb_rangeUp_false. split.
      * intros H. split; [done|]. right. split; [done|]. intros i Hi Hfar.
        destruct (decide (i <= 6)) as [?|?]; [apply H; lia|].
        destruct (hasCheckers gameState Player2 i) eqn:E; [|done].
        apply Hhome in E; [|done]. cbn in E. lia.
      * intros [_ [?|[_ H]]]; [lia|]. intros i Hi. apply H; lia.
    + split; [done|]. intros [_ [?|[? _]]]; lia.
Qed.

Lemma sumPoints_app f b idx1 idx2 :
  sumPoints f b (idx1 ++ idx2) = sumPoints f b idx1 + sumPoints f b idx2.
Proof.
  unfold sumPoints. induction idx1 as [|i idx1 IH]; cbn; [done|].
  rewrite IH. lia.
Qed.

Lemma rangeUp_split lo mid hi :
  lo <= mid + 1 -> mid <= hi ->
  rangeUp lo hi = rangeUp lo mid ++ rangeUp (mid + 1) hi.
Proof.
  intros H1 H2. unfold rangeUp.
  replace (hi - lo + 1) with ((mid - lo + 1) + (hi - (mid + 1) + 1)) by lia.
  rewrite seqZ_app by lia. do 2 f_equal. lia.
Qed.

Lemma sumPoints_zero f b idx :
  (forall i, In i idx -> 0 <= f (pointAt b i)) ->
  sumPoints f b idx = 0 <-> forall i, In i idx -> f (pointAt b i) = 0.
Proof.
  unfold sumPoints. induction idx as [|j idx IH]; intros Hpos; cbn.
  - split; [intros _ i []|done].
  - assert (0 <= foldr (fun i acc => f (pointAt b i) + acc) 0 idx) as Hrest.
    { clear IH. induction idx as [|k idx IH]; cbn; [lia|].
      assert (0 <= f (pointAt b k)) by (apply Hpos; right; by left).
      assert (0 <= foldr (fun i acc => f (pointAt b i) + acc) 0 idx); [|lia].
      apply IH. intros i [->|Hi]; apply Hpos; [by left|right; by right]. }
    assert (0 <= f (pointAt b j)) as Hj by (apply Hpos; by left).
    split.
    + intros Hsum i [<-|Hi]; [lia|].
      apply IH; [intros; apply Hpos; by right|lia|done].
    + intros Hall. rewrite (Hall j) by (by left).
      cbn.
      apply IH; [intros; apply Hpos; by right|].
      intros i Hi. apply Hall. by right.
Qed.

Lemma checkersOf_zero gameState player i :
  0 <= point_count (pointAt (board gameState) i) ->
  checkersOf player (pointAt (board gameState) i) = 0 <->
  hasCheckers gameState player i = false.
Proof.
  intros Hc. unfold checkersOf, hasCheckers. cbv zeta.
  case_bool_decide; cbn [andb]; [|done].
  destruct (Z.ltb_spec 0 (point_count (pointAt (board gameState) i)));
    split; (done || lia).
Qed.

(** With the checkers conserved, "every checker in play stands in the home
    board" says that the fifteen are on the six home points or borne off. *)
Lemma allHome_fifteen gameState player :
  wellFormed gameState -> conserved gameState ->
  allHome gameState player <->
  side player (bar gameState) = 0 /\
  homeCheckers gameState player + side player (bearoff gameState) = 15.
Proof.
  intros [Hlen Hcnt Hbar] Hcons. specialize (Hcons player).
  unfold totalCheckers, onBoard in Hcons. unfold allHome, homeCheckers.
  assert (Hout : forall idx,
    (forall i, In i idx -> 1 <= i <= 24) ->
    sumPoints (checkersOf player) (board gameState) idx = 0 <->
    forall i, In i idx -> hasCheckers gameState player i = false).
  { intros idx Hidx. rewrite sumPoints_zero.
    - split; intros H i Hi; apply checkersOf_zero; auto.
    - intros i Hi. unfold checkersOf. case_bool_decide; [auto|done]. }
  destruct player; cbn [inHomeBoard].
  - rewrite (rangeUp_split 1 18 24), sumPoints_app in Hcons by lia.
    change (18 + 1) with 19 in Hcons.
    specialize (Hout (rangeUp 1 18) (fun i Hi => ltac:(apply In_rangeUp in Hi; lia))).
    split.
    + intros [Hb Hall]. split; [done|].
      assert (sumPoints (checkersOf Player1) (board gameState) (rangeUp 1 18) = 0);
        [|lia].
      apply Hout. intros i Hi. apply In_rangeUp in Hi.
      destruct (hasCheckers gameState Player1 i) eqn:E; [|done].
      apply Hall in E; lia.
    + intros [Hb Hsum]. split; [done|]. intros i Hi Hhas.
      destruct (decide (19 <= i)); [lia|].
      assert (sumPoints (checkersOf Player1) (board gameState) (rangeUp 1 18) = 0)
        as Hzero by lia.
      rewrite (proj1 Hout Hzero i) in Hhas; [done|].
      apply list_elem_of_In, elem_of_rangeUp. lia.
  - rewrite (rangeUp_split 1 6 24), sumPoints_app in Hcons by lia.
    change (6 + 1) with 7 in Hcons.
    specialize (Hout (rangeUp 7 24) (fun i Hi => ltac:(apply In_rangeUp in Hi; lia))).
    split.
    + intros [Hb Hall]. split; [done|].
      assert (sumPoints (checkersOf Player2) (board gameState) (rangeUp 7 24) = 0);
        [|lia].
      apply Hout. intros i Hi. apply In_rangeUp in Hi.
      destruct (hasCheckers gameState Player2 i) eqn:E; [|done].
      apply Hall in E; lia.
    + intros [Hb Hsum]. split; [done|]. intros i Hi Hhas.
      destruct (decide (i <= 6)); [lia|].
      assert (sumPoints (checkersOf Player2) (board gameState) (rangeUp 7 24) = 0)
        as Hzero by lia.
      rewrite (proj1 Hout Hzero i) in Hhas; [done|].
      apply list_elem_of_In, elem_of_rangeUp. lia.
Qed.

(** C4.  Legality of a bear-off.  [canBearOffForAI] accepts a source point
    and a die exactly when all of the mover's checkers in play stand in the
    mover's home board with none on the bar and either the die reaches the
    exit exactly, or it overshoots and no checker of the mover stands
    further from home than the source; the oracle offers the bear-off
    exactly when, in addition, the mover owns the source point.  With the
    checkers conserved, "all in the home board, none on the bar" says that
    the fifteen are on the six home points or already borne off. *)
Theorem bearoff_legality gameState fromPoint dieValue player :
  wellFormed gameState -> 1 <= fromPoint <= 24 ->
  let legalBearoff :=
    allHome gameState player /\
    (reachesExit player fromPoint dieValue \/
     (overshootsExit player fromPoint dieValue /\
      forall i, 1 <= i <= 24 -> furtherFromHome player i fromPoint ->
        hasCheckers gameState player i = false)) in
  (canBearOffForAI gameState fromPoint dieValue player = true <-> legalBearoff)
  /\
  (In (mkValidMove Bearoff dieValue)
      (getValidMovesForAI gameState (FromPoint fromPoint) [dieValue] player)
   <-> hasCheckers gameState player fromPoint = true /\ legalBearoff)
  /\
  (conserved gameState ->
   allHome gameState player <->
   side player (bar gameState) = 0 /\
   homeCheckers gameState player + side player (bearoff gameState) = 15).
Proof.
  intros Hwf Hfrom legalBearoff.
  pose proof (canBearOffForAI_iff gameState fromPoint dieValue player Hwf Hfrom)
    as Hcan. fold legalBearoff in Hcan.
  split; [exact Hcan|].
  split; [|by apply allHome_fifteen].
  rewrite <- Hcan. clear Hcan legalBearoff.
  split.
  - intros Hin. apply validMove_point in Hin
      as (_ & Hown & Hnz & [(_ & Hcan & _)|(t & Ht & _)]); [|done].
    cbn in Hcan. split; [|done]. unfold hasCheckers. cbv zeta.
    rewrite bool_decide_true by done. cbn [andb]. apply Z.ltb_lt.
    pose proof (wf_counts _ Hwf fromPoint Hfrom). lia.
  - intros [Hhas Hcan]. unfold hasCheckers in Hhas. cbv zeta in Hhas.
    apply andb_true_iff in Hhas as [Hown Hcnt].
    apply bool_decide_eq_true in Hown. apply Z.ltb_lt in Hcnt.
    unfold getValidMovesForAI. rewrite bool_decide_false by done.
    rewrite andb_true_r.
    assert (allCheckersInHomeBoardForAI gameState player = true) as Hhome.
    { unfold canBearOffForAI in Hcan.
      by destruct (allCheckersInHomeBoardForAI gameState player). }
    unfold allCheckersInHomeBoardForAI in Hhome.
    destruct (0 <? side player (bar gameState)); [done|].
    rewrite (bool_decide_false (_ <> _)) by tauto. cbn [orb].
    destruct (Z.eqb_spec (point_count (pointAt (board gameState) fromPoint)) 0);
      [lia|].
    cbn [flat_map]. rewrite app_nil_r. cbv zeta. rewrite Hcan.
    apply canBearOffForAI_iff in Hcan as [_ Hexit]; [|done|done].
    destruct player; cbn [reachesExit overshootsExit] in Hexit.
    + destruct (Z.leb_spec 25 (fromPoint + dieValue)); [by left|].
      destruct Hexit as [?|[? _]]; lia.
    + destruct (Z.leb_spec (fromPoint - dieValue) 0); [by left|].
      destruct Hexit as [?|[? _]]; lia.
Qed.

Lemma bearoff_legality_witness :
  allHome bearoffState Player2 /\
  (reachesExit Player2 3 6 \/
   (overshootsExit Player2 3 6 /\
    forall i, 1 <= i <= 24 -> furtherFromHome Player2 i 3 ->
      hasCheckers bearoffState Player2 i = false)).
Proof.
  assert (1 <= 3 <= 24) as Hfrom by lia.
  pose proof (bearoff_legality bearoffState 3 6 Player2
                (wellFormedb_correct bearoffState eq_refl) Hfrom) as H.
  cbv zeta in H. destruct H as [H _]. apply H. vm_compute. reflexivity.
Defined.

(** ** Strategic filters *)

Lemma sublist_List_filter {A} (f : A -> bool) l : sublist (List.filter f l) l.
Proof.
  induction l as [|a l IH]; simpl; [constructor|].
  destruct (f a); by constructor.
Qed.

Lemma honoursConstraint_id violates :
  honoursConstraint (fun candidates => candidates) violates.
Proof. intros l. repeat split; try done. Qed.

Lemma honoursConstraint_filter (keep violates : Sequence -> bool) :
  (forall s, keep s = false -> violates s = true) ->
  (forall s, violates s = true -> keep s = false) ->
  honoursConstraint
    (fun candidates =>
       if (0 <? length (List.filter keep candidates))%nat
       then List.filter keep candidates
       else candidates)
    violates.
Proof.
  intros Hkv Hvk l.
  destruct (Nat.ltb_spec 0 (length (List.filter keep l))) as [Hpos|Hzero].
  - split; [apply sublist_List_filter|]. split; [|split].
    + intros s Hs Hnot. apply Hkv.
      destruct (keep s) eqn:E; [|done]. exfalso. apply Hnot.
      apply filter_In. done.
    + intros Hall. exfalso.
      destruct (List.filter keep l) as [|s ss] eqn:E; [simpl in Hpos; lia|].
      assert (In s (List.filter keep l)) as Hin by (rewrite E; by left).
      apply filter_In in Hin as [Hin Hk].
      rewrite (Hvk s (Hall s Hin)) in Hk. done.
    + intros _ E. rewrite E in Hpos. simpl in Hpos. lia.
  - repeat split; try done.
Qed.

Lemma honoursConstraint_nonempty enforce violates candidates :
  honoursConstraint enforce violates -> candidates <> [] ->
  enforce candidates <> [].
Proof. intros H. apply (H candidates). Qed.

(** C7.  The strategic filters waive a constraint nobody can meet.  Each of
    the four filters (home-board blot safety, stack limit on points 2 and 1,
    distribution limit, play from outside the home board) returns a sublist
    of its candidates that keeps every candidate honouring the constraint,
    and returns the candidates unchanged when none honours it; so the
    pipeline [applyStrategicFilters] never empties a non-empty list. *)
Theorem strategic_filters_waive gameState player :
  honoursConstraint
    (fun candidates => enforcePlayer2HomeBoardSafety gameState candidates player)
    (fun sequence => sequenceLeavesPlayer2HomeBoardBlot gameState sequence player)
  /\
  honoursConstraint
    (fun candidates => enforceStackLimitOnPoints2And1 gameState candidates player)
    (fun sequence => sequenceExceedsStackLimit gameState sequence player)
  /\
  honoursConstraint
    (fun candidates => enforceDistribution gameState candidates player)
    (fun sequence => sequenceExceedsDistributionLimit gameState sequence player)
  /\
  honoursConstraint
    (fun candidates =>
       enforcePlayCheckersOutsideHomeBoard gameState candidates player)
    (fun sequence =>
       (2 <? countMadePointsInHomeBoard gameState player)
       && negb (sequenceUsesCheckersOutsideHomeBoard sequence player))
  /\
  (forall candidates,
     candidates <> [] ->
     applyStrategicFilters gameState candidates player <> []).
Proof.
  assert (H1 : honoursConstraint
    (fun candidates => enforcePlayer2HomeBoardSafety gameState candidates player)
    (fun sequence => sequenceLeavesPlayer2HomeBoardBlot gameState sequence player)).
  { unfold enforcePlayer2HomeBoardSafety. case_bool_decide as Hp.
    - apply honoursConstraint_id.
    - apply honoursConstraint_filter; intros s; by destruct (_ gameState s player). }
  assert (H2 : honoursConstraint
    (fun candidates => enforceStackLimitOnPoints2And1 gameState candidates player)
    (fun sequence => sequenceExceedsStackLimit gameState sequence player)).
  { unfold enforceStackLimitOnPoints2And1. case_bool_decide as Hp.
    - apply honoursConstraint_id.
    - apply honoursConstraint_filter; intros s; by destruct (_ gameState s player). }
  assert (H3 : honoursConstraint
    (fun candidates => enforceDistribution gameState candidates player)
    (fun sequence => sequenceExceedsDistributionLimit gameState sequence player)).
  { unfold enforceDistribution. case_bool_decide as Hp.
    - apply honoursConstraint_id.
    - apply honoursConstraint_filter; intros s; by destruct (_ gameState s player). }
  assert (H4 : honoursConstraint
    (fun candidates =>
       enforcePlayCheckersOutsideHomeBoard gameState candidates player)
    (fun sequence =>
       (2 <? countMadePointsInHomeBoard gameState player)
       && negb (sequenceUsesCheckersOutsideHomeBoard sequence player))).
  { unfold enforcePlayCheckersOutsideHomeBoard. case_bool_decide as Hp.
    - apply honoursConstraint_id.
    - cbv zeta. destruct (2 <? countMadePointsInHomeBoard gameState player).
      + apply honoursConstraint_filter; intros s;
          by destruct (sequenceUsesCheckersOutsideHomeBoard s player).
      + apply honoursConstraint_id. }
  split; [exact H1|]. split; [exact H2|]. split; [exact H3|].
  split; [exact H4|].
  intros l Hl. unfold applyStrategicFilters.
  apply (honoursConstraint_nonempty _ _ _ H4).
  apply (honoursConstraint_nonempty _ _ _ H3).
  apply (honoursConstraint_nonempty _ _ _ H2).
  apply (honoursConstraint_nonempty _ _ _ H1). exact Hl.
Qed.

(** ** Phase detection *)

Lemma allTrue_app_l l x k n :
  (k + n <= length l)%nat -> allTrue (l ++ [x]) k n <-> allTrue l k n.
Proof.
  intros Hlen. unfold allTrue. split; intros H j Hj.
  - rewrite <- (H j Hj). symmetry. apply lookup_app_l. lia.
  - rewrite lookup_app_l by lia. by apply H.
Qed.

Lemma allTrue_last l x k n :
  (k + n = S (length l))%nat -> (1 <= n)%nat ->
  allTrue (l ++ [x]) k n <-> x = true /\ allTrue l k (n - 1).
Proof.
  intros Hlen Hn. unfold allTrue. split.
  - intros H. split.
    + specialize (H (length l) ltac:(lia)).
      rewrite lookup_app_r, Nat.sub_diag in H by lia. by simplify_eq/=.
    + intros j Hj. rewrite <- (H j) by lia. symmetry. apply lookup_app_l. lia.
  - intros [-> H] j Hj. destruct (decide (j = length l)) as [->|Hne].
    + by rewrite lookup_app_r, Nat.sub_diag by lia.
    + rewrite lookup_app_l by lia. apply H. lia.
Qed.

Lemma scanOf_snoc l x : scanOf (l ++ [x]) = primeStep (scanOf l) x.
Proof. unfold scanOf. by rewrite fold_left_app. Qed.

Lemma scanOf_invariant l :
  (forall m, Z.of_nat m <= currentPrime (scanOf l) <->
             (m <= length l)%nat /\ allTrue l (length l - m) m) /\
  (forall n, (1 <= n)%nat ->
     (Z.of_nat n <= maxPrimeLength (scanOf l) <->
      exists k, (k + n <= length l)%nat /\ allTrue l k n)) /\
  0 <= currentPrime (scanOf l) <= maxPrimeLength (scanOf l) /\
  (1 <= primeCount (scanOf l) <-> 1 <= maxPrimeLength (scanOf l)) /\
  0 <= primeCount (scanOf l).
Proof.
  induction l as [|x l IH] using rev_ind.
  - cbn. split; [|split; [|split; [lia|split; [done|lia]]]].
    + intros m. split.
      * intros H. assert (m = 0)%nat as -> by lia. split; [lia|].
        intros j Hj. lia.
      * intros [H _]. lia.
    + intros n Hn. split; [lia|]. intros (k & Hk & _). lia.
  - destruct IH as (Hcur & Hmax & Hle & Hcnt & Hcnt0).
    rewrite scanOf_snoc, length_app. cbn [length].
    destruct x; cbn [primeStep maxPrimeLength primeCount currentPrime gaps].
    + split; [|split; [|split; [lia|split]]].
      * intros m. destruct m as [|m].
        { split; [intros _; split; [lia|intros j Hj; lia]|lia]. }
        split.
        -- intros Hm. assert (Z.of_nat m <= currentPrime (scanOf l)) as Hm' by lia.
           apply Hcur in Hm' as [Hlen Hall]. split; [lia|].
           apply allTrue_last; [lia|lia|]. split; [done|].
           replace (length l + 1 - S m)%nat with (length l - m)%nat by lia.
           by replace (S m - 1)%nat with m by lia.
        -- intros [Hlen Hall].
           apply allTrue_last in Hall as [_ Hall]; [|lia|lia].
           replace (length l + 1 - S m)%nat with (length l - m)%nat in Hall by lia.
           replace (S m - 1)%nat with m in Hall by lia.
           assert (Z.of_nat m <= currentPrime (scanOf l)) as Hm'; [|lia].
           apply Hcur. split; [lia|done].
      * intros n Hn. rewrite Z.max_le_iff, Hmax by done. split.
        -- intros [(k & Hk & Hall)|Hc].
           ++ exists k. split; [lia|]. by apply allTrue_app_l.
           ++ destruct n as [|n]; [lia|].
              assert (Z.of_nat n <= currentPrime (scanOf l)) as Hc' by lia.
              apply Hcur in Hc' as [Hn' Hall].
              exists (length l - n)%nat. split; [lia|].
              apply allTrue_last; [lia|lia|]. split; [done|].
              by replace (S n - 1)%nat with n by lia.
        -- intros (k & Hk & Hall).
           destruct (decide (k + n <= length l)%nat) as [Hin|Hout].
           ++ left. exists k. split; [done|]. by apply allTrue_app_l in Hall.
           ++ right. apply allTrue_last in Hall as [_ Hall]; [|lia|lia].
              destruct n as [|n]; [lia|].
              replace (S n - 1)%nat with n in Hall by lia.
              assert (Z.of_nat n <= currentPrime (scanOf l)) as Hc; [|lia].
              apply Hcur. split; [lia|].
              by replace (length l - n)%nat with k by lia.
      * destruct (Z.eqb_spec (currentPrime (scanOf l) + 1) 1); split; lia.
      * destruct (Z.eqb_spec (currentPrime (scanOf l) + 1) 1); lia.
    + split; [|split; [|split; [lia|split; [done|done]]]].
      * intros m. destruct m as [|m].
        { split; [intros _; split; [lia|intros j Hj; lia]|lia]. }
        split; [lia|]. intros [Hlen Hall]. exfalso.
        apply allTrue_last in Hall as [? _]; [done|lia|lia].
      * intros n Hn. rewrite Hmax by done. split.
        -- intros (k & Hk & Hall). exists k. split; [lia|]. by apply allTrue_app_l.
        -- intros (k & Hk & Hall).
           destruct (decide (k + n <= length l)%nat) as [Hin|Hout].
           ++ exists k. split; [done|]. by apply allTrue_app_l in Hall.
           ++ apply allTrue_last in Hall as [? _]; [done|lia|lia].
Qed.

Lemma fold_left_map_compose {A B C} (f : A -> B -> A) (g : C -> B) l a :
  fold_left (fun acc c => f acc (g c)) l a = fold_left f (map g l) a.
Proof. revert a. induction l as [|c l IH]; intros a; simpl; [done|apply IH]. Qed.

Lemma evaluatePrimes_scan gameState player :
  let scan := scanOf (map (isMadePoint gameState player) (rangeUp 1 24)) in
  prime_length (evaluatePrimes gameState player) = maxPrimeLength scan /\
  prime_count (evaluatePrimes gameState player) = primeCount scan.
Proof.
  unfold evaluatePrimes, scanOf. cbv zeta. cbn [prime_length prime_count].
  by rewrite fold_left_map_compose.
Qed.

Lemma lookup_made gameState player (j : nat) :
  (j < 24)%nat ->
  map (isMadePoint gameState player) (rangeUp 1 24) !! j
  = Some (isMadePoint gameState player (1 + Z.of_nat j)).
Proof.
  intros Hj. rewrite list_lookup_fmap. unfold rangeUp.
  rewrite lookup_seqZ_lt by lia. done.
Qed.

Lemma evaluatePrimes_length gameState player n :
  1 <= n ->
  n <= prime_length (evaluatePrimes gameState player) <->
  holdsRun gameState player n.
Proof.
  intros Hn. destruct (evaluatePrimes_scan gameState player) as [-> _].
  set (l := map (isMadePoint gameState player) (rangeUp 1 24)).
  assert (length l = 24%nat) as Hlen by reflexivity.
  destruct (scanOf_invariant l) as (_ & Hmax & _).
  specialize (Hmax (Z.to_nat n) ltac:(lia)).
  rewrite Z2Nat.id in Hmax by lia. rewrite Hmax. unfold holdsRun, allTrue.
  split.
  - intros (k & Hk & Hall). exists (1 + Z.of_nat k). split; [lia|]. split; [lia|].
    intros j Hj. specialize (Hall (Z.to_nat (j - 1)) ltac:(lia)).
    subst l. rewrite lookup_made in Hall by lia.
    replace (1 + Z.of_nat (Z.to_nat (j - 1))) with j in Hall by lia.
    by simplify_eq.
  - intros (i & Hi & Hhi & Hall). exists (Z.to_nat (i - 1)). split; [lia|].
    intros j Hj. subst l. rewrite lookup_made by lia. f_equal. apply Hall. lia.
Qed.

Lemma evaluatePrimes_count gameState player :
  1 <= prime_count (evaluatePrimes gameState player) <->
  1 <= prime_length (evaluatePrimes gameState player).
Proof.
  destruct (evaluatePrimes_scan gameState player) as [-> ->].
  apply scanOf_invariant.
Qed.

Lemma isPrimingOrBlitzing_BLITZ gameState player :
  isPrimingOrBlitzing gameState player = BLITZ <->
  1 <= side (opponentOf player) (bar gameState) /\
  1 <= prime_count (evaluatePrimes gameState player) /\
  blot_count (evaluateBlotSafety gameState player) <= 2.
Proof.
  unfold isPrimingOrBlitzing. cbv zeta.
  destruct (Z.leb_spec 1 (side (opponentOf player) (bar gameState)));
  destruct (Z.leb_spec 1 (prime_count (evaluatePrimes gameState player)));
  destruct (Z.leb_spec (blot_count (evaluateBlotSafety gameState player)) 2);
  cbn [andb]; try (split; [intros _; lia|done]);
  destruct (_ && _); split; try done; intros (?&?&?); lia.
Qed.

(** The order of the tests of [detectGamePhase]: RACE when both sides are
    fully home; otherwise BACKGAME when the pip counts differ by more than
    30; otherwise PRIMING when both sides hold a run of at least three
    consecutive made points; otherwise BLITZ when Player 1 has a checker on
    the bar and Player 2, the evaluating side, holds a run of made points
    and [evaluateBlotSafety] counts at most two of its blots; otherwise
    CONTACT.  The count is the one the source computes. *)
Lemma detectGamePhase_priority gameState :
  wellFormed gameState ->
  let race := allHome gameState Player1 /\ allHome gameState Player2 in
  let backgame :=
    30 < Z.abs (calculatePipCount gameState Player1
                - calculatePipCount gameState Player2) in
  let priming :=
    holdsRun gameState Player2 3 /\ holdsRun gameState Player1 3 in
  let blitz :=
    1 <= side Player1 (bar gameState) /\
    holdsRun gameState Player2 1 /\
    blot_count (evaluateBlotSafety gameState Player2) <= 2 in
  (race -> detectGamePhase gameState = RACE) /\
  (~ race -> backgame -> detectGamePhase gameState = BACKGAME) /\
  (~ race -> ~ backgame -> priming -> detectGamePhase gameState = PRIMING) /\
  (~ race -> ~ backgame -> ~ priming -> blitz ->
     detectGamePhase gameState = BLITZ) /\
  (~ race -> ~ backgame -> ~ priming -> ~ blitz ->
     detectGamePhase gameState = CONTACT).
Proof.
  intros Hwf race backgame priming blitz.
  assert (Hrace : allCheckersInHomeBoardForAI gameState Player1
                  && allCheckersInHomeBoardForAI gameState Player2 = true
                  <-> race).
  { rewrite andb_true_iff, !allCheckersInHomeBoardForAI_iff by done. done. }
  assert (Hpriming :
    (1 <=? prime_count (evaluatePrimes gameState Player2))
    && (1 <=? prime_count (evaluatePrimes gameState Player1))
    && (3 <=? prime_length (evaluatePrimes gameState Player2))
    && (3 <=? prime_length (evaluatePrimes gameState Player1)) = true
    <-> priming).
  { unfold priming. rewrite <- !evaluatePrimes_length by lia.
    rewrite !andb_true_iff, !Z.leb_le, !evaluatePrimes_count. lia. }
  assert (Hblitz :
    bool_decide (isPrimingOrBlitzing gameState Player2 = BLITZ) = true
    <-> blitz).
  { rewrite bool_decide_eq_true, isPrimingOrBlitzing_BLITZ. unfold blitz.
    rewrite <- evaluatePrimes_length by lia. rewrite evaluatePrimes_count.
    done. }
  unfold detectGamePhase. cbv zeta.
  fold backgame.
  destruct (_ && _).
  { assert race by (by apply Hrace). repeat split; tauto. }
  assert (~ race) as Hnr by (intros Hr; by apply Hrace in Hr).
  destruct (Z.ltb_spec 30 (Z.abs (calculatePipCount gameState Player1
                                  - calculatePipCount gameState Player2)))
    as [Hb|Hb].
  { repeat split; tauto. }
  assert (~ backgame) as Hnb by (unfold backgame; lia).
  destruct (_ && _).
  { assert priming by (by apply Hpriming). repeat split; tauto. }
  assert (~ priming) as Hnp by (intros Hp; by apply Hpriming in Hp).
  destruct (bool_decide _).
  { assert blitz by (by apply Hblitz). repeat split; tauto. }
  assert (~ blitz) as Hnz by (intros Hz; by apply Hblitz in Hz).
  repeat split; tauto.
Qed.

Lemma detectGamePhase_priority_witness :
  detectGamePhase bearoffState = RACE.
Proof.
  pose proof (detectGamePhase_priority bearoffState
                (wellFormedb_correct bearoffState eq_refl)) as H.
  cbv zeta in H. destruct H as [H _]. apply H.
  split; apply allCheckersInHomeBoardForAI_iff;
    try apply (wellFormedb_correct bearoffState eq_refl); vm_compute; reflexivity.
Defined.

(** C5.  The BLITZ test does not count the vulnerable blots.  In
    [blitzBlotsState] both sides have fifteen checkers, neither RACE (Player
    1 is on the bar), BACKGAME (the pip counts are 95 and 78) nor PRIMING
    (no side holds three consecutive made points) applies, Player 1 has a
    checker on the bar and Player 2 holds a made point.  Player 2 has three
    blots, on points 1, 2 and 3, each within one roll of the checker on the
    bar, which the oracle lets enter on each of them: with more than two
    vulnerable blots the priority order gives CONTACT.  The counter of
    [evaluateBlotSafety] reports no vulnerable blot, and [detectGamePhase]
    answers BLITZ. *)
Theorem detectGamePhase_blitz_divergence :
  let s := blitzBlotsState in
  (wellFormed s /\ conserved s) /\
  ~ (allHome s Player1 /\ allHome s Player2) /\
  (calculatePipCount s Player1 = 95 /\ calculatePipCount s Player2 = 78) /\
  ~ (holdsRun s Player2 3 /\ holdsRun s Player1 3) /\
  (1 <= side Player1 (bar s) /\ holdsRun s Player2 1) /\
  (forall i, i = 1 \/ i = 2 \/ i = 3 ->
     isBlot s Player2 i = true /\
     reachableWithinRoll s Player2 i = true /\
     In (mkValidMove (ToPoint i) i) (getValidMovesForAI s Bar [i] Player1) /\
     pointAt (board (simulateMove s Bar (ToPoint i) i Player1)) i
     = mkPoint (Some Player1) 1 /\
     canBeHit s Player2 i = false) /\
  vulnerableBlots s Player2 = 3 /\
  blot_count (evaluateBlotSafety s Player2) = 0 /\
  detectGamePhase s = BLITZ.
Proof.
  cbv zeta.
  assert (Hwf : wellFormed blitzBlotsState)
    by (by apply wellFormedb_correct).
  split; [split; [done|by intros []]|].
  split; [by intros [[Hbar _] _]|].
  split; [by split|].
  split.
  { intros [Hrun _]. apply evaluatePrimes_length in Hrun; [|lia].
    vm_compute in Hrun. by apply Hrun. }
  split.
  { split; [cbn; lia|]. apply evaluatePrimes_length; [lia|].
    vm_compute. by intros [=]. }
  split.
  { intros i [-> | [-> | ->]];
      (split; [reflexivity|]; split; [reflexivity|];
       split; [vm_compute; tauto|]; split; reflexivity). }
  split; [reflexivity|]. split; reflexivity.
Qed.

(** ** Blot safety *)

Lemma countIf_cons f i idx :
  countIf f (i :: idx) = (if f i then 1 else 0) + countIf f idx.
Proof. unfold countIf. simpl. destruct (f i); simpl length; lia. Qed.

Lemma evaluateBlotSafety_fold gameState player idx acc :
  (forall i, In i idx -> 1 <= i <= 24) ->
  let inOpponentHome i := bool_decide (inHomeBoard (opponentOf player) i) in
  let result :=
    fold_left
      (fun acc i =>
         if isBlot gameState player i
         then
           if canBeHit gameState player i
           then
             mkBlotSafety (blot_count acc + 1)
               (if match player with Player1 => i <=? 6 | Player2 => 19 <=? i end
                then blot_score acc - 30
                else blot_score acc - 15)
           else mkBlotSafety (blot_count acc) (blot_score acc - 5)
         else acc)
      idx acc in
  blot_count result
  = blot_count acc
    + countIf (fun i => isBlot gameState player i && canBeHit gameState player i
                        && inOpponentHome i) idx
    + countIf (fun i => isBlot gameState player i && canBeHit gameState player i
                        && negb (inOpponentHome i)) idx
  /\
  blot_score result
  = blot_score acc
    - (30 * countIf (fun i => isBlot gameState player i
                              && canBeHit gameState player i
                              && inOpponentHome i) idx
       + 15 * countIf (fun i => isBlot gameState player i
                                && canBeHit gameState player i
                                && negb (inOpponentHome i)) idx
       + 5 * countIf (fun i => isBlot gameState player i
                               && negb (canBeHit gameState player i)) idx).
Proof.
  intros Hidx inOpponentHome. revert acc Hidx.
  induction idx as [|i idx IH]; intros acc Hidx.
  - cbn. unfold countIf. cbn. lia.
  - cbn [fold_left]. rewrite !countIf_cons.
    assert (Hi : 1 <= i <= 24) by (apply Hidx; by left).
    assert (Hhome : match player with Player1 => i <=? 6 | Player2 => 19 <=? i end
                    = inOpponentHome i).
    { unfold inOpponentHome. destruct player; cbn [opponentOf inHomeBoard].
      - destruct (Z.leb_spec i 6); [rewrite bool_decide_true|rewrite bool_decide_false];
          lia || done.
      - destruct (Z.leb_spec 19 i); [rewrite bool_decide_true|rewrite bool_decide_false];
          lia || done. }
    rewrite Hhome.
    match goal with |- context [fold_left ?f idx ?a] =>
      specialize (IH a (fun j Hj => Hidx j (or_intror Hj))) end.
    cbv zeta in IH. destruct IH as [-> ->].
    destruct (isBlot gameState player i), (canBeHit gameState player i),
      (inOpponentHome i); cbn [andb negb blot_count blot_score]; lia.
Qed.

(** C9, as the code has it.  [evaluateBlotSafety] charges 30 for each blot it
    classifies as vulnerable that stands in the opponent's home board, 15
    for each other blot it classifies as vulnerable, and 5 for each blot it
    does not classify as vulnerable; the count it reports is the number of
    blots classified as vulnerable. *)
Theorem evaluateBlotSafety_penalties gameState player :
  let inOpponentHome i := bool_decide (inHomeBoard (opponentOf player) i) in
  let vulnerableInOpponentHome :=
    countIf (fun i => isBlot gameState player i && canBeHit gameState player i
                      && inOpponentHome i) (rangeUp 1 24) in
  let vulnerableElsewhere :=
    countIf (fun i => isBlot gameState player i && canBeHit gameState player i
                      && negb (inOpponentHome i)) (rangeUp 1 24) in
  let notVulnerable :=
    countIf (fun i => isBlot gameState player i
                      && negb (canBeHit gameState player i)) (rangeUp 1 24) in
  blot_count (evaluateBlotSafety gameState player)
  = vulnerableInOpponentHome + vulnerableElsewhere /\
  blot_score (evaluateBlotSafety gameState player)
  = - (30 * vulnerableInOpponentHome + 15 * vulnerableElsewhere
       + 5 * notVulnerable).
Proof.
  cbv zeta. unfold evaluateBlotSafety.
  pose proof (evaluateBlotSafety_fold gameState player (rangeUp 1 24)
                (mkBlotSafety 0 0)) as H.
  cbv zeta in H. destruct H as [-> ->].
  - intros i Hi. by apply list_elem_of_In, elem_of_rangeUp in Hi.
  - cbn [blot_count blot_score]. split; lia.
Qed.

(** C9, as the claim has it: a blot inside its owner's home board that an
    opponent checker can hit is charged the smaller penalty, one outside it
    the larger. *)
Lemma blot_penalty_counterexample :
  (inHomeBoard Player2 3 /\ isBlot blotHomeState Player2 3 = true /\
   In (mkValidMove (ToPoint 3) 2)
      (getValidMovesForAI blotHomeState (FromPoint 1) [2] Player1) /\
   evaluateBlotSafety blotHomeState Player2 = mkBlotSafety 1 (-15)) /\
  (~ inHomeBoard Player2 21 /\ isBlot blotAwayState Player2 21 = true /\
   In (mkValidMove (ToPoint 21) 2)
      (getValidMovesForAI blotAwayState (FromPoint 19) [2] Player1) /\
   evaluateBlotSafety blotAwayState Player2 = mkBlotSafety 1 (-30)).
Proof.
  split.
  - split; [cbn; lia|]. split; [reflexivity|]. split; [vm_compute; tauto|].
    vm_compute. reflexivity.
  - split; [cbn; lia|]. split; [reflexivity|]. split; [vm_compute; tauto|].
    vm_compute. reflexivity.
Qed.

(** The bar test of [canBeHit] never fires: a blot on an entry point of the
    opponent's bar checker is scored as safe. *)
Lemma blot_bar_entry_scored_safe :
  isBlot blotBarState Player2 3 = true /\
  In (mkValidMove (ToPoint 3) 3)
     (getValidMovesForAI blotBarState Bar [3] Player1) /\
  canBeHit blotBarState Player2 3 = false /\
  evaluateBlotSafety blotBarState Player2 = mkBlotSafety 0 (-5).
Proof.
  split; [reflexivity|]. split; [vm_compute; tauto|].
  split; vm_compute; reflexivity.
Qed.

Lemma canBeHit_ignores_bar gameState player i :
  1 <= i <= 24 ->
  canBeHit gameState player i
  = existsb
      (fun j =>
         hasCheckers gameState (opponentOf player) j
         && (let distance :=
               match player with Player1 => i - j | Player2 => j - i end in
             (0 <? distance) && (distance <=? 6)))
      (rangeUp 1 24).
Proof.
  intros Hi. unfold canBeHit. cbv zeta.
  destruct (0 <? side (opponentOf player) (bar gameState)); [|apply orb_false_r].
  destruct player; cbn [opponentOf].
  - destruct (Z.leb_spec 1 (i - 24)); [lia|]. apply orb_false_r.
  - destruct (Z.leb_spec 1 (1 - i)); [lia|]. apply orb_false_r.
Qed.

(** ** The position hash determines the position *)

Local Open Scope string_scope.

Lemma append_assoc (a b c : string) : (a ++ b) ++ c = a ++ (b ++ c).
Proof. induction a as [|x a IH]; simpl; [done|]. by rewrite IH. Qed.

Lemma noDash_uint_NilEmpty d : noDash (NilEmpty.string_of_uint d) = true.
Proof. induction d; simpl; done. Qed.

Lemma noDash_uint d : noDash (NilZero.string_of_uint d) = true.
Proof. destruct d; try done; apply (noDash_uint_NilEmpty (_ _)). Qed.

Lemma string_of_uint_head d :
  exists c rest, NilZero.string_of_uint d = String c rest /\ c <> "-"%char.
Proof. destruct d; simpl; eexists _, _; (split; [reflexivity|done]). Qed.

Lemma noDash_split a b r1 r2 :
  noDash a = true -> noDash b = true ->
  a ++ String "-" r1 = b ++ String "-" r2 -> a = b /\ r1 = r2.
Proof.
  revert b. induction a as [|x a IH]; intros [|y b] Ha Hb E; simpl in *.
  - by simplify_eq.
  - injection E as <- _. cbn in Hb. done.
  - injection E as -> _. cbn in Ha. done.
  - apply andb_true_iff in Ha as [_ Ha]. apply andb_true_iff in Hb as [_ Hb].
    injection E as -> E. destruct (IH b Ha Hb E) as [-> ->]. done.
Qed.

Lemma showZ_inj a b : showZ a = showZ b -> a = b.
Proof.
  unfold showZ. intros E. apply to_int_inj.
  assert (Hnn : forall z, Z.to_int z <> Decimal.Pos Decimal.Nil /\
                          Z.to_int z <> Decimal.Neg Decimal.Nil).
  { intros [|p|p]; cbn; split; try done; intros [= H];
      by apply Unsigned.to_uint_nonnil in H. }
  destruct (Hnn a) as [Ha1 Ha2], (Hnn b) as [Hb1 Hb2].
  pose proof (NilZero.isi _ Ha1 Ha2) as Ea.
  pose proof (NilZero.isi _ Hb1 Hb2) as Eb.
  rewrite E in Ea. congruence.
Qed.

Lemma showZ_split a b r1 r2 :
  showZ a ++ String "-" r1 = showZ b ++ String "-" r2 -> a = b /\ r1 = r2.
Proof.
  intros E. assert (showZ a = showZ b /\ r1 = r2) as [Hs ->];
    [|split; [by apply showZ_inj|done]].
  revert E. unfold showZ.
  destruct (Z.to_int a) as [da|da], (Z.to_int b) as [db|db]; cbn; intros E.
  - apply noDash_split in E; [done|apply noDash_uint..].
  - destruct (string_of_uint_head da) as (c & r & Hc & Hne).
    rewrite Hc in E. cbn in E. congruence.
  - destruct (string_of_uint_head db) as (c & r & Hc & Hne).
    rewrite Hc in E. cbn in E. congruence.
  - injection E as E. apply noDash_split in E as [-> ->];
      [done|apply noDash_uint..].
Qed.

Lemma joinFields_app f1 f2 rest :
  joinFields (f1 ++ f2)%list rest = joinFields f1 (joinFields f2 rest).
Proof. unfold joinFields. apply foldr_app. Qed.

Lemma joinFields_inj f1 f2 r1 r2 :
  length f1 = length f2 ->
  joinFields f1 r1 = joinFields f2 r2 -> f1 = f2 /\ r1 = r2.
Proof.
  revert f2. induction f1 as [|a f1 IH]; intros [|b f2] Hlen E;
    simplify_eq/=; [done|].
  apply showZ_split in E as [-> E]. by destruct (IH f2 Hlen E) as [-> ->].
Qed.

Lemma hash_fold_join (a b : Z -> Z) idx h0 rest :
  fold_left (fun hash i => hash ++ (showZ (a i) ++ "-" ++ showZ (b i) ++ "-"))
            idx h0 ++ rest
  = h0 ++ joinFields (flat_map (fun i => [a i; b i]) idx) rest.
Proof.
  revert h0. induction idx as [|i idx IH]; intros h0; [done|].
  cbn [fold_left flat_map]. rewrite IH.
  rewrite !append_assoc. cbn. rewrite ?append_assoc. done.
Qed.

Lemma hashPosition_join gameState :
  hashPosition gameState
  = joinFields (hashFields gameState) (showZ (player2 (bearoff gameState))).
Proof.
  unfold hashPosition, hashFields. cbv zeta.
  rewrite joinFields_app.
  rewrite !append_assoc.
  rewrite (hash_fold_join
             (fun i => playerCode (point_player (pointAt (board gameState) i)))
             (fun i => point_count (pointAt (board gameState) i))).
  cbn. rewrite ?append_assoc. done.
Qed.

Local Close Scope string_scope.

Lemma flat_map_pair_inj {A} (a b a' b' : A -> Z) idx :
  flat_map (fun i => [a i; b i]) idx = flat_map (fun i => [a' i; b' i]) idx ->
  forall i, In i idx -> a i = a' i /\ b i = b' i.
Proof.
  induction idx as [|j idx IH]; intros E i Hi; [done|].
  cbn in E. injection E as E1 E2 E. destruct Hi as [->|Hi]; [done|].
  by apply IH.
Qed.

Lemma playerCode_inj o1 o2 : playerCode o1 = playerCode o2 -> o1 = o2.
Proof. destruct o1 as [[]|], o2 as [[]|]; cbn; intros; done || lia. Qed.

Lemma hashPosition_sameKey s1 s2 :
  hashPosition s1 = hashPosition s2 -> sameKey s1 s2.
Proof.
  rewrite !hashPosition_join. intros E.
  apply joinFields_inj in E as [Ef El]; [|reflexivity].
  apply showZ_inj in El. unfold hashFields in Ef.
  apply app_inj_1 in Ef as [Ep Eb]; [|reflexivity].
  injection Eb as Eb1 Eb2 Eo1.
  split; [|split].
  - intros i Hi.
    destruct (flat_map_pair_inj _ _ _ _ _ Ep i) as [Hpl Hct].
    { apply list_elem_of_In, elem_of_rangeUp. done. }
    apply playerCode_inj in Hpl.
    destruct (pointAt (board s1) i), (pointAt (board s2) i); cbn in *; congruence.
  - destruct (bar s1), (bar s2); cbn in *; congruence.
  - destruct (bearoff s1), (bearoff s2); cbn in *; congruence.
Qed.

(** ** The evaluator reads nothing but what the hash prints *)

Lemma fold_left_ext_In {A B} (f g : A -> B -> A) l a :
  (forall acc x, In x l -> f acc x = g acc x) ->
  fold_left f l a = fold_left g l a.
Proof.
  revert a. induction l as [|x l IH]; intros a H; [done|]. simpl.
  rewrite (H a x) by (by left). apply IH. intros acc y Hy. apply H. by right.
Qed.

Lemma existsb_ext_In {A} (f g : A -> bool) l :
  (forall x, In x l -> f x = g x) -> existsb f l = existsb g l.
Proof.
  induction l as [|x l IH]; intros H; [done|]. simpl.
  rewrite (H x) by (by left). rewrite IH; [done|].
  intros y Hy. apply H. by right.
Qed.

Section SameKey.
Variables s1 s2 : GameState.
Hypothesis Hkey : sameKey s1 s2.
Hypothesis Hlen1 : length (board s1) = 25%nat.
Hypothesis Hlen2 : length (board s2) = 25%nat.

Local Lemma key_point i :
  1 <= i <= 24 -> pointAt (board s1) i = pointAt (board s2) i.
Proof using All. apply Hkey. Qed.

Local Lemma key_bar : bar s1 = bar s2.
Proof using All. apply Hkey. Qed.

Local Lemma key_bearoff : bearoff s1 = bearoff s2.
Proof using All. apply Hkey. Qed.

Local Lemma key_lookup i :
  1 <= i <= 24 -> board s1 !! Z.to_nat i = board s2 !! Z.to_nat i.
Proof using All.
  intros Hi. rewrite !lookup_pointAt by lia. by rewrite key_point.
Qed.

Local Lemma key_hasCheckers player i :
  1 <= i <= 24 -> hasCheckers s1 player i = hasCheckers s2 player i.
Proof using All. intros Hi. unfold hasCheckers. by rewrite key_point. Qed.

Local Lemma key_isMadePoint player i :
  1 <= i <= 24 -> isMadePoint s1 player i = isMadePoint s2 player i.
Proof using All. intros Hi. unfold isMadePoint. by rewrite key_point. Qed.

Local Lemma key_isBlot player i :
  1 <= i <= 24 -> isBlot s1 player i = isBlot s2 player i.
Proof using All. intros Hi. unfold isBlot. by rewrite key_point. Qed.

(** Rewrites every read of [s1] at a loop index into the read of [s2]. *)
Ltac key_step :=
  intros;
  repeat match goal with
         | H : In _ (rangeUp _ _) |- _ => apply In_rangeUp in H
         end;
  rewrite ?key_hasCheckers, ?key_isMadePoint, ?key_isBlot, ?key_point,
    ?key_bar, ?key_bearoff by lia;
  try reflexivity.

Local Lemma key_allHome player :
  allCheckersInHomeBoardForAI s1 player = allCheckersInHomeBoardForAI s2 player.
Proof using All.
  unfold allCheckersInHomeBoardForAI. rewrite key_bar.
  destruct (_ <? _); [done|].
  destruct player; f_equal; apply existsb_ext_In; key_step.
Qed.

Local Lemma key_pips player :
  calculatePipCount s1 player = calculatePipCount s2 player.
Proof using All.
  unfold calculatePipCount. rewrite key_bar.
  destruct player; cbv zeta; f_equal; apply fold_left_ext_In; key_step.
Qed.

Local Lemma key_primes player :
  evaluatePrimes s1 player = evaluatePrimes s2 player.
Proof using All.
  unfold evaluatePrimes.
  replace (fold_left (fun scan i => primeStep scan (isMadePoint s1 player i))
             (rangeUp 1 24) (mkPrimeScan 0 0 0 0))
    with (fold_left (fun scan i => primeStep scan (isMadePoint s2 player i))
            (rangeUp 1 24) (mkPrimeScan 0 0 0 0)); [done|].
  apply fold_left_ext_In; key_step.
Qed.

Local Lemma key_anchors player :
  evaluateAnchors s1 player = evaluateAnchors s2 player.
Proof using All.
  unfold evaluateAnchors. destruct player; apply fold_left_ext_In; key_step.
Qed.

Local Lemma key_canBeHit player i :
  canBeHit s1 player i = canBeHit s2 player i.
Proof using All.
  unfold canBeHit. cbv zeta. rewrite key_bar. f_equal.
  apply existsb_ext_In; key_step.
Qed.

Local Lemma key_blots player :
  evaluateBlotSafety s1 player = evaluateBlotSafety s2 player.
Proof using All.
  unfold evaluateBlotSafety. apply fold_left_ext_In; key_step.
  by rewrite key_canBeHit.
Qed.

Local Lemma key_phase : detectGamePhase s1 = detectGamePhase s2.
Proof using All.
  unfold detectGamePhase, isPrimingOrBlitzing.
  by rewrite !key_primes, !key_blots, !key_allHome, !key_pips, !key_bar.
Qed.

Local Lemma key_distribution player :
  calculateDistribution s1 player = calculateDistribution s2 player.
Proof using All.
  unfold calculateDistribution. cbv zeta.
  replace (fold_left _ (rangeUp 1 24) (mkDistributionScan 0 0 (-1)))
    with (fold_left
            (fun scan i =>
               if hasCheckers s2 player i
               then
                 mkDistributionScan
                   (ds_occupiedPoints scan + 1)
                   (if negb (ds_lastOccupied scan =? -1)
                       && (1 <? i - ds_lastOccupied scan)
                    then ds_gaps scan + (i - ds_lastOccupied scan - 1)
                    else ds_gaps scan)
                   i
               else scan)
            (rangeUp 1 24) (mkDistributionScan 0 0 (-1))); [done|].
  apply fold_left_ext_In; key_step.
Qed.

Local Lemma key_noContact :
  hasNoContactOnPlayer2Side s1 = hasNoContactOnPlayer2Side s2.
Proof using All.
  unfold hasNoContactOnPlayer2Side. rewrite key_bar.
  replace (existsb (hasCheckers s1 Player1) (rangeUp 1 12))
    with (existsb (hasCheckers s2 Player1) (rangeUp 1 12)); [done|].
  apply existsb_ext_In; key_step.
Qed.

Local Lemma key_keyPoints :
  evaluateKeyPointControl s1 = evaluateKeyPointControl s2.
Proof using All.
  unfold evaluateKeyPointControl. apply fold_left_ext_In.
  intros acc x Hx. rewrite key_lookup; [done|].
  unfold KEY_POINT_PRIORITIES in Hx. cbn in Hx.
  destruct Hx as [<-|[<-|[<-|[<-|[<-|[<-|[]]]]]]]; cbn; lia.
Qed.

Local Lemma key_structure player :
  evaluateHomeBoardStructure s1 player = evaluateHomeBoardStructure s2 player.
Proof using All.
  unfold evaluateHomeBoardStructure. cbv zeta.
  destruct player.
  - replace (fold_left _ (rangeUp 19 24) (mkStructureScan 0 0 0 (-1)))
      with (fold_left
              (fun scan i =>
                 if isMadePoint s2 Player1 i
                 then
                   mkStructureScan
                     (ss_structureScore scan + (i - 18) * 3)
                     (ss_madePoints scan + 1)
                     (if negb (ss_lastPoint scan =? -1)
                         && (1 <? i - ss_lastPoint scan)
                      then ss_gaps scan + (i - ss_lastPoint scan - 1)
                      else ss_gaps scan)
                     i
                 else scan)
              (rangeUp 19 24) (mkStructureScan 0 0 0 (-1))); [done|].
    apply fold_left_ext_In; key_step.
  - replace (fold_left _ (rangeUp 1 6) (mkStructureScan 0 0 0 (-1)))
      with (fold_left
              (fun scan i =>
                 if isMadePoint s2 Player2 i
                 then
                   mkStructureScan
                     (ss_structureScore scan + (7 - i) * 3)
                     (ss_madePoints scan + 1)
                     (if negb (ss_lastPoint scan =? -1)
                         && (1 <? i - ss_lastPoint scan)
                      then ss_gaps scan + (i - ss_lastPoint scan - 1)
                      else ss_gaps scan)
                     i
                 else scan)
              (rangeUp 1 6) (mkStructureScan 0 0 0 (-1))); [done|].
    apply fold_left_ext_In; key_step.
Qed.

(** Replaces a loop over the board of [s1] by the same loop over [s2]. *)
Ltac key_fold :=
  match goal with
  | |- context [fold_left ?f1 (rangeUp ?lo ?hi) ?a] =>
      match goal with
      | |- context [fold_left ?f2 (rangeUp lo hi) a] =>
          lazymatch f1 with
          | f2 => fail
          | _ =>
              replace (fold_left f1 (rangeUp lo hi) a)
                with (fold_left f2 (rangeUp lo hi) a)
                by (apply fold_left_ext_In; key_step)
          end
      end
  end.

Local Lemma key_crunching player :
  evaluateCrunching s1 player = evaluateCrunching s2 player.
Proof using All.
  unfold evaluateCrunching. cbv zeta. rewrite key_allHome.
  key_fold. reflexivity.
Qed.

Local Lemma key_pipWeight baseWeight phase :
  calculateDynamicPipWeight s1 baseWeight phase
  = calculateDynamicPipWeight s2 baseWeight phase.
Proof using All.
  unfold calculateDynamicPipWeight. cbv zeta.
  rewrite !key_pips, key_bearoff.
  repeat key_fold. reflexivity.
Qed.

Local Lemma key_weights phase : phaseWeights s1 phase = phaseWeights s2 phase.
Proof using All.
  unfold phaseWeights. destruct phase; by rewrite key_pipWeight.
Qed.

Local Lemma key_scoreFeatures : scoreFeatures s1 = scoreFeatures s2.
Proof using All.
  unfold scoreFeatures, calculateRaceCount. cbv zeta.
  rewrite key_phase, key_weights, !key_pips, key_bar, key_bearoff,
    !key_structure, !key_blots, !key_primes, !key_anchors,
    !key_distribution, !key_crunching, key_keyPoints, key_noContact.
  repeat key_fold. reflexivity.
Qed.

Lemma sameKey_scorePosition : scorePosition s1 = scorePosition s2.
Proof using All.
  unfold scorePosition. by rewrite key_bearoff, key_scoreFeatures.
Qed.
End SameKey.

(** ** The cache is transparent *)

Lemma mapGet_In key entries value :
  mapGet key entries = Some value -> In (key, value) entries.
Proof.
  induction entries as [|[k v] entries IH]; cbn; [done|].
  destruct (String.eqb_spec k key) as [->|Hne].
  - intros [= ->]. by left.
  - intros H. right. by apply IH.
Qed.

Lemma In_mapSet key value entries k v :
  In (k, v) (mapSet key value entries) ->
  (k, v) = (key, value) \/ In (k, v) entries.
Proof.
  induction entries as [|[k0 v0] entries IH]; cbn.
  - intros [H|[]]. by left.
  - destruct (String.eqb_spec k0 key) as [->|Hne]; cbn.
    + intros [H|H]; [by left|right; by right].
    + intros [H|H]; [right; by left|].
      destruct (IH H) as [?|?]; [by left|right; by right].
Qed.

Lemma In_mapDelete key entries k v :
  In (k, v) (mapDelete key entries) -> In (k, v) entries.
Proof.
  induction entries as [|[k0 v0] entries IH]; cbn; [done|].
  destruct (String.eqb_spec k0 key) as [->|Hne]; cbn.
  - intros H. by right.
  - intros [H|H]; [by left|right; by apply IH].
Qed.

Lemma updateCache_sound gameState st :
  length (board gameState) = 25%nat -> cacheSound st ->
  cacheSound (updateCache (hashPosition gameState) (scorePosition gameState) st).
Proof.
  intros Hlen Hsound key value Hin. unfold updateCache in Hin. cbn in Hin.
  apply In_mapSet in Hin as [[= -> ->]|Hin]; [by exists gameState|].
  apply Hsound.
  destruct (_ <=? _); [|done].
  destruct (positionCache st) as [|[k0 v0] rest]; [done|].
  by apply In_mapDelete in Hin.
Qed.

Lemma evaluatePosition_miss gameState st :
  mapGet (hashPosition gameState) (positionCache st) = None ->
  evaluatePosition gameState st
  = (scorePosition gameState,
     updateCache (hashPosition gameState) (scorePosition gameState)
       (mkAIState (positionCache st) (cacheHits st) (cacheMisses st + 1))).
Proof.
  intros Hmiss. unfold evaluatePosition, scorePosition. rewrite Hmiss.
  destruct (_ =? 15); [done|]. destruct (_ =? 15); done.
Qed.

(** On a sound cache the evaluator returns what it computes afresh, and
    leaves a sound cache. *)
Lemma evaluatePosition_sound gameState st :
  length (board gameState) = 25%nat -> cacheSound st ->
  (evaluatePosition gameState st).1 = scorePosition gameState /\
  cacheSound (evaluatePosition gameState st).2.
Proof.
  intros Hlen Hsound.
  destruct (mapGet (hashPosition gameState) (positionCache st)) as [cached|]
    eqn:Hget.
  - unfold evaluatePosition. rewrite Hget. cbn. split; [|done].
    apply mapGet_In, Hsound in Hget as (other & Hlen' & Hhash & <-).
    apply sameKey_scorePosition; [|done|done].
    by apply hashPosition_sameKey.
  - rewrite evaluatePosition_miss by done. cbn [fst snd]. split; [done|].
    by apply (updateCache_sound gameState
                (mkAIState (positionCache st) (cacheHits st) (cacheMisses st + 1))).
Qed.

Lemma reachable_sound st : reachable st -> cacheSound st.
Proof.
  induction 1 as [|st gameState _ IH Hlen].
  - intros key value [].
  - by apply evaluatePosition_sound.
Qed.

Lemma evaluatePosition_empty gameState :
  (evaluatePosition gameState emptyAIState).1 = scorePosition gameState.
Proof. by rewrite evaluatePosition_miss. Qed.

Lemma transparent_ret {A} (a : A) : transparent (ret a).
Proof. exists a. intros st Hst. done. Qed.

Lemma transparent_bind {A B} (m : AI A) (k : A -> AI B) :
  transparent m -> (forall a, transparent (k a)) -> transparent (bind m k).
Proof.
  intros [a Hm] Hk. destruct (Hk a) as [b Hb]. exists b. intros st Hst.
  unfold bind. destruct (Hm st Hst) as [Ha Hst'].
  destruct (m st) as [a' st']. cbn in *. subst a'. by apply Hb.
Qed.

Lemma transparent_evaluatePosition gameState :
  length (board gameState) = 25%nat -> transparent (evaluatePosition gameState).
Proof.
  intros Hlen. exists (scorePosition gameState). intros st Hst.
  by apply evaluatePosition_sound.
Qed.

Lemma transparent_mapAI {A B} (f : A -> AI B) l :
  (forall a, In a l -> transparent (f a)) -> transparent (mapAI f l).
Proof.
  induction l as [|a l IH]; intros Hf; cbn [mapAI].
  - apply transparent_ret.
  - apply transparent_bind; [apply Hf; by left|]. intros b.
    apply transparent_bind; [apply IH; intros; apply Hf; by right|].
    intros bs. apply transparent_ret.
Qed.

Lemma simulateMove_length gameState from to die player :
  length (board (simulateMove gameState from to die player))
  = length (board gameState).
Proof.
  unfold simulateMove. rewrite cloneState_id.
  destruct from, to; cbn [board withBar withBearoff];
    rewrite ?landChecker_length, ?liftChecker_length; done.
Qed.

Lemma applyMove_length player acc move :
  length (board (state (applyMove player acc move)))
  = length (board (state acc)).
Proof. unfold applyMove. cbn. apply simulateMove_length. Qed.

Lemma applySequenceAndScore_length gameState sequence player :
  length (board (state (applySequenceAndScore gameState sequence player)))
  = length (board gameState).
Proof.
  unfold applySequenceAndScore. rewrite cloneState_id.
  assert (H : forall acc,
            length (board (state (fold_left (applyMove player) sequence acc)))
            = length (board (state acc))); [|apply H].
  induction sequence as [|move sequence IH]; intros acc; [done|].
  cbn [fold_left]. rewrite IH. apply applyMove_length.
Qed.

Lemma transparent_orderMovesByEvaluation sequences gameState player :
  length (board gameState) = 25%nat ->
  transparent (orderMovesByEvaluation sequences gameState player).
Proof.
  intros Hlen. unfold orderMovesByEvaluation.
  apply transparent_bind; [|intros; apply transparent_ret].
  apply transparent_mapAI. intros sequence _.
  destruct (isEmptySequence sequence); [apply transparent_ret|].
  apply transparent_bind; [|intros; apply transparent_ret].
  apply transparent_evaluatePosition.
  by rewrite applySequenceAndScore_length.
Qed.

Lemma transparent_lookaheadLoop recur gameState player sequences :
  length (board gameState) = 25%nat ->
  (forall s p alpha beta,
     length (board s) = 25%nat -> transparent (recur s p alpha beta)) ->
  forall alpha beta bestScore,
    transparent
      (lookaheadLoop recur gameState player sequences alpha beta bestScore).
Proof.
  intros Hlen Hrecur.
  induction sequences as [|sequence rest IH]; intros alpha beta bestScore;
    cbn [lookaheadLoop].
  - apply transparent_ret.
  - destruct (isEmptySequence sequence); [apply IH|].
    apply transparent_bind.
    + apply Hrecur. by rewrite applySequenceAndScore_length.
    + intros deep. destruct player; cbv zeta;
        destruct (scoreLeb _ _); apply transparent_ret || apply IH.
Qed.

Lemma transparent_evaluateWithLookahead depth :
  forall gameState player alpha beta,
    length (board gameState) = 25%nat ->
    transparent (evaluateWithLookahead depth gameState player alpha beta).
Proof.
  induction depth as [|depth IH]; intros gameState player alpha beta Hlen;
    cbn [evaluateWithLookahead].
  - apply transparent_bind; [by apply transparent_evaluatePosition|].
    intros; apply transparent_ret.
  - destruct (_ =? 15); [apply transparent_ret|].
    destruct (_ =? 15); [apply transparent_ret|].
    assert (Hleaf : transparent
              (score <- evaluatePosition gameState;; ret (Finite score))).
    { apply transparent_bind; [by apply transparent_evaluatePosition|].
      intros; apply transparent_ret. }
    destruct (availableMoves gameState); [exact Hleaf|].
    destruct (noMoveSequences _); [exact Hleaf|].
    apply transparent_bind; [by apply transparent_orderMovesByEvaluation|].
    intros ordered. apply transparent_lookaheadLoop; [done|].
    intros s p a b Hs. by apply IH.
Qed.

Lemma transparent_selectBest gameState player useSearch sequences :
  length (board gameState) = 25%nat ->
  forall bestSequence bestScore,
    transparent
      (selectBest gameState player useSearch sequences bestSequence bestScore).
Proof.
  intros Hlen.
  induction sequences as [|sequence rest IH]; intros bestSequence bestScore;
    cbn [selectBest].
  - apply transparent_ret.
  - destruct (isEmptySequence sequence); [apply IH|].
    apply transparent_bind.
    + destruct useSearch.
      * apply transparent_evaluateWithLookahead.
        by rewrite applySequenceAndScore_length.
      * apply transparent_bind; [|intros; apply transparent_ret].
        apply transparent_evaluatePosition.
        by rewrite applySequenceAndScore_length.
    + intros base. cbv zeta.
      destruct (scoreLtb (Finite 50000) _); [apply transparent_ret|apply IH].
Qed.

Lemma transparent_getBestMove gameState :
  length (board gameState) = 25%nat -> transparent (getBestMove gameState).
Proof.
  intros Hlen. unfold getBestMove. cbv zeta.
  destruct (if _ && _ then _ else _); [apply transparent_ret|].
  destruct (noMoveSequences _); [apply transparent_ret|].
  apply transparent_bind; [by apply transparent_orderMovesByEvaluation|].
  intros ordered.
  apply transparent_bind; [by apply transparent_selectBest|].
  intros best. apply transparent_ret.
Qed.

Lemma transparent_from_empty {A} (m : AI A) st :
  transparent m -> cacheSound st -> (m st).1 = (m emptyAIState).1.
Proof.
  intros [a Ha] Hst.
  destruct (Ha st Hst) as [-> _].
  destruct (Ha emptyAIState) as [-> _]; [|done].
  intros key value [].
Qed.

(** C8.  The transposition cache is transparent.  In any cache state reached
    from the empty cache by evaluations and searches (first-in-first-out
    eviction included), [evaluatePosition] returns the score computed from
    scratch, which is what it returns on the empty cache, and [getBestMove]
    selects the sequence it selects on the empty cache. *)
Theorem cache_transparent st gameState :
  reachable st ->
  length (board gameState) = 25%nat ->
  (evaluatePosition gameState st).1 = scorePosition gameState /\
  (evaluatePosition gameState st).1
  = (evaluatePosition gameState emptyAIState).1 /\
  (getBestMove gameState st).1 = (getBestMove gameState emptyAIState).1.
Proof.
  intros Hreach Hlen. apply reachable_sound in Hreach.
  split; [by apply evaluatePosition_sound|].
  split.
  - apply transparent_from_empty; [|done].
    by apply transparent_evaluatePosition.
  - apply transparent_from_empty; [|done].
    by apply transparent_getBestMove.
Qed.

Lemma cache_transparent_witness :
  (evaluatePosition hitLateState
     (evaluatePosition (withAvailableMoves hitLateState []) emptyAIState).2).1
  = scorePosition hitLateState.
Proof.
  apply (cache_transparent
           (evaluatePosition (withAvailableMoves hitLateState []) emptyAIState).2
           hitLateState).
  - apply reachable_evaluate; [apply reachable_empty|reflexivity].
  - reflexivity.
Defined.

(** ** Move ordering *)

Lemma Qltb_irrefl a : Qltb a a = false.
Proof.
  unfold Qltb. apply negb_false_iff, Qle_bool_iff, Qle_refl.
Qed.

Lemma Qltb_false_trans a b c :
  Qltb a b = false -> Qltb b c = false -> Qltb a c = false.
Proof.
  unfold Qltb. rewrite !negb_false_iff, !Qle_bool_iff.
  intros H1 H2. eapply Qle_trans; eauto.
Qed.

Lemma Qltb_total a b : Qltb a b = true -> Qltb b a = false.
Proof.
  unfold Qltb. rewrite negb_true_iff, negb_false_iff, Qle_bool_iff.
  intros H. destruct (Qlt_le_dec b a) as [Hlt|Hle].
  - apply Qlt_le_weak in Hlt. apply Qle_bool_iff in Hlt. congruence.
  - done.
Qed.

Lemma scoreLeb_trans a b c :
  scoreLeb a b = true -> scoreLeb b c = true -> scoreLeb a c = true.
Proof.
  unfold scoreLeb. rewrite !negb_true_iff.
  destruct a, b, c; cbn; try done. intros. eapply Qltb_false_trans; eauto.
Qed.

Lemma scoreLtb_scoreLeb a b : scoreLtb a b = true -> scoreLeb a b = true.
Proof.
  unfold scoreLeb. rewrite negb_true_iff.
  destruct a, b; cbn; try done. apply Qltb_total.
Qed.

Lemma insertByScore_perm item sorted :
  Permutation (insertByScore item sorted) (item :: sorted).
Proof.
  induction sorted as [|other rest IH]; cbn; [done|].
  destruct (scoreLtb _ _); [|done].
  rewrite IH. apply perm_swap.
Qed.

Lemma sortByScore_perm items : Permutation (sortByScore items) items.
Proof.
  induction items as [|item items IH]; cbn; [done|].
  rewrite insertByScore_perm. by constructor.
Qed.

Lemma insertByScore_sorted item sorted :
  StronglySorted descending sorted ->
  StronglySorted descending (insertByScore item sorted).
Proof.
  induction 1 as [|other rest Hrest IH Hall]; cbn.
  - repeat constructor.
  - destruct (scoreLtb item.2 other.2) eqn:Hlt.
    + constructor; [done|].
      eapply Permutation_Forall; [symmetry; apply insertByScore_perm|].
      constructor; [|done]. by apply scoreLtb_scoreLeb.
    + constructor; [by constructor|].
      assert (descending item other) as Hio
        by (unfold descending, scoreLeb; by rewrite Hlt).
      constructor; [done|].
      eapply Forall_impl; [exact Hall|]. intros x Hx. cbv beta in Hx.
      unfold descending in *. eapply scoreLeb_trans; eauto.
Qed.

Lemma sortByScore_sorted items : StronglySorted descending (sortByScore items).
Proof.
  induction items as [|item items IH]; cbn; [constructor|].
  by apply insertByScore_sorted.
Qed.

Lemma truncateTo_take limit l :
  0 <= limit -> truncateTo limit l = take (Z.to_nat limit) l.
Proof.
  intros Hl. unfold truncateTo. destruct (Z.ltb_spec limit (Z.of_nat (length l))).
  - done.
  - symmetry. apply take_ge. lia.
Qed.

Lemma mapAI_sound {A B} (f : A -> AI B) (g : A -> B) l st :
  (forall a st, cacheSound st -> (f a st).1 = g a /\ cacheSound (f a st).2) ->
  cacheSound st ->
  (mapAI f l st).1 = map g l /\ cacheSound (mapAI f l st).2.
Proof.
  intros Hf. revert st. induction l as [|a l IH]; intros st Hst; [done|].
  cbn [mapAI]. unfold bind.
  destruct (Hf a st Hst) as [Ha Hst1]. destruct (f a st) as [b st1].
  cbn in Ha, Hst1. subst b.
  destruct (IH st1 Hst1) as [Hl Hst2]. destruct (mapAI f l st1) as [bs st2].
  cbn in *. by subst bs.
Qed.

Lemma orderMovesByEvaluation_sound sequences gameState player st :
  length (board gameState) = 25%nat -> cacheSound st ->
  (orderMovesByEvaluation sequences gameState player st).1
  = map fst (sortByScore
               (map (fun sequence =>
                       (sequence, shallowScore gameState player sequence))
                    sequences)).
Proof.
  intros Hlen Hst. unfold orderMovesByEvaluation, bind.
  match goal with |- context [mapAI ?f sequences st] =>
    destruct (mapAI_sound f
                (fun sequence =>
                   (sequence, shallowScore gameState player sequence))
                sequences st) as [Hmap _]; [|done|]
  end.
  - intros sequence st' Hst'. unfold shallowScore.
    destruct (isEmptySequence sequence); [done|]. unfold bind.
    destruct (evaluatePosition_sound
                (state (applySequenceAndScore gameState sequence player)) st')
      as [Hval Hsound]; [by rewrite applySequenceAndScore_length|done|].
    destruct (evaluatePosition _ st') as [v st'']. cbn in *. by subst v.
  - destruct (mapAI _ sequences st) as [scored st']. cbn in *. by subst scored.
Qed.

(** C6, as the code has it.  [getBestMove] first cuts the generated list
    down to its first 20 sequences, in the order of generation, and only
    then scores and sorts: the ordered candidates are a permutation of the
    first 20 generated sequences, in descending order of shallow score. *)
Theorem order_after_truncation st gameState :
  reachable st ->
  length (board gameState) = 25%nat ->
  let generated :=
    generateAllMoveSequences gameState (availableMoves gameState) Player2 in
  let ordered :=
    (orderMovesByEvaluation (sequencesToEvaluate gameState) gameState
       Player2 st).1 in
  sequencesToEvaluate gameState = take 20 generated /\
  Permutation ordered (take 20 generated) /\
  StronglySorted
    (fun a b =>
       scoreLeb (shallowScore gameState Player2 b)
                (shallowScore gameState Player2 a) = true)
    ordered.
Proof.
  intros Hreach Hlen generated ordered. apply reachable_sound in Hreach.
  assert (Hkeep : sequencesToEvaluate gameState = take 20 generated).
  { unfold sequencesToEvaluate. by rewrite truncateTo_take. }
  split; [done|]. subst ordered.
  rewrite orderMovesByEvaluation_sound by done. rewrite Hkeep.
  set (scored := map (fun sequence =>
                        (sequence, shallowScore gameState Player2 sequence))
                     (take 20 generated)).
  split.
  - rewrite sortByScore_perm. subst scored. rewrite map_map. cbn.
    by rewrite map_id.
  - assert (Hall : Forall (fun item : Scored =>
                             item.2 = shallowScore gameState Player2 item.1)
                     (sortByScore scored)).
    { eapply Permutation_Forall; [symmetry; apply sortByScore_perm|].
      subst scored. apply Forall_forall. intros item Hitem.
      apply list_elem_of_In, in_map_iff in Hitem as (s & <- & _). done. }
    pose proof (sortByScore_sorted scored) as Hsorted.
    induction Hsorted as [|item rest Hrest IH Hfirst]; cbn; [constructor|].
    apply Forall_cons in Hall as [Hitem Hall].
    constructor; [by apply IH|].
    apply Forall_forall. intros s Hs.
    apply list_elem_of_In, in_map_iff in Hs as (other & <- & Hother).
    rewrite Forall_forall in Hfirst, Hall.
    apply list_elem_of_In in Hother.
    specialize (Hfirst _ Hother). unfold descending in Hfirst.
    by rewrite <- Hitem, <- (Hall _ Hother).
Qed.

Lemma order_after_truncation_witness :
  Permutation
    (orderMovesByEvaluation (sequencesToEvaluate hitLateState) hitLateState
       Player2 emptyAIState).1
    (take 20 (generateAllMoveSequences hitLateState [3; 1] Player2)).
Proof.
  apply (order_after_truncation emptyAIState hitLateState
           reachable_empty eq_refl).
Defined.

(** C6, as the claim has it: with 31 sequences generated, the two that hit
    the blot on point 20 are generated last, score far above every kept
    candidate, and are not among the candidates. *)
Lemma order_counterexample :
  let generated := generateAllMoveSequences hitLateState [3; 1] Player2 in
  let kept :=
    (orderMovesByEvaluation (sequencesToEvaluate hitLateState) hitLateState
       Player2 emptyAIState).1 in
  let best :=
    [mkMove (FromPoint 24) (ToPoint 23) 1; mkMove (FromPoint 23) (ToPoint 20) 3]
  in
  (20 < length generated)%nat /\
  In best generated /\
  ~ In best kept /\
  Forall
    (fun sequence =>
       scoreLtb (shallowScore hitLateState Player2 sequence)
                (shallowScore hitLateState Player2 best) = true)
    kept.
Proof.
  cbv zeta. split; [vm_compute; lia|]. split; [vm_compute; tauto|]. split.
  - intros H. apply list_elem_of_In in H. revert H.
    apply (bool_decide_eq_false_1 _). vm_compute. reflexivity.
  - apply Forall_forall. intros s Hs.
    apply (bool_decide_eq_true_1 _). revert s Hs. apply Forall_forall.
    apply (bool_decide_eq_true_1 _). vm_compute. reflexivity.
Qed.

(** ** The simulator on the heap *)

Lemma prefix_insert_fresh {A} (l0 l : list A) i x :
  l0 `prefix_of` l -> (length l0 <= i)%nat -> l0 `prefix_of` <[i:=x]> l.
Proof.
  intros [k ->] Hi. rewrite insert_app_r_alt by done. by eexists.
Qed.

Lemma extends_refl h : Js.extends h h.
Proof. by repeat split. Qed.

Lemma extends_trans h1 h2 h3 :
  Js.extends h1 h2 -> Js.extends h2 h3 -> Js.extends h1 h3.
Proof.
  intros (?&?&?&?&?) (?&?&?&?&?). repeat split; by etrans.
Qed.

Lemma extends_lengths h h' :
  Js.extends h h' ->
  (length (Js.points h) <= length (Js.points h'))%nat /\
  (length (Js.arrays h) <= length (Js.arrays h'))%nat /\
  (length (Js.sides h) <= length (Js.sides h'))%nat /\
  (length (Js.pools h) <= length (Js.pools h'))%nat /\
  (length (Js.states h) <= length (Js.states h'))%nat.
Proof. intros (?&?&?&?&?). repeat split; by apply prefix_length. Qed.

(** What was readable before the heap grew reads the same after. *)
Lemma snapshot_extends h h' gameState s :
  Js.extends h h' -> Js.snapshot h gameState = Some s ->
  Js.snapshot h' gameState = Some s.
Proof.
  intros (Hp & Ha & Hs & Hd & Hst). unfold Js.snapshot. intros H.
  destruct (Js.states h !! gameState) as [so|] eqn:Eso; [|done].
  rewrite (prefix_lookup_Some _ _ _ _ Eso Hst).
  destruct (Js.arrays h !! Js.so_board so) as [slots|] eqn:Eb; [|done].
  rewrite (prefix_lookup_Some _ _ _ _ Eb Ha).
  destruct (Js.sides h !! Js.so_bar so) as [r|] eqn:Er; [|done].
  rewrite (prefix_lookup_Some _ _ _ _ Er Hs).
  destruct (Js.sides h !! Js.so_bearoff so) as [o|] eqn:Eo; [|done].
  rewrite (prefix_lookup_Some _ _ _ _ Eo Hs).
  destruct (Js.pools h !! Js.so_availableMoves so) as [d|] eqn:Ed; [|done].
  rewrite (prefix_lookup_Some _ _ _ _ Ed Hd).
  destruct (mapM _ slots) as [b|] eqn:Em; [|done].
  apply mapM_Some in Em.
  assert (mapM (fun l => Js.points h' !! l) slots = Some b) as ->; [|done].
  apply mapM_Some. eapply Forall2_impl; [exact Em|].
  intros l p Hl. cbn in *. by eapply prefix_lookup_Some.
Qed.

Lemma represents_snapshot h0 h so s gameState :
  Js.states h !! gameState = Some so -> Js.represents h0 h so s ->
  Js.snapshot h gameState = Some s.
Proof.
  intros Hso [_ (slots & Hb & Hpts & _ & _) _ Hr Ho _ _ _ Hd _ Hcp].
  unfold Js.snapshot. rewrite Hso, Hb, Hr, Ho, Hd.
  apply mapM_Some in Hpts. rewrite Hpts, Hcp. by destruct s.
Qed.

Lemma represents_weaken h0 h1 h so s :
  Js.extends h0 h1 -> Js.represents h1 h so s -> Js.represents h0 h so s.
Proof.
  intros Hext [Hext' (slots & Hb & Hpts & Hnd & Hfresh) ? ? ? ? ? ? ? ? ?].
  destruct (extends_lengths _ _ Hext) as (?&?&?&?&?).
  split; try done; try lia.
  - by eapply extends_trans.
  - exists slots. repeat split; try done.
    eapply Forall_impl; [exact Hfresh|]. intros l Hl. cbn in *. lia.
Qed.

Lemma represents_freshFrom h0 h so s gameState :
  Js.states h !! gameState = Some so ->
  (length (Js.states h0) <= gameState)%nat ->
  Js.represents h0 h so s -> Js.freshFrom h0 h gameState.
Proof.
  intros Hso Hg [_ (slots & Hb & _ & _ & Hfresh) ? _ _ _ ? ? _ ? _].
  exists so, slots. repeat split; done.
Qed.

(** The loop of [cloneState] over the board array. *)
Lemma clone_points_run slots b h :
  Forall2 (fun l p => Js.points h !! l = Some p) slots b ->
  Js.mapRun
    (fun l => Js.bind (Js.readPoint l)
                (fun p => Js.allocPoint (mkPoint (point_player p)
                                                 (point_count p))))
    slots h
  = (Some (seq (length (Js.points h)) (length slots)),
     Js.mkHeap (Js.points h ++ b) (Js.arrays h) (Js.sides h) (Js.pools h)
       (Js.states h)).
Proof.
  intros H. revert b h H. induction slots as [|l slots IH]; intros b h H.
  - apply Forall2_nil_inv_l in H as ->. cbn. rewrite app_nil_r. by destruct h.
  - apply Forall2_cons_inv_l in H as (p & b' & Hl & Hrest & ->).
    cbn [Js.mapRun]. unfold Js.bind at 1 2. unfold Js.readPoint at 1.
    rewrite Hl. cbn [Js.fromOption Js.ret Js.allocPoint].
    unfold Js.bind at 1.
    rewrite (IH b' (Js.mkHeap (Js.points h ++ [mkPoint (point_player p) (point_count p)])
                   (Js.arrays h) (Js.sides h) (Js.pools h) (Js.states h))).
    + cbn [Js.points Js.arrays Js.sides Js.pools Js.states Js.ret length].
      rewrite length_app. cbn [length]. rewrite <- app_assoc. cbn.
      replace (length (Js.points h) + 1)%nat with (S (length (Js.points h)))
        by lia.
      by destruct p.
    + cbn [Js.points]. eapply Forall2_impl; [exact Hrest|].
      intros l' p' Hl'. cbn in *. by apply lookup_app_l_Some.
Qed.

Lemma cloneState_spec h gameState s :
  Js.snapshot h gameState = Some s ->
  exists so h',
    Js.cloneState gameState h = (Some (length (Js.states h)), h') /\
    Js.states h' !! length (Js.states h) = Some so /\
    Js.represents h h' so s.
Proof.
  unfold Js.snapshot. intros H.
  destruct (Js.states h !! gameState) as [so|] eqn:Eso; [|done].
  destruct (Js.arrays h !! Js.so_board so) as [slots|] eqn:Eb; [|done].
  destruct (Js.sides h !! Js.so_bar so) as [r|] eqn:Er; [|done].
  destruct (Js.sides h !! Js.so_bearoff so) as [o|] eqn:Eo; [|done].
  destruct (Js.pools h !! Js.so_availableMoves so) as [d|] eqn:Ed; [|done].
  destruct (mapM _ slots) as [b|] eqn:Em; [|done].
  apply mapM_Some in Em. injection H as <-.
  eexists _, _. split; [|split].
  - unfold Js.cloneState.
    unfold Js.bind at 1. unfold Js.readState. rewrite Eso. cbn [Js.fromOption Js.ret].
    unfold Js.bind at 1. unfold Js.readArray. rewrite Eb. cbn [Js.fromOption Js.ret].
    unfold Js.bind at 1. rewrite (clone_points_run slots b h Em).
    unfold Js.bind at 1. cbn [Js.allocArray Js.points Js.arrays Js.sides Js.pools Js.states].
    unfold Js.bind at 1. unfold Js.readSides at 1. cbn [Js.sides]. rewrite Er.
    cbn [Js.fromOption Js.ret].
    unfold Js.bind at 1. cbn [Js.allocSides Js.points Js.arrays Js.sides Js.pools Js.states].
    unfold Js.bind at 1. unfold Js.readSides at 1. cbn [Js.sides].
    rewrite (lookup_app_l_Some _ _ _ _ Eo). cbn [Js.fromOption Js.ret].
    unfold Js.bind at 1. cbn [Js.allocSides Js.points Js.arrays Js.sides Js.pools Js.states].
    unfold Js.bind at 1. unfold Js.readPool at 1. cbn [Js.pools]. rewrite Ed.
    cbn [Js.fromOption Js.ret].
    unfold Js.bind at 1. cbn [Js.allocPool Js.points Js.arrays Js.sides Js.pools Js.states].
    cbn [Js.allocState Js.points Js.arrays Js.sides Js.pools Js.states].
    reflexivity.
  - cbn [Js.states]. rewrite lookup_app_r by lia. by rewrite Nat.sub_diag.
  - assert (Hlen : length slots = length b) by by eapply Forall2_length.
    split; cbn [Js.so_board Js.so_bar Js.so_bearoff Js.so_availableMoves
                Js.so_currentPlayer Js.points Js.arrays Js.sides Js.pools
                Js.states board bar bearoff availableMoves currentPlayer];
      rewrite ?length_app; cbn [length]; try lia.
    + repeat split; repeat apply prefix_app_r; reflexivity.
    + exists (seq (length (Js.points h)) (length slots)). split; [|split; [|split]].
      * rewrite lookup_app_r by lia. by rewrite Nat.sub_diag.
      * rewrite Hlen. clear. generalize (Js.points h) as pts. intros pts.
        apply Forall2_same_length_lookup. split; [by rewrite length_seq|].
        intros i l p Hl Hp. apply lookup_seq in Hl as [-> _].
        rewrite lookup_app_r by lia.
        by replace (length pts + i - length pts)%nat with i by lia.
      * apply NoDup_seq.
      * apply Forall_forall. intros l Hl. apply elem_of_seq in Hl. lia.
    + rewrite <- app_assoc, lookup_app_r by lia. rewrite Nat.sub_diag. cbn.
      by destruct r.
    + rewrite <- app_assoc, lookup_app_r by lia.
      replace (length (Js.sides h) + 1 - length (Js.sides h))%nat
        with 1%nat by lia. cbn. by destruct o.
    + rewrite lookup_app_r by lia. by rewrite Nat.sub_diag.
    + reflexivity.
Qed.

Lemma slots_write (pts : list Point) slots b i l x :
  Forall2 (fun l p => pts !! l = Some p) slots b ->
  NoDup slots -> slots !! i = Some l ->
  Forall2 (fun l' p => <[l := x]> pts !! l' = Some p) slots (<[i := x]> b).
Proof.
  intros Hpts Hnd Hl.
  apply Forall2_same_length_lookup. split.
  { rewrite length_insert. by eapply Forall2_length. }
  intros j l' p Hl' Hp.
  destruct (decide (j = i)) as [->|Hne].
  - assert (l' = l) as -> by congruence.
    destruct (Forall2_lookup_l _ _ _ _ _ Hpts Hl) as (p0 & Hb & Hp0).
    rewrite list_lookup_insert_eq in Hp by (by eapply lookup_lt_Some).
    injection Hp as <-.
    apply list_lookup_insert_eq. by eapply lookup_lt_Some.
  - rewrite list_lookup_insert_ne in Hp by done.
    assert (l <> l') as Hll.
    { intros <-. apply Hne. by eapply NoDup_lookup. }
    rewrite list_lookup_insert_ne by done.
    by eapply (Forall2_lookup_lr _ _ _ _ _ _ Hpts).
Qed.

Lemma slots_alloc (pts : list Point) slots b i x :
  Forall2 (fun l p => pts !! l = Some p) slots b ->
  NoDup slots -> (i < length slots)%nat ->
  Forall2 (fun l p => (pts ++ [x]) !! l = Some p)
    (<[i := length pts]> slots) (<[i := x]> b) /\
  NoDup (<[i := length pts]> slots).
Proof.
  intros Hpts Hnd Hi.
  assert (Hlt : Forall (fun l => (l < length pts)%nat) slots).
  { apply Forall_forall. intros l Hl.
    apply list_elem_of_lookup in Hl as [j Hj].
    destruct (Forall2_lookup_l _ _ _ _ _ Hpts Hj) as (p & _ & Hp).
    by eapply lookup_lt_Some. }
  split.
  - apply Forall2_insert.
    + eapply Forall2_impl; [exact Hpts|]. intros l p Hl. cbn in *.
      by apply lookup_app_l_Some.
    + rewrite lookup_app_r by lia. by rewrite Nat.sub_diag.
  - rewrite insert_take_drop by done.
    rewrite <- (take_drop_middle slots i (slots !!! i)) in Hnd, Hlt
      by (apply list_lookup_lookup_total_lt; done).
    apply NoDup_app in Hnd as (Hnd1 & Hdisj & Hnd2).
    apply NoDup_cons in Hnd2 as [_ Hnd2].
    apply Forall_app in Hlt as [Hlt1 Hlt2].
    apply Forall_cons in Hlt2 as [_ Hlt2].
    apply NoDup_app. split; [done|]. split.
    + intros l Hl1 Hl2. apply elem_of_cons in Hl2 as [->|Hl2].
      * rewrite Forall_forall in Hlt1. specialize (Hlt1 _ Hl1). lia.
      * apply (Hdisj l Hl1). by right.
    + apply NoDup_cons. split; [|done]. intros Hl.
      rewrite Forall_forall in Hlt2. specialize (Hlt2 _ Hl). lia.
Qed.

Lemma writeBar_represents h0 h so s o :
  Js.represents h0 h so s ->
  Js.represents h0 (Js.writeSides (Js.so_bar so) o h).2 so (withBar s o).
Proof.
  intros [(?&?&?&?&?) Hslots ? Hr Ho Hne ? ? ? ? ?].
  split; cbn [snd Js.writeSides Js.points Js.arrays Js.sides Js.pools Js.states
              board bar bearoff availableMoves currentPlayer withBar]; try done.
  - repeat split; try done. by apply prefix_insert_fresh.
  - apply list_lookup_insert_eq. by eapply lookup_lt_Some.
  - by rewrite list_lookup_insert_ne.
Qed.

Lemma writeBearoff_represents h0 h so s o :
  Js.represents h0 h so s ->
  Js.represents h0 (Js.writeSides (Js.so_bearoff so) o h).2 so
    (withBearoff s o).
Proof.
  intros [(?&?&?&?&?) Hslots ? Hr Ho Hne ? ? ? ? ?].
  split; cbn [snd Js.writeSides Js.points Js.arrays Js.sides Js.pools Js.states
              board bar bearoff availableMoves currentPlayer withBearoff];
    try done.
  - repeat split; try done. by apply prefix_insert_fresh.
  - by rewrite list_lookup_insert_ne.
  - apply list_lookup_insert_eq. by eapply lookup_lt_Some.
Qed.

(** Writing a field of the point object in slot [i]. *)
Lemma writePoint_represents h0 h so s slots i l x :
  Js.represents h0 h so s ->
  Js.arrays h !! Js.so_board so = Some slots -> slots !! i = Some l ->
  Js.represents h0 (Js.writePoint l x h).2 so
    (withBoard s (<[i := x]> (board s))).
Proof.
  intros [(?&?&?&?&?) (slots' & Hb & Hpts & Hnd & Hfresh) ? ? ? ? ? ? ? ? ?]
    Hb' Hl.
  assert (slots' = slots) as -> by congruence.
  split; cbn [snd Js.writePoint Js.points Js.arrays Js.sides Js.pools Js.states
              board bar bearoff availableMoves currentPlayer withBoard];
    try done.
  - repeat split; try done. apply prefix_insert_fresh; [done|].
    rewrite Forall_forall in Hfresh. apply Hfresh.
    by eapply list_elem_of_lookup_2.
  - exists slots. repeat split; try done. by eapply slots_write.
Qed.

(** Storing a new point object in slot [i] of the board array. *)
Lemma replacePoint_represents h0 h so s slots i x :
  Js.represents h0 h so s ->
  Js.arrays h !! Js.so_board so = Some slots -> (i < length slots)%nat ->
  Js.represents h0
    (Js.writeArray (Js.so_board so) (<[i := length (Js.points h)]> slots)
       (Js.allocPoint x h).2).2
    so (withBoard s (<[i := x]> (board s))).
Proof.
  intros [(Hp&?&?&?&?) (slots' & Hb & Hpts & Hnd & Hfresh) ? ? ? ? ? ? ? ? ?]
    Hb' Hi.
  assert (slots' = slots) as -> by congruence.
  destruct (slots_alloc _ _ _ i x Hpts Hnd Hi) as [Hpts' Hnd'].
  split; cbn [snd Js.writeArray Js.allocPoint Js.points Js.arrays Js.sides
              Js.pools Js.states board bar bearoff availableMoves
              currentPlayer withBoard]; try done.
  - repeat split; try done; [by apply prefix_app_r|].
    by apply prefix_insert_fresh.
  - exists (<[i := length (Js.points h)]> slots). repeat split; try done.
    + apply list_lookup_insert_eq. by eapply lookup_lt_Some.
    + apply Forall_insert; [done|]. by apply prefix_length.
Qed.

Lemma represents_slot h0 h so s slots i :
  Js.represents h0 h so s ->
  Js.arrays h !! Js.so_board so = Some slots ->
  0 <= i < Z.of_nat (length (board s)) ->
  exists l, slots !! Z.to_nat i = Some l /\
            Js.points h !! l = Some (pointAt (board s) i) /\
            Js.slotAt slots i h = (Some l, h).
Proof.
  intros [_ (slots' & Hb & Hpts & _ & _) _ _ _ _ _ _ _ _ _] Hb' Hi.
  assert (slots' = slots) as -> by congruence.
  pose proof (Forall2_length _ _ _ Hpts) as Hlen.
  destruct (lookup_lt_is_Some_2 slots (Z.to_nat i)) as [l Hl]; [lia|].
  exists l. split; [done|].
  destruct (Forall2_lookup_l _ _ _ _ _ Hpts Hl) as (p & Hp & Hlp).
  split.
  - rewrite Hlp. f_equal. unfold pointAt. symmetry.
    by apply list_lookup_total_correct.
  - unfold Js.slotAt. destruct (Z.ltb_spec i 0); [lia|]. by rewrite Hl.
Qed.

Lemma represents_no_slot h0 h so s slots i :
  Js.represents h0 h so s ->
  Js.arrays h !! Js.so_board so = Some slots ->
  ~ 0 <= i < Z.of_nat (length (board s)) ->
  Js.slotAt slots i h = (None, h).
Proof.
  intros [_ (slots' & Hb & Hpts & _ & _) _ _ _ _ _ _ _ _ _] Hb' Hi.
  assert (slots' = slots) as -> by congruence.
  pose proof (Forall2_length _ _ _ Hpts) as Hlen.
  unfold Js.slotAt. destruct (Z.ltb_spec i 0); [done|].
  rewrite lookup_ge_None_2; [done|lia].
Qed.

Lemma represents_eq h0 h so s s' :
  Js.represents h0 h so s -> s = s' -> Js.represents h0 h so s'.
Proof. by intros H <-. Qed.

Lemma represents_array h0 h so s :
  Js.represents h0 h so s ->
  exists slots, Js.arrays h !! Js.so_board so = Some slots /\
                length slots = length (board s).
Proof.
  intros [_ (slots & Hb & Hpts & _ & _) _ _ _ _ _ _ _ _ _].
  exists slots. split; [done|]. by eapply Forall2_length.
Qed.

Lemma writePoint_run l x h :
  Js.writePoint l x h = (Some tt, (Js.writePoint l x h).2).
Proof. reflexivity. Qed.

Lemma writeSides_run l x h :
  Js.writeSides l x h = (Some tt, (Js.writeSides l x h).2).
Proof. reflexivity. Qed.

Lemma liftChecker_run h0 h so s from :
  Js.represents h0 h so s -> 0 <= from < Z.of_nat (length (board s)) ->
  exists h',
    Js.liftChecker so from h = (Some tt, h') /\
    Js.represents h0 h' so (liftChecker s from).
Proof.
  intros Hrep Hfrom.
  destruct (represents_array _ _ _ _ Hrep) as (slots & Hb & Hlen).
  destruct (represents_slot _ _ _ _ _ _ Hrep Hb Hfrom) as (l & Hl & Hp & Hslot).
  unfold Js.liftChecker.
  unfold Js.bind at 1. unfold Js.readArray at 1. rewrite Hb.
  cbn [Js.fromOption Js.ret].
  unfold Js.bind at 1. rewrite Hslot.
  unfold Js.bind at 1. unfold Js.readPoint at 1. rewrite Hp.
  cbn [Js.fromOption Js.ret].
  set (p := pointAt (board s) from) in *.
  unfold Js.bind at 1.
  pose proof (writePoint_represents _ _ _ _ _ _ _
                (mkPoint (point_player p) (point_count p - 1)) Hrep Hb Hl)
    as Hrep1.
  rewrite writePoint_run.
  set (h1 := (Js.writePoint l _ h).2) in *.
  assert (Hp1 : Js.points h1 !! l
                = Some (mkPoint (point_player p) (point_count p - 1))).
  { subst h1. cbn. apply list_lookup_insert_eq. by eapply lookup_lt_Some. }
  assert (Hb1 : Js.arrays h1 !! Js.so_board so = Some slots) by done.
  unfold Js.bind at 1. unfold Js.readPoint at 1. rewrite Hp1.
  cbn [Js.fromOption Js.ret point_count point_player].
  destruct (Z.eqb_spec (point_count p - 1) 0) as [Hz|Hz].
  - pose proof (writePoint_represents _ _ _ _ _ _ _
                  (mkPoint None (point_count p - 1)) Hrep1 Hb1 Hl) as Hrep2.
    rewrite writePoint_run. eexists. split; [reflexivity|].
    eapply represents_eq; [exact Hrep2|].
    unfold liftChecker, withBoard, setPoint. cbn [board bar bearoff currentPlayer
      availableMoves]. fold p. rewrite list_insert_insert_eq.
    destruct (Z.eqb_spec (point_count p - 1) 0); [done|lia].
  - eexists. split; [reflexivity|].
    eapply represents_eq; [exact Hrep1|].
    unfold liftChecker, withBoard, setPoint. fold p.
    destruct (Z.eqb_spec (point_count p - 1) 0); [lia|done].
Qed.

Lemma liftChecker_throw h0 h so s from :
  Js.represents h0 h so s -> ~ 0 <= from < Z.of_nat (length (board s)) ->
  Js.liftChecker so from h = (None, h).
Proof.
  intros Hrep Hfrom.
  destruct (represents_array _ _ _ _ Hrep) as (slots & Hb & Hlen).
  unfold Js.liftChecker.
  unfold Js.bind at 1. unfold Js.readArray at 1. rewrite Hb.
  cbn [Js.fromOption Js.ret].
  unfold Js.bind at 1.
  by rewrite (represents_no_slot _ _ _ _ _ _ Hrep Hb Hfrom).
Qed.

Lemma hitOccupant_run h0 h so s to player :
  Js.represents h0 h so s -> 0 <= to < Z.of_nat (length (board s)) ->
  exists h',
    Js.hitOccupant so to player h = (Some tt, h') /\
    Js.represents h0 h' so
      (let p := pointAt (board s) to in
       if bool_decide (point_player p <> None)
          && bool_decide (point_player p <> Some player)
       then
         let opponent := opponentOf player in
         withBoard
           (withBar s (setSide opponent (side opponent (bar s) + 1) (bar s)))
           (setPoint (board s) to (mkPoint None 0))
       else s).
Proof.
  intros Hrep Hto.
  destruct (represents_array _ _ _ _ Hrep) as (slots & Hb & Hlen).
  destruct (represents_slot _ _ _ _ _ _ Hrep Hb Hto) as (l & Hl & Hp & Hslot).
  unfold Js.hitOccupant.
  unfold Js.bind at 1. unfold Js.readArray at 1. rewrite Hb.
  cbn [Js.fromOption Js.ret].
  unfold Js.bind at 1. rewrite Hslot.
  unfold Js.bind at 1. unfold Js.readPoint at 1. rewrite Hp.
  cbn [Js.fromOption Js.ret]. cbv zeta.
  destruct (_ && _).
  - unfold Js.bind at 1. unfold Js.readSides at 1.
    rewrite (Js.rep_bar _ _ _ _ Hrep). cbn [Js.fromOption Js.ret].
    unfold Js.bind at 1. rewrite writeSides_run.
    pose proof (writeBar_represents _ _ _ _
                  (setSide (opponentOf player)
                     (side (opponentOf player) (bar s) + 1) (bar s)) Hrep)
      as Hrep1.
    set (h1 := (Js.writeSides _ _ h).2) in *.
    assert (Hb1 : Js.arrays h1 !! Js.so_board so = Some slots) by done.
    pose proof (replacePoint_represents _ _ _ _ _ (Z.to_nat to)
                  (mkPoint None 0) Hrep1 Hb1 ltac:(lia)) as Hrep2.
    unfold Js.bind at 1. eexists. split; [reflexivity|]. exact Hrep2.
  - eexists. split; [reflexivity|done].
Qed.

Lemma placeChecker_run h0 h so s to player :
  Js.represents h0 h so s -> 0 <= to < Z.of_nat (length (board s)) ->
  exists h',
    Js.placeChecker so to player h = (Some tt, h') /\
    Js.represents h0 h' so
      (let q := pointAt (board s) to in
       if bool_decide (point_player q = Some player)
       then withBoard s
              (setPoint (board s) to
                 (mkPoint (point_player q) (point_count q + 1)))
       else withBoard s (setPoint (board s) to (mkPoint (Some player) 1))).
Proof.
  intros Hrep Hto.
  destruct (represents_array _ _ _ _ Hrep) as (slots & Hb & Hlen).
  destruct (represents_slot _ _ _ _ _ _ Hrep Hb Hto) as (l & Hl & Hp & Hslot).
  unfold Js.placeChecker.
  unfold Js.bind at 1. unfold Js.readArray at 1. rewrite Hb.
  cbn [Js.fromOption Js.ret].
  unfold Js.bind at 1. rewrite Hslot.
  unfold Js.bind at 1. unfold Js.readPoint at 1. rewrite Hp.
  cbn [Js.fromOption Js.ret]. cbv zeta.
  destruct (bool_decide _).
  - rewrite writePoint_run. eexists. split; [reflexivity|].
    by eapply writePoint_represents.
  - unfold Js.bind at 1. eexists. split; [reflexivity|].
    apply (replacePoint_represents _ _ _ _ _ (Z.to_nat to)
             (mkPoint (Some player) 1) Hrep Hb). lia.
Qed.

Lemma hitOccupant_length s to player :
  length (board
    (let p := pointAt (board s) to in
     if bool_decide (point_player p <> None)
        && bool_decide (point_player p <> Some player)
     then
       let opponent := opponentOf player in
       withBoard
         (withBar s (setSide opponent (side opponent (bar s) + 1) (bar s)))
         (setPoint (board s) to (mkPoint None 0))
     else s)) = length (board s).
Proof. cbv zeta. destruct (_ && _); [apply length_setPoint|done]. Qed.

Lemma landChecker_run h0 h so s to player :
  Js.represents h0 h so s -> 0 <= to < Z.of_nat (length (board s)) ->
  exists h',
    Js.landChecker so to player h = (Some tt, h') /\
    Js.represents h0 h' so (landChecker s to player).
Proof.
  intros Hrep Hto.
  destruct (hitOccupant_run _ _ _ _ _ player Hrep Hto) as (h1 & Hrun1 & Hrep1).
  destruct (placeChecker_run _ _ _ _ to player Hrep1) as (h2 & Hrun2 & Hrep2).
  { by rewrite hitOccupant_length. }
  exists h2. split.
  - unfold Js.landChecker, Js.bind. by rewrite Hrun1.
  - exact Hrep2.
Qed.

Lemma landChecker_throw h0 h so s to player :
  Js.represents h0 h so s -> ~ 0 <= to < Z.of_nat (length (board s)) ->
  Js.landChecker so to player h = (None, h).
Proof.
  intros Hrep Hto.
  destruct (represents_array _ _ _ _ Hrep) as (slots & Hb & Hlen).
  unfold Js.landChecker, Js.hitOccupant.
  unfold Js.bind at 1. unfold Js.bind at 1.
  unfold Js.readArray at 1. rewrite Hb. cbn [Js.fromOption Js.ret].
  unfold Js.bind at 1.
  by rewrite (represents_no_slot _ _ _ _ _ _ Hrep Hb Hto).
Qed.

(** The board operations allocate no state object and touch none. *)
Lemma keepsStates_bind {A B} (m : Js.Run A) (k : A -> Js.Run B) :
  Js.keepsStates m -> (forall a, Js.keepsStates (k a)) ->
  Js.keepsStates (Js.bind m k).
Proof.
  intros Hm Hk h. unfold Js.bind. specialize (Hm h).
  destruct (m h) as [[a|] h1]; cbn in *; [|done].
  by rewrite Hk.
Qed.

Lemma keepsStates_fromOption {A} (o : option A) :
  Js.keepsStates (Js.fromOption o).
Proof. by destruct o. Qed.

Ltac keeps_states :=
  repeat first
    [ apply keepsStates_bind; [|intros ?]
    | match goal with
      | |- Js.keepsStates (if ?c then _ else _) => destruct c
      | |- Js.keepsStates (Js.slotAt _ _) =>
          unfold Js.slotAt; case_match;
          [done|intros ?; apply keepsStates_fromOption]
      | |- Js.keepsStates _ =>
          by (intros ?; try apply keepsStates_fromOption)
      end ].

Lemma liftChecker_states so from h :
  Js.states (Js.liftChecker so from h).2 = Js.states h.
Proof.
  revert h. change (Js.keepsStates (Js.liftChecker so from)).
  unfold Js.liftChecker. keeps_states.
Qed.

Lemma landChecker_states so to player h :
  Js.states (Js.landChecker so to player h).2 = Js.states h.
Proof.
  revert h. change (Js.keepsStates (Js.landChecker so to player)).
  unfold Js.landChecker, Js.hitOccupant, Js.placeChecker. cbv zeta.
  keeps_states.
Qed.

Lemma represents_extends h0 h so s : Js.represents h0 h so s -> Js.extends h0 h.
Proof. by intros []. Qed.

(** What [simulateMove] does on the heap: whatever happens, every object of
    the heap it started from is left as it was; when the indices are on the
    board it returns a new object that stands for the value the simulator
    computes. *)
Lemma simulateMove_run h gameState s from to die player :
  Js.snapshot h gameState = Some s ->
  exists result h',
    Js.simulateMove gameState from to die player h = (result, h') /\
    Js.extends h h' /\
    (Js.indicesOnBoard s from to ->
     exists newState so,
       result = Some newState /\
       Js.states h' !! newState = Some so /\
       (length (Js.states h) <= newState)%nat /\
       Js.represents h h' so (simulateMove s from to die player)) /\
    (~ Js.indicesOnBoard s from to -> result = None).
Proof.
  intros Hsnap.
  destruct (cloneState_spec _ _ _ Hsnap) as (so & h1 & Hclone & Hso & Hrep).
  unfold Js.simulateMove. unfold Js.bind at 1. rewrite Hclone.
  unfold Js.bind at 1. unfold Js.readState at 1. rewrite Hso.
  cbn [Js.fromOption Js.ret].
  unfold simulateMove. rewrite cloneState_id. unfold Js.indicesOnBoard.
  destruct from as [|from].
  - unfold Js.bind at 1. unfold Js.readSides at 1.
    rewrite (Js.rep_bar _ _ _ _ Hrep). cbn [Js.fromOption Js.ret].
    unfold Js.bind at 1. rewrite writeSides_run.
    pose proof (writeBar_represents _ _ _ _
                  (setSide player (side player (bar s) - 1) (bar s)) Hrep)
      as Hrep1.
    set (h2 := (Js.writeSides _ _ h1).2) in *.
    assert (Hso2 : Js.states h2 !! length (Js.states h) = Some so) by done.
    destruct to as [|to].
    + eexists _, _. split; [reflexivity|]. split; [by eapply represents_extends|].
      split; [intros [_ ?]; done|done].
    + destruct (decide (0 <= to < Z.of_nat (length (board s)))) as [Hto|Hto].
      * destruct (landChecker_run _ _ _ _ to player Hrep1 Hto)
          as (h3 & Hrun & Hrep3).
        pose proof (landChecker_states so to player h2) as Hst.
        rewrite Hrun in Hst. cbn [snd] in Hst.
        unfold Js.bind at 1. rewrite Hrun. cbn [Js.ret].
        eexists _, _. split; [reflexivity|].
        split; [by eapply represents_extends|]. split; [|intros Hn; exfalso; apply Hn; cbn; split; done].
        intros _. exists (length (Js.states h)), so.
        split; [done|]. split; [by rewrite Hst|]. split; [lia|done].
      * unfold Js.bind at 1.
        rewrite (landChecker_throw _ _ _ _ to player Hrep1 Hto).
        eexists _, _. split; [reflexivity|].
        split; [by eapply represents_extends|]. split; [cbn; tauto|done].
  - destruct (decide (0 <= from < Z.of_nat (length (board s)))) as [Hfrom|Hfrom].
    2:{ destruct to as [|to]; unfold Js.bind at 1;
          rewrite (liftChecker_throw _ _ _ _ from Hrep Hfrom);
          (eexists _, _; split; [reflexivity|];
           split; [by eapply represents_extends|]; split; [cbn; tauto|done]). }
    destruct (liftChecker_run _ _ _ _ from Hrep Hfrom) as (h2 & Hrun & Hrep2).
    pose proof (liftChecker_states so from h1) as Hst.
    rewrite Hrun in Hst. cbn [snd] in Hst.
    assert (Hso2 : Js.states h2 !! length (Js.states h) = Some so)
      by (by rewrite Hst).
    destruct to as [|to].
    + unfold Js.bind at 1. rewrite Hrun.
      unfold Js.bind at 1. unfold Js.readSides at 1.
      rewrite (Js.rep_bearoff _ _ _ _ Hrep2). cbn [Js.fromOption Js.ret].
      unfold Js.bind at 1. rewrite writeSides_run. cbn [Js.ret].
      pose proof (writeBearoff_represents _ _ _ _
                    (setSide player
                       (side player (bearoff (liftChecker s from)) + 1)
                       (bearoff (liftChecker s from))) Hrep2) as Hrep3.
      eexists _, _. split; [reflexivity|].
      split; [by eapply represents_extends|]. split; [|intros Hn; exfalso; apply Hn; cbn; split; done].
      intros _. exists (length (Js.states h)), so.
      split; [done|]. split; [done|]. split; [lia|done].
    + destruct (decide (0 <= to < Z.of_nat (length (board s)))) as [Hto|Hto].
      * destruct (landChecker_run _ _ _ _ to player Hrep2) as (h3 & Hrun3 & Hrep3).
        { by rewrite liftChecker_length. }
        pose proof (landChecker_states so to player h2) as Hst3.
        rewrite Hrun3 in Hst3. cbn [snd] in Hst3.
        unfold Js.bind at 1. rewrite Hrun.
        unfold Js.bind at 1. rewrite Hrun3. cbn [Js.ret].
        eexists _, _. split; [reflexivity|].
        split; [by eapply represents_extends|]. split; [|intros Hn; exfalso; apply Hn; cbn; split; done].
        intros _. exists (length (Js.states h)), so.
        split; [done|]. split; [by rewrite Hst3|]. split; [lia|done].
      * unfold Js.bind at 1. rewrite Hrun. unfold Js.bind at 1.
        rewrite (landChecker_throw _ _ _ _ to player Hrep2)
          by (by rewrite liftChecker_length).
        eexists _, _. split; [reflexivity|].
        split; [by eapply represents_extends|]. split; [cbn; tauto|done].
Qed.

Lemma snapshot_inv h gameState s :
  Js.snapshot h gameState = Some s ->
  exists so slots,
    Js.states h !! gameState = Some so /\
    Js.arrays h !! Js.so_board so = Some slots /\
    Forall2 (fun l p => Js.points h !! l = Some p) slots (board s) /\
    Js.sides h !! Js.so_bar so = Some (bar s) /\
    Js.sides h !! Js.so_bearoff so = Some (bearoff s) /\
    Js.pools h !! Js.so_availableMoves so = Some (availableMoves s) /\
    Js.so_currentPlayer so = currentPlayer s.
Proof.
  unfold Js.snapshot. intros H.
  destruct (Js.states h !! gameState) as [so|] eqn:Eso; [|done].
  destruct (Js.arrays h !! Js.so_board so) as [slots|] eqn:Eb; [|done].
  destruct (Js.sides h !! Js.so_bar so) as [r|] eqn:Er; [|done].
  destruct (Js.sides h !! Js.so_bearoff so) as [o|] eqn:Eo; [|done].
  destruct (Js.pools h !! Js.so_availableMoves so) as [d|] eqn:Ed; [|done].
  destruct (mapM _ slots) as [b|] eqn:Em; [|done].
  apply mapM_Some in Em. injection H as <-. by exists so, slots.
Qed.

Lemma isHighPriorityHit_run h gameState s move player :
  Js.snapshot h gameState = Some s ->
  Js.isHighPriorityHit gameState move player h
  = (Some (isHighPriorityHit s move player), h).
Proof.
  intros Hsnap.
  destruct (snapshot_inv _ _ _ Hsnap) as (so & slots & Hso & Hb & Hpts & _).
  unfold Js.isHighPriorityHit, isHighPriorityHit.
  destruct (bool_decide _); [done|].
  destruct (move_to move) as [|to]; [done|].
  destruct (_ || _); [done|]. destruct (_ && _); [done|].
  unfold Js.bind at 1. unfold Js.readState at 1. rewrite Hso.
  cbn [Js.fromOption Js.ret].
  unfold Js.bind at 1. unfold Js.readArray at 1. rewrite Hb.
  cbn [Js.fromOption Js.ret].
  destruct (slots !! Z.to_nat to) as [l|] eqn:El.
  - destruct (Forall2_lookup_l _ _ _ _ _ Hpts El) as (p & Hp & Hl).
    rewrite Hp. unfold Js.bind, Js.readPoint. rewrite Hl. done.
  - assert (board s !! Z.to_nat to = None) as ->; [|done].
    apply lookup_ge_None. apply lookup_ge_None in El.
    by rewrite <- (Forall2_length _ _ _ Hpts).
Qed.

Lemma freshFrom_extends h0 h h' gameState :
  Js.freshFrom h0 h gameState -> Js.extends h h' ->
  Js.freshFrom h0 h' gameState.
Proof.
  intros (so & slots & Hso & Hb & ?) (_ & Ha & _ & _ & Hst).
  exists so, slots. split; [by eapply prefix_lookup_Some|].
  split; [by eapply prefix_lookup_Some|]. done.
Qed.

Lemma indicesOnBoard_length s s' from to :
  length (board s) = length (board s') ->
  Js.indicesOnBoard s from to <-> Js.indicesOnBoard s' from to.
Proof. unfold Js.indicesOnBoard. by intros ->. Qed.

(** After [simulateMove], the copy of the dice and the new state object. *)
Lemma repool_represents h0 h so s dice :
  Js.represents h0 h so s ->
  Js.represents h0
    (Js.mkHeap (Js.points h) (Js.arrays h) (Js.sides h)
       (<[length (Js.pools h) := dice]>
          (Js.pools h ++ [availableMoves s]))
       (Js.states h
        ++ [Js.mkStateObject (Js.so_board so) (Js.so_bar so)
              (Js.so_bearoff so) (Js.so_currentPlayer so)
              (length (Js.pools h))]))
    (Js.mkStateObject (Js.so_board so) (Js.so_bar so) (Js.so_bearoff so)
       (Js.so_currentPlayer so) (length (Js.pools h)))
    (withAvailableMoves s dice).
Proof.
  intros [(?&?&?&Hd&?) Hslots ? ? ? ? ? ? ? ? ?].
  split; cbn [Js.so_board Js.so_bar Js.so_bearoff Js.so_availableMoves
              Js.so_currentPlayer Js.points Js.arrays Js.sides Js.pools
              Js.states board bar bearoff availableMoves currentPlayer
              withAvailableMoves]; try done.
  - repeat split; try done; [|by apply prefix_app_r].
    apply prefix_insert_fresh; [by apply prefix_app_r|by apply prefix_length].
  - rewrite insert_app_r_alt by lia. rewrite Nat.sub_diag. cbn.
    rewrite lookup_app_r by lia. by rewrite Nat.sub_diag.
  - by apply prefix_length.
Qed.

Lemma applyMove_run h cur hit s move player :
  Js.snapshot h cur = Some s ->
  exists result h',
    Js.applyMove player (cur, hit) move h = (result, h') /\
    Js.extends h h' /\
    (Js.indicesOnBoard s (move_from move) (move_to move) ->
     exists cur',
       result
       = Some (cur', hitPriorityScore (applyMove player (mkApplied s hit) move))
       /\ Js.snapshot h' cur'
          = Some (state (applyMove player (mkApplied s hit) move))
       /\ Js.freshFrom h h' cur') /\
    (~ Js.indicesOnBoard s (move_from move) (move_to move) -> result = None).
Proof.
  intros Hsnap. unfold Js.applyMove. cbn [fst snd].
  unfold Js.bind at 1. rewrite (isHighPriorityHit_run _ _ _ _ _ Hsnap).
  destruct (simulateMove_run h cur s (move_from move) (move_to move)
              (move_die move) player Hsnap)
    as (result & h1 & Hrun & Hext & Hok & Hthrow).
  unfold Js.bind at 1. rewrite Hrun.
  destruct (decide (Js.indicesOnBoard s (move_from move) (move_to move)))
    as [Hidx|Hidx].
  - destruct (Hok Hidx) as (newState & so & -> & Hso & Hfresh & Hrep).
    unfold Js.bind at 1. unfold Js.readState at 1. rewrite Hso.
    cbn [Js.fromOption Js.ret].
    unfold Js.bind at 1. unfold Js.readPool at 1.
    rewrite (Js.rep_pool _ _ _ _ Hrep). cbn [Js.fromOption Js.ret].
    unfold Js.bind at 1. cbn [Js.allocPool].
    unfold Js.bind at 1. cbn [Js.writePool Js.points Js.arrays Js.sides
                              Js.pools Js.states].
    unfold Js.bind at 1. cbn [Js.allocState Js.points Js.arrays Js.sides
                              Js.pools Js.states Js.ret].
    pose proof (repool_represents _ _ _ _
                  (removeDie (move_die move)
                     (availableMoves
                        (simulateMove s (move_from move) (move_to move)
                           (move_die move) player))) Hrep) as Hrep'.
    eexists _, _. split; [reflexivity|].
    split; [by eapply represents_extends|]. split; [|done].
    intros _. eexists. split; [reflexivity|]. split.
    + eapply represents_snapshot; [|exact Hrep']. cbn [Js.states].
      rewrite lookup_app_r by lia. by rewrite Nat.sub_diag.
    + eapply represents_freshFrom; [| |exact Hrep'].
      * cbn [Js.states]. rewrite lookup_app_r by lia. by rewrite Nat.sub_diag.
      * destruct (extends_lengths _ _ Hext) as (_&_&_&_&?). lia.
  - rewrite (Hthrow Hidx). eexists _, _. split; [reflexivity|].
    split; [done|]. split; [done|done].
Qed.

Lemma forEachMove_run h0 player sequence : forall h cur hit s,
  Js.snapshot h cur = Some s -> Js.extends h0 h -> Js.freshFrom h0 h cur ->
  exists result h',
    Js.forEachMove player (cur, hit) sequence h = (result, h') /\
    Js.extends h0 h' /\
    (Js.sequenceOnBoard s sequence ->
     exists cur',
       result
       = Some (cur',
               hitPriorityScore
                 (fold_left (applyMove player) sequence (mkApplied s hit)))
       /\ Js.snapshot h' cur'
          = Some (state (fold_left (applyMove player) sequence
                           (mkApplied s hit)))
       /\ Js.freshFrom h0 h' cur').
Proof.
  induction sequence as [|move sequence IH]; intros h cur hit s Hsnap Hext Hfresh.
  - eexists _, _. split; [reflexivity|]. split; [done|].
    intros _. by exists cur.
  - cbn [Js.forEachMove fold_left].
    destruct (applyMove_run h cur hit s move player Hsnap)
      as (result & h1 & Hrun & Hext1 & Hok & Hthrow).
    unfold Js.bind at 1. rewrite Hrun.
    destruct (decide (Js.indicesOnBoard s (move_from move) (move_to move)))
      as [Hidx|Hidx].
    + destruct (Hok Hidx) as (cur1 & -> & Hsnap1 & Hfresh1).
      destruct (IH h1 cur1
                  (hitPriorityScore (applyMove player (mkApplied s hit) move))
                  (state (applyMove player (mkApplied s hit) move)) Hsnap1)
        as (result' & h2 & Hrun2 & Hext2 & Hok2).
      { by eapply extends_trans. }
      { destruct Hfresh1 as (so & slots & ? & ? & ? & ? & ? & ? & ? & Hsl).
        destruct (extends_lengths _ _ Hext) as (?&?&?&?&?).
        exists so, slots. repeat split; try done; try lia.
        eapply Forall_impl; [exact Hsl|]. intros l Hl. cbn in *. lia. }
      exists result', h2. split; [exact Hrun2|]. split; [done|].
      intros Hall. apply Forall_cons in Hall as [_ Hall].
      destruct (applyMove player (mkApplied s hit) move) as [s1 hit1] eqn:E.
      cbn [state hitPriorityScore] in *. apply Hok2.
      eapply Forall_impl; [exact Hall|]. intros m Hm. cbn in *.
      eapply indicesOnBoard_length; [|exact Hm].
      pose proof (applyMove_length player (mkApplied s hit) move) as Hlen.
      rewrite E in Hlen. exact Hlen.
    + rewrite (Hthrow Hidx). eexists _, _. split; [reflexivity|].
      split; [by eapply extends_trans|].
      intros Hall. apply Forall_cons in Hall as [? _]. done.
Qed.

(** C10.  The simulator leaves its input alone.  Run on the object graph of a
    game state, [Js.simulateMove] and [Js.applySequenceAndScore] only extend
    the heap: every object that existed before keeps its contents, so the
    input state reads back unchanged (each point's player and count, both
    bar counts, both bear-off counts and the dice pool); and for indices on
    the board the result is a state built from freshly allocated objects
    that holds what the pure [simulateMove] / [applySequenceAndScore]
    computes. *)
Theorem simulateMove_leaves_input h gameState s :
  Js.snapshot h gameState = Some s ->
  (forall from to die player,
     let '(result, h') := Js.simulateMove gameState from to die player h in
     Js.extends h h' /\
     Js.snapshot h' gameState = Some s /\
     (Js.indicesOnBoard s from to ->
      exists newState,
        result = Some newState /\
        Js.freshFrom h h' newState /\
        Js.snapshot h' newState = Some (simulateMove s from to die player)))
  /\
  (forall sequence player,
     let '(result, h') :=
       Js.applySequenceAndScore gameState sequence player h in
     Js.extends h h' /\
     Js.snapshot h' gameState = Some s /\
     (Js.sequenceOnBoard s sequence ->
      exists currentState,
        result
        = Some (currentState,
                hitPriorityScore (applySequenceAndScore s sequence player)) /\
        Js.freshFrom h h' currentState /\
        Js.snapshot h' currentState
        = Some (state (applySequenceAndScore s sequence player)))).
Proof.
  intros Hsnap. split.
  - intros from to die player.
    destruct (simulateMove_run h gameState s from to die player Hsnap)
      as (result & h' & -> & Hext & Hok & _).
    split; [done|]. split; [by eapply snapshot_extends|].
    intros Hidx. destruct (Hok Hidx) as (newState & so & -> & Hso & Hnew & Hrep).
    exists newState. split; [done|].
    split; [by eapply represents_freshFrom|by eapply represents_snapshot].
  - intros sequence player. unfold Js.applySequenceAndScore.
    destruct (cloneState_spec _ _ _ Hsnap) as (so & h1 & Hclone & Hso & Hrep).
    unfold Js.bind. rewrite Hclone.
    destruct (forEachMove_run h player sequence h1 (length (Js.states h)) 0 s)
      as (result & h2 & -> & Hext & Hok).
    { by eapply represents_snapshot. }
    { by eapply represents_extends. }
    { by eapply represents_freshFrom. }
    split; [done|]. split; [by eapply snapshot_extends|].
    intros Hall. destruct (Hok Hall) as (cur & -> & Hsnap' & Hfresh).
    exists cur. unfold applySequenceAndScore. rewrite cloneState_id. done.
Qed.

Lemma simulateMove_leaves_input_witness :
  Js.snapshot
    (Js.simulateMove 0%nat (FromPoint 8) (ToPoint 5) 3 Player2
       (Js.store (openingState [3; 1]))).2 0%nat
  = Some (openingState [3; 1]).
Proof.
  pose proof (simulateMove_leaves_input (Js.store (openingState [3; 1])) 0%nat
                (openingState [3; 1]) eq_refl) as [H _].
  specialize (H (FromPoint 8) (ToPoint 5) 3 Player2).
  destruct (Js.simulateMove 0%nat (FromPoint 8) (ToPoint 5) 3 Player2
              (Js.store (openingState [3; 1]))) as [result h'].
  apply H.
Defined.

(** * Further properties of the simulator *)

Lemma landChecker_pointAt gameState to player i :
  length (board gameState) = 25%nat -> 1 <= to <= 24 -> 1 <= i <= 24 ->
  pointAt (board (landChecker gameState to player)) i
  = if decide (i = to)
    then if bool_decide (point_player (pointAt (board gameState) to)
                         = Some player)
         then mkPoint (Some player)
                (point_count (pointAt (board gameState) to) + 1)
         else mkPoint (Some player) 1
    else pointAt (board gameState) i.
Proof.
  intros Hlen Ht Hi. unfold landChecker.
  destruct (pointAt (board gameState) to) as [own cnt] eqn:Hp.
  cbn [point_player point_count].
  destruct (decide (own = Some player)) as [->|Hne].
  - rewrite (bool_decide_false (Some player <> Some player)) by tauto.
    rewrite andb_false_r. rewrite Hp. cbn [point_player point_count].
    rewrite !bool_decide_true by done. cbn [board withBoard].
    case_decide as E.
    + subst. by rewrite pointAt_setPoint_eq by lia.
    + by rewrite pointAt_setPoint_ne by lia.
  - rewrite (bool_decide_false (own = Some player)) by done.
    destruct own as [own|].
    + rewrite (bool_decide_true (Some own <> None)) by congruence.
      rewrite (bool_decide_true (Some own <> Some player)) by congruence.
      cbn [andb board withBoard withBar].
      rewrite pointAt_setPoint_eq by lia. cbn [point_player].
      rewrite bool_decide_false by done. cbn [board withBoard].
      case_decide as E.
      * subst. rewrite pointAt_setPoint_eq; [done|lia|].
        rewrite length_setPoint. lia.
      * by rewrite !pointAt_setPoint_ne by lia.
    + rewrite (bool_decide_false (None <> None)) by tauto. cbn [andb].
      rewrite Hp. cbn [point_player]. rewrite bool_decide_false by done.
      cbn [board withBoard]. case_decide as E.
      * subst. by rewrite pointAt_setPoint_eq by lia.
      * by rewrite pointAt_setPoint_ne by lia.
Qed.

Lemma landChecker_bar_eq gameState to player :
  bar (landChecker gameState to player)
  = if bool_decide (point_player (pointAt (board gameState) to)
                    = Some (opponentOf player))
    then setSide (opponentOf player)
           (side (opponentOf player) (bar gameState) + 1) (bar gameState)
    else bar gameState.
Proof.
  unfold landChecker.
  destruct (point_player (pointAt (board gameState) to)) as [[]|] eqn:Hown;
    destruct player; cbn [opponentOf];
    repeat (case_bool_decide; try done; cbn [andb bar withBoard withBar]).
Qed.

Lemma landChecker_bearoff gameState to player :
  bearoff (landChecker gameState to player) = bearoff gameState.
Proof.
  unfold landChecker.
  repeat (case_bool_decide; cbn [andb bearoff withBoard withBar]); done.
Qed.


Lemma side_setSide_eq player v o : side player (setSide player v o) = v.
Proof. by destruct player. Qed.

Lemma side_setSide_ne player q v o :
  q <> player -> side q (setSide player v o) = side q o.
Proof. by destruct player, q. Qed.

Lemma opponentOf_ne player : opponentOf player <> player.
Proof. by destruct player. Qed.

Lemma owner_cases (o : option Player) player :
  o = None \/ o = Some player \/ o = Some (opponentOf player).
Proof. destruct o as [[]|], player; cbn; tauto. Qed.

(** The point the oracle sends a checker to lies on the board. *)
Lemma validMove_target gameState source dice player toPoint die :
  length (board gameState) = 25%nat ->
  In (mkValidMove (ToPoint toPoint) die)
     (getValidMovesForAI gameState source dice player) ->
  1 <= toPoint <= 24 /\
  canMoveToPointForAI gameState toPoint player = true /\
  (point_player (pointAt (board gameState) toPoint)
   = Some (opponentOf player) ->
   point_count (pointAt (board gameState) toPoint) = 1).
Proof.
  intros Hlen Hm.
  assert (canMoveToPointForAI gameState toPoint player = true) as Hcan.
  { destruct source.
    - apply validMove_bar in Hm as (_ & e & He & _ & Hcan).
      cbn in He. by simplify_eq.
    - apply validMove_point in Hm as (_ & _ & _ & [(He & _)|(t & He & _ & Hcan)]);
        cbn in He; by simplify_eq. }
  split; [|split; [done|]].
  - by apply canMoveToPointForAI_spec in Hcan as [? _].
  - intros Hown. apply canMoveToPointForAI_spec in Hcan as [_ Hpt]; [|done].
    rewrite Hown in Hpt. pose proof (opponentOf_ne player).
    destruct Hpt as [?|[?|?]]; [done|congruence|done].
Qed.

Lemma simulateMove_untouched gameState source dice player m :
  length (board gameState) = 25%nat -> onBoardSource source ->
  In m (getValidMovesForAI gameState source dice player) ->
  let result :=
    simulateMove gameState source (vm_to m) (vm_die m) player in
  (forall i, 1 <= i <= 24 -> source <> FromPoint i -> vm_to m <> ToPoint i ->
     pointAt (board result) i = pointAt (board gameState) i) /\
  side player (bar result)
  = side player (bar gameState) - (if decide (source = Bar) then 1 else 0) /\
  side player (bearoff result)
  = side player (bearoff gameState)
    + (if decide (vm_to m = Bearoff) then 1 else 0) /\
  side (opponentOf player) (bearoff result)
  = side (opponentOf player) (bearoff gameState) /\
  length (board result) = 25%nat /\
  availableMoves result = availableMoves gameState /\
  currentPlayer result = currentPlayer gameState.
Proof.
  intros Hlen Hsrc Hm result. subst result.
  destruct m as [to die]. cbn [vm_to vm_die].
  pose proof (opponentOf_ne player) as Hopp.
  unfold simulateMove. rewrite cloneState_id.
  destruct source as [|f].
  - pose proof Hm as Hbar.
    apply validMove_bar in Hbar as (_ & e & He & _ & _). cbn in He. subst to.
    apply validMove_target in Hm as (Ht & _ & _); [|done].
    repeat apply conj.
    + intros i Hi _ Hne. rewrite landChecker_pointAt by done.
      case_decide; [congruence|done].
    + rewrite landChecker_bar_eq. cbn [bar board withBar].
      case_bool_decide; rewrite ?side_setSide_ne, side_setSide_eq by done;
        case_decide; done.
    + rewrite landChecker_bearoff. cbn. case_decide; [done|lia].
    + by rewrite landChecker_bearoff.
    + by rewrite landChecker_length.
    + unfold landChecker. by repeat (case_bool_decide || destruct (_ && _)).
    + unfold landChecker. by repeat (case_bool_decide || destruct (_ && _)).
  - cbn in Hsrc. destruct to as [|t].
    + repeat apply conj.
      * intros i Hi Hne _. cbn [board withBearoff].
        rewrite liftChecker_pointAt by done. case_decide; [congruence|done].
      * cbn. case_decide; [done|lia].
      * cbn [bearoff withBearoff]. rewrite side_setSide_eq.
        case_decide; [done|congruence].
      * cbn [bearoff withBearoff]. by rewrite side_setSide_ne.
      * cbn [board withBearoff]. by rewrite liftChecker_length.
      * done.
      * done.
    + apply validMove_target in Hm as (Ht & _ & _); [|done].
      repeat apply conj.
      * intros i Hi Hnf Hnt.
        rewrite landChecker_pointAt; [|by rewrite liftChecker_length|done|done].
        case_decide; [congruence|].
        rewrite liftChecker_pointAt by done. case_decide; [congruence|done].
      * rewrite landChecker_bar_eq. cbn [bar liftChecker withBoard].
        case_bool_decide; rewrite ?side_setSide_ne by done;
          case_decide; (done || lia).
      * rewrite landChecker_bearoff. cbn. case_decide; [done|lia].
      * by rewrite landChecker_bearoff.
      * by rewrite landChecker_length, liftChecker_length.
      * unfold landChecker. by repeat (case_bool_decide || destruct (_ && _)).
      * unfold landChecker. by repeat (case_bool_decide || destruct (_ && _)).
Qed.

(** X1. A move the oracle offers changes only the point it leaves and the
    point it lands on: every other point keeps its owner and count. The
    mover's bar loses a checker only on an entry from the bar, the mover's
    tray gains one only on a bear-off, and the opponent's tray, the dice
    pool and the player to move are left as they were. *)
Theorem simulateMove_frame gameState source dice player m :
  length (board gameState) = 25%nat -> onBoardSource source ->
  In m (getValidMovesForAI gameState source dice player) ->
  let result :=
    simulateMove gameState source (vm_to m) (vm_die m) player in
  (forall i, 1 <= i <= 24 -> source <> FromPoint i -> vm_to m <> ToPoint i ->
     pointAt (board result) i = pointAt (board gameState) i) /\
  side player (bar result)
  = side player (bar gameState) - (if decide (source = Bar) then 1 else 0) /\
  side player (bearoff result)
  = side player (bearoff gameState)
    + (if decide (vm_to m = Bearoff) then 1 else 0) /\
  side (opponentOf player) (bearoff result)
  = side (opponentOf player) (bearoff gameState) /\
  length (board result) = 25%nat /\
  availableMoves result = availableMoves gameState /\
  currentPlayer result = currentPlayer gameState.
Proof. apply simulateMove_untouched. Qed.

Lemma simulateMove_frame_witness :
  pointAt (board (simulateMove (openingState [3; 1]) (FromPoint 8) (ToPoint 5)
                    3 Player2)) 13
  = pointAt (board (openingState [3; 1])) 13.
Proof.
  pose proof (simulateMove_frame (openingState [3; 1]) (FromPoint 8) [3; 1]
                Player2 (mkValidMove (ToPoint 5) 3) eq_refl) as H.
  cbv zeta in H. destruct H as [H _].
  - cbn. lia.
  - vm_compute. tauto.
  - apply H; [lia|by intros [=]|by intros [=]].
Defined.

(** X2. The oracle offers a landing on a point of the opponent only when a
    single checker stands there; the move then leaves one checker of the
    mover on the point and adds one to the opponent's bar. On any other
    point the mover's stack grows by one (a stack of one on an empty
    point) and the opponent's bar is unchanged. *)
Theorem simulateMove_hit gameState source dice player toPoint die :
  length (board gameState) = 25%nat -> onBoardSource source ->
  In (mkValidMove (ToPoint toPoint) die)
     (getValidMovesForAI gameState source dice player) ->
  source <> FromPoint toPoint ->
  let target := pointAt (board gameState) toPoint in
  let result := simulateMove gameState source (ToPoint toPoint) die player in
  let opponent := opponentOf player in
  if bool_decide (point_player target = Some opponent)
  then point_count target = 1 /\
       pointAt (board result) toPoint = mkPoint (Some player) 1 /\
       side opponent (bar result) = side opponent (bar gameState) + 1
  else pointAt (board result) toPoint
       = mkPoint (Some player)
           (if bool_decide (point_player target = Some player)
            then point_count target + 1 else 1) /\
       side opponent (bar result) = side opponent (bar gameState).
Proof.
  intros Hlen Hsrc Hm Hne target result opponent.
  pose proof (opponentOf_ne player) as Hopp.
  destruct (validMove_target _ _ _ _ _ _ Hlen Hm) as (Ht & _ & Hblot).
  assert (pointAt (board result) toPoint
          = mkPoint (Some player)
              (if bool_decide (point_player target = Some player)
               then point_count target + 1 else 1)
          /\ bar result
             = if bool_decide (point_player target = Some opponent)
               then setSide opponent
                      (side opponent
                         (match source with
                          | Bar => setSide player
                                     (side player (bar gameState) - 1)
                                     (bar gameState)
                          | FromPoint _ => bar gameState
                          end) + 1)
                      (match source with
                       | Bar => setSide player
                                  (side player (bar gameState) - 1)
                                  (bar gameState)
                       | FromPoint _ => bar gameState
                       end)
               else match source with
                    | Bar => setSide player
                               (side player (bar gameState) - 1)
                               (bar gameState)
                    | FromPoint _ => bar gameState
                    end) as [Hpoint Hbar].
  { subst result target opponent. unfold simulateMove. rewrite cloneState_id.
    destruct source as [|f].
    - rewrite landChecker_pointAt by done. rewrite landChecker_bar_eq.
      cbn [board bar withBar]. rewrite decide_True by done.
      split; [by case_bool_decide|done].
    - cbn in Hsrc.
      rewrite landChecker_pointAt; [|by rewrite liftChecker_length|done|done].
      rewrite landChecker_bar_eq. rewrite decide_True by done.
      rewrite liftChecker_pointAt by done.
      rewrite decide_False by congruence.
      split; [by case_bool_decide|done]. }
  case_bool_decide as Hown.
  - split; [by apply Hblot|]. split.
    + rewrite Hpoint. rewrite bool_decide_false; [done|].
      rewrite Hown. subst opponent. by intros [= E].
    + rewrite Hbar, side_setSide_eq.
      destruct source; [|done]. by rewrite side_setSide_ne.
  - split; [done|]. rewrite Hbar.
    destruct source; [|done]. by rewrite side_setSide_ne.
Qed.

Lemma simulateMove_hit_witness :
  pointAt (board (simulateMove hitLateState (FromPoint 24) (ToPoint 20) 4
                    Player2)) 20
  = mkPoint (Some Player2) 1 /\
  side Player1 (bar (simulateMove hitLateState (FromPoint 24) (ToPoint 20) 4
                       Player2)) = 1.
Proof.
  pose proof (simulateMove_hit hitLateState (FromPoint 24) [4] Player2 20 4
                eq_refl) as H.
  cbv zeta in H.
  rewrite bool_decide_true in H by (vm_compute; reflexivity).
  destruct H as (_ & H1 & H2).
  - cbn. lia.
  - vm_compute. tauto.
  - by intros [=].
  - split; [exact H1|]. etrans; [exact H2|]. vm_compute. reflexivity.
Defined.


(** ** Owner and count stay in step *)

Lemma consistentb_correct gameState :
  consistentb gameState = true -> consistent gameState.
Proof.
  unfold consistentb. rewrite !andb_true_iff.
  intros [[[[[Hlen Hpts] Hb1] Hb2] Ho1] Ho2].
  apply Nat.eqb_eq in Hlen. rewrite forallb_forall in Hpts.
  apply Z.leb_le in Hb1, Hb2, Ho1, Ho2.
  split; [done| |by intros []|by intros []].
  intros i Hi. specialize (Hpts i).
  destruct (point_player (pointAt (board gameState) i)).
  - right. split; [done|]. apply Z.leb_le, Hpts.
    apply list_elem_of_In, elem_of_rangeUp. lia.
  - left. split; [done|]. apply Z.eqb_eq, Hpts.
    apply list_elem_of_In, elem_of_rangeUp. lia.
Qed.

Lemma consistent_wellFormed gameState :
  consistent gameState -> wellFormed gameState.
Proof.
  intros [Hlen Hpts Hbar _]. split; [done| |done].
  intros i Hi. destruct (Hpts i Hi) as [[_ ->]|[_ ?]]; lia.
Qed.

Lemma liftChecker_consistent gameState from :
  consistent gameState -> 1 <= from <= 24 ->
  point_player (pointAt (board gameState) from) <> None ->
  consistent (liftChecker gameState from).
Proof.
  intros [Hlen Hpts Hbar Hoff] Hf Hown.
  split; [by rewrite liftChecker_length| |done|done].
  intros i Hi. rewrite liftChecker_pointAt by done.
  case_decide as E; [subst i|by apply Hpts].
  cbv zeta. cbn [point_player point_count].
  destruct (Hpts from Hf) as [[? _]|[_ Hc]]; [done|].
  destruct (Z.eqb_spec (point_count (pointAt (board gameState) from) - 1) 0);
    [left; split; [done|lia]|right; split; [done|lia]].
Qed.

Lemma landChecker_consistent gameState to player :
  consistent gameState -> 1 <= to <= 24 ->
  consistent (landChecker gameState to player).
Proof.
  intros [Hlen Hpts Hbar Hoff] Ht.
  split.
  - by rewrite landChecker_length.
  - intros i Hi. rewrite landChecker_pointAt by done.
    case_decide as E; [subst i|by apply Hpts].
    case_bool_decide as Hown; cbn [point_player point_count];
      right; (split; [done|]); [|lia].
    destruct (Hpts to Ht) as [[? _]|[_ Hc]]; [congruence|lia].
  - intros q. rewrite landChecker_bar_eq. case_bool_decide; [|done].
    destruct (decide (q = opponentOf player)) as [->|Hne].
    + rewrite side_setSide_eq. specialize (Hbar (opponentOf player)). lia.
    + by rewrite side_setSide_ne.
  - intros q. by rewrite landChecker_bearoff.
Qed.

Lemma simulateMove_consistent gameState source dice player m :
  consistent gameState -> onBoardSource source ->
  In m (getValidMovesForAI gameState source dice player) ->
  consistent (simulateMove gameState source (vm_to m) (vm_die m) player).
Proof.
  intros Hcs Hsrc Hm. destruct m as [to die]. cbn [vm_to vm_die].
  pose proof (cs_length _ Hcs) as Hlen.
  unfold simulateMove. rewrite cloneState_id.
  destruct source as [|f].
  - pose proof Hm as Hbar.
    apply validMove_bar in Hbar as (Hnz & e & He & _ & _). cbn in He. subst to.
    apply validMove_target in Hm as (Ht & _ & _); [|done].
    apply landChecker_consistent; [|done].
    destruct Hcs as [_ Hpts Hbar Hoff]. split; [done|done| |done].
    intros q. cbn [bar withBar].
    destruct (decide (q = player)) as [->|Hne].
    + rewrite side_setSide_eq. specialize (Hbar player). lia.
    + by rewrite side_setSide_ne.
  - cbn in Hsrc. pose proof Hm as Hpt.
    apply validMove_point in Hpt as (_ & Hown & _ & _).
    assert (consistent (liftChecker gameState f)) as Hlift.
    { apply liftChecker_consistent; [done|done|]. by rewrite Hown. }
    destruct to as [|t].
    + destruct Hlift as [? ? ? Hoff]. split; [done|done|done|].
      intros q. cbn [bearoff withBearoff].
      destruct (decide (q = player)) as [->|Hne].
      * rewrite side_setSide_eq. specialize (Hoff player).
        change (bearoff (liftChecker gameState f)) with (bearoff gameState) in *.
        lia.
      * rewrite side_setSide_ne by done. apply Hoff.
    + apply validMove_target in Hm as (Ht & _ & _); [|done].
      by apply landChecker_consistent.
Qed.

(** X3. In a snapshot where a point has an owner exactly when it holds at
    least one checker (and bar and tray counts are not negative), every
    move the oracle offers, and every prefix of a generated sequence,
    leads to a snapshot with the same property: no point is left with an
    owner and no checker, or with checkers and no owner. *)
Theorem simulateMove_keeps_consistent gameState player :
  consistent gameState ->
  (forall source dice m,
     onBoardSource source ->
     In m (getValidMovesForAI gameState source dice player) ->
     consistent (simulateMove gameState source (vm_to m) (vm_die m) player)) /\
  (forall dice seq k,
     In seq (generateAllMoveSequences gameState dice player) ->
     consistent (fst (replay gameState dice (take k seq) player))).
Proof.
  intros Hcs. split.
  - intros source dice m. by apply simulateMove_consistent.
  - intros dice seq k Hin. apply generateAllMoveSequences_Generated in Hin.
    eapply (Generated_replay_invariant consistent); eauto.
    intros. by eapply simulateMove_consistent.
Qed.

Lemma simulateMove_keeps_consistent_witness :
  consistent (simulateMove hitLateState (FromPoint 24) (ToPoint 20) 4 Player2).
Proof.
  pose proof (simulateMove_keeps_consistent hitLateState Player2
                (consistentb_correct hitLateState eq_refl)) as [H _].
  apply (H (FromPoint 24) [4] (mkValidMove (ToPoint 20) 4)).
  - cbn. lia.
  - vm_compute. tauto.
Defined.


(** ** Pip counts *)

Lemma fold_left_add_if (c : Z -> bool) (w : Z -> Z) idx a :
  fold_left (fun pips i => if c i then pips + w i else pips) idx a
  = a + foldr (fun i acc => (if c i then w i else 0) + acc) 0 idx.
Proof.
  revert a. induction idx as [|i idx IH]; intros a; cbn; [lia|].
  rewrite IH. destruct (c i); lia.
Qed.

Lemma foldr_ext_elem {A B} (f g : A -> B -> B) (l : list A) (b : B) :
  (forall a acc, a ∈ l -> f a acc = g a acc) -> foldr f b l = foldr g b l.
Proof.
  induction l as [|a l IH]; intros H; [done|]. cbn.
  rewrite IH; [apply H; apply elem_of_cons; tauto|].
  intros. apply H. apply elem_of_cons; tauto.
Qed.

Lemma sum_change (g g' : Z -> Z) idx i :
  NoDup idx -> i ∈ idx ->
  (forall j, j ∈ idx -> j <> i -> g' j = g j) ->
  foldr (fun j acc => g' j + acc) 0 idx
  = foldr (fun j acc => g j + acc) 0 idx - g i + g' i.
Proof.
  induction idx as [|k idx IH]; intros Hnd Hin Hsame; [by apply elem_of_nil in Hin|].
  apply NoDup_cons in Hnd as [Hk Hnd]. cbn.
  destruct (decide (k = i)) as [->|Hne].
  - assert (foldr (fun j acc => g' j + acc) 0 idx
            = foldr (fun j acc => g j + acc) 0 idx) as ->; [|lia].
    apply foldr_ext_elem. intros j acc Hj.
    rewrite (Hsame j); [done|apply elem_of_cons; tauto|].
    intros ->. done.
  - apply elem_of_cons in Hin as [?|Hin]; [congruence|].
    rewrite IH; [|done|done|intros; apply Hsame; [apply elem_of_cons; tauto|done]].
    rewrite (Hsame k); [lia|apply elem_of_cons; tauto|done].
Qed.

(** What point [i] adds to the pip count of [player]. *)
Lemma calculatePipCount_sum gameState player :
  calculatePipCount gameState player
  = foldr (fun i acc =>
             checkersOf player (pointAt (board gameState) i)
             * distanceToExit player i + acc) 0 (rangeUp 1 24)
    + side player (bar gameState) * 25.
Proof.
  unfold calculatePipCount. cbv zeta. f_equal.
  destruct player; rewrite fold_left_add_if, Z.add_0_l;
    apply foldr_ext; try done; intros i acc; unfold checkersOf;
    cbn [distanceToExit]; case_bool_decide; lia.
Qed.

Lemma pips_change gameState gameState' player i :
  1 <= i <= 24 ->
  (forall j, 1 <= j <= 24 -> j <> i ->
     pointAt (board gameState') j = pointAt (board gameState) j) ->
  calculatePipCount gameState' player
  = calculatePipCount gameState player
    + (checkersOf player (pointAt (board gameState') i)
       - checkersOf player (pointAt (board gameState) i))
      * distanceToExit player i
    + (side player (bar gameState') - side player (bar gameState)) * 25.
Proof.
  intros Hi Hsame. rewrite !calculatePipCount_sum.
  rewrite (sum_change
             (fun j => checkersOf player (pointAt (board gameState) j)
                       * distanceToExit player j)
             (fun j => checkersOf player (pointAt (board gameState') j)
                       * distanceToExit player j) _ i).
  - lia.
  - apply NoDup_rangeUp.
  - apply elem_of_rangeUp. lia.
  - intros j Hj Hne. apply elem_of_rangeUp in Hj. by rewrite Hsame.
Qed.

Lemma pips_liftChecker gameState from player q :
  length (board gameState) = 25%nat -> 1 <= from <= 24 ->
  point_player (pointAt (board gameState) from) = Some player ->
  calculatePipCount (liftChecker gameState from) q
  = calculatePipCount gameState q
    - (if decide (q = player) then distanceToExit player from else 0).
Proof.
  intros Hlen Hf Hown.
  rewrite (pips_change gameState _ q from Hf).
  - rewrite liftChecker_pointAt by done. rewrite decide_True by done.
    cbv zeta. unfold checkersOf. cbn [point_player point_count].
    change (bar (liftChecker gameState from)) with (bar gameState).
    rewrite Hown.
    destruct (Z.eqb_spec (point_count (pointAt (board gameState) from) - 1) 0);
      case_decide; subst; repeat case_bool_decide; simplify_eq; lia.
  - intros j Hj Hne. rewrite liftChecker_pointAt by done.
    by rewrite decide_False.
Qed.

Lemma pips_landChecker gameState to player q :
  length (board gameState) = 25%nat ->
  canMoveToPointForAI gameState to player = true ->
  calculatePipCount (landChecker gameState to player) q
  = calculatePipCount gameState q
    + (if decide (q = player) then distanceToExit player to
       else if bool_decide (point_player (pointAt (board gameState) to)
                            = Some q)
            then 25 - distanceToExit q to else 0).
Proof.
  intros Hlen Hcan.
  apply canMoveToPointForAI_spec in Hcan as [Ht Hpt]; [|done].
  rewrite (pips_change gameState _ q to Ht).
  - rewrite landChecker_pointAt, landChecker_bar_eq by done.
    rewrite decide_True by done. unfold checkersOf.
    pose proof (opponentOf_ne player) as Hopp.
    destruct (owner_cases (point_player (pointAt (board gameState) to)) player)
      as [Hown|[Hown|Hown]]; rewrite Hown; cbn [point_player point_count].
    + destruct player, q; cbn [opponentOf] in *;
        repeat (case_bool_decide || case_decide); simplify_eq;
        cbn [side setSide player1 player2 distanceToExit point_player point_count]; lia.
    + destruct player, q; cbn [opponentOf] in *;
        repeat (case_bool_decide || case_decide); simplify_eq;
        cbn [side setSide player1 player2 distanceToExit point_player point_count]; lia.
    + assert (point_count (pointAt (board gameState) to) = 1) as ->.
      { destruct Hpt as [?|[?|?]]; congruence. }
      destruct player, q; cbn [opponentOf] in *;
        repeat (case_bool_decide || case_decide); simplify_eq;
        cbn [side setSide player1 player2 distanceToExit point_player point_count]; lia.
  - intros j Hj Hne. rewrite landChecker_pointAt by done.
    by rewrite decide_False.
Qed.

Lemma pips_withBar gameState o player :
  calculatePipCount (withBar gameState o) player
  = calculatePipCount gameState player
    + (side player o - side player (bar gameState)) * 25.
Proof. rewrite !calculatePipCount_sum. cbn [board bar withBar]. lia. Qed.

Lemma pips_withBearoff gameState o player :
  calculatePipCount (withBearoff gameState o) player
  = calculatePipCount gameState player.
Proof. by rewrite !calculatePipCount_sum. Qed.

(** X4. A move the oracle offers lowers the mover's pip count by the die
    played, or, when it bears a checker off, by the checker's distance to
    the exit, which is at most the die. The opponent's pip count is
    unchanged unless a checker is hit, which adds the way from the bar
    back to the point it was hit on. *)
Theorem simulateMove_pips gameState source dice player m :
  length (board gameState) = 25%nat -> onBoardSource source ->
  In m (getValidMovesForAI gameState source dice player) ->
  let result := simulateMove gameState source (vm_to m) (vm_die m) player in
  let opponent := opponentOf player in
  calculatePipCount result player
  = calculatePipCount gameState player
    - match source, vm_to m with
      | FromPoint fromPoint, Bearoff => distanceToExit player fromPoint
      | _, _ => vm_die m
      end /\
  (forall fromPoint,
     source = FromPoint fromPoint -> vm_to m = Bearoff ->
     distanceToExit player fromPoint <= vm_die m) /\
  calculatePipCount result opponent
  = calculatePipCount gameState opponent
    + match vm_to m with
      | ToPoint toPoint =>
          if bool_decide (point_player (pointAt (board gameState) toPoint)
                          = Some opponent)
          then 25 - distanceToExit opponent toPoint
          else 0
      | Bearoff => 0
      end.
Proof.
  intros Hlen Hsrc Hm result opponent. subst result opponent.
  pose proof (opponentOf_ne player) as Hopp.
  destruct m as [to die]. cbn [vm_to vm_die].
  unfold simulateMove. rewrite cloneState_id.
  destruct source as [|f].
  - pose proof Hm as Hbar.
    apply validMove_bar in Hbar as (_ & e & He & Hentry & _).
    cbn in He, Hentry. subst to.
    apply validMove_target in Hm as (Ht & Hcan & _); [|done].
    rewrite !pips_landChecker, !pips_withBar;
      [|done|by rewrite (canMoveToPointForAI_board _ gameState)
       |done|by rewrite (canMoveToPointForAI_board _ gameState)].
    rewrite side_setSide_eq, side_setSide_ne by done.
    rewrite decide_True, decide_False by done. cbn [board withBar].
    split; [destruct player; cbn [distanceToExit] in *; lia|].
    split; [done|]. lia.
  - cbn in Hsrc. pose proof Hm as Hpt.
    apply validMove_point in Hpt
      as (_ & Hown & _ & [(He & _ & Hexit)|(t & He & Htarget & _)]);
      cbn in He; subst to.
    + cbn in Hexit. rewrite !pips_withBearoff, !(pips_liftChecker _ _ player) by done.
      rewrite decide_True, decide_False by done.
      split; [done|]. split; [|lia].
      intros ? [= <-] _. destruct player; cbn [distanceToExit]; lia.
    + cbn in Htarget.
      apply validMove_target in Hm as (Ht & Hcan & _); [|done].
      assert (canMoveToPointForAI (liftChecker gameState f) t player = true)
        as Hcan'.
      { apply canMoveToPointForAI_spec in Hcan as [_ Hp]; [|done].
        apply canMoveToPointForAI_spec; [by rewrite liftChecker_length|].
        split; [done|]. rewrite liftChecker_pointAt by done.
        case_decide as E; [|done]. subst. cbv zeta.
        cbn [point_player point_count]. rewrite Hown.
        destruct (_ =? _); tauto. }
      rewrite !pips_landChecker by (rewrite ?liftChecker_length; done).
      rewrite !(pips_liftChecker _ _ player) by done.
      rewrite !(decide_True (P := player = player)) by done.
      rewrite !(decide_False (P := opponentOf player = player)) by done.
      split; [destruct player; cbn [distanceToExit] in *; lia|].
      split; [done|].
      rewrite liftChecker_pointAt by done.
      case_decide as E; [|lia]. subst f. cbv zeta. cbn [point_player].
      rewrite Hown.
      rewrite (bool_decide_false (Some player = Some (opponentOf player)))
        by congruence.
      destruct (_ =? _); rewrite bool_decide_false by congruence; lia.
Qed.

Lemma simulateMove_pips_witness :
  calculatePipCount
    (simulateMove hitLateState (FromPoint 24) (ToPoint 20) 4 Player2) Player2
  = calculatePipCount hitLateState Player2 - 4.
Proof.
  pose proof (simulateMove_pips hitLateState (FromPoint 24) [4] Player2
                (mkValidMove (ToPoint 20) 4) eq_refl) as H.
  cbv zeta in H. destruct H as [H _].
  - cbn. lia.
  - vm_compute. tauto.
  - exact H.
Defined.


(** ** Once home, always home *)

Lemma hasCheckers_pointAt s1 s2 player i :
  pointAt (board s1) i = pointAt (board s2) i ->
  hasCheckers s1 player i = hasCheckers s2 player i.
Proof. unfold hasCheckers. by intros ->. Qed.

(** X5. When all of a player's checkers are in the home board and none is
    on the bar, every move the oracle offers with a die that is not
    negative keeps them there: bearing off, once possible, stays possible. *)
Theorem simulateMove_keeps_home gameState source dice player m :
  wellFormed gameState -> onBoardSource source ->
  In m (getValidMovesForAI gameState source dice player) ->
  0 <= vm_die m ->
  allHome gameState player ->
  allHome (simulateMove gameState source (vm_to m) (vm_die m) player) player.
Proof.
  intros Hwf Hsrc Hm Hdie [Hbar Hhome].
  pose proof (wf_length _ Hwf) as Hlen.
  destruct (simulateMove_untouched _ _ _ _ _ Hlen Hsrc Hm)
    as (Hsame & Hbar' & _).
  destruct source as [|f].
  { apply validMove_bar in Hm as [? _]. done. }
  cbn in Hsrc. rewrite decide_False in Hbar' by done.
  split; [lia|]. intros i Hi Hhas.
  pose proof Hm as Hpt.
  apply validMove_point in Hpt as (_ & Hown & Hnz & Hto).
  assert (inHomeBoard player f) as Hf.
  { apply Hhome; [done|]. unfold hasCheckers. cbv zeta. rewrite Hown.
    rewrite bool_decide_true by done. cbn [andb]. apply Z.ltb_lt.
    pose proof (wf_counts _ Hwf f Hsrc). lia. }
  destruct (decide (i = f)) as [->|Hnf]; [done|].
  destruct m as [to die]. cbn [vm_to vm_die] in *.
  destruct to as [|t].
  - apply Hhome; [done|]. rewrite <- Hhas. symmetry.
    apply hasCheckers_pointAt, Hsame; [done|congruence|done].
  - apply validMove_target in Hm as (Ht & _ & _); [|done].
    destruct Hto as [(? & _)|(t' & [= <-] & Htarget & _)]; [done|].
    destruct (decide (i = t)) as [->|Hnt].
    + destruct player; cbn [inHomeBoard] in *; lia.
    + apply Hhome; [done|]. rewrite <- Hhas. symmetry.
      apply hasCheckers_pointAt, Hsame; [done|congruence|congruence].
Qed.

Lemma simulateMove_keeps_home_witness :
  allHome (simulateMove bearoffState (FromPoint 3) Bearoff 6 Player2) Player2.
Proof.
  apply (simulateMove_keeps_home bearoffState (FromPoint 3) [6] Player2
           (mkValidMove Bearoff 6)).
  - apply (wellFormedb_correct bearoffState eq_refl).
  - cbn. lia.
  - vm_compute. tauto.
  - cbn. lia.
  - apply allCheckersInHomeBoardForAI_iff;
      [apply (wellFormedb_correct bearoffState eq_refl)|].
    vm_compute. reflexivity.
Defined.


(** * Further properties of the generator *)

Lemma elem_of_allSources source : source ∈ allSources <-> onBoardSource source.
Proof.
  unfold allSources. rewrite elem_of_cons, list_elem_of_fmap.
  destruct source as [|i]; cbn.
  - split; [done|by left].
  - split.
    + intros [?|(j & [= ->] & Hj)]; [done|]. by apply elem_of_rangeUp in Hj.
    + intros Hi. right. exists i. split; [done|]. by apply elem_of_rangeUp.
Qed.

Lemma stuck_iff gameState dice player :
  stuck gameState dice player = true <->
  forall source, onBoardSource source ->
    getValidMovesForAI gameState source dice player = [].
Proof.
  unfold stuck. rewrite forallb_forall. split.
  - intros H source Hsrc. specialize (H source).
    destruct (getValidMovesForAI gameState source dice player); [done|].
    discriminate H. by apply list_elem_of_In, elem_of_allSources.
  - intros H source Hsrc. rewrite H; [done|].
    by apply elem_of_allSources, list_elem_of_In.
Qed.

(** A source the oracle offers a move from is one the generator tries. *)
Lemma oracle_source gameState source dice player m :
  wellFormed gameState -> onBoardSource source ->
  In m (getValidMovesForAI gameState source dice player) ->
  In source (sourcePoints gameState player).
Proof.
  intros [Hlen Hcnt Hbar] Hsrc Hm. unfold sourcePoints.
  destruct source as [|f].
  - apply validMove_bar in Hm as [Hnz _]. specialize (Hbar player).
    destruct (Z.ltb_spec 0 (side player (bar gameState))); [by left|lia].
  - cbn in Hsrc. apply validMove_point in Hm as (Hb & Hown & Hnz & _).
    destruct (Z.ltb_spec 0 (side player (bar gameState))); [lia|].
    apply in_map, list_elem_of_In, list_elem_of_filter.
    split; [|by apply elem_of_rangeUp].
    unfold hasCheckers. cbv zeta. rewrite Hown.
    rewrite bool_decide_true by done. cbn [andb]. apply Z.ltb_lt.
    specialize (Hcnt f Hsrc). lia.
Qed.

Lemma Generated_legal player gameState dice seq :
  wellFormed gameState ->
  Generated player gameState dice seq <->
  legalSequence gameState dice seq player = true /\
  stuck (fst (replay gameState dice seq player))
        (snd (replay gameState dice seq player)) player = true.
Proof.
  intros Hwf. split.
  - intros Hgen. revert Hwf.
    induction Hgen as [gameState dice Hnone
                      | gameState dice source m rest Hsrc Hm _ IH]; intros Hwf.
    + split; [done|]. cbn [replay fst snd]. apply stuck_iff.
      by apply no_source_no_move.
    + pose proof (sourcePoints_onBoard _ _ _ Hsrc) as Hon.
      cbn [legalSequence replay move_from move_to move_die].
      destruct IH as [IH1 IH2];
        [eapply simulateMove_wellFormed; eauto|].
      split; [|done]. rewrite IH1, andb_true_r.
      apply andb_true_iff. split; apply bool_decide_eq_true.
      * by apply elem_of_allSources.
      * apply list_elem_of_In. by destruct m.
  - revert gameState dice Hwf.
    induction seq as [|move rest IH]; intros gameState dice Hwf [Hlegal Hstuck].
    + constructor. intros source Hsrc. cbn [replay fst snd] in Hstuck.
      eapply stuck_iff; eauto using sourcePoints_onBoard.
    + cbn [legalSequence replay] in Hlegal, Hstuck.
      apply andb_true_iff in Hlegal as [Hlegal Hrest].
      apply andb_true_iff in Hlegal as [Hsrc Hm].
      apply bool_decide_eq_true in Hsrc, Hm.
      apply elem_of_allSources in Hsrc. apply list_elem_of_In in Hm.
      destruct move as [from to die]. cbn [move_from move_to move_die] in *.
      apply (Generated_step player gameState dice from (mkValidMove to die) rest).
      * eapply oracle_source; eauto.
      * done.
      * apply IH; [|done].
        apply (simulateMove_wellFormed gameState from dice player
                 (mkValidMove to die)); done.
Qed.

(** X6. On a well-formed snapshot the generator returns exactly the
    sequences whose every move is offered by the oracle for the position
    and the dice left at that step, and after which no die left can be
    played from any source. *)
Theorem generateAllMoveSequences_exact gameState dice player seq :
  wellFormed gameState ->
  In seq (generateAllMoveSequences gameState dice player) <->
  legalSequence gameState dice seq player = true /\
  stuck (fst (replay gameState dice seq player))
        (snd (replay gameState dice seq player)) player = true.
Proof.
  intros Hwf. rewrite generateAllMoveSequences_Generated.
  by apply Generated_legal.
Qed.

Lemma generateAllMoveSequences_exact_witness :
  In [mkMove (FromPoint 8) (ToPoint 5) 3; mkMove (FromPoint 6) (ToPoint 5) 1]
     (generateAllMoveSequences (openingState [3; 1]) [3; 1] Player2).
Proof.
  apply (generateAllMoveSequences_exact (openingState [3; 1]) [3; 1] Player2).
  - apply (wellFormedb_correct (openingState [3; 1]) eq_refl).
  - split; vm_compute; reflexivity.
Defined.

(** ** The dice a sequence uses *)

Lemma removeDie_perm die dice :
  In die dice -> Permutation dice (die :: removeDie die dice).
Proof.
  induction dice as [|d dice IH]; [done|]. intros Hin. cbn.
  destruct (Z.eqb_spec d die) as [->|Hne]; [done|].
  destruct Hin as [?|Hin]; [done|].
  rewrite (IH Hin) at 1. apply perm_swap.
Qed.

Lemma Generated_dice player gameState dice seq :
  Generated player gameState dice seq ->
  Permutation dice
    (map move_die seq ++ snd (replay gameState dice seq player)).
Proof.
  induction 1 as [gameState dice Hnone
                 | gameState dice source m rest Hsrc Hm _ IH]; [done|].
  cbn [map replay move_from move_to move_die app].
  rewrite <- IH. apply removeDie_perm. eapply validMove_die; eauto.
Qed.

(** X7. A generated sequence plays each die of the pool at most once: the
    dice it plays together with the dice left over are a rearrangement of
    the pool, so it is no longer than the pool. The empty sequence is
    generated only as the single answer for a position without a play. *)
Theorem generateAllMoveSequences_dice gameState dice player seq :
  In seq (generateAllMoveSequences gameState dice player) ->
  Permutation dice
    (map move_die seq ++ snd (replay gameState dice seq player)) /\
  (length seq <= length dice)%nat /\
  (seq = [] -> generateAllMoveSequences gameState dice player = [[]]).
Proof.
  intros Hin. pose proof Hin as Hgen.
  apply generateAllMoveSequences_Generated in Hgen.
  pose proof (Generated_dice _ _ _ _ Hgen) as Hperm.
  split; [done|]. split.
  - apply Permutation_length in Hperm.
    rewrite length_app, length_map in Hperm. lia.
  - intros ->. apply generate_pass_iff. by inversion Hgen.
Qed.

Lemma generateAllMoveSequences_dice_witness :
  Permutation [6; 1]
    (map move_die [mkMove (FromPoint 8) (ToPoint 7) 1]
     ++ snd (replay blockedState [6; 1] [mkMove (FromPoint 8) (ToPoint 7) 1]
               Player2)).
Proof.
  apply (generateAllMoveSequences_dice blockedState [6; 1] Player2).
  vm_compute. tauto.
Defined.


(** * The search controller *)

(** ** What the generator reads of a snapshot *)

Lemma samePosition_refl s : samePosition s s.
Proof. done. Qed.

Lemma samePosition_sym s1 s2 : samePosition s1 s2 -> samePosition s2 s1.
Proof. intros (? & ? & ?). by repeat split. Qed.

Lemma samePosition_trans s1 s2 s3 :
  samePosition s1 s2 -> samePosition s2 s3 -> samePosition s1 s3.
Proof. intros (? & ? & ?) (? & ? & ?). repeat split; congruence. Qed.

Lemma samePosition_withAvailableMoves s dice :
  samePosition (withAvailableMoves s dice) s.
Proof. done. Qed.

Lemma samePosition_fields s1 s2 :
  samePosition s1 s2 ->
  s1 = mkGameState (board s2) (bar s2) (bearoff s2) (currentPlayer s1)
         (availableMoves s1).
Proof.
  destruct s1 as [b1 r1 o1 c1 a1], s2 as [b2 r2 o2 c2 a2].
  unfold samePosition. cbn. by intros (-> & -> & ->).
Qed.

Lemma getValidMovesForAI_samePosition s1 s2 source dice player :
  samePosition s1 s2 ->
  getValidMovesForAI s1 source dice player
  = getValidMovesForAI s2 source dice player.
Proof.
  intros H. rewrite (samePosition_fields _ _ H). by destruct s2.
Qed.

Lemma sourcePoints_samePosition s1 s2 player :
  samePosition s1 s2 -> sourcePoints s1 player = sourcePoints s2 player.
Proof.
  intros H. rewrite (samePosition_fields _ _ H). by destruct s2.
Qed.

Lemma simulateMove_samePosition s1 s2 from to die player :
  samePosition s1 s2 ->
  samePosition (simulateMove s1 from to die player)
               (simulateMove s2 from to die player).
Proof.
  intros H. rewrite (samePosition_fields _ _ H). destruct s2 as [b r o c a].
  cbn [board bar bearoff]. unfold simulateMove, cloneState.
  cbn [board bar bearoff currentPlayer availableMoves].
  destruct from, to; try done.
  - unfold landChecker.
    cbn [board bar bearoff currentPlayer availableMoves withBar withBoard].
    by repeat (case_bool_decide || destruct (_ && _)).
  - unfold landChecker, liftChecker.
    cbn [board bar bearoff currentPlayer availableMoves withBar withBoard].
    by repeat (case_bool_decide || destruct (_ && _)).
Qed.

Lemma simulateMove_availableMoves gameState from to die player :
  availableMoves (simulateMove gameState from to die player)
  = availableMoves gameState.
Proof.
  unfold simulateMove, cloneState. destruct from, to; try done;
    unfold landChecker; by repeat (case_bool_decide || destruct (_ && _)).
Qed.

Lemma generateFrom_samePosition fuel : forall s1 s2 dice player,
  samePosition s1 s2 ->
  generateFrom fuel s1 dice player = generateFrom fuel s2 dice player.
Proof.
  induction fuel as [|fuel IH]; intros s1 s2 dice player H;
    destruct dice as [|d dice]; try done.
  cbn [generateFrom].
  rewrite (sourcePoints_samePosition _ _ _ H).
  match goal with |- match ?l1 with _ => _ end = match ?l2 with _ => _ end =>
    assert (l1 = l2) as ->; [|done] end.
  apply flat_map_ext_In. intros source _.
  rewrite (getValidMovesForAI_samePosition _ _ _ _ _ H).
  apply flat_map_ext_In. intros m _. cbv zeta. f_equal.
  apply IH. by apply simulateMove_samePosition.
Qed.

Lemma generateAllMoveSequences_samePosition s1 s2 dice player :
  samePosition s1 s2 ->
  generateAllMoveSequences s1 dice player
  = generateAllMoveSequences s2 dice player.
Proof. apply generateFrom_samePosition. Qed.

(** ** The state [applySequenceAndScore] ends in *)

Lemma replay_samePosition s1 s2 d1 d2 seq player :
  samePosition s1 s2 ->
  samePosition (fst (replay s1 d1 seq player)) (fst (replay s2 d2 seq player)).
Proof.
  revert s1 s2 d1 d2. induction seq as [|move rest IH]; intros s1 s2 d1 d2 H;
    [done|].
  cbn [replay]. apply IH. by apply simulateMove_samePosition.
Qed.

Lemma replay_pool s1 s2 dice seq player :
  snd (replay s1 dice seq player) = snd (replay s2 dice seq player).
Proof.
  revert s1 s2 dice. induction seq as [|move rest IH]; intros s1 s2 dice;
    [done|].
  cbn [replay]. apply IH.
Qed.

Lemma applied_replay player seq : forall s hits dice,
  samePosition
    (state (fold_left (applyMove player) seq (mkApplied s hits)))
    (fst (replay s dice seq player)) /\
  availableMoves (state (fold_left (applyMove player) seq (mkApplied s hits)))
  = snd (replay s (availableMoves s) seq player).
Proof.
  induction seq as [|move rest IH]; intros s hits dice; [done|].
  cbn [fold_left replay].
  set (next := applyMove player (mkApplied s hits) move).
  destruct (IH (state next) (hitPriorityScore next)
              (removeDie (move_die move) dice)) as [IH1 IH2].
  replace (mkApplied (state next) (hitPriorityScore next)) with next in *
    by (by destruct next).
  split.
  - eapply samePosition_trans; [exact IH1|].
    apply replay_samePosition. subst next. unfold applyMove.
    cbn [state]. apply samePosition_withAvailableMoves.
  - rewrite IH2. subst next. unfold applyMove.
    cbn [state availableMoves withAvailableMoves].
    rewrite simulateMove_availableMoves. apply replay_pool.
Qed.

Lemma applySequenceAndScore_replay gameState seq player dice :
  samePosition (state (applySequenceAndScore gameState seq player))
               (fst (replay gameState dice seq player)) /\
  availableMoves (state (applySequenceAndScore gameState seq player))
  = snd (replay gameState (availableMoves gameState) seq player).
Proof.
  unfold applySequenceAndScore. rewrite cloneState_id.
  apply applied_replay.
Qed.

(** ** The lookahead at the end of a generated sequence *)

Lemma lookahead_leaf depth s player alpha beta st :
  length (board s) = 25%nat -> cacheSound st ->
  generateAllMoveSequences s (availableMoves s) player = [[]] ->
  (evaluateWithLookahead depth s player alpha beta st).1
  = Finite (scorePosition s) /\
  cacheSound (evaluateWithLookahead depth s player alpha beta st).2.
Proof.
  intros Hlen Hst Hleaf.
  assert (Heval : ((score <- evaluatePosition s ;; ret (Finite score)) st).1
                  = Finite (scorePosition s) /\
                  cacheSound
                    ((score <- evaluatePosition s ;; ret (Finite score)) st).2).
  { unfold bind, ret.
    destruct (evaluatePosition_sound s st Hlen Hst) as [Hv Hc].
    destruct (evaluatePosition s st) as [v st']. cbn in *. by subst. }
  destruct depth as [|depth]; cbn [evaluateWithLookahead]; [exact Heval|].
  unfold scorePosition in *.
  destruct (player2 (bearoff s) =? 15) eqn:E2; [done|].
  destruct (player1 (bearoff s) =? 15) eqn:E1; [done|].
  destruct (availableMoves s) eqn:Hpool; [exact Heval|].
  rewrite Hleaf. exact Heval.
Qed.


Lemma generated_leaf gameState player seq :
  wellFormed gameState ->
  In seq (generateAllMoveSequences gameState (availableMoves gameState)
            player) ->
  generateAllMoveSequences
    (state (applySequenceAndScore gameState seq player))
    (availableMoves (state (applySequenceAndScore gameState seq player)))
    player = [[]].
Proof.
  intros Hwf Hin. apply generateAllMoveSequences_Generated in Hin.
  destruct (applySequenceAndScore_replay gameState seq player
              (availableMoves gameState)) as [Hsame Hpool].
  apply generate_pass_iff. intros source Hsrc.
  rewrite (getValidMovesForAI_samePosition _ _ _ _ _ Hsame), Hpool.
  apply Generated_maximal; [done|done|].
  by apply sourcePoints_onBoard in Hsrc.
Qed.

(** X8. Once a generated sequence has been applied, the lookahead returns
    the static evaluation of the resulting position at every depth and for
    every window: the dice left there allow no further move, so no deeper
    ply is searched. *)
Theorem evaluateWithLookahead_collapses gameState player seq depth alpha beta
    st :
  wellFormed gameState -> reachable st ->
  In seq (generateAllMoveSequences gameState (availableMoves gameState)
            player) ->
  (evaluateWithLookahead depth
     (state (applySequenceAndScore gameState seq player)) player alpha beta
     st).1
  = Finite (scorePosition (state (applySequenceAndScore gameState seq player))).
Proof.
  intros Hwf Hst Hin. apply lookahead_leaf.
  - rewrite applySequenceAndScore_length. apply Hwf.
  - by apply reachable_sound.
  - by apply generated_leaf.
Qed.

Lemma evaluateWithLookahead_collapses_witness :
  (evaluateWithLookahead 3
     (state (applySequenceAndScore hitLateState
               [mkMove (FromPoint 24) (ToPoint 23) 1;
                mkMove (FromPoint 23) (ToPoint 20) 3] Player2))
     Player2 NegInfinity PosInfinity emptyAIState).1
  = Finite (scorePosition
              (state (applySequenceAndScore hitLateState
                        [mkMove (FromPoint 24) (ToPoint 23) 1;
                         mkMove (FromPoint 23) (ToPoint 20) 3] Player2))).
Proof.
  apply (evaluateWithLookahead_collapses hitLateState Player2).
  - apply (wellFormedb_correct hitLateState eq_refl).
  - apply reachable_empty.
  - vm_compute. tauto.
Defined.

(** ** The selection loop *)

Lemma filter_or_all_sublist (keep : Sequence -> bool) l :
  sublist (if (0 <? length (List.filter keep l))%nat
           then List.filter keep l else l) l.
Proof. destruct (_ <? _)%nat; [apply sublist_List_filter|done]. Qed.

Lemma filter_or_all_nonempty (keep : Sequence -> bool) l :
  l <> [] ->
  (if (0 <? length (List.filter keep l))%nat
   then List.filter keep l else l) <> [].
Proof.
  intros Hl. destruct (Nat.ltb_spec 0 (length (List.filter keep l))); [|done].
  destruct (List.filter keep l); [cbn in *; lia|done].
Qed.

Lemma applyStrategicFilters_sublist gameState l player :
  sublist (applyStrategicFilters gameState l player) l.
Proof.
  unfold applyStrategicFilters.
  etrans; [|etrans; [|etrans]].
  - unfold enforcePlayCheckersOutsideHomeBoard. cbv zeta.
    repeat (case_bool_decide || destruct (_ <? _));
      try reflexivity; apply filter_or_all_sublist.
  - unfold enforceDistribution. cbv zeta.
    case_bool_decide; [reflexivity|apply filter_or_all_sublist].
  - unfold enforceStackLimitOnPoints2And1. cbv zeta.
    case_bool_decide; [reflexivity|apply filter_or_all_sublist].
  - unfold enforcePlayer2HomeBoardSafety. cbv zeta.
    case_bool_decide; [reflexivity|apply filter_or_all_sublist].
Qed.

Lemma applyStrategicFilters_nonempty gameState l player :
  l <> [] -> applyStrategicFilters gameState l player <> [].
Proof.
  intros Hl. unfold applyStrategicFilters.
  assert (H1 : enforcePlayer2HomeBoardSafety gameState l player <> []).
  { unfold enforcePlayer2HomeBoardSafety. cbv zeta.
    case_bool_decide; [done|by apply filter_or_all_nonempty]. }
  revert H1. generalize (enforcePlayer2HomeBoardSafety gameState l player).
  intros l1 H1.
  assert (H2 : enforceStackLimitOnPoints2And1 gameState l1 player <> []).
  { unfold enforceStackLimitOnPoints2And1. cbv zeta.
    case_bool_decide; [done|by apply filter_or_all_nonempty]. }
  revert H2. generalize (enforceStackLimitOnPoints2And1 gameState l1 player).
  intros l2 H2.
  assert (H3 : enforceDistribution gameState l2 player <> []).
  { unfold enforceDistribution. cbv zeta.
    case_bool_decide; [done|by apply filter_or_all_nonempty]. }
  revert H3. generalize (enforceDistribution gameState l2 player).
  intros l3 H3.
  unfold enforcePlayCheckersOutsideHomeBoard. cbv zeta.
  case_bool_decide; [done|].
  destruct (2 <? _); [by apply filter_or_all_nonempty|done].
Qed.

Lemma StronglySorted_sublist {A} (R : A -> A -> Prop) l1 l2 :
  sublist l1 l2 -> StronglySorted R l2 -> StronglySorted R l1.
Proof.
  induction 1 as [|x l1 l2 Hsub IH|x l1 l2 Hsub IH]; intros Hs; [done| |].
  - apply StronglySorted_inv in Hs as [Hs Hall].
    constructor; [by apply IH|].
    rewrite List.Forall_forall in *. intros y Hy. apply Hall.
    apply list_elem_of_In. eapply elem_of_sublist; [|done].
    by apply list_elem_of_In.
  - apply StronglySorted_inv in Hs as [Hs _]. by apply IH.
Qed.

Lemma withBonuses_finite q gameState sequence player hits :
  exists q', withBonuses (Finite q) gameState sequence player hits = Finite q'.
Proof. unfold withBonuses. cbn. eauto. Qed.

Lemma bind_run {A B} (m : AI A) (k : A -> AI B) st :
  bind m k st = k (m st).1 (m st).2.
Proof. unfold bind. by destruct (m st). Qed.

(** What one round of the loop computes for a generated sequence. *)
Lemma selectBest_base gameState player (useSearch : bool) sequence st :
  wellFormed gameState -> cacheSound st ->
  In sequence (generateAllMoveSequences gameState (availableMoves gameState)
                 player) ->
  let applied := applySequenceAndScore gameState sequence player in
  let base :=
    if useSearch
    then evaluateWithLookahead MAX_SEARCH_DEPTH (state applied) player
           NegInfinity PosInfinity
    else (score <- evaluatePosition (state applied) ;; ret (Finite score)) in
  (base st).1 = Finite (scorePosition (state applied)) /\
  cacheSound (base st).2.
Proof.
  intros Hwf Hst Hin applied base. subst base applied.
  assert (Hlen : length (board (state (applySequenceAndScore gameState
                                         sequence player))) = 25%nat).
  { rewrite applySequenceAndScore_length. apply Hwf. }
  destruct useSearch.
  - apply lookahead_leaf; [done|done|by apply generated_leaf].
  - unfold bind, ret.
    destruct (evaluatePosition_sound _ st Hlen Hst) as [Hv Hc].
    destruct (evaluatePosition _ st) as [v st']. cbn in *. by subst.
Qed.

Lemma selectBest_keeps gameState player useSearch sequences :
  wellFormed gameState ->
  forall bestSequence bestScore st,
    cacheSound st ->
    (forall s, In s sequences ->
       In s (generateAllMoveSequences gameState (availableMoves gameState)
               player) /\
       scoreLeb (shallowScore gameState player s) bestScore = true) ->
    (selectBest gameState player useSearch sequences bestSequence bestScore
       st).1 = bestSequence /\
    cacheSound
      (selectBest gameState player useSearch sequences bestSequence bestScore
         st).2.
Proof.
  intros Hwf.
  induction sequences as [|sequence rest IH];
    intros bestSequence bestScore st Hst Hall; [done|].
  cbn [selectBest].
  destruct (isEmptySequence sequence) eqn:Hempty.
  { apply IH; [done|]. intros s Hs. apply Hall. by right. }
  destruct (Hall sequence) as [Hgen Hle]; [by left|].
  destruct (selectBest_base gameState player useSearch sequence st Hwf Hst Hgen)
    as [Hbase Hst'].
  cbv zeta in Hbase, Hst'. rewrite bind_run, Hbase. cbv zeta.
  unfold shallowScore in Hle. rewrite Hempty in Hle. cbv zeta in Hle.
  unfold scoreLeb in Hle. apply negb_true_iff in Hle. rewrite Hle.
  destruct (scoreLtb (Finite 50000) _); [done|].
  apply IH; [done|]. intros s Hs. apply Hall. by right.
Qed.

Lemma selectBest_first gameState player useSearch sequence rest st :
  wellFormed gameState -> cacheSound st ->
  sequence <> [] ->
  (forall s, In s (sequence :: rest) ->
     In s (generateAllMoveSequences gameState (availableMoves gameState)
             player)) ->
  StronglySorted
    (fun a b =>
       scoreLeb (shallowScore gameState player b)
                (shallowScore gameState player a) = true)
    (sequence :: rest) ->
  (selectBest gameState player useSearch (sequence :: rest) None NegInfinity
     st).1 = Some sequence.
Proof.
  intros Hwf Hst Hne Hgen Hsorted. cbn [selectBest].
  destruct sequence as [|move moves] eqn:Hseq; [done|]. rewrite <- Hseq in *.
  assert (isEmptySequence sequence = false) as -> by (by subst).
  destruct (selectBest_base gameState player useSearch sequence st Hwf Hst)
    as [Hbase Hst']; [apply Hgen; by left|].
  cbv zeta in Hbase, Hst'. rewrite bind_run, Hbase. cbv zeta.
  destruct (withBonuses_finite
              (scorePosition (state (applySequenceAndScore gameState sequence
                                       player)))
              gameState sequence player
              (hitPriorityScore (applySequenceAndScore gameState sequence
                                   player))) as [q Hq].
  rewrite Hq. cbn [scoreLtb].
  destruct (Qltb 50000 q); [done|].
  apply selectBest_keeps; [done|done|].
  intros s Hs. split; [apply Hgen; by right|].
  apply StronglySorted_inv in Hsorted as [_ Hall].
  rewrite List.Forall_forall in Hall. specialize (Hall s Hs).
  rewrite <- Hq. unfold shallowScore in Hall at 2.
  assert (isEmptySequence sequence = false) as Hempty by (by subst).
  rewrite Hempty in Hall. exact Hall.
Qed.


(** ** What [getBestMove] returns *)

Lemma ordered_perm (f : Sequence -> Score) l :
  Permutation (map fst (sortByScore (map (fun s => (s, f s)) l))) l.
Proof.
  rewrite sortByScore_perm, map_map. cbn. by rewrite map_id.
Qed.

Lemma ordered_sorted (f : Sequence -> Score) l :
  StronglySorted (fun a b => scoreLeb (f b) (f a) = true)
    (map fst (sortByScore (map (fun s => (s, f s)) l))).
Proof.
  set (scored := map (fun s => (s, f s)) l).
  assert (Hall : Forall (fun item : Scored => item.2 = f item.1)
                   (sortByScore scored)).
  { eapply Permutation_Forall; [symmetry; apply sortByScore_perm|].
    subst scored. apply Forall_forall. intros item Hitem.
    apply list_elem_of_In, in_map_iff in Hitem as (s & <- & _). done. }
  pose proof (sortByScore_sorted scored) as Hsorted.
  induction Hsorted as [|item rest Hrest IH Hfirst]; cbn; [constructor|].
  apply Forall_cons in Hall as [Hitem Hall].
  constructor; [by apply IH|].
  apply List.Forall_forall. intros s Hs.
  apply in_map_iff in Hs as (other & <- & Hother).
  rewrite List.Forall_forall in Hfirst. rewrite Forall_forall in Hall.
  specialize (Hfirst _ Hother). unfold descending in Hfirst.
  apply list_elem_of_In in Hother.
  by rewrite <- Hitem, <- (Hall _ Hother).
Qed.

Lemma generated_empty gameState dice player :
  In [] (generateAllMoveSequences gameState dice player) ->
  generateAllMoveSequences gameState dice player = [[]].
Proof.
  intros Hin. apply generateAllMoveSequences_Generated in Hin.
  apply generate_pass_iff. by inversion Hin.
Qed.

Lemma hd_all_nil (l : list Sequence) :
  (forall s, In s l -> s = []) -> hd [] l = [].
Proof. destruct l as [|s l]; [done|]. intros H. apply H. by left. Qed.

Lemma In_take {A} (x : A) n l : In x (take n l) -> In x l.
Proof.
  intros H. apply list_elem_of_In. apply list_elem_of_In in H.
  eapply elem_of_sublist; [done|apply sublist_take].
Qed.

(** X9. Outside the opening book getBestMove returns the first sequence,
    in the order of the shallow scores, that the strategic filters keep.
    It is one of the generated sequences, and it is the empty sequence
    only when the position has no play. *)
Theorem getBestMove_first_candidate gameState st :
  wellFormed gameState -> reachable st ->
  (isOpeningPosition gameState && isPlayer1OpeningPosition gameState = false
   \/ getOpeningMove (availableMoves gameState) = None) ->
  let generated :=
    generateAllMoveSequences gameState (availableMoves gameState) Player2 in
  let candidates :=
    applyStrategicFilters gameState
      (orderMovesByEvaluation (sequencesToEvaluate gameState) gameState
         Player2 st).1 Player2 in
  (getBestMove gameState st).1 = hd [] candidates /\
  In (getBestMove gameState st).1 generated /\
  ((getBestMove gameState st).1 = [] <-> generated = [[]]).
Proof.
  intros Hwf Hreach Hbook generated candidates.
  apply reachable_sound in Hreach. pose proof (wf_length _ Hwf) as Hlen.
  assert (Hkeep : sequencesToEvaluate gameState = take 20 generated).
  { unfold sequencesToEvaluate. by rewrite truncateTo_take. }
  assert (Hordered :
    (orderMovesByEvaluation (sequencesToEvaluate gameState) gameState
       Player2 st).1
    = map fst (sortByScore
                 (map (fun s => (s, shallowScore gameState Player2 s))
                      (take 20 generated)))).
  { rewrite orderMovesByEvaluation_sound by done. by rewrite Hkeep. }
  assert (Hcand : forall s, In s candidates -> In s generated).
  { intros s Hs. apply (In_take s 20).
    eapply Permutation_in; [apply (ordered_perm (shallowScore gameState Player2))|].
    rewrite <- Hordered. apply list_elem_of_In.
    eapply elem_of_sublist; [by apply list_elem_of_In|].
    apply applyStrategicFilters_sublist. }
  unfold getBestMove. cbv zeta.
  assert ((if isOpeningPosition gameState && isPlayer1OpeningPosition gameState
           then getOpeningMove (availableMoves gameState) else None) = None)
    as ->.
  { destruct Hbook as [->| ->]; [done|]. by destruct (_ && _). }
  fold generated.
  destruct (noMoveSequences generated) eqn:Hno.
  - assert (generated = [[]]) as Hpass.
    { pose proof (generateFrom_nonempty (length (availableMoves gameState))
                    gameState (availableMoves gameState) Player2) as Hne.
      fold (generateAllMoveSequences gameState (availableMoves gameState)
              Player2) in Hne. fold generated in Hne.
      clearbody generated. by destruct generated as [|[|] [|]]. }
    cbn [ret fst].
    split; [|split; [rewrite Hpass; by left|done]].
    symmetry. apply hd_all_nil. intros s Hs. apply Hcand in Hs.
    rewrite Hpass in Hs. by destruct Hs as [<-|[]].
  - assert (Hnonempty : forall s, In s generated -> s <> []).
    { intros s Hs ->. apply generated_empty in Hs.
      fold generated in Hs. by rewrite Hs in Hno. }
    destruct (transparent_orderMovesByEvaluation (sequencesToEvaluate gameState)
                gameState Player2 Hlen) as [ordered Hord].
    destruct (Hord st Hreach) as [Hvalue Hst1].
    rewrite !bind_run. fold candidates. cbn [ret fst].
    assert (candidates <> []) as Hsome.
    { apply applyStrategicFilters_nonempty. rewrite Hordered.
      intros E. apply (f_equal (@length _)) in E.
      rewrite (Permutation_length
                 (ordered_perm (shallowScore gameState Player2) _)) in E.
      clearbody generated. by destruct generated. }
    assert (Hsorted :
      StronglySorted
        (fun a b =>
           scoreLeb (shallowScore gameState Player2 b)
                    (shallowScore gameState Player2 a) = true) candidates).
    { eapply StronglySorted_sublist; [apply applyStrategicFilters_sublist|].
      rewrite Hordered. apply ordered_sorted. }
    clearbody candidates. destruct candidates as [|first rest]; [done|].
    rewrite (selectBest_first gameState Player2 _ first rest); try done.
    + cbn [hd]. split; [done|].
      split; [apply Hcand; by left|].
      split; [intros E; exfalso; apply (Hnonempty first); [apply Hcand; by left|done]|].
      intros E. by rewrite E in Hno.
    + apply Hnonempty, Hcand. by left.
Qed.

Lemma getBestMove_first_candidate_witness :
  In (getBestMove hitLateState emptyAIState).1
     (generateAllMoveSequences hitLateState [3; 1] Player2).
Proof.
  pose proof (getBestMove_first_candidate hitLateState emptyAIState
                (wellFormedb_correct hitLateState eq_refl) reachable_empty)
    as H.
  cbv zeta in H. destruct H as (_ & H & _); [|exact H].
  left. vm_compute. reflexivity.
Defined.


(** ** The opening book *)

Lemma getOpeningMove_dice dice seq :
  getOpeningMove dice = Some seq ->
  exists a b, dice = [a; b] /\ 1 <= a <= 6 /\ 1 <= b <= 6 /\ a <> b.
Proof.
  destruct dice as [|a [|b [|c dice]]]; try done.
  intros H. exists a, b. split; [done|].
  unfold getOpeningMove, OPENING_MOVES in H. cbv zeta in H.
  cbn [find fst snd] in H.
  repeat match type of H with
         | context [?x =? ?y] => destruct (Z.eqb_spec x y); cbn [andb] in H
         end; try done; lia.
Qed.

(** X10. The opening book answers exactly the rolls of two different dice
    between 1 and 6, the same in either order of the dice. Each answer is
    a sequence the generator allows from the opening position, and
    getBestMove returns it there without touching the cache. *)
Theorem opening_book_legal :
  (forall dice,
     is_Some (getOpeningMove dice) <->
     exists a b, dice = [a; b] /\ 1 <= a <= 6 /\ 1 <= b <= 6 /\ a <> b) /\
  (forall a b seq,
     getOpeningMove [a; b] = Some seq ->
     getOpeningMove [b; a] = Some seq /\
     In seq (generateAllMoveSequences (openingState [a; b]) [a; b] Player2) /\
     forall st, getBestMove (openingState [a; b]) st = (seq, st)).
Proof.
  assert (Hall : forall a b,
    1 <= a <= 6 -> 1 <= b <= 6 -> a <> b ->
    exists seq,
      getOpeningMove [a; b] = Some seq /\
      getOpeningMove [b; a] = Some seq /\
      In seq (generateAllMoveSequences (openingState [a; b]) [a; b] Player2) /\
      forall st, getBestMove (openingState [a; b]) st = (seq, st)).
  { intros a b Ha Hb Hne.
    assert (a = 1 \/ a = 2 \/ a = 3 \/ a = 4 \/ a = 5 \/ a = 6) as Ha' by lia.
    assert (b = 1 \/ b = 2 \/ b = 3 \/ b = 4 \/ b = 5 \/ b = 6) as Hb' by lia.
    clear Ha Hb.
    repeat (destruct Ha' as [->|Ha']; [|]); try subst a;
      repeat (destruct Hb' as [->|Hb']; [|]); try subst b; try done;
      (eexists; split; [reflexivity|]; split; [reflexivity|];
       split; [|intros st; reflexivity];
       apply list_elem_of_In, (bool_decide_eq_true_1 _);
       vm_compute; reflexivity). }
  split.
  - intros dice. split.
    + intros [seq Hseq]. by eapply getOpeningMove_dice.
    + intros (a & b & -> & Ha & Hb & Hne).
      destruct (Hall a b Ha Hb Hne) as (seq & -> & _). done.
  - intros a b seq Hseq.
    destruct (getOpeningMove_dice _ _ Hseq) as (a' & b' & [= <- <-] & Ha & Hb & Hne).
    destruct (Hall a b Ha Hb Hne) as (seq' & Hseq' & H).
    rewrite Hseq in Hseq'. by injection Hseq' as <-.
Qed.


(** * The transposition cache as a store *)

Lemma mapGet_mapSet key value entries :
  mapGet key (mapSet key value entries) = Some value.
Proof.
  induction entries as [|[k v] entries IH]; cbn.
  - by rewrite String.eqb_refl.
  - destruct (String.eqb_spec k key) as [->|Hne]; cbn.
    + by rewrite String.eqb_refl.
    + by destruct (String.eqb_spec k key).
Qed.

Lemma mapGet_None key entries :
  mapGet key entries = None <-> ~ In key (map fst entries).
Proof.
  induction entries as [|[k v] entries IH]; cbn; [tauto|].
  destruct (String.eqb_spec k key) as [->|Hne]; [split; [done|tauto]|].
  rewrite IH. tauto.
Qed.

Lemma mapSet_fresh key value entries :
  mapGet key entries = None ->
  mapSet key value entries = entries ++ [(key, value)].
Proof.
  induction entries as [|[k v] entries IH]; cbn; [done|].
  destruct (String.eqb_spec k key); [done|]. intros H. by rewrite IH.
Qed.

Lemma mapDelete_head k v entries :
  mapDelete k ((k, v) :: entries) = entries.
Proof. cbn. by rewrite String.eqb_refl. Qed.

Lemma mapGet_tail key k v entries :
  mapGet key ((k, v) :: entries) = None -> mapGet key entries = None.
Proof. cbn. by destruct (String.eqb k key). Qed.

Lemma updateCache_fresh hash score st :
  mapGet hash (positionCache st) = None ->
  positionCache (updateCache hash score st)
  = (if CACHE_SIZE <=? Z.of_nat (length (positionCache st))
     then tail (positionCache st) else positionCache st)
    ++ [(hash, score)] /\
  mapGet hash (positionCache (updateCache hash score st)) = Some score /\
  (cacheWithin st -> cacheWithin (updateCache hash score st)).
Proof.
  intros Hfresh. unfold updateCache. cbn [positionCache].
  split; [|split].
  - destruct (CACHE_SIZE <=? _).
    + destruct (positionCache st) as [|[k v] entries]; [done|].
      rewrite mapDelete_head. cbn [tail]. apply mapSet_fresh.
      by eapply mapGet_tail.
    + by apply mapSet_fresh.
  - apply mapGet_mapSet.
  - intros [Hsize Hkeys]. unfold cacheWithin. cbn [positionCache].
    destruct (Z.leb_spec CACHE_SIZE (Z.of_nat (length (positionCache st)))).
    + destruct (positionCache st) as [|[k v] entries] eqn:E;
        [unfold CACHE_SIZE in *; cbn in *; lia|].
      rewrite mapDelete_head, mapSet_fresh by (by eapply mapGet_tail).
      cbn in Hsize, Hkeys. apply NoDup_cons in Hkeys as [Hk Hkeys].
      rewrite length_app, map_app. cbn. split; [lia|].
      apply NoDup_app. split; [done|]. split; [|apply NoDup_singleton].
      intros x Hx Hx'. apply list_elem_of_singleton in Hx' as ->.
      apply mapGet_tail in Hfresh. apply mapGet_None in Hfresh.
      apply Hfresh. by apply list_elem_of_In.
    + rewrite mapSet_fresh by done. rewrite length_app, map_app. cbn.
      split; [lia|].
      apply NoDup_app. split; [done|]. split; [|apply NoDup_singleton].
      intros x Hx Hx'. apply list_elem_of_singleton in Hx' as ->.
      apply mapGet_None in Hfresh. apply Hfresh. by apply list_elem_of_In.
Qed.

(** X11. Storing a score under a key the cache does not hold appends it as
    the newest entry; the oldest entry is dropped when the cache already
    holds CACHE_SIZE entries and only then. The new score can be read
    back, and a cache within its bound stays within it. *)
Theorem updateCache_fifo hash score st :
  mapGet hash (positionCache st) = None ->
  positionCache (updateCache hash score st)
  = (if CACHE_SIZE <=? Z.of_nat (length (positionCache st))
     then tail (positionCache st) else positionCache st)
    ++ [(hash, score)] /\
  mapGet hash (positionCache (updateCache hash score st)) = Some score /\
  (cacheWithin st -> cacheWithin (updateCache hash score st)).
Proof. apply updateCache_fresh. Qed.

Lemma updateCache_fifo_witness :
  mapGet (hashPosition hitLateState)
    (positionCache
       (updateCache (hashPosition hitLateState) 1 emptyAIState)) = Some 1%Q.
Proof.
  apply (updateCache_fifo (hashPosition hitLateState) 1 emptyAIState).
  reflexivity.
Defined.

(** ** Evaluating twice *)

Lemma evaluatePosition_cached gameState st :
  mapGet (hashPosition gameState)
    (positionCache (evaluatePosition gameState st).2)
  = Some (evaluatePosition gameState st).1.
Proof.
  unfold evaluatePosition.
  destruct (mapGet (hashPosition gameState) (positionCache st)) eqn:E;
    [done|].
  repeat (destruct (_ =? 15)); cbn [fst snd]; unfold updateCache;
    cbn [positionCache]; apply mapGet_mapSet.
Qed.

(** X12. Evaluating a position a second time returns the same score from
    the cache: it counts one more hit and leaves the cached entries and
    the misses as they are. Every evaluation counts exactly once, as a hit
    or as a miss. *)
Theorem evaluatePosition_twice gameState st :
  let first := evaluatePosition gameState st in
  evaluatePosition gameState first.2
  = (first.1,
     mkAIState (positionCache first.2) (cacheHits first.2 + 1)
       (cacheMisses first.2)) /\
  cacheHits first.2 + cacheMisses first.2
  = cacheHits st + cacheMisses st + 1.
Proof.
  intros first. subst first. split.
  - unfold evaluatePosition at 1. by rewrite evaluatePosition_cached.
  - unfold evaluatePosition.
    destruct (mapGet (hashPosition gameState) (positionCache st));
      [cbn; lia|].
    repeat (destruct (_ =? 15)); cbn; lia.
Qed.

(** ** The size of the cache *)

Lemma keeps_ret {A} P (a : A) : keeps P (ret a).
Proof. by intros st. Qed.

Lemma keeps_bind {A B} P (m : AI A) (k : A -> AI B) :
  keeps P m -> (forall a, keeps P (k a)) -> keeps P (bind m k).
Proof.
  intros Hm Hk st Hst. rewrite bind_run. apply Hk, Hm, Hst.
Qed.

Lemma keeps_mapAI {A B} P (f : A -> AI B) l :
  (forall a, keeps P (f a)) -> keeps P (mapAI f l).
Proof.
  intros Hf. induction l as [|a l IH]; cbn [mapAI]; [apply keeps_ret|].
  apply keeps_bind; [apply Hf|]. intros b.
  apply keeps_bind; [apply IH|]. intros bs. apply keeps_ret.
Qed.

Lemma keeps_evaluatePosition gameState :
  keeps cacheWithin (evaluatePosition gameState).
Proof.
  intros st Hst. unfold evaluatePosition.
  destruct (mapGet (hashPosition gameState) (positionCache st)) eqn:E;
    [done|].
  repeat (destruct (_ =? 15)); cbn [snd];
    by apply (updateCache_fresh _ _ (mkAIState _ _ _)).
Qed.


Lemma keeps_orderMovesByEvaluation sequences gameState player :
  keeps cacheWithin (orderMovesByEvaluation sequences gameState player).
Proof.
  unfold orderMovesByEvaluation.
  apply keeps_bind; [|intros; apply keeps_ret].
  apply keeps_mapAI. intros sequence.
  destruct (isEmptySequence sequence); [apply keeps_ret|].
  apply keeps_bind; [apply keeps_evaluatePosition|intros; apply keeps_ret].
Qed.

Lemma keeps_lookaheadLoop recur gameState player sequences :
  (forall s p alpha beta, keeps cacheWithin (recur s p alpha beta)) ->
  forall alpha beta bestScore,
    keeps cacheWithin
      (lookaheadLoop recur gameState player sequences alpha beta bestScore).
Proof.
  intros Hrecur.
  induction sequences as [|sequence rest IH]; intros alpha beta bestScore;
    cbn [lookaheadLoop]; [apply keeps_ret|].
  destruct (isEmptySequence sequence); [apply IH|].
  apply keeps_bind; [apply Hrecur|].
  intros deep. destruct player; cbv zeta;
    destruct (scoreLeb _ _); apply keeps_ret || apply IH.
Qed.

Lemma keeps_evaluateWithLookahead depth :
  forall gameState player alpha beta,
    keeps cacheWithin (evaluateWithLookahead depth gameState player alpha beta).
Proof.
  induction depth as [|depth IH]; intros gameState player alpha beta;
    cbn [evaluateWithLookahead].
  - apply keeps_bind; [apply keeps_evaluatePosition|intros; apply keeps_ret].
  - destruct (_ =? 15); [apply keeps_ret|].
    destruct (_ =? 15); [apply keeps_ret|].
    assert (Hleaf : keeps cacheWithin
              (score <- evaluatePosition gameState;; ret (Finite score))).
    { apply keeps_bind; [apply keeps_evaluatePosition|intros; apply keeps_ret]. }
    destruct (availableMoves gameState); [exact Hleaf|].
    destruct (noMoveSequences _); [exact Hleaf|].
    apply keeps_bind; [apply keeps_orderMovesByEvaluation|].
    intros ordered. apply keeps_lookaheadLoop. intros. apply IH.
Qed.

Lemma keeps_selectBest gameState player useSearch sequences :
  forall bestSequence bestScore,
    keeps cacheWithin
      (selectBest gameState player useSearch sequences bestSequence bestScore).
Proof.
  induction sequences as [|sequence rest IH]; intros bestSequence bestScore;
    cbn [selectBest]; [apply keeps_ret|].
  destruct (isEmptySequence sequence); [apply IH|].
  apply keeps_bind.
  - destruct useSearch; [apply keeps_evaluateWithLookahead|].
    apply keeps_bind; [apply keeps_evaluatePosition|intros; apply keeps_ret].
  - intros base. cbv zeta.
    destruct (scoreLtb (Finite 50000) _); [apply keeps_ret|apply IH].
Qed.

(** X13. A cache with at most CACHE_SIZE entries under pairwise different
    keys stays so through an evaluation and through a whole search by
    getBestMove. *)
Theorem cache_stays_within gameState st :
  cacheWithin st ->
  cacheWithin (evaluatePosition gameState st).2 /\
  cacheWithin (getBestMove gameState st).2.
Proof.
  intros Hst. split; [by apply keeps_evaluatePosition|].
  revert st Hst. change (keeps cacheWithin (getBestMove gameState)).
  unfold getBestMove. cbv zeta.
  destruct (if _ && _ then _ else _); [apply keeps_ret|].
  destruct (noMoveSequences _); [apply keeps_ret|].
  apply keeps_bind; [apply keeps_orderMovesByEvaluation|].
  intros ordered.
  apply keeps_bind; [apply keeps_selectBest|].
  intros best. apply keeps_ret.
Qed.

Lemma cacheWithin_empty : cacheWithin emptyAIState.
Proof. split; [unfold CACHE_SIZE; cbn; lia|constructor]. Qed.

Lemma cache_stays_within_witness :
  cacheWithin (getBestMove hitLateState emptyAIState).2.
Proof.
  apply (cache_stays_within hitLateState emptyAIState cacheWithin_empty).
Defined.


(** * Further properties of the evaluator *)

(** ** The hash *)

Lemma sameKey_hashPosition s1 s2 :
  sameKey s1 s2 -> hashPosition s1 = hashPosition s2.
Proof.
  intros (Hpts & Hbar & Hoff). unfold hashPosition. cbv zeta.
  rewrite Hbar, Hoff. do 2 f_equal.
  apply fold_left_ext_In. intros acc i Hi. rewrite Hpts; [done|].
  by apply In_rangeUp in Hi.
Qed.

(** X14. Two snapshots have the same hash exactly when they agree on the
    24 points, the bar and the tray; snapshots with the same hash on
    25-slot boards have the same static score, and the dice pool is no
    part of the hash. *)
Theorem hashPosition_injective s1 s2 :
  (hashPosition s1 = hashPosition s2 <-> sameKey s1 s2) /\
  (hashPosition s1 = hashPosition s2 ->
   length (board s1) = 25%nat -> length (board s2) = 25%nat ->
   scorePosition s1 = scorePosition s2) /\
  hashPosition (withAvailableMoves s1 (availableMoves s2)) = hashPosition s1.
Proof.
  split; [|split].
  - split; [apply hashPosition_sameKey|apply sameKey_hashPosition].
  - intros E Hlen1 Hlen2. apply sameKey_scorePosition; [|done|done].
    by apply hashPosition_sameKey.
  - by apply sameKey_hashPosition.
Qed.

(** ** Phases *)

(** X15. The phase detector answers RACE exactly when isContactGame
    answers false, that is when both sides have all their checkers in
    their home boards. *)
Theorem detectGamePhase_race gameState :
  detectGamePhase gameState = RACE <-> isContactGame gameState = false.
Proof.
  unfold detectGamePhase, isContactGame. cbv zeta.
  destruct (allCheckersInHomeBoardForAI gameState Player1),
           (allCheckersInHomeBoardForAI gameState Player2); cbn [andb negb orb];
    try done;
    (destruct (30 <? _); [done|]; destruct (_ && _); [done|];
     destruct (bool_decide _); done).
Qed.

(** X16. The prime length evaluatePrimes reports is the length of a
    longest run of consecutive points the player holds with two or more
    checkers: it lies between 0 and 24, a run of that length exists, none
    of the next length does, and the count of primes is 0 exactly when the
    length is 0. *)
Theorem evaluatePrimes_longest_run gameState player :
  let primes := evaluatePrimes gameState player in
  0 <= prime_length primes <= 24 /\
  (1 <= prime_length primes ->
   holdsRun gameState player (prime_length primes)) /\
  ~ holdsRun gameState player (prime_length primes + 1) /\
  (prime_count primes = 0 <-> prime_length primes = 0).
Proof.
  intros primes. subst primes.
  assert (0 <= prime_length (evaluatePrimes gameState player)
          /\ 0 <= prime_count (evaluatePrimes gameState player)) as [Hlen Hcnt].
  { destruct (evaluatePrimes_scan gameState player) as [-> ->].
    destruct (scanOf_invariant
                (map (isMadePoint gameState player) (rangeUp 1 24)))
      as (_ & _ & ? & _ & ?). lia. }
  assert (Hrun : 1 <= prime_length (evaluatePrimes gameState player) ->
                 holdsRun gameState player
                   (prime_length (evaluatePrimes gameState player))).
  { intros H. apply evaluatePrimes_length; [done|lia]. }
  split; [|split; [done|split]].
  - split; [done|].
    destruct (decide (1 <= prime_length (evaluatePrimes gameState player)))
      as [H|H]; [|lia].
    destruct (Hrun H) as (i & Hi & Hhi & _). lia.
  - intros H. apply evaluatePrimes_length in H; lia.
  - pose proof (evaluatePrimes_count gameState player). lia.
Qed.

(** ** Pip counts *)

Lemma pips_between player (b : list Point) idx :
  (forall i, In i idx ->
     1 <= i <= 24 /\ 0 <= checkersOf player (pointAt b i)) ->
  let pips :=
    foldr (fun i acc =>
             checkersOf player (pointAt b i) * distanceToExit player i + acc)
          0 idx in
  sumPoints (checkersOf player) b idx <= pips
  /\ pips <= 24 * sumPoints (checkersOf player) b idx.
Proof.
  unfold sumPoints. induction idx as [|i idx IH]; intros H; cbn; [lia|].
  destruct IH as [IH1 IH2]; [intros; apply H; by right|].
  destruct (H i) as [Hi Hc]; [by left|]. cbv zeta in IH1, IH2.
  assert (1 <= distanceToExit player i <= 24)
    by (destruct player; cbn; lia).
  nia.
Qed.

(** X17. With fifteen checkers per side on a consistent board the pip
    count of a side lies between 0 and 375, and it is 0 exactly when all
    fifteen checkers have been borne off. *)
Theorem calculatePipCount_range gameState player :
  consistent gameState -> conserved gameState ->
  0 <= calculatePipCount gameState player <= 375 /\
  (calculatePipCount gameState player = 0 <->
   side player (bearoff gameState) = 15).
Proof.
  intros [Hlen Hpts Hbar Hoff] Hcons. specialize (Hcons player).
  unfold totalCheckers, onBoard in Hcons.
  rewrite calculatePipCount_sum.
  destruct (pips_between player (board gameState) (rangeUp 1 24)) as [H1 H2].
  { intros i Hi. apply In_rangeUp in Hi. split; [done|].
    unfold checkersOf. case_bool_decide; [|done].
    destruct (Hpts i Hi) as [[_ ->]|[_ ?]]; lia. }
  cbv zeta in H1, H2.
  specialize (Hbar player). specialize (Hoff player).
  assert (0 <= sumPoints (checkersOf player) (board gameState) (rangeUp 1 24)).
  { unfold sumPoints.
    assert (forall idx, (forall i, In i idx -> 1 <= i <= 24) ->
      0 <= foldr (fun i acc => checkersOf player (pointAt (board gameState) i)
                               + acc) 0 idx) as Hsum.
    { induction idx as [|i idx IH]; intros Hidx; cbn; [lia|].
      assert (0 <= checkersOf player (pointAt (board gameState) i)).
      { unfold checkersOf. case_bool_decide; [|done].
        destruct (Hpts i) as [[_ ->]|[_ ?]]; [apply Hidx; by left|lia|lia]. }
      assert (0 <= foldr (fun i acc =>
                            checkersOf player (pointAt (board gameState) i)
                            + acc) 0 idx); [|lia].
      apply IH. intros; apply Hidx; by right. }
    apply Hsum. intros i Hi. by apply In_rangeUp in Hi. }
  lia.
Qed.

Lemma calculatePipCount_range_witness :
  0 <= calculatePipCount (openingState [3; 1]) Player2 <= 375.
Proof.
  apply (calculatePipCount_range (openingState [3; 1]) Player2).
  - apply (consistentb_correct (openingState [3; 1]) eq_refl).
  - apply openingState_conserved.
Defined.


(** * The game engine *)

(** ** The engine and the AI read the rules alike *)

Lemma canMoveToPoint_agrees s toPoint player :
  Game.canMoveToPoint s toPoint player
  = canMoveToPointForAI (Game.position s) toPoint player.
Proof. reflexivity. Qed.

Lemma allCheckersInHomeBoard_agrees s player :
  Game.allCheckersInHomeBoard s player
  = allCheckersInHomeBoardForAI (Game.position s) player.
Proof. reflexivity. Qed.

Lemma canBearOff_agrees s fromPoint dieValue :
  Game.canBearOff s fromPoint dieValue
  = canBearOffForAI (Game.position s) fromPoint dieValue
      (currentPlayer (Game.position s)).
Proof. reflexivity. Qed.

Lemma getValidMovesFromPoint_agrees s from :
  Game.getValidMovesFromPoint s from
  = getValidMovesForAI (Game.position s) from
      (availableMoves (Game.position s)) (currentPlayer (Game.position s)).
Proof. reflexivity. Qed.

Lemma moveChecker_agrees p from to die player :
  Game.moveChecker p from to player = simulateMove p from to die player.
Proof. unfold simulateMove. by rewrite cloneState_id. Qed.

Lemma snapshot_position s : UI.snapshot s = Game.position s.
Proof. unfold UI.snapshot. cbv zeta. apply cloneState_id. Qed.

Lemma uniqueValues_elem (values seen : list Z) (x : Z) :
  x ∈ fold_left
        (fun seen value => if bool_decide (value ∈ seen) then seen
                           else seen ++ [value])
        values seen
  <-> x ∈ seen \/ x ∈ values.
Proof.
  revert seen. induction values as [|v values IH]; intros seen; cbn.
  - rewrite elem_of_nil. tauto.
  - rewrite IH, elem_of_cons. case_bool_decide as Hv.
    + split; [tauto|]. intros [?|[->|?]]; tauto.
    + rewrite elem_of_app, list_elem_of_singleton. tauto.
Qed.

Lemma existsb_uniqueValues (f : Z -> bool) values :
  existsb f (Game.uniqueValues values) = existsb f values.
Proof.
  apply eq_true_iff_eq. rewrite !existsb_exists.
  unfold Game.uniqueValues. split; intros (x & Hx & Hf); exists x;
    (split; [|done]); apply list_elem_of_In; apply list_elem_of_In in Hx.
  - apply uniqueValues_elem in Hx as [Hx|Hx]; [by apply elem_of_nil in Hx|done].
  - apply uniqueValues_elem. by right.
Qed.

Lemma existsb_false_all {A} (f : A -> bool) l :
  existsb f l = false <-> forall x, In x l -> f x = false.
Proof.
  induction l as [|a l IH]; cbn; [split; [intros _ x []|done]|].
  rewrite orb_false_iff, IH. split.
  - intros [Ha Hl] x [<-|Hx]; [done|by apply Hl].
  - intros H. split; [apply H; by left|]. intros x Hx. apply H. by right.
Qed.

Lemma flat_map_nil {A B} (f : A -> list B) l :
  flat_map f l = [] <-> forall a, In a l -> f a = [].
Proof.
  induction l as [|a l IH]; cbn; [split; [intros _ x []|done]|].
  split.
  - intros H. apply app_eq_nil in H as [Ha Hl].
    intros x [<-|Hx]; [done|]. by apply IH.
  - intros H. rewrite (H a) by (by left). cbn. apply IH.
    intros x Hx. apply H. by right.
Qed.

Lemma hasAnyValidMoves_pass s :
  Game.hasAnyValidMoves s = false <->
  generateAllMoveSequences (Game.position s)
    (availableMoves (Game.position s)) (currentPlayer (Game.position s))
  = [[]].
Proof.
  rewrite generate_pass_iff. unfold Game.hasAnyValidMoves, sourcePoints.
  cbv zeta.
  set (p := Game.position s). set (player := currentPlayer p).
  destruct (Z.ltb_spec 0 (side player (bar p))) as [Hbar|Hbar].
  - rewrite existsb_uniqueValues, existsb_false_all. split.
    + intros H source [<-|[]]. unfold getValidMovesForAI.
      rewrite bool_decide_true by done. rewrite andb_false_r.
      destruct (Z.eqb_spec (side player (bar p)) 0); [done|].
      apply flat_map_nil. intros d Hd. cbv zeta.
      specialize (H d Hd). rewrite canMoveToPoint_agrees in H.
      fold p in H. by rewrite H.
    + intros H d Hd. specialize (H Bar (or_introl eq_refl)).
      unfold getValidMovesForAI in H.
      rewrite bool_decide_true in H by done. rewrite andb_false_r in H.
      destruct (Z.eqb_spec (side player (bar p)) 0); [lia|].
      rewrite flat_map_nil in H. specialize (H d Hd). cbv zeta in H.
      rewrite canMoveToPoint_agrees. fold p.
      by destruct (canMoveToPointForAI p _ player).
  - rewrite existsb_false_all. split.
    + intros H source Hsrc. apply in_map_iff in Hsrc as (i & <- & Hi).
      apply list_elem_of_In, list_elem_of_filter in Hi as [Hhas Hi].
      apply elem_of_rangeUp in Hi.
      specialize (H i). rewrite Hhas in H. cbn [andb] in H.
      rewrite getValidMovesFromPoint_agrees in H. fold p player in H.
      destruct (getValidMovesForAI p (FromPoint i) (availableMoves p) player);
        [done|].
      discriminate H. apply list_elem_of_In, elem_of_rangeUp. done.
    + intros H i Hi.
      destruct (hasCheckers p player i) eqn:Hhas; [|done]. cbn [andb].
      rewrite getValidMovesFromPoint_agrees. fold p player.
      rewrite H; [done|]. apply in_map, list_elem_of_In, list_elem_of_filter.
      split; [done|]. by apply list_elem_of_In.
Qed.

(** X18. The game engine offers from every source exactly the moves the
    AI's oracle offers for the player on roll with the dice left; it finds
    no valid move exactly when the AI's generator returns the single empty
    sequence, and the controller's own check agrees with the engine's. *)
Theorem engine_agrees_with_oracle s :
  (forall from,
     Game.getValidMovesFromPoint s from
     = getValidMovesForAI (Game.position s) from
         (availableMoves (Game.position s))
         (currentPlayer (Game.position s))) /\
  (Game.hasAnyValidMoves s = false <->
   generateAllMoveSequences (UI.snapshot s) (availableMoves (UI.snapshot s))
     (currentPlayer (UI.snapshot s)) = [[]]) /\
  UI.hasAnyValidMovesUI s = Game.hasAnyValidMoves s.
Proof.
  split; [done|]. split.
  - rewrite snapshot_position. apply hasAnyValidMoves_pass.
  - unfold UI.hasAnyValidMovesUI, Game.hasAnyValidMoves. cbv zeta.
    set (p := Game.position s). set (player := currentPlayer p).
    destruct (0 <? side player (bar p)) eqn:Hbar; [|done].
    rewrite !existsb_uniqueValues.
    apply eq_true_iff_eq. rewrite !existsb_exists.
    rewrite getValidMovesFromPoint_agrees. fold p player.
    unfold getValidMovesForAI. rewrite Hbar.
    rewrite bool_decide_true by done. cbn [negb andb].
    apply Z.ltb_lt in Hbar.
    destruct (Z.eqb_spec (side player (bar p)) 0); [lia|].
    split.
    + intros (d & Hd & Hlen). apply Nat.ltb_lt in Hlen.
      destruct (flat_map _ _) as [|m ms] eqn:E; [cbn in Hlen; lia|].
      assert (In m (m :: ms)) as Hm by (by left). rewrite <- E in Hm.
      apply in_flat_map in Hm as (d' & Hd' & Hm). exists d'.
      split; [done|]. rewrite canMoveToPoint_agrees. fold p.
      cbv zeta in Hm. by destruct (canMoveToPointForAI p _ player).
    + intros (d & Hd & Hcan). exists d. split; [done|].
      rewrite canMoveToPoint_agrees in Hcan. fold p in Hcan.
      apply Nat.ltb_lt.
      destruct (flat_map _ _) as [|m ms] eqn:E; [|cbn; lia].
      rewrite flat_map_nil in E. specialize (E d Hd). cbv zeta in E.
      by rewrite Hcan in E.
Qed.


(** ** Executing a move *)

Lemma find_to_Some to (l : list ValidMove) m :
  List.find (fun m => bool_decide (vm_to m = to)) l = Some m ->
  In m l /\ vm_to m = to.
Proof.
  intros H. apply find_some in H as [Hin Hto].
  split; [done|]. by apply bool_decide_eq_true in Hto.
Qed.

Lemma find_to_None to (l : list ValidMove) :
  List.find (fun m => bool_decide (vm_to m = to)) l = None <->
  forall m, In m l -> vm_to m <> to.
Proof.
  split.
  - intros H m Hm Hto. eapply find_none in H; [|done]. cbn in H.
    by rewrite bool_decide_true in H.
  - intros H. destruct (List.find _ l) as [m|] eqn:E; [|done].
    apply find_to_Some in E as [Hm Hto]. by apply H in Hm.
Qed.

(** Source and destination point determine the die. *)
Lemma oracle_die_unique gameState from dice player m m' toPoint :
  In m (getValidMovesForAI gameState from dice player) ->
  In m' (getValidMovesForAI gameState from dice player) ->
  vm_to m = ToPoint toPoint -> vm_to m' = ToPoint toPoint ->
  vm_die m = vm_die m'.
Proof.
  intros Hm Hm' Hto Hto'. destruct from as [|f].
  - apply validMove_bar in Hm as (_ & e & He & Hd & _).
    apply validMove_bar in Hm' as (_ & e' & He' & Hd' & _).
    rewrite Hto in He. rewrite Hto' in He'. simplify_eq.
    destruct player; lia.
  - apply validMove_point in Hm as (_ & _ & _ & [(He & _)|(e & He & Hd & _)]);
      [congruence|].
    apply validMove_point in Hm' as (_ & _ & _ & [(He' & _)|(e' & He' & Hd' & _)]);
      [congruence|].
    rewrite Hto in He. rewrite Hto' in He'. simplify_eq.
    destruct player; lia.
Qed.

Lemma executeMove_found from to s m :
  List.find (fun m => bool_decide (vm_to m = to))
    (Game.getValidMovesFromPoint s from) = Some m ->
  let player := currentPlayer (Game.position s) in
  let p :=
    withAvailableMoves
      (simulateMove (Game.position s) from to (vm_die m) player)
      (removeDie (vm_die m) (availableMoves (Game.position s))) in
  let gameOver := side player (bearoff p) =? 15 in
  Game.executeMove from to s
  = (Game.mkState p (Game.dice s)
       (if gameOver then Game.GAME_OVER else Game.phase s)
       (Game.moveHistory s
        ++ [Game.mkHistoryEntry player from to (vm_die m)
              (Game.formatMoveNotation from to (vm_die m))])
       (Game.selectedPoint s)
       (Game.gameHistory s ++ [Game.mkSaved (Game.position s) (Game.phase s)])
       (Game.openingRoll s) (Game.stagedMove s),
     Game.Success (if gameOver then Some player else None)).
Proof.
  intros Hfind player p gameOver. unfold Game.executeMove. rewrite Hfind.
  cbv zeta. cbn [Game.position Game.saveStateForUndo Game.dice Game.phase
                 Game.moveHistory Game.selectedPoint Game.gameHistory
                 Game.openingRoll Game.stagedMove].
  rewrite (moveChecker_agrees _ _ _ (vm_die m)).
  rewrite simulateMove_availableMoves.
  fold player. fold p. fold gameOver. by destruct gameOver.
Qed.

Lemma executeMove_accepted from s m :
  In m (Game.getValidMovesFromPoint s from) ->
  exists m',
    List.find (fun m' => bool_decide (vm_to m' = vm_to m))
      (Game.getValidMovesFromPoint s from) = Some m' /\
    In m' (Game.getValidMovesFromPoint s from) /\
    vm_to m' = vm_to m /\
    (vm_to m <> Bearoff -> vm_die m' = vm_die m).
Proof.
  intros Hm.
  destruct (List.find (fun m' => bool_decide (vm_to m' = vm_to m))
              (Game.getValidMovesFromPoint s from)) as [m'|] eqn:E.
  - apply find_to_Some in E as [Hm' Hto]. exists m'.
    split; [done|]. split; [done|]. split; [done|].
    intros Hne. destruct (vm_to m) as [|t] eqn:Ht; [done|].
    rewrite getValidMovesFromPoint_agrees in *.
    by eapply oracle_die_unique.
  - exfalso. rewrite find_to_None in E. by apply (E m).
Qed.

Lemma find_to_first to (before after : list ValidMove) m :
  (forall m', In m' before -> vm_to m' <> to) -> vm_to m = to ->
  List.find (fun m => bool_decide (vm_to m = to)) (before ++ m :: after)
  = Some m.
Proof.
  intros Hbefore Hto. induction before as [|m' before IH]; cbn [app find].
  - by rewrite bool_decide_true.
  - rewrite bool_decide_false by (apply Hbefore; by left).
    apply IH. intros m'' Hin. apply Hbefore. by right.
Qed.

(** X19. The engine refuses a move, changing nothing, when its oracle
    offers none from that source to that destination. Otherwise it moves
    the checker the way the AI's simulator does, takes the die of the
    first matching offer out of the pool, records the move with that die
    in the move history, saves the state before the move for undo, and
    reports the mover as winner, ending the game, exactly when the move
    brings the tray to fifteen. *)
Theorem executeMove_simulates s from to :
  ((forall m, In m (Game.getValidMovesFromPoint s from) -> vm_to m <> to) ->
   Game.executeMove from to s = (s, Game.Failure "Invalid move")) /\
  (forall before m after,
     Game.getValidMovesFromPoint s from = before ++ m :: after ->
     (forall m', In m' before -> vm_to m' <> to) ->
     vm_to m = to ->
     let player := currentPlayer (Game.position s) in
     let s' := (Game.executeMove from to s).1 in
     let won := side player (bearoff (Game.position s')) =? 15 in
     Game.position s'
     = withAvailableMoves
         (simulateMove (Game.position s) from to (vm_die m) player)
         (removeDie (vm_die m) (availableMoves (Game.position s))) /\
     Game.moveHistory s'
     = Game.moveHistory s
       ++ [Game.mkHistoryEntry player from to (vm_die m)
             (Game.formatMoveNotation from to (vm_die m))] /\
     Game.gameHistory s'
     = Game.gameHistory s
       ++ [Game.mkSaved (Game.position s) (Game.phase s)] /\
     Game.phase s' = (if won then Game.GAME_OVER else Game.phase s) /\
     (Game.executeMove from to s).2
     = Game.Success (if won then Some player else None)).
Proof.
  split.
  - intros Hnone. apply find_to_None in Hnone.
    unfold Game.executeMove. by rewrite Hnone.
  - intros before m after Hoffers Hbefore Hto.
    pose proof (find_to_first to before after m Hbefore Hto) as Hfind.
    rewrite <- Hoffers in Hfind.
    rewrite (executeMove_found _ _ _ _ Hfind). cbv zeta.
    cbn [fst snd Game.position Game.gameHistory Game.moveHistory
         Game.phase].
    by repeat split.
Qed.

(** The first matching offer decides the die: with the pool [[6; 3]] and
    the last checker on point 3, the engine bears it off with the 6 and
    leaves the 3. *)
Lemma executeMove_first_offer :
  let s :=
    Game.mkState
      {| board := boardOf [(3, Player2, 1); (19, Player1, 15)];
         bar := mkSides 0 0; bearoff := mkSides 0 14;
         currentPlayer := Player2; availableMoves := [6; 3] |}
      [6; 3] Game.MOVE [] None [] (None, None) (None, None) in
  Game.getValidMovesFromPoint s (FromPoint 3)
  = [mkValidMove Bearoff 6; mkValidMove Bearoff 3] /\
  availableMoves (Game.position (Game.executeMove (FromPoint 3) Bearoff s).1)
  = [3] /\
  (Game.executeMove (FromPoint 3) Bearoff s).2
  = Game.Success (Some Player2).
Proof. vm_compute. by repeat split. Qed.

(** ** Undoing a move *)

Lemma last_snoc {A} (l : list A) (x d : A) : List.last (l ++ [x]) d = x.
Proof. apply last_last. Qed.

(** X20. Undoing a move right after the engine executed it restores board,
    bar, tray, dice left, player, phase, move history and undo history of
    the state it was executed in; only the selected point is cleared. *)
Theorem undoMove_restores s from to winner :
  (Game.executeMove from to s).2 = Game.Success winner ->
  Game.undoMove (Game.executeMove from to s).1
  = (Game.mkState (Game.position s) (Game.dice s) (Game.phase s)
       (Game.moveHistory s) None (Game.gameHistory s) (Game.openingRoll s)
       (Game.stagedMove s),
     Game.Success None).
Proof.
  intros Hok.
  destruct (List.find (fun m => bool_decide (vm_to m = to))
              (Game.getValidMovesFromPoint s from)) as [m|] eqn:E.
  - rewrite (executeMove_found _ _ _ _ E). cbv zeta. cbn [fst].
    unfold Game.undoMove.
    cbn [Game.gameHistory Game.position Game.dice Game.moveHistory
         Game.openingRoll Game.stagedMove].
    destruct (Game.gameHistory s ++ [_]) as [|first others] eqn:Eh.
    { by apply app_eq_nil in Eh as [_ ?]. }
    assert (List.last others first
            = Game.mkSaved (Game.position s) (Game.phase s)) as ->.
    { destruct (Game.gameHistory s) as [|a l]; cbn in Eh;
        injection Eh as <- <-; [done|apply last_last]. }
    rewrite <- Eh. rewrite !removelast_last. done.
  - unfold Game.executeMove in Hok. by rewrite E in Hok.
Qed.

Lemma undoMove_restores_witness :
  Game.position
    (Game.undoMove
       (Game.executeMove (FromPoint 1) (ToPoint 4)
          (Game.rollDice 3 1 Game.initializeGame).1).1).1
  = Game.position (Game.rollDice 3 1 Game.initializeGame).1.
Proof.
  rewrite (undoMove_restores (Game.rollDice 3 1 Game.initializeGame).1
             (FromPoint 1) (ToPoint 4) None); [reflexivity|].
  vm_compute. reflexivity.
Defined.


(** ** What every game keeps *)

Lemma totalCheckers_samePosition s1 s2 player :
  samePosition s1 s2 -> totalCheckers s1 player = totalCheckers s2 player.
Proof.
  intros (Hb & Hr & Ho). unfold totalCheckers, onBoard.
  by rewrite Hb, Hr, Ho.
Qed.

Lemma soundPosition_samePosition s1 s2 :
  samePosition s1 s2 -> soundPosition s1 -> soundPosition s2.
Proof.
  intros Hsame [Hcons Hcs]. split.
  - intros player. rewrite <- (totalCheckers_samePosition _ _ _ Hsame).
    apply Hcons.
  - destruct Hsame as (Hb & Hr & Ho). destruct Hcs as [Hlen Hpts Hbar Hoff].
    split; rewrite <- ?Hb, <- ?Hr, <- ?Ho; done.
Qed.

Lemma soundPosition_move p from m :
  soundPosition p -> onBoardSource from ->
  In m (getValidMovesForAI p from (availableMoves p) (currentPlayer p)) ->
  forall die dice,
    soundPosition
      (withAvailableMoves
         (simulateMove p from (vm_to m) die (currentPlayer p)) dice).
Proof.
  intros [Hcons Hcs] Hfrom Hm die dice.
  apply (soundPosition_samePosition
           (simulateMove p from (vm_to m) (vm_die m) (currentPlayer p))).
  { done. }
  split.
  - intros q. erewrite simulateMove_total; eauto. apply Hcs.
  - by eapply simulateMove_consistent.
Qed.

Lemma engineSound_executeMove from to s :
  onBoardSource from -> engineSound s ->
  engineSound (Game.executeMove from to s).1.
Proof.
  intros Hfrom (Hpos & Hhist & Hstaged).
  destruct (List.find (fun m => bool_decide (vm_to m = to))
              (Game.getValidMovesFromPoint s from)) as [m|] eqn:E.
  - rewrite (executeMove_found _ _ _ _ E). cbv zeta. cbn [fst].
    apply find_to_Some in E as [Hm <-].
    split; [|split]; cbn [Game.position Game.gameHistory Game.stagedMove].
    + by apply soundPosition_move.
    + apply Forall_app. split; [done|]. by apply Forall_singleton.
    + done.
  - unfold Game.executeMove. by rewrite E.
Qed.

Lemma engineSound_switchPlayer s :
  engineSound s -> engineSound (Game.switchPlayer s).
Proof.
  intros (Hpos & _ & _). split; [|split]; [|constructor|done].
  by apply (soundPosition_samePosition (Game.position s)).
Qed.

Lemma engineSound_rollDice r1 r2 s :
  engineSound s -> engineSound (Game.rollDice r1 r2 s).1.
Proof.
  intros (Hpos & Hhist & Hstaged). unfold Game.rollDice.
  case_bool_decide as Hopening.
  - cbv zeta. destruct (r1 =? r2); [done|].
    match goal with |- context [Game.hasAnyValidMoves ?s'] =>
      assert (engineSound s') as Hs' end.
    { split; [|split]; cbn [Game.position Game.gameHistory Game.stagedMove
                             Game.saveStateForUndo]; [| |done].
      - by apply (soundPosition_samePosition (Game.position s)).
      - apply Forall_app. split; [done|]. apply Forall_singleton. cbn.
        by apply (soundPosition_samePosition (Game.position s)). }
    destruct (negb _); [by apply engineSound_switchPlayer|done].
  - destruct (negb (bool_decide (Game.phase s = Game.ROLL))); [done|].
    cbv zeta.
    match goal with |- context [Game.hasAnyValidMoves ?s'] =>
      assert (engineSound s') as Hs' end.
    { split; [|split]; cbn [Game.position Game.gameHistory Game.stagedMove
                             Game.saveStateForUndo]; [| |done].
      - by apply (soundPosition_samePosition (Game.position s)).
      - apply Forall_app. split; [done|]. apply Forall_singleton. cbn.
        by apply (soundPosition_samePosition (Game.position s)). }
    destruct (negb _); [by apply engineSound_switchPlayer|done].
Qed.

Lemma Forall_removelast {A} (P : A -> Prop) l :
  Forall P l -> Forall P (removelast l).
Proof.
  induction 1 as [|x l Hx Hl IH]; [done|]. cbn.
  destruct l; [constructor|]. by constructor.
Qed.

Lemma Forall_last {A} (P : A -> Prop) l d :
  P d -> Forall P l -> P (List.last l d).
Proof.
  intros Hd. induction 1 as [|x l Hx Hl IH]; [done|]. cbn.
  destruct l; [done|]. exact IH.
Qed.

Lemma engineSound_undoMove s :
  engineSound s -> engineSound (Game.undoMove s).1.
Proof.
  intros Hs. pose proof Hs as (Hpos & Hhist & Hstaged). unfold Game.undoMove.
  destruct (Game.gameHistory s) as [|first others] eqn:E; [exact Hs|].
  cbn [fst]. split; [|split];
    cbn [Game.position Game.gameHistory Game.stagedMove]; [| |done].
  - apply Forall_cons in Hhist as [Hfirst Hothers].
    by apply (Forall_last (fun saved => soundPosition (Game.saved_position saved))).
  - by apply Forall_removelast.
Qed.

Lemma engineSound_call c s :
  callOnBoard c -> engineSound s -> engineSound (Game.call c s).
Proof.
  intros Hc Hs. destruct c; cbn [Game.call callOnBoard] in *.
  - split; [|split]; [|constructor|done].
    split; [intros []; vm_compute; reflexivity|].
    by apply consistentb_correct.
  - by apply engineSound_rollDice.
  - by apply engineSound_executeMove.
  - destruct Hs as (Hpos & Hhist & Hstaged). unfold Game.stageMove.
    destruct (List.find _ _); [|done]. by split.
  - unfold Game.confirmMove.
    destruct (Game.stagedMove s) as [[from'|] [to'|]] eqn:E;
      try done.
    assert (onBoardSource from') as Hfrom.
    { destruct Hs as (_ & _ & Hstaged). by rewrite E in Hstaged. }
    pose proof (engineSound_executeMove from' to' s Hfrom Hs) as Hs'.
    destruct (Game.executeMove from' to' s) as [s' [msg|winner]]; [done|].
    cbn [fst] in *. destruct Hs' as (? & ? & ?). by split.
  - destruct Hs as (? & ? & ?). by split.
  - by apply engineSound_undoMove.
  - destruct Hs as (? & ? & ?). by split.
  - destruct Hs as (? & ? & ?). by split.
  - by apply engineSound_switchPlayer.
Qed.

(** X21. Whatever calls are made on a new game (rolls with any outcome,
    moves, staging, confirming, undo, end of turn, selection), with
    sources on the board, every side keeps exactly fifteen checkers, every
    point has an owner exactly when it holds a checker, and the same holds
    for every state saved for undo. *)
Theorem engine_keeps_checkers calls :
  Forall callOnBoard calls ->
  conserved (Game.position (Game.play calls)) /\
  consistent (Game.position (Game.play calls)) /\
  Forall (fun saved =>
            conserved (Game.saved_position saved) /\
            consistent (Game.saved_position saved))
         (Game.gameHistory (Game.play calls)).
Proof.
  intros Hcalls.
  assert (engineSound (Game.play calls)) as ([? ?] & ? & _); [|done].
  unfold Game.play.
  assert (engineSound Game.initializeGame) as Hinit.
  { apply (engineSound_call Game.CallInitializeGame Game.initializeGame);
      [done|].
    split; [|split]; [|constructor|done].
    split; [intros []; vm_compute; reflexivity|].
    by apply consistentb_correct. }
  revert Hinit. generalize Game.initializeGame.
  induction Hcalls as [|c calls Hc Hcalls IH]; intros s Hs; [done|].
  cbn [fold_left]. apply IH. by apply engineSound_call.
Qed.

Lemma engine_keeps_checkers_witness :
  conserved
    (Game.position
       (Game.play [Game.CallRollDice 3 1;
                   Game.CallExecuteMove (FromPoint 1) (ToPoint 4)])).
Proof.
  apply (engine_keeps_checkers
           [Game.CallRollDice 3 1;
            Game.CallExecuteMove (FromPoint 1) (ToPoint 4)]).
  apply Forall_cons. split; [exact I|].
  apply Forall_cons. split; [cbn; lia|constructor].
Defined.


(** ** The controller plays what the AI chose *)

Lemma simulateMove_currentPlayer gameState from to die player :
  currentPlayer (simulateMove gameState from to die player)
  = currentPlayer gameState.
Proof.
  unfold simulateMove, cloneState. destruct from, to; try done;
    unfold landChecker; by repeat (case_bool_decide || destruct (_ && _)).
Qed.

Lemma samePosition_eq s1 s2 :
  samePosition s1 s2 -> currentPlayer s1 = currentPlayer s2 ->
  availableMoves s1 = availableMoves s2 -> s1 = s2.
Proof.
  destruct s1, s2. unfold samePosition. cbn. intros (-> & -> & ->) -> ->. done.
Qed.

Lemma simulateMove_withAvailableMoves p dice from to die player :
  simulateMove (withAvailableMoves p dice) from to die player
  = withAvailableMoves (simulateMove p from to die player) dice.
Proof.
  apply samePosition_eq.
  - eapply samePosition_trans;
      [apply simulateMove_samePosition, samePosition_withAvailableMoves|].
    apply samePosition_sym, samePosition_withAvailableMoves.
  - rewrite simulateMove_currentPlayer. cbn [currentPlayer withAvailableMoves].
    by rewrite simulateMove_currentPlayer.
  - by rewrite simulateMove_availableMoves.
Qed.

Lemma sumPoints_nonneg f b idx :
  (forall i, In i idx -> 0 <= f (pointAt b i)) -> 0 <= sumPoints f b idx.
Proof.
  unfold sumPoints. induction idx as [|i idx IH]; intros H; cbn; [lia|].
  assert (0 <= f (pointAt b i)) by (apply H; by left).
  assert (0 <= foldr (fun i acc => f (pointAt b i) + acc) 0 idx); [|lia].
  apply IH. intros. apply H. by right.
Qed.

(** A side that can move has not borne off all its checkers. *)
Lemma mover_in_play p source dice player m :
  soundPosition p -> onBoardSource source ->
  In m (getValidMovesForAI p source dice player) ->
  side player (bearoff p) < 15.
Proof.
  intros [Hcons [Hlen Hpts Hbar Hoff]] Hsrc Hm.
  specialize (Hcons player). unfold totalCheckers, onBoard in Hcons.
  assert (Hterm : forall i, In i (rangeUp 1 24) ->
            0 <= checkersOf player (pointAt (board p) i)).
  { intros i Hi. apply In_rangeUp in Hi. unfold checkersOf.
    case_bool_decide; [|done]. destruct (Hpts i Hi) as [[_ ->]|[_ ?]]; lia. }
  pose proof (sumPoints_nonneg _ _ _ Hterm) as Hsum.
  pose proof (Hbar player) as Hb.
  destruct source as [|f].
  - apply validMove_bar in Hm as [Hnz _]. lia.
  - cbn in Hsrc. apply validMove_point in Hm as (_ & Hown & Hnz & _).
    assert (sumPoints (checkersOf player) (board p) (rangeUp 1 24) <> 0);
      [|lia].
    intros Hzero. rewrite sumPoints_zero in Hzero by done.
    specialize (Hzero f). unfold checkersOf in Hzero.
    rewrite Hown, bool_decide_true in Hzero by done.
    apply Hnz, Hzero. apply list_elem_of_In, elem_of_rangeUp. done.
Qed.

Lemma executeNextMove_Generated player : forall p dice seq,
  Generated player p dice seq ->
  forall s,
    Game.position s = withAvailableMoves p dice ->
    currentPlayer p = player ->
    soundPosition p ->
    Forall (fun move => move_to move <> Bearoff) seq ->
    exists s',
      UI.executeNextMove seq s = (s', UI.AllPlayed) /\
      Game.position s'
      = withAvailableMoves (fst (replay p dice seq player))
                           (snd (replay p dice seq player)).
Proof.
  induction 1 as [p dice Hnone | p dice source m rest Hsrc Hm _ IH];
    intros s Hpos Hplayer Hsound Hpoints.
  { exists s. done. }
  apply Forall_cons in Hpoints as [Hpoint Hpoints].
  cbn [move_to] in Hpoint.
  pose proof (sourcePoints_onBoard _ _ _ Hsrc) as Hon.
  assert (Game.getValidMovesFromPoint s source
          = getValidMovesForAI p source dice player) as Hvalid.
  { rewrite getValidMovesFromPoint_agrees, Hpos. cbn [availableMoves
      currentPlayer withAvailableMoves]. rewrite Hplayer.
    apply getValidMovesForAI_samePosition, samePosition_withAvailableMoves. }
  destruct (executeMove_accepted source s m) as (m' & Hfind & _ & Hto & Hdie);
    [by rewrite Hvalid|].
  specialize (Hdie Hpoint).
  cbn [UI.executeNextMove move_from move_to move_die replay].
  rewrite <- Hto in Hfind.
  rewrite Hto in Hfind.
  rewrite (executeMove_found _ _ _ _ Hfind). cbv zeta.
  rewrite Hpos. cbn [availableMoves currentPlayer withAvailableMoves].
  rewrite Hplayer, Hdie, simulateMove_withAvailableMoves.
  cbn [bearoff withAvailableMoves].
  set (p' := simulateMove p source (vm_to m) (vm_die m) player).
  assert (side player (bearoff p') = side player (bearoff p)) as Hoff.
  { destruct (simulateMove_untouched p source dice player m)
      as (_ & _ & Hoff & _); [apply Hsound|done|done|].
    fold p' in Hoff. rewrite Hoff. rewrite decide_False by done. lia. }
  pose proof (mover_in_play p source dice player m Hsound Hon Hm) as Hplay.
  destruct (Z.eqb_spec (side player (bearoff p')) 15) as [E|_]; [lia|].
  match goal with |- context [UI.executeNextMove rest ?s1] =>
    destruct (IH s1) as (s' & Hloop & Hfinal) end.
  - done.
  - subst p'. by rewrite simulateMove_currentPlayer.
  - subst p'. destruct Hsound as [Hcons Hcs]. split.
    + intros q. erewrite simulateMove_total; eauto. apply Hcs.
    + by eapply simulateMove_consistent.
  - done.
  - exists s'. done.
Qed.

(** X22. When the controller plays a sequence the AI generated from the
    engine's snapshot, and the sequence bears no checker off, the engine
    accepts every move of it and ends in the position the AI's replay of
    the sequence predicts, with the dice the replay leaves. *)
Theorem controller_plays_sequence s seq :
  conserved (Game.position s) -> consistent (Game.position s) ->
  In seq (generateAllMoveSequences (UI.snapshot s)
            (availableMoves (UI.snapshot s)) (currentPlayer (UI.snapshot s))) ->
  Forall (fun move => move_to move <> Bearoff) seq ->
  exists s',
    UI.executeNextMove seq s = (s', UI.AllPlayed) /\
    Game.position s'
    = withAvailableMoves
        (fst (replay (Game.position s) (availableMoves (Game.position s)) seq
                (currentPlayer (Game.position s))))
        (snd (replay (Game.position s) (availableMoves (Game.position s)) seq
                (currentPlayer (Game.position s)))).
Proof.
  intros Hcons Hcs Hin Hpoints. rewrite snapshot_position in Hin.
  apply generateAllMoveSequences_Generated in Hin.
  eapply executeNextMove_Generated; try done.
  by destruct (Game.position s).
Qed.

Lemma controller_plays_sequence_witness :
  exists s',
    UI.executeNextMove
      [mkMove (FromPoint 1) (ToPoint 4) 3; mkMove (FromPoint 4) (ToPoint 5) 1]
      (Game.rollDice 3 1 Game.initializeGame).1 = (s', UI.AllPlayed).
Proof.
  destruct (controller_plays_sequence
              (Game.rollDice 3 1 Game.initializeGame).1
              [mkMove (FromPoint 1) (ToPoint 4) 3;
               mkMove (FromPoint 4) (ToPoint 5) 1]) as (s' & H & _).
  - intros []; vm_compute; reflexivity.
  - apply consistentb_correct. vm_compute. reflexivity.
  - apply list_elem_of_In, (bool_decide_eq_true_1 _). vm_compute. reflexivity.
  - repeat constructor; by intros [=].
  - by exists s'.
Defined.


(** ** Staging and confirming *)

Lemma executeMove_staged from to s staged :
  Game.executeMove from to
    (Game.mkState (Game.position s) (Game.dice s) (Game.phase s)
       (Game.moveHistory s) (Game.selectedPoint s) (Game.gameHistory s)
       (Game.openingRoll s) staged)
  = (let s' := (Game.executeMove from to s).1 in
     match (Game.executeMove from to s).2 with
     | Game.Failure _ =>
         Game.mkState (Game.position s) (Game.dice s) (Game.phase s)
           (Game.moveHistory s) (Game.selectedPoint s) (Game.gameHistory s)
           (Game.openingRoll s) staged
     | Game.Success _ =>
         Game.mkState (Game.position s') (Game.dice s') (Game.phase s')
           (Game.moveHistory s') (Game.selectedPoint s') (Game.gameHistory s')
           (Game.openingRoll s') staged
     end,
     (Game.executeMove from to s).2).
Proof.
  unfold Game.executeMove. cbv zeta.
  change (Game.getValidMovesFromPoint (Game.mkState _ _ _ _ _ _ _ staged) from)
    with (Game.getValidMovesFromPoint s from).
  destruct (List.find _ _) as [m|]; [|done].
  cbn [Game.position Game.saveStateForUndo Game.dice Game.phase
       Game.moveHistory Game.selectedPoint Game.gameHistory Game.openingRoll
       Game.stagedMove].
  by destruct (_ =? 15).
Qed.

(** X23. Confirming a move that was staged successfully succeeds and has
    the effect of executing it directly, after which the staged move is
    cleared. *)
Theorem confirmMove_executes from to s :
  (Game.stageMove from to s).2 = Game.Success None ->
  exists winner,
    (Game.executeMove from to s).2 = Game.Success winner /\
    Game.confirmMove (Game.stageMove from to s).1
    = (Game.clearStagedMove (Game.executeMove from to s).1,
       Game.Success winner).
Proof.
  unfold Game.stageMove. cbv zeta.
  destruct (List.find (fun m => bool_decide (vm_to m = to))
              (Game.getValidMovesFromPoint s from)) as [m|] eqn:E; [|done].
  intros _. cbn [fst]. unfold Game.confirmMove. cbn [Game.stagedMove].
  rewrite executeMove_staged. rewrite (executeMove_found _ _ _ _ E).
  cbv zeta. cbn [fst snd]. eexists. split; [done|]. done.
Qed.

Lemma confirmMove_executes_witness :
  exists winner,
    (Game.executeMove (FromPoint 1) (ToPoint 4)
       (Game.rollDice 3 1 Game.initializeGame).1).2 = Game.Success winner.
Proof.
  destruct (confirmMove_executes (FromPoint 1) (ToPoint 4)
              (Game.rollDice 3 1 Game.initializeGame).1) as (winner & H & _).
  - vm_compute. reflexivity.
  - by exists winner.
Defined.

(** ** Turns *)

(** X24. A regular roll leaves the checkers where they are. It passes the
    turn (other player, phase ROLL, no dice, empty undo history) exactly
    when the AI's generator finds no play for the dice rolled; otherwise
    the roller is in phase MOVE with the rolled pool, and one undo
    succeeds there that changes nothing but the move history, which loses
    its last entry. After the end of a turn there is nothing to undo. *)
Theorem rollDice_turn r1 r2 s :
  Game.phase s = Game.ROLL ->
  let pool := if r1 =? r2 then [r1; r1; r1; r1] else [r1; r2] in
  let player := currentPlayer (Game.position s) in
  let rolled := (Game.rollDice r1 r2 s).1 in
  samePosition (Game.position rolled) (Game.position s) /\
  (generateAllMoveSequences (Game.position s) pool player = [[]] ->
   (Game.rollDice r1 r2 s).2 = Game.Rolled r1 r2 true /\
   currentPlayer (Game.position rolled) = opponentOf player /\
   Game.phase rolled = Game.ROLL /\
   availableMoves (Game.position rolled) = [] /\
   Game.gameHistory rolled = []) /\
  (generateAllMoveSequences (Game.position s) pool player <> [[]] ->
   (Game.rollDice r1 r2 s).2 = Game.Rolled r1 r2 false /\
   currentPlayer (Game.position rolled) = player /\
   Game.phase rolled = Game.MOVE /\
   availableMoves (Game.position rolled) = pool /\
   Game.undoMove rolled
   = (Game.mkState (Game.position rolled) (Game.dice rolled) Game.MOVE
        (removelast (Game.moveHistory s)) None (Game.gameHistory s)
        (Game.openingRoll s) (Game.stagedMove s),
      Game.Success None)) /\
  Game.undoMove (Game.endTurn s).1
  = ((Game.endTurn s).1, Game.Failure "No moves to undo").
Proof.
  intros Hphase pool player rolled. subst rolled. unfold Game.rollDice.
  rewrite Hphase.
  rewrite (bool_decide_false (Game.ROLL = Game.OPENING_ROLL)) by done.
  rewrite (bool_decide_true (Game.ROLL = Game.ROLL)) by done.
  cbn [negb]. cbv zeta. fold pool.
  match goal with |- context [negb (Game.hasAnyValidMoves ?s')] =>
    set (s1 := s') end.
  assert (Hpass : Game.hasAnyValidMoves s1 = false <->
                  generateAllMoveSequences (Game.position s) pool player
                  = [[]]).
  { rewrite hasAnyValidMoves_pass. subst s1.
    cbn [Game.position Game.saveStateForUndo availableMoves currentPlayer].
    fold player.
    by rewrite (generateAllMoveSequences_samePosition _ (Game.position s)). }
  destruct (Game.hasAnyValidMoves s1) eqn:Hmoves; cbn [negb fst snd].
  - split; [done|]. split; [|split; [|done]].
    + intros Hgen. apply Hpass in Hgen. done.
    + intros _. split; [done|]. split; [done|]. split; [done|].
      split; [done|].
      unfold Game.undoMove. subst s1.
      cbn [Game.gameHistory Game.saveStateForUndo Game.position
           Game.dice Game.phase Game.moveHistory Game.openingRoll
           Game.stagedMove].
      destruct (Game.gameHistory s ++ [_]) as [|first others] eqn:Eh.
      { by apply app_eq_nil in Eh as [_ ?]. }
      match type of Eh with _ ++ [?x] = _ =>
        assert (List.last others first = x) as -> end.
      { destruct (Game.gameHistory s) as [|a l]; cbn in Eh;
          injection Eh as <- <-; [done|apply last_last]. }
      rewrite <- Eh, removelast_last. done.
  - split; [done|]. split; [|split; [|done]].
    + intros _. done.
    + intros Hgen. exfalso. apply Hgen, Hpass. done.
Qed.

Lemma rollDice_turn_witness :
  Game.phase
    (Game.rollDice 6 2
       (Game.endTurn (Game.rollDice 3 1 Game.initializeGame).1).1).1
  = Game.MOVE.
Proof.
  pose proof (rollDice_turn 6 2
                (Game.endTurn (Game.rollDice 3 1 Game.initializeGame).1).1
                eq_refl) as H.
  cbv zeta in H. destruct H as (_ & _ & H & _).
  destruct H as (_ & _ & H & _); [|exact H].
  apply (bool_decide_eq_false_1 _). vm_compute. reflexivity.
Defined.

(** ** The opening roll *)

Lemma opening_roll_has_play r1 r2 player :
  1 <= r1 <= 6 -> 1 <= r2 <= 6 -> r1 <> r2 ->
  generateAllMoveSequences (openingState []) [r1; r2] player <> [[]].
Proof.
  intros H1 H2 Hne.
  assert (r1 = 1 \/ r1 = 2 \/ r1 = 3 \/ r1 = 4 \/ r1 = 5 \/ r1 = 6)
    as H1' by lia.
  assert (r2 = 1 \/ r2 = 2 \/ r2 = 3 \/ r2 = 4 \/ r2 = 5 \/ r2 = 6)
    as H2' by lia.
  clear H1 H2.
  repeat (destruct H1' as [->|H1']; [|]); try subst r1;
    repeat (destruct H2' as [->|H2']; [|]); try subst r2; try done;
    destruct player;
    apply (bool_decide_eq_false_1 _); vm_compute; reflexivity.
Qed.

(** X25. On the opening position with two dice between 1 and 6, an opening
    roll records both dice and moves no checker. A tie changes nothing
    else and the next roll is an opening roll again; otherwise the side
    with the higher die is on roll in phase MOVE with both dice to play,
    and the turn is never passed: every such roll has a play. *)
Theorem rollDice_opening r1 r2 s :
  Game.phase s = Game.OPENING_ROLL ->
  samePosition (Game.position s) (Game.position Game.initializeGame) ->
  1 <= r1 <= 6 -> 1 <= r2 <= 6 ->
  let rolled := (Game.rollDice r1 r2 s).1 in
  Game.openingRoll rolled = (Some r1, Some r2) /\
  samePosition (Game.position rolled) (Game.position s) /\
  (r1 = r2 ->
   (Game.rollDice r1 r2 s).2 = Game.OpeningTied r1 r2 /\
   Game.phase rolled = Game.OPENING_ROLL /\
   Game.position rolled = Game.position s /\
   Game.gameHistory rolled = Game.gameHistory s) /\
  (r1 <> r2 ->
   let starter := if r2 <? r1 then Player1 else Player2 in
   (Game.rollDice r1 r2 s).2 = Game.OpeningRolled r1 r2 starter false /\
   Game.phase rolled = Game.MOVE /\
   currentPlayer (Game.position rolled) = starter /\
   availableMoves (Game.position rolled) = [r1; r2] /\
   Game.dice rolled = [r1; r2]).
Proof.
  intros Hphase Hpos H1 H2 rolled. subst rolled. unfold Game.rollDice.
  rewrite Hphase.
  rewrite (bool_decide_true (Game.OPENING_ROLL = Game.OPENING_ROLL)) by done.
  cbv zeta.
  cbn [Game.position Game.dice Game.phase Game.moveHistory
       Game.selectedPoint Game.gameHistory Game.openingRoll Game.stagedMove].
  destruct (Z.eqb_spec r1 r2) as [Heq|Hne].
  { cbn [fst snd Game.position Game.phase Game.openingRoll
         Game.gameHistory].
    split; [done|]. split; [by repeat split|]. split; [done|].
    by intros Hne. }
  match goal with |- context [negb (Game.hasAnyValidMoves ?s')] =>
    set (s1 := s') end.
  assert (Hmoves : Game.hasAnyValidMoves s1 = true).
  { destruct (Game.hasAnyValidMoves s1) eqn:E; [done|].
    apply hasAnyValidMoves_pass in E. exfalso. revert E. subst s1.
    cbn [Game.position Game.saveStateForUndo availableMoves currentPlayer].
    rewrite (generateAllMoveSequences_samePosition _ (openingState [])).
    - by apply opening_roll_has_play.
    - destruct Hpos as (Hb & Hbar & Hoff). by repeat split. }
  rewrite Hmoves. cbn [negb fst snd]. subst s1.
  cbn [Game.position Game.saveStateForUndo Game.phase Game.openingRoll
       Game.dice availableMoves currentPlayer].
  split; [done|]. split; [by repeat split|]. split; [done|]. by intros _.
Qed.

Lemma rollDice_opening_witness :
  Game.phase (Game.rollDice 3 1 Game.initializeGame).1 = Game.MOVE.
Proof.
  pose proof (rollDice_opening 3 1 Game.initializeGame eq_refl) as H.
  cbv zeta in H.
  destruct H as (_ & _ & _ & H); [by repeat split|lia|lia|].
  destruct H as (_ & H & _); [done|exact H].
Defined.
